(** * Chipmunk-ts: constraint solver and dynamic bounding-box tree

    A shallow embedding of the joint classes under [src/constraints]
    (pin, gear, groove, ratchet and rotary-limit joints) and of the
    [BBTree] spatial index, followed by the properties proved of them.

    Numbers.  The joints compute with JavaScript numbers.  They are
    embedded as exact rationals [Q]: every operation the solver performs
    (sums, products, quotients, [Math.min], [Math.max], [Math.abs],
    [Math.floor], comparisons) is the exact one, and the test [!x] on a
    number is the test [x == 0].  Where the source relies on [Infinity]
    and [NaN] (the zero-length pin joint, the segment query) the numbers
    are the extended rationals [xnum] of module [XNum].  Where rounding
    decides a property (the impulse bound) the joints are embedded once
    more in module [Doubles], on binary64 numbers. *)

From Stdlib Require Import QArith Qminmax Qabs Qround Lqa Lia ZArith List Bool.
From Stdlib Require Floats.
From stdpp Require Import base option list gmap sorting strings.

Open Scope Q_scope.

(** ** Vectors and bodies *)

Record Vect : Type := mkVect { x : Q; y : Q }.

Definition vzero : Vect := mkVect 0 0.

(** The fields of a body that the joints read or write ([body.ts] is
    imported by every joint).  [w] is the angular velocity, [a] the angle,
    [i] the moment of inertia and [i_inv] its inverse; the ratchet joint
    calls the latter [inertiaInv]. *)
Record Body : Type := mkBody {
  p : Vect;
  rot : Vect;
  v : Vect;
  w : Q;
  a : Q;
  m_inv : Q;
  i : Q;
  i_inv : Q
}.

Definition set_w (b : Body) (w' : Q) : Body :=
  mkBody (p b) (rot b) (v b) w' (a b) (m_inv b) (i b) (i_inv b).

(** The tunable parameters every [Constraint] carries. *)
Record Params : Type := mkParams {
  maxForce : Q;
  maxBias : Q;
  errorBias : Q
}.

(** [clamp] is imported from [../util], which is not among the sources;
    it limits [f] to the interval from [lo] to [hi] as
    [Math.min(Math.max(f, lo), hi)]. *)
Definition clamp (f lo hi : Q) : Q := Qmin (Qmax f lo) hi.

(** The helpers the joints import from [./util] and [../vect].  Those two
    files are not among the sources, so the helpers are an interface the
    joints are written against. *)
Class Helpers : Type := {
  bias_coef : Q -> Q -> Q;
  k_scalar : Body -> Body -> Vect -> Vect -> Vect -> Q;
  normal_relative_velocity : Body -> Body -> Vect -> Vect -> Vect -> Q;
  relativeVelocity : Body -> Body -> Vect -> Vect -> Vect;
  apply_impulses : Body -> Body -> Vect -> Vect -> Q -> Q -> Body * Body;
  kTensor : Body -> Body -> Vect -> Vect -> Vect * Vect;
  multK : Vect -> Vect -> Vect -> Vect;
  local2World : Body -> Vect -> Vect;
  vadd : Vect -> Vect -> Vect;
  vsub : Vect -> Vect -> Vect;
  vmult : Vect -> Q -> Vect;
  vdot : Vect -> Vect -> Q;
  vcross : Vect -> Vect -> Q;
  vperp : Vect -> Vect;
  vrotate : Vect -> Vect -> Vect;
  vlength : Vect -> Q;
  vproject : Vect -> Vect -> Vect;
  vnormalize : Vect -> Vect;
  vclamp : Vect -> Q -> Vect
}.

(** [!x] for a number [x]. *)
Definition falsy (q : Q) : bool := Qeq_bool q 0.

(** ** GearJoint ([gear-joint.ts]) *)

Module GearJoint.

Record t : Type := mk {
  params : Params;
  phase : Q;
  ratio : Q;
  ratio_inv : Q;
  jAcc : Q;
  iSum : Q;
  bias : Q;
  jMax : Q
}.

Definition new (ps : Params) (phase ratio : Q) : t :=
  mk ps phase ratio (1 / ratio) 0 0 0 0.

Definition preStep `{Helpers} (j : t) (ba bb : Body) (dt : Q) : t :=
  let iSum' := 1 / (i_inv ba * ratio_inv j + ratio j * i_inv bb) in
  let maxBias := maxBias (params j) in
  let bias' :=
    clamp (- bias_coef (errorBias (params j)) dt
             * (a bb * ratio j - a ba - phase j) / dt)
          (- maxBias) maxBias in
  let jMax' := maxForce (params j) * dt in
  mk (params j) (phase j) (ratio j) (ratio_inv j) (jAcc j) iSum' bias' jMax'.

Definition applyCachedImpulse (j : t) (ba bb : Body) (dt_coef : Q)
  : Body * Body :=
  let jj := jAcc j * dt_coef in
  (set_w ba (w ba - jj * i_inv ba * ratio_inv j),
   set_w bb (w bb + jj * i_inv bb)).

Definition applyImpulse (j : t) (ba bb : Body) : t * Body * Body :=
  let wr := w bb * ratio j - w ba in
  let j0 := (bias j - wr) * iSum j in
  let jOld := jAcc j in
  let jAcc' := clamp (jOld + j0) (- jMax j) (jMax j) in
  let j1 := jAcc' - jOld in
  (mk (params j) (phase j) (ratio j) (ratio_inv j) jAcc' (iSum j) (bias j)
      (jMax j),
   set_w ba (w ba - j1 * i_inv ba * ratio_inv j),
   set_w bb (w bb + j1 * i_inv bb)).

Definition getImpulse (j : t) : Q := Qabs (jAcc j).

End GearJoint.

(** ** RotaryLimitJoint ([rotary-limit-joint.ts]) *)

Module RotaryLimitJoint.

Record t : Type := mk {
  params : Params;
  min : Q;
  max : Q;
  jAcc : Q;
  iSum : Q;
  bias : Q;
  jMax : Q
}.

Definition new (ps : Params) (min max : Q) : t := mk ps min max 0 0 0 0.

Definition preStep `{Helpers} (j : t) (ba bb : Body) (dt : Q) : t :=
  let dist := a bb - a ba in
  let pdist :=
    if Qlt_le_dec (max j) dist then max j - dist
    else if Qlt_le_dec dist (min j) then min j - dist
    else 0 in
  let iSum' := 1 / (1 / i ba + 1 / i bb) in
  let maxBias := maxBias (params j) in
  let bias' :=
    clamp (- bias_coef (errorBias (params j)) dt * pdist / dt)
          (- maxBias) maxBias in
  let jMax' := maxForce (params j) * dt in
  let jAcc' := if falsy bias' then 0 else jAcc j in
  mk (params j) (min j) (max j) jAcc' iSum' bias' jMax'.

Definition applyCachedImpulse (j : t) (ba bb : Body) (dt_coef : Q)
  : Body * Body :=
  let jj := jAcc j * dt_coef in
  (set_w ba (w ba - jj * i_inv ba), set_w bb (w bb + jj * i_inv bb)).

Definition applyImpulse (j : t) (ba bb : Body) : t * Body * Body :=
  if falsy (bias j) then (j, ba, bb)
  else
    let wr := w bb - w ba in
    let j0 := - (bias j + wr) * iSum j in
    let jOld := jAcc j in
    let jAcc' :=
      if Qlt_le_dec (bias j) 0 then clamp (jOld + j0) 0 (jMax j)
      else clamp (jOld + j0) (- jMax j) 0 in
    let j1 := jAcc' - jOld in
    (mk (params j) (min j) (max j) jAcc' (iSum j) (bias j) (jMax j),
     set_w ba (w ba - j1 * i_inv ba),
     set_w bb (w bb + j1 * i_inv bb)).

Definition getImpulse (j : t) : Q := Qabs (jAcc j).

End RotaryLimitJoint.

(** ** RatchetJoint ([ratchet-joint.ts]) *)

Module RatchetJoint.

Record t : Type := mk {
  params : Params;
  angle : Q;
  phase : Q;
  ratchet : Q;
  iSum : Q;
  bias : Q;
  jAcc : Q;
  jMax : Q
}.

Definition new (ps : Params) (ba bb : Body) (phase ratchet : Q) : t :=
  mk ps (a bb - a ba) phase ratchet 0 0 0 0.

Definition preStep `{Helpers} (j : t) (ba bb : Body) (dt : Q) : t :=
  let delta := a bb - a ba in
  let diff := angle j - delta in
  let slipping := Qlt_le_dec 0 (diff * ratchet j) in
  let pdist := if slipping then diff else 0 in
  let angle' :=
    if slipping then angle j
    else inject_Z (Qfloor ((delta - phase j) / ratchet j)) * ratchet j
         + phase j in
  let iSum' := 1 / (i_inv ba + i_inv bb) in
  let maxBias := maxBias (params j) in
  let bias' :=
    clamp (- bias_coef (errorBias (params j)) dt * pdist / dt)
          (- maxBias) maxBias in
  let jMax' := maxForce (params j) * dt in
  let jAcc' := if falsy bias' then 0 else jAcc j in
  mk (params j) angle' (phase j) (ratchet j) iSum' bias' jAcc' jMax'.

Definition applyCachedImpulse (j : t) (ba bb : Body) (dtCoef : Q)
  : Body * Body :=
  let jj := jAcc j * dtCoef in
  (set_w ba (w ba - jj * i_inv ba), set_w bb (w bb + jj * i_inv bb)).

Definition applyImpulse (j : t) (ba bb : Body) : t * Body * Body :=
  if falsy (bias j) then (j, ba, bb)
  else
    let wr := w bb - w ba in
    let ratchet := ratchet j in
    let j0 := - (bias j + wr) * iSum j in
    let jOld := jAcc j in
    let jAcc' :=
      clamp ((jOld + j0) * ratchet) 0 (jMax j * Qabs ratchet) / ratchet in
    let j1 := jAcc' - jOld in
    (mk (params j) (angle j) (phase j) ratchet (iSum j) (bias j) jAcc'
        (jMax j),
     set_w ba (w ba - j1 * i_inv ba),
     set_w bb (w bb + j1 * i_inv bb)).

Definition getImpulse (j : t) : Q := Qabs (jAcc j).

End RatchetJoint.

(** ** PinJoint ([pin-joint.ts])

    [r1], [r2] and [n] are [null] until the first [preStep]; a method that
    reads a [null] vector throws, which is the result [None]. *)

Module PinJoint.

Record t : Type := mk {
  params : Params;
  anchr1 : Vect;
  anchr2 : Vect;
  dist : Q;
  r1 : option Vect;
  r2 : option Vect;
  n : option Vect;
  nMass : Q;
  jnAcc : Q;
  jnMax : Q;
  bias : Q
}.

(** The constructor also returns the messages [assertSoft] logged. *)
Definition new `{Helpers} (ps : Params) (ba bb : Body) (anchr1 anchr2 : Vect)
  : t * list string :=
  let p1 := vadd (p ba) (vrotate anchr1 (rot ba)) in
  let p2 := vadd (p bb) (vrotate anchr2 (rot bb)) in
  let dist := vlength (vsub p2 p1) in
  (mk ps anchr1 anchr2 dist None None None 0 0 0 0,
   if Qlt_le_dec 0 dist then []
   else ["You created a 0 length pin joint. A pivot joint will be much more stable."%string]).

(** [1 / (dist ? dist : Infinity)]: the quotient [1 / Infinity] is [0]. *)
Definition inv_dist (dist : Q) : Q := if falsy dist then 0 else 1 / dist.

Definition preStep `{Helpers} (j : t) (ba bb : Body) (dt : Q) : t :=
  let r1' := vrotate (anchr1 j) (rot ba) in
  let r2' := vrotate (anchr2 j) (rot bb) in
  let delta := vsub (vadd (p bb) r2') (vadd (p ba) r1') in
  let dist' := vlength delta in
  let n' := vmult delta (inv_dist dist') in
  let nMass' := 1 / k_scalar ba bb r1' r2' n' in
  let maxBias := maxBias (params j) in
  let bias' :=
    clamp (- bias_coef (errorBias (params j)) dt * (dist' - dist j) / dt)
          (- maxBias) maxBias in
  let jnMax' := maxForce (params j) * dt in
  mk (params j) (anchr1 j) (anchr2 j) (dist j) (Some r1') (Some r2')
     (Some n') nMass' (jnAcc j) jnMax' bias'.

Definition applyCachedImpulse `{Helpers} (j : t) (ba bb : Body) (dtCoef : Q)
  : option (Body * Body) :=
  match r1 j, r2 j, n j with
  | Some r1, Some r2, Some n =>
      let jv := vmult n (jnAcc j * dtCoef) in
      Some (apply_impulses ba bb r1 r2 (x jv) (y jv))
  | _, _, _ => None
  end.

Definition applyImpulse `{Helpers} (j : t) (ba bb : Body)
  : option (t * (Body * Body)) :=
  match r1 j, r2 j, n j with
  | Some r1', Some r2', Some n' =>
      let vrn := normal_relative_velocity ba bb r1' r2' n' in
      let jn := (bias j - vrn) * nMass j in
      let jnOld := jnAcc j in
      let jnAcc' := clamp (jnOld + jn) (- jnMax j) (jnMax j) in
      let jn' := jnAcc' - jnOld in
      Some (mk (params j) (anchr1 j) (anchr2 j) (dist j) (r1 j) (r2 j) (n j)
               (nMass j) jnAcc' (jnMax j) (bias j),
            apply_impulses ba bb r1' r2' (x n' * jn') (y n' * jn'))
  | _, _, _ => None
  end.

Definition getImpulse (j : t) : Q := Qabs (jnAcc j).

End PinJoint.

(** ** GrooveJoint ([groove-joint.ts])

    [grooveTN], [r1], [r2] and [bias] are [null] until the first
    [preStep]; [clamp_] is the field [clamp]. *)

Module GrooveJoint.

Record t : Type := mk {
  params : Params;
  grooveA : Vect;
  grooveB : Vect;
  grooveN : Vect;
  grooveTN : option Vect;
  anchr2 : Vect;
  clamp_ : Q;
  r1 : option Vect;
  r2 : option Vect;
  k1 : Vect;
  k2 : Vect;
  jAcc : Vect;
  jMaxLen : Q;
  bias : option Vect
}.

Definition new `{Helpers} (ps : Params) (grooveA grooveB anchr2 : Vect) : t :=
  mk ps grooveA grooveB (vperp (vnormalize (vsub grooveB grooveA))) None
     anchr2 0 None None (mkVect 0 0) (mkVect 0 0) vzero 0 None.

Definition preStep `{Helpers} (j : t) (ba bb : Body) (dt : Q) : t :=
  let ta := local2World ba (grooveA j) in
  let tb := local2World ba (grooveB j) in
  let n := vrotate (grooveN j) (rot ba) in
  let d := vdot ta n in
  let r2' := vrotate (anchr2 j) (rot bb) in
  let td := vcross (vadd (p bb) r2') n in
  let '(clamp', r1') :=
    if Qle_bool td (vcross ta n) then (1, vsub ta (p ba))
    else if Qle_bool (vcross tb n) td then (- (1), vsub tb (p ba))
    else (0, vsub (vadd (vmult (vperp n) (- td)) (vmult n d)) (p ba)) in
  let '(k1', k2') := kTensor ba bb r1' r2' in
  let jMaxLen' := maxForce (params j) * dt in
  let delta := vsub (vadd (p bb) r2') (vadd (p ba) r1') in
  let bias' :=
    vclamp (vmult delta (- bias_coef (errorBias (params j)) dt / dt))
           (maxBias (params j)) in
  mk (params j) (grooveA j) (grooveB j) (grooveN j) (Some n) (anchr2 j)
     clamp' (Some r1') (Some r2') k1' k2' (jAcc j) jMaxLen' (Some bias').

Definition applyCachedImpulse `{Helpers} (j : t) (ba bb : Body) (dtCoef : Q)
  : option (Body * Body) :=
  match r1 j, r2 j with
  | Some r1, Some r2 =>
      Some (apply_impulses ba bb r1 r2 (x (jAcc j) * dtCoef)
              (y (jAcc j) * dtCoef))
  | _, _ => None
  end.

Definition grooveConstrain `{Helpers} (j : t) (n jv : Vect) : Vect :=
  let jClamp :=
    if Qlt_le_dec 0 (clamp_ j * vcross jv n) then jv else vproject jv n in
  vclamp jClamp (jMaxLen j).

Definition applyImpulse `{Helpers} (j : t) (ba bb : Body)
  : option (t * (Body * Body)) :=
  match r1 j, r2 j, bias j, grooveTN j with
  | Some r1', Some r2', Some bias', Some n' =>
      let vr := relativeVelocity ba bb r1' r2' in
      let j0 := multK (vsub bias' vr) (k1 j) (k2 j) in
      let jOld := jAcc j in
      let jAcc' := grooveConstrain j n' (vadd jOld j0) in
      Some (mk (params j) (grooveA j) (grooveB j) (grooveN j) (grooveTN j)
               (anchr2 j) (clamp_ j) (r1 j) (r2 j) (k1 j) (k2 j) jAcc'
               (jMaxLen j) (bias j),
            apply_impulses ba bb r1' r2' (x jAcc' - x jOld) (y jAcc' - y jOld))
  | _, _, _, _ => None
  end.

Definition getImpulse `{Helpers} (j : t) : Q := vlength (jAcc j).

End GrooveJoint.

(** ** The constraint contract

    [Constraint] is the abstract class the joints extend; the solver calls
    [preStep] and [applyImpulse] on it without knowing the variant. *)

Inductive Constraint : Type :=
| CPin (j : PinJoint.t)
| CGear (j : GearJoint.t)
| CGroove (j : GrooveJoint.t)
| CRatchet (j : RatchetJoint.t)
| CRotaryLimit (j : RotaryLimitJoint.t).

Definition params_of (c : Constraint) : Params :=
  match c with
  | CPin j => PinJoint.params j
  | CGear j => GearJoint.params j
  | CGroove j => GrooveJoint.params j
  | CRatchet j => RatchetJoint.params j
  | CRotaryLimit j => RotaryLimitJoint.params j
  end.

Definition preStep `{Helpers} (c : Constraint) (ba bb : Body) (dt : Q)
  : Constraint :=
  match c with
  | CPin j => CPin (PinJoint.preStep j ba bb dt)
  | CGear j => CGear (GearJoint.preStep j ba bb dt)
  | CGroove j => CGroove (GrooveJoint.preStep j ba bb dt)
  | CRatchet j => CRatchet (RatchetJoint.preStep j ba bb dt)
  | CRotaryLimit j => CRotaryLimit (RotaryLimitJoint.preStep j ba bb dt)
  end.

Definition applyImpulse `{Helpers} (c : Constraint) (ba bb : Body)
  : option (Constraint * (Body * Body)) :=
  match c with
  | CPin j =>
      '(j', bs) ← PinJoint.applyImpulse j ba bb; Some (CPin j', bs)
  | CGear j =>
      let '(j', ba', bb') := GearJoint.applyImpulse j ba bb in
      Some (CGear j', (ba', bb'))
  | CGroove j =>
      '(j', bs) ← GrooveJoint.applyImpulse j ba bb; Some (CGroove j', bs)
  | CRatchet j =>
      let '(j', ba', bb') := RatchetJoint.applyImpulse j ba bb in
      Some (CRatchet j', (ba', bb'))
  | CRotaryLimit j =>
      let '(j', ba', bb') := RotaryLimitJoint.applyImpulse j ba bb in
      Some (CRotaryLimit j', (ba', bb'))
  end.

(** The impulse clamp [jMax] (the fields [jnMax], [jMax], [jMaxLen]). *)
Definition jMax_of (c : Constraint) : Q :=
  match c with
  | CPin j => PinJoint.jnMax j
  | CGear j => GearJoint.jMax j
  | CGroove j => GrooveJoint.jMaxLen j
  | CRatchet j => RatchetJoint.jMax j
  | CRotaryLimit j => RotaryLimitJoint.jMax j
  end.

(** Bias and accumulated impulse of the limit-style joints. *)
Definition limit_bias (c : Constraint) : option Q :=
  match c with
  | CRatchet j => Some (RatchetJoint.bias j)
  | CRotaryLimit j => Some (RotaryLimitJoint.bias j)
  | _ => None
  end.

Definition limit_jAcc (c : Constraint) : option Q :=
  match c with
  | CRatchet j => Some (RatchetJoint.jAcc j)
  | CRotaryLimit j => Some (RotaryLimitJoint.jAcc j)
  | _ => None
  end.

(** The states a joint goes through while the solver iterates
    [applyImpulse] on it, the bodies changing freely between two calls. *)
Inductive iterated `{Helpers} : Constraint -> Constraint -> Prop :=
| iterated_refl c : iterated c c
| iterated_step c c1 c2 ba bb bs :
    iterated c c1 -> applyImpulse c1 ba bb = Some (c2, bs) -> iterated c c2.

(** ** A rational instance of the helper interface

    Used to run the joints on concrete inputs.  The vector and impulse
    helpers are the usual ones; the three that need a square root or a
    power ([vlength], [vnormalize]/[vclamp], [bias_coef]) are replaced by
    rational functions: the length by the sum of the absolute coordinates,
    and the bias coefficient by [1 - errorBias]. *)

Module RationalHelpers.

Definition vadd (u v : Vect) : Vect := mkVect (x u + x v) (y u + y v).
Definition vsub (u v : Vect) : Vect := mkVect (x u - x v) (y u - y v).
Definition vmult (u : Vect) (s : Q) : Vect := mkVect (x u * s) (y u * s).
Definition vdot (u v : Vect) : Q := x u * x v + y u * y v.
Definition vcross (u v : Vect) : Q := x u * y v - y u * x v.
Definition vperp (u : Vect) : Vect := mkVect (- y u) (x u).
Definition vrotate (u v : Vect) : Vect :=
  mkVect (x u * x v - y u * y v) (x u * y v + y u * x v).
Definition vproject (u v : Vect) : Vect := vmult v (vdot u v / vdot v v).
Definition vlength (u : Vect) : Q := Qabs (x u) + Qabs (y u).
Definition vnormalize (u : Vect) : Vect := vmult u (1 / vlength u).
Definition vclamp (u : Vect) (len : Q) : Vect :=
  if Qlt_le_dec (len * len) (vdot u u) then vmult (vnormalize u) len else u.

Definition bias_coef (errorBias dt : Q) : Q := 1 - errorBias.

Definition k_scalar_body (b : Body) (r n : Vect) : Q :=
  let rcn := vcross r n in m_inv b + i_inv b * rcn * rcn.
Definition k_scalar (ba bb : Body) (r1 r2 n : Vect) : Q :=
  k_scalar_body ba r1 n + k_scalar_body bb r2 n.

Definition relativeVelocity (ba bb : Body) (r1 r2 : Vect) : Vect :=
  mkVect ((x (v bb) - y r2 * w bb) - (x (v ba) - y r1 * w ba))
         ((y (v bb) + x r2 * w bb) - (y (v ba) + x r1 * w ba)).
Definition normal_relative_velocity (ba bb : Body) (r1 r2 n : Vect) : Q :=
  vdot (relativeVelocity ba bb r1 r2) n.

Definition apply_impulse (b : Body) (jx jy : Q) (r : Vect) : Body :=
  mkBody (p b) (rot b)
    (mkVect (x (v b) + jx * m_inv b) (y (v b) + jy * m_inv b))
    (w b + i_inv b * (x r * jy - y r * jx)) (a b) (m_inv b) (i b) (i_inv b).
Definition apply_impulses (ba bb : Body) (r1 r2 : Vect) (jx jy : Q)
  : Body * Body :=
  (apply_impulse ba (- jx) (- jy) r1, apply_impulse bb jx jy r2).

Definition kTensor (ba bb : Body) (r1 r2 : Vect) : Vect * Vect :=
  let m_sum := m_inv ba + m_inv bb in
  let k11 := m_sum + i_inv ba * (y r1 * y r1) + i_inv bb * (y r2 * y r2) in
  let k12 := - (i_inv ba * (x r1 * y r1)) - i_inv bb * (x r2 * y r2) in
  let k22 := m_sum + i_inv ba * (x r1 * x r1) + i_inv bb * (x r2 * x r2) in
  let det_inv := 1 / (k11 * k22 - k12 * k12) in
  (mkVect (k22 * det_inv) (- k12 * det_inv),
   mkVect (- k12 * det_inv) (k11 * det_inv)).
Definition multK (vr k1 k2 : Vect) : Vect :=
  mkVect (vdot vr k1) (vdot vr k2).

Definition local2World (b : Body) (u : Vect) : Vect :=
  vadd (p b) (vrotate u (rot b)).

End RationalHelpers.

Definition rational_helpers : Helpers := {|
  bias_coef := RationalHelpers.bias_coef;
  k_scalar := RationalHelpers.k_scalar;
  normal_relative_velocity := RationalHelpers.normal_relative_velocity;
  relativeVelocity := RationalHelpers.relativeVelocity;
  apply_impulses := RationalHelpers.apply_impulses;
  kTensor := RationalHelpers.kTensor;
  multK := RationalHelpers.multK;
  local2World := RationalHelpers.local2World;
  vadd := RationalHelpers.vadd;
  vsub := RationalHelpers.vsub;
  vmult := RationalHelpers.vmult;
  vdot := RationalHelpers.vdot;
  vcross := RationalHelpers.vcross;
  vperp := RationalHelpers.vperp;
  vrotate := RationalHelpers.vrotate;
  vlength := RationalHelpers.vlength;
  vproject := RationalHelpers.vproject;
  vnormalize := RationalHelpers.vnormalize;
  vclamp := RationalHelpers.vclamp
|}.

(** ** Sample inputs *)

Module Sample.

Definition ps : Params := mkParams 10 100 (1 # 2).

(** A unit-mass body at the origin and one at [(3, 4)], turned by [turn]. *)
Definition body_a : Body :=
  mkBody (mkVect 0 0) (mkVect 1 0) (mkVect 0 0) 0 0 1 1 1.
Definition body_b (turn : Q) : Body :=
  mkBody (mkVect 3 4) (mkVect 1 0) (mkVect 0 0) 0 turn 1 1 1.

Definition dt : Q := 1.

(** A ratchet joint built at rest whose second body then turned back by
    one, and a rotary limit joint with limits [[-1, 1]]. *)
Definition ratchet : RatchetJoint.t :=
  RatchetJoint.new ps body_a (body_b 0) 0 1.
Definition rotary : RotaryLimitJoint.t :=
  RotaryLimitJoint.mk ps (- (1)) 1 5 0 0 0.
Definition groove : GrooveJoint.t :=
  GrooveJoint.new (H := rational_helpers) ps (mkVect 0 0) (mkVect 2 0)
    (mkVect 0 0).

End Sample.

(** The unclamped impulse as the specification words it for every
    variant: [(bias - relativeVelocity) * effectiveMass]. *)
Definition claimed_delta (bias vr mass : Q) : Q := (bias - vr) * mass.

(** A rotary limit joint with limits [[-1, 1]] whose second body stands
    at angle [2]: [preStep] finds it beyond its upper limit. *)
Definition rotary_beyond : RotaryLimitJoint.t :=
  RotaryLimitJoint.preStep (H := rational_helpers)
    (RotaryLimitJoint.new Sample.ps (- (1)) 1) Sample.body_a
    (Sample.body_b 2) Sample.dt.

(** ** What the claims about the joints speak of *)

Section JointProps.

Context `{Helpers}.

(** What "the accumulated impulse lies within the clamp" means for each
    variant: an interval for the scalar joints, a disc for the groove
    joint, and zero for a limit-style joint whose bias is zero. *)
Definition impulse_ok (c : Constraint) : Prop :=
  match c with
  | CPin j =>
      - PinJoint.jnMax j <= PinJoint.jnAcc j <= PinJoint.jnMax j
  | CGear j =>
      - GearJoint.jMax j <= GearJoint.jAcc j <= GearJoint.jMax j
  | CGroove j =>
      vdot (GrooveJoint.jAcc j) (GrooveJoint.jAcc j)
      <= GrooveJoint.jMaxLen j * GrooveJoint.jMaxLen j
  | CRatchet j =>
      - RatchetJoint.jMax j <= RatchetJoint.jAcc j <= RatchetJoint.jMax j
      /\ (RatchetJoint.bias j == 0 -> RatchetJoint.jAcc j = 0)
  | CRotaryLimit j =>
      - RotaryLimitJoint.jMax j <= RotaryLimitJoint.jAcc j
        <= RotaryLimitJoint.jMax j
      /\ (RotaryLimitJoint.bias j == 0 -> RotaryLimitJoint.jAcc j = 0)
  end.

(** What [preStep] establishes and every [applyImpulse] keeps. *)
Definition stepped (c : Constraint) (jmax : Q) : Prop :=
  jMax_of c = jmax /\
  match c with
  | CPin j =>
      is_Some (PinJoint.r1 j) /\ is_Some (PinJoint.r2 j)
      /\ is_Some (PinJoint.n j)
  | CGroove j =>
      is_Some (GrooveJoint.r1 j) /\ is_Some (GrooveJoint.r2 j)
      /\ is_Some (GrooveJoint.bias j) /\ is_Some (GrooveJoint.grooveTN j)
  | CRatchet j => RatchetJoint.bias j == 0 -> RatchetJoint.jAcc j = 0
  | CRotaryLimit j =>
      RotaryLimitJoint.bias j == 0 -> RotaryLimitJoint.jAcc j = 0
  | CGear _ => True
  end.

(** The contract of [vclamp] ([../vect] is not among the sources): the
    result is no longer than [len]. *)
Definition vclamp_bounded : Prop :=
  forall (u : Vect) (len : Q),
    0 <= len -> vdot (vclamp u len) (vclamp u len) <= len * len.

End JointProps.

(** ** Extended numbers

    JavaScript numbers with their special values: a rational, an infinity
    or [NaN].  Arithmetic on rationals is exact; the special values follow
    IEEE 754 (an infinity times zero, the difference of two equal
    infinities and zero over zero are [NaN]; a non-zero number over zero
    is an infinity; a rational over an infinity is zero).  Zero is
    unsigned, as [+0]. *)

Module XNum.

Inductive xnum : Type := Fin (q : Q) | PInf | NInf | NaN.

Definition of_Z (z : Z) : xnum := Fin (inject_Z z).

Definition is_nan (a : xnum) : bool :=
  match a with NaN => true | _ => false end.

Definition is_fin (a : xnum) : bool :=
  match a with Fin _ => true | _ => false end.

Definition Qlt_bool (p q : Q) : bool := negb (Qle_bool q p).

Definition neg (a : xnum) : xnum :=
  match a with
  | Fin q => Fin (- q)
  | PInf => NInf
  | NInf => PInf
  | NaN => NaN
  end.

Definition add (a b : xnum) : xnum :=
  match a, b with
  | NaN, _ | _, NaN => NaN
  | Fin p, Fin q => Fin (p + q)
  | PInf, NInf | NInf, PInf => NaN
  | PInf, _ | _, PInf => PInf
  | NInf, _ | _, NInf => NInf
  end.

Definition sub (a b : xnum) : xnum := add a (neg b).

(** The infinity of the sign of [q], or [NaN] when [q] is zero. *)
Definition signed_inf (q : Q) (positive : bool) : xnum :=
  if Qeq_bool q 0 then NaN
  else if Bool.eqb (Qlt_bool 0 q) positive then PInf else NInf.

Definition mul (a b : xnum) : xnum :=
  match a, b with
  | NaN, _ | _, NaN => NaN
  | Fin p, Fin q => Fin (p * q)
  | Fin p, PInf | PInf, Fin p => signed_inf p true
  | Fin p, NInf | NInf, Fin p => signed_inf p false
  | PInf, PInf | NInf, NInf => PInf
  | PInf, NInf | NInf, PInf => NInf
  end.

Definition div (a b : xnum) : xnum :=
  match a, b with
  | NaN, _ | _, NaN => NaN
  | Fin p, Fin q => if Qeq_bool q 0 then signed_inf p true else Fin (p / q)
  | Fin _, _ => Fin 0
  | PInf, Fin q => if Qlt_bool q 0 then NInf else PInf
  | NInf, Fin q => if Qlt_bool q 0 then PInf else NInf
  | _, _ => NaN
  end.

(** [a < b] and [a <= b]; both are false when an operand is [NaN]. *)
Definition lt (a b : xnum) : bool :=
  match a, b with
  | NaN, _ | _, NaN => false
  | Fin p, Fin q => Qlt_bool p q
  | NInf, NInf | PInf, _ | _, NInf => false
  | _, _ => true
  end.

Definition le (a b : xnum) : bool :=
  match a, b with
  | NaN, _ | _, NaN => false
  | Fin p, Fin q => Qle_bool p q
  | NInf, _ | _, PInf => true
  | _, _ => false
  end.

(** [a == b] on numbers. *)
Definition eqb (a b : xnum) : bool :=
  match a, b with
  | Fin p, Fin q => Qeq_bool p q
  | PInf, PInf | NInf, NInf => true
  | _, _ => false
  end.

(** [Math.min] and [Math.max]. *)
Definition min (a b : xnum) : xnum :=
  match a, b with
  | NaN, _ | _, NaN => NaN
  | _, _ => if le a b then a else b
  end.

Definition max (a b : xnum) : xnum :=
  match a, b with
  | NaN, _ | _, NaN => NaN
  | _, _ => if le a b then b else a
  end.

(** A number used as a condition: zero and [NaN] are false. *)
Definition truthy (a : xnum) : bool :=
  match a with
  | Fin q => negb (Qeq_bool q 0)
  | NaN => false
  | _ => true
  end.

Definition clamp (f lo hi : xnum) : xnum := min (max f lo) hi.

Record XVect : Type := mkXVect { xx : xnum; xy : xnum }.

Definition vnan (u : XVect) : bool := is_nan (xx u) || is_nan (xy u).
Definition vfin (u : XVect) : bool := is_fin (xx u) && is_fin (xy u).

End XNum.

(** ** The pin joint over extended numbers

    The constructor and [preStep] of [pin-joint.ts] once more, with
    [Infinity] and [NaN] as values, to follow what a zero-length
    separation does.  [XBody] has the body fields the two methods read. *)

Module PinJointX.

Import XNum.

Record XBody : Type := mkXBody {
  p : XVect;
  rot : XVect;
  m_inv : xnum;
  i_inv : xnum
}.

Definition bfin (b : XBody) : bool :=
  vfin (p b) && vfin (rot b) && is_fin (m_inv b) && is_fin (i_inv b).

(** The helpers [pin-joint.ts] imports from [./util] and [../vect]. *)
Class XHelpers : Type := {
  vadd : XVect -> XVect -> XVect;
  vsub : XVect -> XVect -> XVect;
  vmult : XVect -> xnum -> XVect;
  vrotate : XVect -> XVect -> XVect;
  vlength : XVect -> xnum;
  k_scalar : XBody -> XBody -> XVect -> XVect -> XVect -> xnum;
  bias_coef : xnum -> xnum -> xnum
}.

Record t : Type := mk {
  maxForce : xnum;
  maxBias : xnum;
  errorBias : xnum;
  anchr1 : XVect;
  anchr2 : XVect;
  dist : xnum;
  r1 : option XVect;
  r2 : option XVect;
  n : option XVect;
  nMass : xnum;
  jnAcc : xnum;
  jnMax : xnum;
  bias : xnum
}.

Definition warning : string :=
  "You created a 0 length pin joint. A pivot joint will be much more stable.".

(** [assertSoft] ([../util], not among the sources) logs its message when
    the condition is false and returns; the constructor's result is the
    joint together with what was logged. *)
Definition new `{XHelpers} (maxForce maxBias errorBias : xnum)
    (ba bb : XBody) (anchr1 anchr2 : XVect) : t * list string :=
  let p1 := vadd (p ba) (vrotate anchr1 (rot ba)) in
  let p2 := vadd (p bb) (vrotate anchr2 (rot bb)) in
  let dist := vlength (vsub p2 p1) in
  (mk maxForce maxBias errorBias anchr1 anchr2 dist None None None
      (Fin 0) (Fin 0) (Fin 0) (Fin 0),
   if lt (Fin 0) dist then [] else [warning]).

Definition preStep `{XHelpers} (j : t) (ba bb : XBody) (dt : xnum) : t :=
  let r1' := vrotate (anchr1 j) (rot ba) in
  let r2' := vrotate (anchr2 j) (rot bb) in
  let delta := vsub (vadd (p bb) r2') (vadd (p ba) r1') in
  let dist' := vlength delta in
  let n' := vmult delta (div (Fin 1) (if truthy dist' then dist' else PInf)) in
  let nMass' := div (Fin 1) (k_scalar ba bb r1' r2' n') in
  let bias' :=
    clamp (div (mul (neg (bias_coef (errorBias j) dt)) (sub dist' (dist j)))
               dt)
          (neg (maxBias j)) (maxBias j) in
  let jnMax' := mul (maxForce j) dt in
  mk (maxForce j) (maxBias j) (errorBias j) (anchr1 j) (anchr2 j) (dist j)
     (Some r1') (Some r2') (Some n') nMass' (jnAcc j) jnMax' bias'.

(** No number stored in the joint is [NaN]. *)
Definition onan (u : option XVect) : bool :=
  match u with Some u => vnan u | None => false end.

Definition has_nan (j : t) : bool :=
  is_nan (maxForce j) || is_nan (maxBias j) || is_nan (errorBias j)
  || vnan (anchr1 j) || vnan (anchr2 j) || is_nan (dist j)
  || onan (r1 j) || onan (r2 j) || onan (n j)
  || is_nan (nMass j) || is_nan (jnAcc j) || is_nan (jnMax j)
  || is_nan (bias j).

(** The number is a zero. *)
Definition is_zero (a : xnum) : Prop := exists q, a = Fin q /\ q == 0.

(** What the missing helpers are taken to do: the vector operations work
    by coordinates, a length that is a rational is the length of a vector
    of rationals, and the two solver helpers give a rational on rationals. *)
Record helpers_ok `{XHelpers} : Prop := {
  vadd_spec : forall u v, vadd u v = mkXVect (add (xx u) (xx v)) (add (xy u) (xy v));
  vsub_spec : forall u v, vsub u v = mkXVect (sub (xx u) (xx v)) (sub (xy u) (xy v));
  vmult_spec : forall u s, vmult u s = mkXVect (mul (xx u) s) (mul (xy u) s);
  vrotate_fin : forall u v, vfin u = true -> vfin v = true -> vfin (vrotate u v) = true;
  vlength_fin : forall u q, vlength u = Fin q -> vfin u = true;
  k_scalar_fin : forall ba bb u v m,
      bfin ba = true -> bfin bb = true ->
      vfin u = true -> vfin v = true -> vfin m = true ->
      is_fin (k_scalar ba bb u v m) = true;
  bias_coef_fin : forall e dt,
      is_fin e = true -> is_fin dt = true -> is_fin (bias_coef e dt) = true
}.

(** An instance on which the joint can be run: the vector operations by
    coordinates, the sum of the squared coordinates for the length, the
    inverse masses and moments combined along [n] for [k_scalar], and
    [1 - errorBias] for the bias coefficient. *)
Definition cross (u v : XVect) : xnum :=
  sub (mul (xx u) (xy v)) (mul (xy u) (xx v)).

Definition k_scalar_body (b : XBody) (r m : XVect) : xnum :=
  add (m_inv b) (mul (mul (i_inv b) (cross r m)) (cross r m)).

Definition sample_helpers : XHelpers := {|
  vadd u v := mkXVect (add (xx u) (xx v)) (add (xy u) (xy v));
  vsub u v := mkXVect (sub (xx u) (xx v)) (sub (xy u) (xy v));
  vmult u s := mkXVect (mul (xx u) s) (mul (xy u) s);
  vrotate u v :=
    mkXVect (sub (mul (xx u) (xx v)) (mul (xy u) (xy v)))
            (add (mul (xx u) (xy v)) (mul (xy u) (xx v)));
  vlength u := add (mul (xx u) (xx u)) (mul (xy u) (xy u));
  k_scalar ba bb u v m := add (k_scalar_body ba u m) (k_scalar_body bb v m);
  bias_coef e dt := sub (Fin 1) e
|}.

Definition sample_body : XBody :=
  mkXBody (mkXVect (Fin 3) (Fin 4)) (mkXVect (Fin 1) (Fin 0)) (Fin 1) (Fin 1).

Definition sample_anchor : XVect := mkXVect (Fin 0) (Fin 0).

(** Two bodies at the same place, pinned at their centres, with the default
    unbounded [maxForce] and [maxBias]. *)
Definition sample_joint : t :=
  fst (new (H := sample_helpers) PInf PInf (Fin (1 # 2)) sample_body
         sample_body sample_anchor sample_anchor).

End PinJointX.

(** ** The bounding-box tree (class [BBTree])

    Nodes, leaves and pairs are objects that point at each other, so they
    live in a store addressed by references.  The store is kept in two
    parts.  [Store] holds the tree structure: the [Node] and [Leaf]
    objects with their boxes, [parent], [A] and [B] pointers, the shapes,
    and for each of the two indexes its [leaves], [root], [count] and node
    pool.  [Threads] holds the pair bookkeeping: the [stamp] and [pairs]
    field of every leaf, the [Pair] objects, and for each index its stamp
    and pair pool.  Insertion and removal in the tree only touch the first
    part; pair discovery reads the first part and writes the second.

    Coordinates are integers, on which the arithmetic of the source is
    exact.  A method that dereferences [null] or [undefined] throws; for
    the functions on the tree structure this is the result [None].

    The two indexes are a dynamic [BBTree] and the static [BBTree] it was
    constructed with ([new BBTree(staticIndex)]): the constructor of
    [SpatialIndex] makes each the other's [staticIndex] and
    [dynamicIndex], and [Leaf.addPairs] reads the root of one of the two on
    every insertion. *)

Module BBTree.

Open Scope Z_scope.

(** References to nodes and leaves, and to pairs. *)
Abbreviation ref := nat (only parsing).
Abbreviation pref := nat (only parsing).

(** The fields [bb_l], [bb_b], [bb_r], [bb_t] of a shape, node or leaf. *)
Record BB : Type := mkBB { bb_l : Z; bb_b : Z; bb_r : Z; bb_t : Z }.

Global Instance BB_eq_dec : EqDecision BB.
Proof. solve_decision. Defined.

(** A [Node] ([isLeaf = false], [obj = null]) or a [Leaf] ([A] and [B]
    undefined).  [obj] is the [hashid] of the leaf's shape. *)
Record Obj : Type := mkObj {
  isLeaf : bool;
  obj : option Z;
  box : BB;
  parent : option ref;
  A : option ref;
  B : option ref
}.

Definition set_box (o : Obj) (bx : BB) : Obj :=
  mkObj (isLeaf o) (obj o) bx (parent o) (A o) (B o).
Definition set_parent (o : Obj) (q : option ref) : Obj :=
  mkObj (isLeaf o) (obj o) (box o) q (A o) (B o).
Definition set_A (o : Obj) (q : option ref) : Obj :=
  mkObj (isLeaf o) (obj o) (box o) (parent o) q (B o).
Definition set_B (o : Obj) (q : option ref) : Obj :=
  mkObj (isLeaf o) (obj o) (box o) (parent o) (A o) q.

Inductive which : Type := Dynamic | Static.

Global Instance which_eq_dec : EqDecision which.
Proof. solve_decision. Defined.

(** The structural fields of a [BBTree]; [pooledNodes] is the head of the
    free list, threaded through the [parent] field. *)
Record TreeS : Type := mkTreeS {
  leaves : gmap Z ref;
  count : Z;
  root : option ref;
  pooledNodes : option ref
}.

(** [velocityFunc] is [null] after construction; when set, [getBB] stores
    the shape's box enlarged by a tenth of its size and of the velocity,
    here a function of the shape and its box.  [numNodes] and [numLeaves]
    count the objects allocated so far; a new object gets the next
    reference. *)
Record Store : Type := mkStore {
  objs : gmap ref Obj;
  shapes : gmap Z BB;
  velocityFunc : option (Z -> BB -> BB);
  numNodes : nat;
  numLeaves : nat;
  dynS : TreeS;
  statS : TreeS
}.

Definition treeS (s : Store) (k : which) : TreeS :=
  match k with Dynamic => dynS s | Static => statS s end.

Definition set_objs (s : Store) (h : gmap ref Obj) : Store :=
  mkStore h (shapes s) (velocityFunc s) (numNodes s) (numLeaves s) (dynS s)
    (statS s).

Definition set_treeS (s : Store) (k : which) (t : TreeS) : Store :=
  match k with
  | Dynamic =>
      mkStore (objs s) (shapes s) (velocityFunc s) (numNodes s) (numLeaves s)
        t (statS s)
  | Static =>
      mkStore (objs s) (shapes s) (velocityFunc s) (numNodes s) (numLeaves s)
        (dynS s) t
  end.

Definition set_root (s : Store) (k : which) (r : option ref) : Store :=
  let t := treeS s k in
  set_treeS s k (mkTreeS (leaves t) (count t) r (pooledNodes t)).

Definition set_pooledNodes (s : Store) (k : which) (r : option ref) : Store :=
  let t := treeS s k in
  set_treeS s k (mkTreeS (leaves t) (count t) (root t) r).

(** [o.f = v] for a field of the object at [r]. *)
Definition update (s : Store) (r : ref) (f : Obj -> Obj) : option Store :=
  o ← objs s !! r; Some (set_objs s (<[r := f o]> (objs s))).

Definition merge (a b : BB) : BB :=
  mkBB (Z.min (bb_l a) (bb_l b)) (Z.min (bb_b a) (bb_b b))
       (Z.max (bb_r a) (bb_r b)) (Z.max (bb_t a) (bb_t b)).

Definition bbArea (a : BB) : Z := (bb_r a - bb_l a) * (bb_t a - bb_b a).

Definition bbTreeMergedArea (a b : BB) : Z :=
  (Z.max (bb_r a) (bb_r b) - Z.min (bb_l a) (bb_l b))
  * (Z.max (bb_t a) (bb_t b) - Z.min (bb_b a) (bb_b b)).

Definition bbProximity (a b : BB) : Z :=
  Z.abs (bb_l a + bb_r a - bb_l b - bb_r b)
  + Z.abs (bb_b a + bb_t a - bb_b b - bb_t b).

Definition bbTreeIntersectsNode (a b : BB) : bool :=
  (bb_l a <=? bb_r b) && (bb_l b <=? bb_r a)
  && (bb_b a <=? bb_t b) && (bb_b b <=? bb_t a).

(** [Leaf.containsObj]: the leaf's box holds the shape's. *)
Definition containsObj (leafbox shapebox : BB) : bool :=
  (bb_l leafbox <=? bb_l shapebox) && (bb_r shapebox <=? bb_r leafbox)
  && (bb_b leafbox <=? bb_b shapebox) && (bb_t shapebox <=? bb_t leafbox).

(** [BBTree.getBB]: the box to store in the leaf of the shape [id]. *)
Definition getBB (s : Store) (id : Z) : option BB :=
  bx ← shapes s !! id;
  Some (match velocityFunc s with Some f => f id bx | None => bx end).

(** *** Nodes *)

(** [Node.setA] and [Node.setB]. *)
Definition setA (s : Store) (node value : ref) : option Store :=
  s1 ← update s node (fun o => set_A o (Some value));
  update s1 value (fun o => set_parent o (Some node)).

Definition setB (s : Store) (node value : ref) : option Store :=
  s1 ← update s node (fun o => set_B o (Some value));
  update s1 value (fun o => set_parent o (Some node)).

(** The constructor of [Node], run on the object at [node]: on a new
    object for [new Node(this, a, b)], on a pooled one for
    [node.constructor(this, a, b)], which runs the body of the constructor
    again (as it does where classes are compiled to functions). *)
Definition Node_constructor (s : Store) (node a b : ref) : option Store :=
  oa ← objs s !! a;
  ob ← objs s !! b;
  let o := mkObj false None (merge (box oa) (box ob)) None None None in
  s1 ← setA (set_objs s (<[node := o]> (objs s))) node a;
  setB s1 node b.

Definition makeNode (s : Store) (k : which) (a b : ref)
  : option (Store * ref) :=
  match pooledNodes (treeS s k) with
  | Some node =>
      o ← objs s !! node;
      s1 ← Node_constructor (set_pooledNodes s k (parent o)) node a b;
      Some (s1, node)
  | None =>
      let node := (numNodes s + numLeaves s)%nat in
      let s0 :=
        mkStore (objs s) (shapes s) (velocityFunc s) (S (numNodes s))
          (numLeaves s) (dynS s) (statS s) in
      s1 ← Node_constructor s0 node a b;
      Some (s1, node)
  end.

(** [Node.recycle] threads the node onto the pool; [Leaf.recycle] does
    nothing ("Its not worth the overhead to recycle leaves"). *)
Definition recycle (s : Store) (k : which) (r : ref) : option Store :=
  o ← objs s !! r;
  if isLeaf o then Some s
  else
    s1 ← update s r (fun o => set_parent o (pooledNodes (treeS s k)));
    Some (set_pooledNodes s1 k (Some r)).

Definition otherChild (o : Obj) (child : ref) : option ref :=
  if decide (A o = Some child) then B o else A o.

(** The loop of [Node.replaceChild]: recompute the boxes from [node] up. *)
Fixpoint refit (fuel : nat) (s : Store) (node : option ref) : option Store :=
  match node with
  | None => Some s
  | Some r =>
      match fuel with
      | O => None
      | S fuel' =>
          o ← objs s !! r;
          a ← A o; b ← B o;
          oa ← objs s !! a; ob ← objs s !! b;
          s1 ← update s r (fun o => set_box o (merge (box oa) (box ob)));
          refit fuel' s1 (parent o)
      end
  end.

Definition replaceChild (fuel : nat) (s : Store) (k : which)
    (this child value : ref) : option Store :=
  o ← objs s !! this;
  s2 ← (if decide (A o = Some child)
        then a ← A o; s1 ← recycle s k a; setA s1 this value
        else b ← B o; s1 ← recycle s k b; setB s1 this value);
  refit fuel s2 (Some this).

(** *** Subtree functions *)

Fixpoint subtreeInsert (fuel : nat) (s : Store) (k : which)
    (subtree : option ref) (leaf : ref) : option (Store * ref) :=
  match subtree with
  | None => Some (s, leaf)
  | Some st =>
      match fuel with
      | O => None
      | S fuel' =>
          o ← objs s !! st;
          if isLeaf o then makeNode s k leaf st
          else
            a ← A o; b ← B o;
            oa ← objs s !! a; ob ← objs s !! b; ol ← objs s !! leaf;
            let cost_a := bbArea (box ob) + bbTreeMergedArea (box oa) (box ol) in
            let cost_b := bbArea (box oa) + bbTreeMergedArea (box ob) (box ol) in
            let '(cost_a, cost_b) :=
              if decide (cost_a = cost_b)
              then (bbProximity (box oa) (box ol),
                    bbProximity (box ob) (box ol))
              else (cost_a, cost_b) in
            s2 ← (if decide (cost_b < cost_a)
                  then '(s1, r) ← subtreeInsert fuel' s k (Some b) leaf;
                       setB s1 st r
                  else '(s1, r) ← subtreeInsert fuel' s k (Some a) leaf;
                       setA s1 st r);
            o2 ← objs s2 !! st; ol2 ← objs s2 !! leaf;
            s3 ← update s2 st (fun o => set_box o (merge (box o2) (box ol2)));
            Some (s3, st)
      end
  end.

Definition subtreeRemove (fuel : nat) (s : Store) (k : which)
    (subtree : option ref) (leaf : ref) : option (Store * option ref) :=
  if decide (Some leaf = subtree) then Some (s, None)
  else
    ol ← objs s !! leaf;
    if decide (parent ol = subtree) then
      st ← subtree;
      o ← objs s !! st;
      other ← otherChild o leaf;
      s1 ← update s other (fun x => set_parent x (parent o));
      s2 ← recycle s1 k st;
      Some (s2, Some other)
    else
      pr ← parent ol;
      op ← objs s !! pr;
      gp ← parent op;
      other ← otherChild op leaf;
      s1 ← replaceChild fuel s k gp pr other;
      Some (s1, subtree).


(** *** Pairs and threads *)

(** A [Pair] sits in the thread of [leafA] (through [prevA], [nextA]) and
    in the thread of [leafB] (through [prevB], [nextB]). *)
Record Pair : Type := mkPair {
  prevA : option pref;
  leafA : ref;
  nextA : option pref;
  prevB : option pref;
  leafB : ref;
  nextB : option pref
}.

Definition set_prevA (p : Pair) (q : option pref) : Pair :=
  mkPair q (leafA p) (nextA p) (prevB p) (leafB p) (nextB p).
Definition set_nextA (p : Pair) (q : option pref) : Pair :=
  mkPair (prevA p) (leafA p) q (prevB p) (leafB p) (nextB p).
Definition set_prevB (p : Pair) (q : option pref) : Pair :=
  mkPair (prevA p) (leafA p) (nextA p) q (leafB p) (nextB p).
Definition set_nextB (p : Pair) (q : option pref) : Pair :=
  mkPair (prevA p) (leafA p) (nextA p) (prevB p) (leafB p) q.

(** The thread fields of a [BBTree]; [pooledPairs] is the head of the free
    list of pairs, threaded through [prevA]. *)
Record TreeT : Type := mkTreeT {
  pooledPairs : option pref;
  stamp : Z
}.

(** [stamps] and [lpairs] are the fields [stamp] and [pairs] of the
    leaves (no entry in [lpairs] is [null]); [numPairs] counts the pairs
    allocated; [calls] lists the invocations of the collision callback,
    the latest first. *)
Record Threads : Type := mkThreads {
  stamps : gmap ref Z;
  lpairs : gmap ref pref;
  pairs : gmap pref Pair;
  numPairs : nat;
  dynT : TreeT;
  statT : TreeT;
  calls : list (Z * Z)
}.

Definition treeT (t : Threads) (k : which) : TreeT :=
  match k with Dynamic => dynT t | Static => statT t end.

Definition set_treeT (t : Threads) (k : which) (x : TreeT) : Threads :=
  match k with
  | Dynamic =>
      mkThreads (stamps t) (lpairs t) (pairs t) (numPairs t) x (statT t)
        (calls t)
  | Static =>
      mkThreads (stamps t) (lpairs t) (pairs t) (numPairs t) (dynT t) x
        (calls t)
  end.

Definition set_pairs (t : Threads) (ps : gmap pref Pair) : Threads :=
  mkThreads (stamps t) (lpairs t) ps (numPairs t) (dynT t) (statT t)
    (calls t).

Definition set_stamp (t : Threads) (l : ref) (v : Z) : Threads :=
  mkThreads (<[l := v]> (stamps t)) (lpairs t) (pairs t) (numPairs t)
    (dynT t) (statT t) (calls t).

(** [leaf.pairs = v]. *)
Definition set_lpairs (t : Threads) (l : ref) (v : option pref) : Threads :=
  mkThreads (stamps t)
    (match v with Some p => <[l := p]> (lpairs t)
                | None => delete l (lpairs t) end)
    (pairs t) (numPairs t) (dynT t) (statT t) (calls t).

Definition call (t : Threads) (o1 o2 : Z) : Threads :=
  mkThreads (stamps t) (lpairs t) (pairs t) (numPairs t) (dynT t) (statT t)
    ((o1, o2) :: calls t).

Definition stamp_of (t : Threads) (l : ref) : Z := default 0 (stamps t !! l).

(** The dynamic index of the static tree is the dynamic tree; the dynamic
    tree has none. *)
Definition getStamp (t : Threads) (k : which) : Z :=
  match k with
  | Dynamic => stamp (dynT t)
  | Static =>
      if decide (stamp (dynT t) = 0) then stamp (statT t)
      else stamp (dynT t)
  end.

Definition bump (x : TreeT) : TreeT := mkTreeT (pooledPairs x) (stamp x + 1).

Definition incrementStamp (t : Threads) (k : which) : Threads :=
  match k with
  | Dynamic => set_treeT t Dynamic (bump (dynT t))
  | Static =>
      if decide (stamp (dynT t) = 0) then set_treeT t Static (bump (statT t))
      else set_treeT t Dynamic (bump (dynT t))
  end.

(** [if (p.leafA === leaf) p.prevA = v; else p.prevB = v;] and the same
    for [next].  Threads only hold allocated pairs. *)
Definition set_prev (t : Threads) (p : pref) (leaf : ref) (v : option pref)
  : Threads :=
  set_pairs t
    (alter (fun x => if decide (leafA x = leaf) then set_prevA x v
                     else set_prevB x v) p (pairs t)).

Definition set_next (t : Threads) (p : pref) (leaf : ref) (v : option pref)
  : Threads :=
  set_pairs t
    (alter (fun x => if decide (leafA x = leaf) then set_nextA x v
                     else set_nextB x v) p (pairs t)).

Definition unlinkThread (t : Threads) (prev : option pref) (leaf : ref)
    (next : option pref) : Threads :=
  let t1 := match next with Some nx => set_prev t nx leaf prev | None => t end in
  match prev with
  | Some pv => set_next t1 pv leaf next
  | None => set_lpairs t1 leaf next
  end.

Definition makePair (t : Threads) (k : which) (a : ref) (nextA : option pref)
    (b : ref) (nextB : option pref) : Threads * pref :=
  let fresh :=
    (mkThreads (stamps t) (lpairs t)
       (<[numPairs t := mkPair None a nextA None b nextB]> (pairs t))
       (S (numPairs t)) (dynT t) (statT t) (calls t),
     numPairs t) in
  match pooledPairs (treeT t k) with
  | Some pp =>
      match pairs t !! pp with
      | Some x =>
          let t1 := set_treeT t k (mkTreeT (prevA x) (stamp (treeT t k))) in
          (set_pairs t1 (<[pp := mkPair None a nextA None b nextB]> (pairs t1)),
           pp)
      | None => fresh
      end
  | None => fresh
  end.

Definition Pair_recycle (t : Threads) (k : which) (p : pref) : Threads :=
  let t1 :=
    set_pairs t (alter (fun x => set_prevA x (pooledPairs (treeT t k))) p
                   (pairs t)) in
  set_treeT t1 k (mkTreeT (Some p) (stamp (treeT t1 k))).

Definition pairInsert (t : Threads) (k : which) (a b : ref) : Threads :=
  let nextA := lpairs t !! a in
  let nextB := lpairs t !! b in
  let '(t1, pp) := makePair t k a nextA b nextB in
  let t2 := set_lpairs (set_lpairs t1 a (Some pp)) b (Some pp) in
  let t3 := match nextA with Some nx => set_prev t2 nx a (Some pp)
                           | None => t2 end in
  match nextB with Some nx => set_prev t3 nx b (Some pp) | None => t3 end.

(** The loop of [Leaf.clearPairs]; a thread has no more records than were
    allocated. *)
Fixpoint clearPairs_loop (fuel : nat) (t : Threads) (k : which) (this : ref)
    (pp : option pref) : Threads :=
  match fuel, pp with
  | S fuel', Some p =>
      match pairs t !! p with
      | Some x =>
          let '(next, t1) :=
            if decide (leafA x = this)
            then (nextA x, unlinkThread t (prevB x) (leafB x) (nextB x))
            else (nextB x, unlinkThread t (prevA x) (leafA x) (nextA x)) in
          clearPairs_loop fuel' (Pair_recycle t1 k p) k this next
      | None => t
      end
  | _, _ => t
  end.

Definition clearPairs (t : Threads) (k : which) (this : ref) : Threads :=
  let pp := lpairs t !! this in
  clearPairs_loop (numPairs t) (set_lpairs t this None) k this pp.

(** *** Marking *)

Definition nobjs (s : Store) : nat := (numNodes s + numLeaves s)%nat.

Definition obj_of (s : Store) (r : ref) : Z :=
  default 0 (o ← objs s !! r; obj o).

(** [markLeafQuery] of [Node] and of [Leaf], on the object at [subtree];
    [func] tells whether a callback was passed.  The descent is bounded by
    the number of objects. *)
Fixpoint markLeafQuery (fuel : nat) (s : Store) (t : Threads)
    (subtree leaf : ref) (left : bool) (k : which) (func : bool) : Threads :=
  match fuel, objs s !! subtree, objs s !! leaf with
  | S fuel', Some o, Some ol =>
      if bbTreeIntersectsNode (box ol) (box o) then
        if isLeaf o then
          if left then pairInsert t k leaf subtree
          else
            let t1 :=
              if decide (stamp_of t subtree < stamp_of t leaf)
              then pairInsert t k subtree leaf else t in
            if func then call t1 (obj_of s leaf) (obj_of s subtree) else t1
        else
          match A o, B o with
          | Some a, Some b =>
              let t1 := markLeafQuery fuel' s t a leaf left k func in
              markLeafQuery fuel' s t1 b leaf left k func
          | _, _ => t
          end
      else t
  | _, _, _ => t
  end.

(** The walk of [Leaf.markSubtree] through the ancestors of [this]. *)
Fixpoint markAncestors (fuel : nat) (s : Store) (t : Threads)
    (node this : ref) (k : which) (func : bool) : Threads :=
  match fuel, (o ← objs s !! node; pr ← parent o; op ← objs s !! pr;
               Some (pr, op)) with
  | S fuel', Some (pr, op) =>
      let t1 :=
        if decide (A op = Some node) then
          match B op with
          | Some b => markLeafQuery (nobjs s) s t b this true k func
          | None => t
          end
        else
          match A op with
          | Some a => markLeafQuery (nobjs s) s t a this false k func
          | None => t
          end in
      markAncestors fuel' s t1 pr this k func
  | _, _ => t
  end.

(** The loop of [Leaf.markSubtree] over the cached pairs of [this]. *)
Fixpoint replayPairs (fuel : nat) (s : Store) (t : Threads) (this : ref)
    (pp : option pref) (func : bool) : Threads :=
  match fuel, pp with
  | S fuel', Some p =>
      match pairs t !! p with
      | Some x =>
          if decide (this = leafB x) then
            let t1 :=
              if func then call t (obj_of s (leafA x)) (obj_of s this)
              else t in
            replayPairs fuel' s t1 this (nextB x) func
          else replayPairs fuel' s t this (nextA x) func
      | None => t
      end
  | _, _ => t
  end.

Definition Leaf_markSubtree (s : Store) (t : Threads) (this : ref)
    (k : which) (staticRoot : option ref) (func : bool) : Threads :=
  if decide (stamp_of t this = getStamp t k) then
    let t1 :=
      match staticRoot with
      | Some sr => markLeafQuery (nobjs s) s t sr this false k func
      | None => t
      end in
    markAncestors (nobjs s) s t1 this this k func
  else replayPairs (numPairs t) s t this (lpairs t !! this) func.

(** [markSubtree] of [Node] and of [Leaf], on the object at [node]. *)
Fixpoint markSubtree (fuel : nat) (s : Store) (t : Threads) (node : ref)
    (k : which) (staticRoot : option ref) (func : bool) : Threads :=
  match fuel, objs s !! node with
  | S fuel', Some o =>
      if isLeaf o then Leaf_markSubtree s t node k staticRoot func
      else
        match A o, B o with
        | Some a, Some b =>
            let t1 := markSubtree fuel' s t a k staticRoot func in
            markSubtree fuel' s t1 b k staticRoot func
        | _, _ => t
        end
  | _, _ => t
  end.

(** [Leaf.addPairs]: a leaf of the static tree is queried against the
    dynamic tree; a leaf of the dynamic tree marks itself, with the root of
    the static tree. *)
Definition addPairs (s : Store) (t : Threads) (this : ref) (k : which)
  : Threads :=
  match k with
  | Static =>
      match root (dynS s) with
      | Some dynamicRoot =>
          markLeafQuery (nobjs s) s t dynamicRoot this true Dynamic false
      | None => t
      end
  | Dynamic => Leaf_markSubtree s t this Dynamic (root (statS s)) false
  end.


(** *** The methods of [BBTree] *)

Record World : Type := mkWorld { store : Store; threads : Threads }.

Definition emptyTreeS : TreeS := mkTreeS ∅ 0 None None.
Definition emptyTreeT : TreeT := mkTreeT None 0.

(** A dynamic tree and its static tree, just constructed. *)
Definition empty (shapes : gmap Z BB) : World :=
  mkWorld (mkStore ∅ shapes None 0 0 emptyTreeS emptyTreeS)
          (mkThreads ∅ ∅ ∅ 0 emptyTreeT emptyTreeT []).

(** A shape moves: its box changes, the trees do not. *)
Definition moveShape (w : World) (id : Z) (bx : BB) : World :=
  let s := store w in
  mkWorld (mkStore (objs s) (<[id := bx]> (shapes s)) (velocityFunc s)
             (numNodes s) (numLeaves s) (dynS s) (statS s))
          (threads w).

(** Enough for any descent or climb in the tree. *)
Definition fuel (s : Store) : nat := S (nobjs s).

(** [new Leaf(tree, obj)]. *)
Definition newLeaf (w : World) (id : Z) : option (World * ref) :=
  let s := store w in
  let t := threads w in
  bx ← getBB s id;
  let l := nobjs s in
  Some (mkWorld
          (mkStore (<[l := mkObj true (Some id) bx None None None]> (objs s))
             (shapes s) (velocityFunc s) (numNodes s) (S (numLeaves s))
             (dynS s) (statS s))
          (set_lpairs (set_stamp t l 1) l None),
        l).

Definition insert (w : World) (k : which) (id : Z) : option World :=
  '(w1, leaf) ← newLeaf w id;
  let s1 := store w1 in
  let tr := treeS s1 k in
  let s2 :=
    set_treeS s1 k
      (mkTreeS (<[id := leaf]> (leaves tr)) (count tr) (root tr)
         (pooledNodes tr)) in
  '(s3, r) ← subtreeInsert (fuel s2) s2 k (root (treeS s2 k)) leaf;
  let tr3 := treeS s3 k in
  let s4 :=
    set_treeS s3 k
      (mkTreeS (leaves tr3) (count tr3 + 1) (Some r) (pooledNodes tr3)) in
  let t1 := set_stamp (threads w1) leaf (getStamp (threads w1) k) in
  let t2 := addPairs s4 t1 leaf k in
  Some (mkWorld s4 (incrementStamp t2 k)).

Definition remove (w : World) (k : which) (id : Z) : option World :=
  let s := store w in
  let tr := treeS s k in
  leaf ← leaves tr !! id;
  let s1 :=
    set_treeS s k
      (mkTreeS (delete id (leaves tr)) (count tr) (root tr)
         (pooledNodes tr)) in
  '(s2, r) ← subtreeRemove (fuel s1) s1 k (root (treeS s1 k)) leaf;
  let tr2 := treeS s2 k in
  let s3 :=
    set_treeS s2 k
      (mkTreeS (leaves tr2) (count tr2 - 1) r (pooledNodes tr2)) in
  let t1 := clearPairs (threads w) k leaf in
  s4 ← recycle s3 k leaf;
  Some (mkWorld s4 t1).

Definition contains (w : World) (k : which) (id : Z) : bool :=
  bool_decide (is_Some (leaves (treeS (store w) k) !! id)).

(** [Leaf.update]; the result tells whether the leaf was re-inserted. *)
Definition Leaf_update (w : World) (k : which) (this : ref)
  : option (World * bool) :=
  let s := store w in
  o ← objs s !! this;
  id ← obj o;
  shapebox ← shapes s !! id;
  if containsObj (box o) shapebox then Some (w, false)
  else
    bx ← getBB s id;
    s1 ← update s this (fun x => set_box x bx);
    '(s2, r) ← subtreeRemove (fuel s1) s1 k (root (treeS s1 k)) this;
    '(s3, r') ← subtreeInsert (fuel s2) s2 k r this;
    let s4 := set_root s3 k (Some r') in
    let t1 := clearPairs (threads w) k this in
    let t2 := set_stamp t1 this (getStamp t1 k) in
    Some (mkWorld s4 t2, true).

Definition reindexObject (w : World) (k : which) (id : Z) : option World :=
  match leaves (treeS (store w) k) !! id with
  | Some leaf =>
      '(w1, moved) ← Leaf_update w k leaf;
      let t1 :=
        if (moved : bool) then addPairs (store w1) (threads w1) leaf k
        else threads w1 in
      Some (mkWorld (store w1) (incrementStamp t1 k))
  | None => Some w
  end.

(** The keys of [leaves] in the order of [for (hashid in leaves)]:
    ascending, the keys being integers. *)
Definition key_le (a b : Z * ref) : Prop := a.1 <= b.1.

Global Instance key_le_dec (a b : Z * ref) : Decision (key_le a b).
Proof. unfold key_le. apply _. Defined.

Definition leaves_in_order (tr : TreeS) : list ref :=
  (merge_sort key_le (map_to_list (leaves tr))).*2.

Fixpoint update_all (w : World) (k : which) (ls : list ref) : option World :=
  match ls with
  | [] => Some w
  | l :: ls' => '(w1, _) ← Leaf_update w k l; update_all w1 k ls'
  end.

(** [reindexQuery(func)], with a callback that is recorded in [calls].
    [collideStatic] belongs to [SpatialIndex]; it is reached only when the
    static tree has no root, where there is no static shape to collide
    with. *)
Definition reindexQuery (w : World) (k : which) : option World :=
  match root (treeS (store w) k) with
  | None => Some w
  | Some _ =>
      w1 ← update_all w k (leaves_in_order (treeS (store w) k));
      let s := store w1 in
      let staticRoot :=
        match k with Dynamic => root (statS s) | Static => None end in
      match root (treeS s k) with
      | Some r =>
          let t1 := markSubtree (fuel s) s (threads w1) r k staticRoot true in
          Some (mkWorld s (incrementStamp t1 k))
      | None => None
      end
  end.

(** *** Queries *)

(** [Node.intersectsBB] and [Leaf.intersectsBB]. *)
Definition intersectsBB (this bb : BB) : bool :=
  (bb_l this <=? bb_r bb) && (bb_l bb <=? bb_r this)
  && (bb_b this <=? bb_t bb) && (bb_b bb <=? bb_t this).

(** [subtreeQuery]; the result lists the shapes passed to [func]. *)
Fixpoint subtreeQuery (fuel : nat) (s : Store) (subtree : ref) (bb : BB)
  : option (list Z) :=
  match fuel with
  | O => None
  | S fuel' =>
      o ← objs s !! subtree;
      if intersectsBB (box o) bb then
        if isLeaf o then id ← obj o; Some [id]
        else
          a ← A o; b ← B o;
          la ← subtreeQuery fuel' s a bb;
          lb ← subtreeQuery fuel' s b bb;
          Some (la ++ lb)
      else Some []
  end.

Definition query (w : World) (k : which) (bb : BB) : option (list Z) :=
  match root (treeS (store w) k) with
  | Some r => subtreeQuery (fuel (store w)) (store w) r bb
  | None => Some []
  end.

Definition pointQuery (w : World) (k : which) (vx vy : Z)
  : option (list Z) :=
  query w k (mkBB vx vy vx vy).


(** *** Segment queries

    The end points of the segment are rationals; the fractions along it
    are extended numbers, since [nodeSegmentQuery] divides by zero for an
    axis-parallel segment and returns [Infinity] for a miss. *)

Import XNum.







End BBTree.

(** ** The tree a store holds

    The invariants of the tree are stated on the binary tree of
    references that the [A] and [B] pointers draw from a root. *)

Module TreeShape.

Import BBTree.

Inductive tree : Type :=
| TLeaf (r : ref)
| TNode (r : ref) (a b : tree).

Definition rt (t : tree) : ref :=
  match t with TLeaf r => r | TNode r _ _ => r end.

Fixpoint refs (t : tree) : list ref :=
  match t with
  | TLeaf r => [r]
  | TNode r a b => r :: refs a ++ refs b
  end.

Fixpoint leafs (t : tree) : list ref :=
  match t with
  | TLeaf r => [r]
  | TNode _ a b => leafs a ++ leafs b
  end.

Fixpoint height (t : tree) : nat :=
  match t with
  | TLeaf _ => 1
  | TNode _ a b => S (Nat.max (height a) (height b))
  end.

(** The object at [r] is a leaf, or a node with the children [a] and
    [b]; its [parent] field is not looked at. *)
Definition is_leaf_at (h : gmap ref Obj) (r : ref) : Prop :=
  exists o, h !! r = Some o /\ isLeaf o = true /\ is_Some (obj o).

Definition is_node_at (h : gmap ref Obj) (r a b : ref) : Prop :=
  exists o, h !! r = Some o /\ isLeaf o = false /\ A o = Some a /\ B o = Some b.

Definition parent_at (h : gmap ref Obj) (r : ref) (par : option ref) : Prop :=
  exists o, h !! r = Some o /\ parent o = par.

(** The store holds the tree [t], the parent pointers of the children
    included; [shape] also fixes the parent pointer of the root. *)
Fixpoint shape' (h : gmap ref Obj) (t : tree) : Prop :=
  match t with
  | TLeaf r => is_leaf_at h r
  | TNode r a b =>
      is_node_at h r (rt a) (rt b)
      /\ parent_at h (rt a) (Some r) /\ parent_at h (rt b) (Some r)
      /\ shape' h a /\ shape' h b
  end.

Definition shape (h : gmap ref Obj) (par : option ref) (t : tree) : Prop :=
  shape' h t /\ parent_at h (rt t) par.

(** The box stored at [r]. *)
Definition bx (h : gmap ref Obj) (r : ref) : BB :=
  default (mkBB 0 0 0 0) (box <$> h !! r).

(** Every node's box is the union of its children's. *)
Fixpoint bbok (h : gmap ref Obj) (t : tree) : Prop :=
  match t with
  | TLeaf _ => True
  | TNode r a b =>
      bx h r = merge (bx h (rt a)) (bx h (rt b)) /\ bbok h a /\ bbok h b
  end.

(** A tree with a hole, from the hole up to the root: [InA r c sib] is
    the hole as [A] child of the node [r], whose [B] child is [sib] and
    which itself sits in [c]. *)
Inductive ctx : Type :=
| Top
| InA (r : ref) (c : ctx) (sib : tree)
| InB (r : ref) (sib : tree) (c : ctx).

Fixpoint plug (c : ctx) (t : tree) : tree :=
  match c with
  | Top => t
  | InA r c' sib => plug c' (TNode r t sib)
  | InB r sib c' => plug c' (TNode r sib t)
  end.

(** [comp c outer]: the context [c] put into the hole of [outer]. *)
Fixpoint comp (c outer : ctx) : ctx :=
  match c with
  | Top => outer
  | InA r c' sib => InA r (comp c' outer) sib
  | InB r sib c' => InB r sib (comp c' outer)
  end.

Fixpoint ctx_refs (c : ctx) : list ref :=
  match c with
  | Top => []
  | InA r c' sib => r :: refs sib ++ ctx_refs c'
  | InB r sib c' => r :: refs sib ++ ctx_refs c'
  end.

(** The nodes on the way from the hole to the root. *)
Fixpoint ctx_path (c : ctx) : list ref :=
  match c with
  | Top => []
  | InA r c' _ => r :: ctx_path c'
  | InB r _ c' => r :: ctx_path c'
  end.

Definition ctx_parent (c : ctx) : option ref :=
  match c with
  | Top => None
  | InA r _ _ => Some r
  | InB r _ _ => Some r
  end.

(** The store holds the nodes of the context [c] around a hole filled by
    the object [x]. *)
Fixpoint ctx_shape (h : gmap ref Obj) (c : ctx) (x : ref) : Prop :=
  match c with
  | Top => True
  | InA r c' sib =>
      is_node_at h r x (rt sib) /\ parent_at h (rt sib) (Some r)
      /\ shape' h sib /\ parent_at h r (ctx_parent c') /\ ctx_shape h c' r
  | InB r sib c' =>
      is_node_at h r (rt sib) x /\ parent_at h (rt sib) (Some r)
      /\ shape' h sib /\ parent_at h r (ctx_parent c') /\ ctx_shape h c' r
  end.

Fixpoint ctx_bbok (h : gmap ref Obj) (c : ctx) (x : ref) : Prop :=
  match c with
  | Top => True
  | InA r c' sib =>
      bx h r = merge (bx h x) (bx h (rt sib)) /\ bbok h sib
      /\ ctx_bbok h c' r
  | InB r sib c' =>
      bx h r = merge (bx h (rt sib)) (bx h x) /\ bbok h sib
      /\ ctx_bbok h c' r
  end.

(** The boxes of the subtrees that hang off the context are exact. *)
Fixpoint sibs_bbok (h : gmap ref Obj) (c : ctx) : Prop :=
  match c with
  | Top => True
  | InA _ c' sib => bbok h sib /\ sibs_bbok h c'
  | InB _ sib c' => bbok h sib /\ sibs_bbok h c'
  end.

(** The free list of nodes that starts at [head], threaded through
    [parent]. *)
Fixpoint pool_ok (h : gmap ref Obj) (head : option ref) (l : list ref)
  : Prop :=
  match l with
  | [] => head = None
  | r :: l' =>
      head = Some r
      /\ exists o, h !! r = Some o /\ isLeaf o = false
                   /\ pool_ok h (parent o) l'
  end.

(** A leaf was put in place of a leaf [p] of the first tree: the second
    has the node [N] there, with the new leaf [L] as [A] child and [p] as
    [B] child. *)
Inductive tins (L N : ref) : tree -> tree -> Prop :=
| tins_leaf p : tins L N (TLeaf p) (TNode N (TLeaf L) (TLeaf p))
| tins_A r a a' b : tins L N a a' -> tins L N (TNode r a b) (TNode r a' b)
| tins_B r a b b' : tins L N b b' -> tins L N (TNode r a b) (TNode r a b').

(** [h'] has the objects of [h] at the references of [X]. *)
Definition agree (X : list ref) (h h' : gmap ref Obj) : Prop :=
  forall r, r ∈ X -> h' !! r = h !! r.

(** The two stores differ at most in their objects, in the node pool of
    the index [k] and in the number of nodes. *)
Definition same_index (s s' : Store) (k : which) : Prop :=
  leaves (treeS s' k) = leaves (treeS s k)
  /\ count (treeS s' k) = count (treeS s k)
  /\ root (treeS s' k) = root (treeS s k)
  /\ (forall k', k' <> k -> treeS s' k' = treeS s k')
  /\ shapes s' = shapes s /\ velocityFunc s' = velocityFunc s
  /\ numLeaves s' = numLeaves s.

(** Every object of the store was allocated. *)
Definition alloc (s : Store) : Prop :=
  forall r, is_Some (objs s !! r) -> (r < nobjs s)%nat.

(** The node [new Node(tree, a, b)] makes of two parentless objects. *)
Definition node_of (oa ob : Obj) (a b : ref) : Obj :=
  mkObj false None (merge (box oa) (box ob)) None (Some a) (Some b).

(** The pointer fields of the object at [r], with and without [parent],
    and [setA]/[setB] as one function of the side. *)
Definition lk (h : gmap ref Obj) (r : ref)
  : option (bool * option Z * option ref * option ref * option ref) :=
  (fun o => (isLeaf o, obj o, parent o, A o, B o)) <$> h !! r.

Definition lk' (h : gmap ref Obj) (r : ref)
  : option (bool * option Z * option ref * option ref) :=
  (fun o => (isLeaf o, obj o, A o, B o)) <$> h !! r.

Definition set_child (d : bool) (o : Obj) (q : option ref) : Obj :=
  if d then set_B o q else set_A o q.

Definition setChild (d : bool) (s : Store) (node value : ref)
  : option Store :=
  if d then setB s node value else setA s node value.

(** The two stores differ in their objects only. *)
Definition same_but_objs (s s' : Store) : Prop :=
  dynS s' = dynS s /\ statS s' = statS s /\ shapes s' = shapes s
  /\ velocityFunc s' = velocityFunc s /\ numNodes s' = numNodes s
  /\ numLeaves s' = numLeaves s.

(** Objects that are leaves keep their shape and box from [h] to [h']. *)
Definition leaves_kept (h h' : gmap ref Obj) : Prop :=
  forall r o, h !! r = Some o -> isLeaf o = true ->
    exists o', h' !! r = Some o' /\ isLeaf o' = true /\ obj o' = obj o
               /\ box o' = box o.

(** What [subtreeInsert] does to a store [s] that holds the tree [t]
    below the parent [par], when given the parentless leaf [L]: the store
    [s'] holds [t'], which has [L] in it below a node [N] taken from the
    pool [pl] of the index (leaving [pl']) or newly allocated. *)
Definition ins_post (k : which) (L : ref) (oL : Obj) (s : Store)
    (pl : list ref) (par : option ref) (t : tree) (s' : Store) (t' : tree)
    (N : ref) (pl' : list ref) : Prop :=
  tins L N t t'
  /\ (pl = N :: pl' \/ (pl = [] /\ pl' = [] /\ N = nobjs s))
  /\ N <> L
  /\ shape' (objs s') t'
  /\ parent_at (objs s') (rt t')
       (match t with TLeaf _ => None | TNode _ _ _ => par end)
  /\ bbok (objs s') t'
  /\ bx (objs s') (rt t') = merge (bx (objs s) (rt t)) (box oL)
  /\ (forall r, r ∉ refs t -> r <> L -> r <> N ->
                objs s' !! r = objs s !! r)
  /\ leaves_kept (objs s) (objs s')
  /\ pool_ok (objs s') (pooledNodes (treeS s' k)) pl'
  /\ same_index s s' k /\ alloc s' /\ (nobjs s <= nobjs s')%nat.

(** The node [r] with the child [ch] on the side [d] ([true] for [B]) and
    [sib] on the other. *)
Definition node (d : bool) (r : ref) (ch sib : tree) : tree :=
  if d then TNode r sib ch else TNode r ch sib.

(** The context whose innermost node is [r], with the hole on the side
    [d] ([true] for [B]). *)
Definition cons_ctx (d : bool) (r : ref) (c : ctx) (sib : tree) : ctx :=
  if d then InB r sib c else InA r c sib.

(** The boxes of the nodes on the way up from the hole, filled by [x],
    are the unions of their children's. *)
Fixpoint path_exact (h : gmap ref Obj) (c : ctx) (x : ref) : Prop :=
  match c with
  | Top => True
  | InA r c' sib =>
      bx h r = merge (bx h x) (bx h (rt sib)) /\ path_exact h c' r
  | InB r sib c' =>
      bx h r = merge (bx h (rt sib)) (bx h x) /\ path_exact h c' r
  end.

(** What is left of a tree when the leaf in the hole of [c] is removed:
    the sibling takes the place of the innermost node. *)
Definition tdel (c : ctx) : option tree :=
  match c with
  | Top => None
  | InA _ c' sib => Some (plug c' sib)
  | InB _ sib c' => Some (plug c' sib)
  end.

(** The root of the tree around a hole filled by [x]. *)
Fixpoint ctx_root (c : ctx) (x : ref) : ref :=
  match c with
  | Top => x
  | InA r c' _ => ctx_root c' r
  | InB r _ c' => ctx_root c' r
  end.

(** What [subtreeRemove] does to a store [s] that holds a tree with the
    leaf [L] below the node [N], whose other child is [sib] and which sits
    in the context [c']: the store [s'] holds the tree with [sib] in the
    place of [N], and [N] heads the node pool of the index. *)
Definition rem_post (k : which) (L N : ref) (c' : ctx) (sib : tree)
    (s : Store) (pl : list ref) (s' : Store) : Prop :=
  shape (objs s') None (plug c' sib)
  /\ bbok (objs s') (plug c' sib)
  /\ pool_ok (objs s') (pooledNodes (treeS s' k)) (N :: pl)
  /\ (forall x, x <> N -> x ∉ refs sib -> x ∉ ctx_refs c' ->
                objs s' !! x = objs s !! x)
  /\ leaves_kept (objs s) (objs s')
  /\ (forall x, is_Some (objs s' !! x) -> is_Some (objs s !! x))
  /\ same_index s s' k /\ numNodes s' = numNodes s.

Fixpoint ctx_leafs (c : ctx) : list ref :=
  match c with
  | Top => []
  | InA _ c' sib => leafs sib ++ ctx_leafs c'
  | InB _ sib c' => leafs sib ++ ctx_leafs c'
  end.

(** The tree of an index: none when [root] is [null]. *)
Definition holds (s : Store) (k : which) (ot : option tree) : Prop :=
  match ot with
  | None => root (treeS s k) = None
  | Some t =>
      root (treeS s k) = Some (rt t)
      /\ shape (objs s) None t /\ bbok (objs s) t
  end.

Definition orefs (ot : option tree) : list ref :=
  match ot with Some t => refs t | None => [] end.

Definition oleafs (ot : option tree) : list ref :=
  match ot with Some t => leafs t | None => [] end.

Definition other (k : which) : which :=
  match k with Dynamic => Static | Static => Dynamic end.

(** The invariant of the store, seen from the index [k]: [k] holds the
    tree [ot] and the other index the tree [ot'], with exact boxes; [pl]
    and [pl'] are their node pools; the two trees and the two pools share
    no object; every object was allocated; every leaf of [leaves] is a leaf
    of its tree, filed under the [hashid] of its shape; and every leaf in a
    tree stands for a known shape. *)
Record inv_k (s : Store) (k : which) (ot ot' : option tree)
    (pl pl' : list ref) : Prop := {
  inv_own : holds s k ot;
  inv_other : holds s (other k) ot';
  inv_pool : pool_ok (objs s) (pooledNodes (treeS s k)) pl;
  inv_pool' : pool_ok (objs s) (pooledNodes (treeS s (other k))) pl';
  inv_nodup : NoDup (orefs ot ++ orefs ot' ++ pl ++ pl');
  inv_alloc : alloc s;
  inv_leaves :
    forall id l, leaves (treeS s k) !! id = Some l -> l ∈ oleafs ot;
  inv_leaves' :
    forall id l, leaves (treeS s (other k)) !! id = Some l -> l ∈ oleafs ot';
  inv_keys :
    forall k' id l, leaves (treeS s k') !! id = Some l ->
                    exists o, objs s !! l = Some o /\ obj o = Some id;
  inv_shapes :
    forall l o, l ∈ oleafs ot ++ oleafs ot' -> objs s !! l = Some o ->
                exists id, obj o = Some id /\ is_Some (shapes s !! id)
}.

Definition inv (s : Store) : Prop :=
  exists td ts pd ps, inv_k s Dynamic td ts pd ps.

(** How the tree of the index changed by an insertion of the leaf [L]. *)
Definition inserted (L : ref) (ot : option tree) (t' : tree)
    (pl pl2 : list ref) : Prop :=
  match ot with
  | None => t' = TLeaf L /\ pl2 = pl
  | Some t =>
      exists N, tins L N t t' /\ (N ∉ refs t)
                /\ (pl = N :: pl2 \/ (pl = [] /\ pl2 = []))
  end.

(** What [subtreeRemove] returns and leaves behind at the leaf [L] in the
    context [c]. *)
Definition removed (k : which) (L : ref) (c : ctx) (s : Store)
    (pl : list ref) (s' : Store) (r : option ref) : Prop :=
  match c with
  | Top => s' = s /\ r = None
  | InA N c' sib | InB N sib c' =>
      r = Some (rt (plug c' sib)) /\ rem_post k L N c' sib s pl s'
  end.

(** The node pool of the index after the removal at the context [c]. *)
Definition removed_pool (c : ctx) (pl : list ref) : list ref :=
  match c with
  | Top => pl
  | InA N _ _ | InB N _ _ => N :: pl
  end.

(** *** What the claims speak of, on the store itself *)

(** The object reached from [r] by the path [path] through nodes
    ([false] for [A], [true] for [B]); a leaf has no children. *)
Fixpoint at_path (h : gmap ref Obj) (r : ref) (path : list bool)
  : option ref :=
  match path with
  | [] => Some r
  | d :: path' =>
      o ← h !! r;
      if isLeaf o then None
      else c ← (if d : bool then B o else A o); at_path h c path'
  end.

(** The shape stored in the leaf [r]. *)
Definition oid (h : gmap ref Obj) (r : ref) : option Z := o ← h !! r; obj o.

(** What [subtreeQuery] passes to [func] on the tree [t]: the shapes of
    the leaves whose box, and the boxes on the way to them, meet [bb]; the
    [A] side first. *)
Fixpoint tquery (h : gmap ref Obj) (t : tree) (bb : BB) : list Z :=
  match t with
  | TLeaf r =>
      if intersectsBB (bx h r) bb then
        match oid h r with Some id => [id] | None => [] end
      else []
  | TNode r a b =>
      if intersectsBB (bx h r) bb then tquery h a bb ++ tquery h b bb
      else []
  end.

(** *** Segment queries on a tree *)





(** The subtree of [t] at the path [path]. *)
Fixpoint sub_at (t : tree) (path : list bool) : option tree :=
  match path, t with
  | [], _ => Some t
  | d :: path', TNode _ a b => sub_at (if d then b else a) path'
  | _ :: _, TLeaf _ => None
  end.

(** The node at [r] has its box equal to the union of its children's. *)
Definition exact_box (h : gmap ref Obj) (r : ref) : Prop :=
  forall o, h !! r = Some o -> isLeaf o = false ->
    exists a b oa ob,
      A o = Some a /\ B o = Some b /\ h !! a = Some oa /\ h !! b = Some ob
      /\ bb_l (box o) = Z.min (bb_l (box oa)) (bb_l (box ob))
      /\ bb_b (box o) = Z.min (bb_b (box oa)) (bb_b (box ob))
      /\ bb_r (box o) = Z.max (bb_r (box oa)) (bb_r (box ob))
      /\ bb_t (box o) = Z.max (bb_t (box oa)) (bb_t (box ob)).

(** The tree invariant of the specification, for the index [k]. *)
Definition tree_invariant (s : Store) (k : which) : Prop :=
  (forall r path n,
      root (treeS s k) = Some r ->
      at_path (objs s) r path = Some n -> exact_box (objs s) n)
  /\ (forall id l,
      leaves (treeS s k) !! id = Some l ->
      exists r path,
        root (treeS s k) = Some r
        /\ at_path (objs s) r path = Some l
        /\ forall path', at_path (objs s) r path' = Some l -> path' = path).

End TreeShape.

(** ** The methods of [BBTree] on the tree structure

    What [insert], [remove] and [Leaf.update] do to the first part of the
    store; their effect on the pair threads does not enter. *)

Module Structure.

Import BBTree.
Open Scope Z_scope.

(** The store with a new leaf for the shape [id], filed in [leaves]. *)
Definition with_leaf (s : Store) (k : which) (id : Z) (bxv : BB) : Store :=
  let leaf := nobjs s in
  let s1 :=
    mkStore (<[leaf := mkObj true (Some id) bxv None None None]> (objs s))
      (shapes s) (velocityFunc s) (numNodes s) (S (numLeaves s)) (dynS s)
      (statS s) in
  let tr := treeS s1 k in
  set_treeS s1 k
    (mkTreeS (<[id := leaf]> (leaves tr)) (count tr) (root tr)
       (pooledNodes tr)).

Definition insertS (s : Store) (k : which) (id : Z) : option Store :=
  bx ← getBB s id;
  let leaf := nobjs s in
  let s1 :=
    mkStore (<[leaf := mkObj true (Some id) bx None None None]> (objs s))
      (shapes s) (velocityFunc s) (numNodes s) (S (numLeaves s)) (dynS s)
      (statS s) in
  let tr := treeS s1 k in
  let s2 :=
    set_treeS s1 k
      (mkTreeS (<[id := leaf]> (leaves tr)) (count tr) (root tr)
         (pooledNodes tr)) in
  '(s3, r) ← subtreeInsert (fuel s2) s2 k (root (treeS s2 k)) leaf;
  let tr3 := treeS s3 k in
  Some (set_treeS s3 k
          (mkTreeS (leaves tr3) (count tr3 + 1) (Some r) (pooledNodes tr3))).

(** The store of [remove] before [subtreeRemove] runs. *)
Definition without_key (s : Store) (k : which) (id : Z) : Store :=
  let tr := treeS s k in
  set_treeS s k
    (mkTreeS (delete id (leaves tr)) (count tr) (root tr) (pooledNodes tr)).

Definition removeS (s : Store) (k : which) (id : Z) : option Store :=
  let tr := treeS s k in
  leaf ← leaves tr !! id;
  let s1 :=
    set_treeS s k
      (mkTreeS (delete id (leaves tr)) (count tr) (root tr)
         (pooledNodes tr)) in
  '(s2, r) ← subtreeRemove (fuel s1) s1 k (root (treeS s1 k)) leaf;
  let tr2 := treeS s2 k in
  let s3 :=
    set_treeS s2 k
      (mkTreeS (leaves tr2) (count tr2 - 1) r (pooledNodes tr2)) in
  recycle s3 k leaf.

Definition updateS (s : Store) (k : which) (this : ref)
  : option (Store * bool) :=
  o ← objs s !! this;
  id ← obj o;
  shapebox ← shapes s !! id;
  if containsObj (box o) shapebox then Some (s, false)
  else
    bx ← getBB s id;
    s1 ← update s this (fun x => set_box x bx);
    '(s2, r) ← subtreeRemove (fuel s1) s1 k (root (treeS s1 k)) this;
    '(s3, r') ← subtreeInsert (fuel s2) s2 k r this;
    Some (set_root s3 k (Some r'), true).

Definition reindexObjectS (s : Store) (k : which) (id : Z) : option Store :=
  match leaves (treeS s k) !! id with
  | Some leaf => '(s1, _) ← updateS s k leaf; Some s1
  | None => Some s
  end.

Fixpoint update_allS (s : Store) (k : which) (ls : list ref) : option Store :=
  match ls with
  | [] => Some s
  | l :: ls' => '(s1, _) ← updateS s k l; update_allS s1 k ls'
  end.

Definition reindexQueryS (s : Store) (k : which) : option Store :=
  match root (treeS s k) with
  | None => Some s
  | Some _ =>
      s1 ← update_allS s k (leaves_in_order (treeS s k));
      match root (treeS s1 k) with Some _ => Some s1 | None => None end
  end.

Definition moveShapeS (s : Store) (id : Z) (bx : BB) : Store :=
  mkStore (objs s) (<[id := bx]> (shapes s)) (velocityFunc s) (numNodes s)
    (numLeaves s) (dynS s) (statS s).

(** A client sets [velocityFunc], which the constructor left [null]. *)
Definition setVelocityFuncS (s : Store) (f : option (Z -> BB -> BB))
  : Store :=
  mkStore (objs s) (shapes s) f (numNodes s) (numLeaves s) (dynS s)
    (statS s).

Definition setVelocityFunc (w : World) (f : option (Z -> BB -> BB))
  : World :=
  mkWorld (setVelocityFuncS (store w) f) (threads w).

(** The stores that a dynamic tree and its static tree go through: from
    construction on, shapes are inserted, removed, moved and re-indexed. *)
Inductive reachable : Store -> Prop :=
| reach_empty shapes :
    reachable (store (empty shapes))
| reach_insert s k id s' :
    reachable s -> insertS s k id = Some s' -> reachable s'
| reach_remove s k id s' :
    reachable s -> removeS s k id = Some s' -> reachable s'
| reach_move s id bx :
    reachable s -> reachable (moveShapeS s id bx)
| reach_velocity s f :
    reachable s -> reachable (setVelocityFuncS s f)
| reach_reindexObject s k id s' :
    reachable s -> reindexObjectS s k id = Some s' -> reachable s'
| reach_reindexQuery s k s' :
    reachable s -> reindexQueryS s k = Some s' -> reachable s'.

(** The same for the whole state, by the methods themselves. *)
Inductive reached : World -> Prop :=
| reached_empty shapes :
    reached (empty shapes)
| reached_insert w k id w' :
    reached w -> insert w k id = Some w' -> reached w'
| reached_remove w k id w' :
    reached w -> remove w k id = Some w' -> reached w'
| reached_move w id bx :
    reached w -> reached (moveShape w id bx)
| reached_velocity w f :
    reached w -> reached (setVelocityFunc w f)
| reached_reindexObject w k id w' :
    reached w -> reindexObject w k id = Some w' -> reached w'
| reached_reindexQuery w k w' :
    reached w -> reindexQuery w k = Some w' -> reached w'.

(** A call of a method, and a sequence of calls from a state on. *)
Inductive method_call : Type :=
| Insert (k : which) (id : Z)
| Remove (k : which) (id : Z)
| Move (id : Z) (bx : BB)
| SetVelocity (f : option (Z -> BB -> BB))
| ReindexObject (k : which) (id : Z)
| ReindexQuery (k : which).

Definition do_call (w : World) (c : method_call) : option World :=
  match c with
  | Insert k id => insert w k id
  | Remove k id => remove w k id
  | Move id bx => Some (moveShape w id bx)
  | SetVelocity f => Some (setVelocityFunc w f)
  | ReindexObject k id => reindexObject w k id
  | ReindexQuery k => reindexQuery w k
  end.

Fixpoint do_calls (w : World) (cs : list method_call) : option World :=
  match cs with
  | [] => Some w
  | c :: cs' => w1 ← do_call w c; do_calls w1 cs'
  end.

(** What a call needs: [insert] a shape that exists, [remove] a shape that
    is in the index. *)
Definition call_ok (w : World) (c : method_call) : Prop :=
  match c with
  | Insert _ id => is_Some (shapes (store w) !! id)
  | Remove k id => is_Some (leaves (treeS (store w) k) !! id)
  | _ => True
  end.

(** Three shapes, two of which overlap; one is dynamic and moves. *)
Module SampleTree.

Definition shapes : gmap Z BB :=
  <[1 := mkBB 0 0 10 10]>
    (<[2 := mkBB 5 5 15 15]> (<[3 := mkBB 40 40 50 50]> ∅)).

Definition calls : list method_call :=
  [Insert Static 1; Insert Dynamic 2; Insert Dynamic 3;
   Move 3 (mkBB 8 8 12 12); ReindexQuery Dynamic; Insert Static 3;
   Remove Dynamic 2; ReindexObject Dynamic 3].

Definition world : World :=
  default (empty shapes) (do_calls (empty shapes) calls).

End SampleTree.

(** Three overlapping dynamic shapes, the last of which is removed: a
    node and a pair are left in the pools. *)
Module SamplePool.

Definition shapes : gmap Z BB :=
  <[1 := mkBB 0 0 10 10]>
    (<[2 := mkBB 5 5 15 15]> (<[3 := mkBB 8 8 12 12]> ∅)).

Definition calls : list method_call :=
  [Insert Dynamic 1; Insert Dynamic 2; Insert Dynamic 3; Remove Dynamic 3].

Definition world : World :=
  default (empty shapes) (do_calls (empty shapes) calls).

End SamplePool.

(** A static shape and then a dynamic shape that overlaps it, the first
    two calls on the trees. *)
Module SampleMiss.

Definition shapes : gmap Z BB :=
  <[1 := mkBB 0 0 10 10]> (<[2 := mkBB 5 5 15 15]> ∅).

Definition calls : list method_call := [Insert Static 1; Insert Dynamic 2].

Definition world : World :=
  default (empty shapes) (do_calls (empty shapes) calls).

End SampleMiss.

(** One shape in the dynamic tree, and a segment that passes it by. *)
Module SampleSegment.

Definition shapes : gmap Z BB := <[1 := mkBB 10 10 11 11]> ∅.

Definition world : World :=
  default (empty shapes) (do_calls (empty shapes) [Insert Dynamic 1]).

(** The callback reports a hit half way. *)
Definition func (id : Z) : XNum.xnum := XNum.Fin (1 # 2).

End SampleSegment.

(** One shape, inserted into empty trees. *)
Module SampleLeaf.

Definition shapes : gmap Z BB := <[1 := mkBB 0 0 10 10]> ∅.

End SampleLeaf.

End Structure.

(** ** Further properties of the joints *)


(** ** Bounding boxes ([bb.ts])

    A [BB] has the fields [l], [b], [r], [t]: left, bottom, right, top.
    The functions embedded here compare, take minima and maxima and
    measure areas; they are embedded over the exact rationals. *)

Module Bbox.

Record BB : Type := mkBB { l : Q; b : Q; r : Q; t : Q }.

Definition bb (l b r t : Q) : BB := mkBB l b r t.

Definition bbIntersects (a1 a2 : BB) : bool :=
  Qle_bool (l a1) (r a2) && Qle_bool (l a2) (r a1)
  && Qle_bool (b a1) (t a2) && Qle_bool (b a2) (t a1).

Definition bbIntersects2 (a1 : BB) (l2 b2 r2 t2 : Q) : bool :=
  Qle_bool (l a1) r2 && Qle_bool l2 (r a1)
  && Qle_bool (b a1) t2 && Qle_bool b2 (t a1).

Definition bbContainsBB (a1 other : BB) : bool :=
  Qle_bool (l a1) (l other) && Qle_bool (r other) (r a1)
  && Qle_bool (b a1) (b other) && Qle_bool (t other) (t a1).

Definition bbContainsVect (a1 : BB) (v : Vect) : bool :=
  Qle_bool (l a1) (x v) && Qle_bool (x v) (r a1)
  && Qle_bool (b a1) (y v) && Qle_bool (y v) (t a1).

Definition bbContainsVect2 (l1 b1 r1 t1 : Q) (v : Vect) : bool :=
  Qle_bool l1 (x v) && Qle_bool (x v) r1
  && Qle_bool b1 (y v) && Qle_bool (y v) t1.

Definition bbMerge (a1 a2 : BB) : BB :=
  mkBB (Qmin (l a1) (l a2)) (Qmin (b a1) (b a2))
       (Qmax (r a1) (r a2)) (Qmax (t a1) (t a2)).

Definition bbExpand (a1 : BB) (v : Vect) : BB :=
  mkBB (Qmin (l a1) (x v)) (Qmin (b a1) (y v))
       (Qmax (r a1) (x v)) (Qmax (t a1) (y v)).

Definition bbArea (a1 : BB) : Q := (r a1 - l a1) * (t a1 - b a1).

Definition bbMergedArea (a1 a2 : BB) : Q :=
  (Qmax (r a1) (r a2) - Qmin (l a1) (l a2))
  * (Qmax (t a1) (t a2) - Qmin (b a1) (b a2)).

Definition bbMergedArea2 (a1 : BB) (l2 b2 r2 t2 : Q) : Q :=
  (Qmax (r a1) r2 - Qmin (l a1) l2) * (Qmax (t a1) t2 - Qmin (b a1) b2).

(** A box is well formed when its left is not right of its right and its
    bottom not above its top. *)
Definition wf (a1 : BB) : Prop := l a1 <= r a1 /\ b a1 <= t a1.

(** The box [a1] holds the point [v], as a proposition. *)
Definition holds (a1 : BB) (v : Vect) : Prop :=
  l a1 <= x v <= r a1 /\ b a1 <= y v <= t a1.

(** Every point of [other] is a point of [a1]. *)
Definition within (other a1 : BB) : Prop := forall v, holds other v -> holds a1 v.

End Bbox.

(** ** The index as its clients see it

    What the queries report and what [count] counts, in terms of the
    leaves that hang in a tree and of the shapes filed in [leaves]. *)

Module Index.

Import BBTree TreeShape Structure.
Open Scope Z_scope.

(** The object [l] hangs in the tree of the index [k]: a path leads from
    the root to it. *)
Definition hangs (s : Store) (k : which) (l : ref) : Prop :=
  exists r path,
    root (treeS s k) = Some r /\ at_path (objs s) r path = Some l.

(** The object [l] is the leaf of the shape [id], with the box [b]. *)
Definition leaf_of (s : Store) (l : ref) (id : Z) (b : BB) : Prop :=
  exists o,
    objs s !! l = Some o /\ isLeaf o = true /\ obj o = Some id /\ box o = b.

(** Every leaf that hangs in the tree of [k] is the one filed in [leaves]
    under the [hashid] of its shape. *)
Definition filed (s : Store) (k : which) : Prop :=
  forall l id b,
    hangs s k l -> leaf_of s l id b -> leaves (treeS s k) !! id = Some l.

(** The box of the leaf [l] holds the box that its shape has now. *)
Definition leaf_current (s : Store) (l : ref) : Prop :=
  exists id lb sb,
    leaf_of s l id lb /\ shapes s !! id = Some sb
    /\ containsObj lb sb = true.

(** The leaf filed for the shape [id] holds the box the shape has now. *)
Definition current (s : Store) (k : which) (id : Z) : Prop :=
  exists l lb sb,
    leaves (treeS s k) !! id = Some l /\ leaf_of s l id lb
    /\ shapes s !! id = Some sb /\ containsObj lb sb = true.

(** The box that [getBB] computes holds the shape's box: so it is for
    [velocityFunc = null], where it is the shape's box. *)
Definition expansive (f : option (Z -> BB -> BB)) : Prop :=
  match f with
  | Some g => forall id b, containsObj (g id b) b = true
  | None => True
  end.

(** The leaves below [r], from the [A] side to the [B] side. *)
Fixpoint subtree_leaves (fuel : nat) (h : gmap ref Obj) (r : ref)
  : option (list ref) :=
  match fuel with
  | O => None
  | S fuel' =>
      o ← h !! r;
      if isLeaf o then Some [r]
      else
        a ← A o; b ← B o;
        la ← subtree_leaves fuel' h a;
        lb ← subtree_leaves fuel' h b;
        Some (la ++ lb)
  end.

Definition tree_leaves (s : Store) (k : which) : option (list ref) :=
  match root (treeS s k) with
  | Some r => subtree_leaves (fuel s) (objs s) r
  | None => Some []
  end.

(** [each(func)]: the shapes passed to [func], in the order of
    [for (hashid in this.leaves)]. *)
Definition each (w : World) (k : which) : option (list Z) :=
  mapM (fun l => o ← objs (store w) !! l; obj o)
       (leaves_in_order (treeS (store w) k)).

(** The objects that are leaves in [h] are leaves in [h'], of the same
    shapes. *)
Definition ids_kept (h h' : gmap ref Obj) : Prop :=
  forall l o, h !! l = Some o -> isLeaf o = true ->
    exists o', h' !! l = Some o' /\ isLeaf o' = true /\ obj o' = obj o.

(** [count] of the index [k] is the number of leaves of the tree [ot]. *)
Definition counted (s : Store) (k : which) (ot : option tree) : Prop :=
  count (treeS s k) = Z.of_nat (length (oleafs ot)).

(** The invariant of the store together with what the counters are. *)
Definition counted_inv (s : Store) : Prop :=
  exists td ts pd ps,
    inv_k s Dynamic td ts pd ps /\ counted s Dynamic td
    /\ counted s Static ts.

(** The callbacks [func(leaf.obj, l.obj)] for the leaves [l] of [ls] whose
    box meets the box of [leaf], the latest first. *)
Definition callbacks (s : Store) (leaf : ref) (ls : list ref)
  : list (Z * Z) :=
  rev (map (fun l => (obj_of s leaf, obj_of s l))
         (List.filter
            (fun l => bbTreeIntersectsNode (bx (objs s) leaf) (bx (objs s) l))
            ls)).

(** The books of the two indexes: the leaves filed and the counters. *)
Definition books (s : Store) : (gmap Z ref * Z) * (gmap Z ref * Z) :=
  ((leaves (dynS s), count (dynS s)), (leaves (statS s), count (statS s))).

(** Every leaf of the tree [ot] is the one filed in [leaves] under the
    [hashid] of its shape. *)
Definition filed_in (s : Store) (k : which) (ot : option tree) : Prop :=
  forall l o id,
    l ∈ oleafs ot -> objs s !! l = Some o -> obj o = Some id ->
    leaves (treeS s k) !! id = Some l.

(** The invariant of the store together with the filing of the leaves. *)
Definition filed_inv (s : Store) : Prop :=
  exists td ts pd ps,
    inv_k s Dynamic td ts pd ps /\ filed_in s Dynamic td
    /\ filed_in s Static ts.

(** The states that the methods lead to when no shape is inserted into an
    index that it is in. *)
Inductive reached_fresh : World -> Prop :=
| fresh_empty shapes :
    reached_fresh (empty shapes)
| fresh_insert w k id w' :
    reached_fresh w -> contains w k id = false ->
    insert w k id = Some w' -> reached_fresh w'
| fresh_remove w k id w' :
    reached_fresh w -> remove w k id = Some w' -> reached_fresh w'
| fresh_move w id bx :
    reached_fresh w -> reached_fresh (moveShape w id bx)
| fresh_velocity w f :
    reached_fresh w -> reached_fresh (setVelocityFunc w f)
| fresh_reindexObject w k id w' :
    reached_fresh w -> reindexObject w k id = Some w' -> reached_fresh w'
| fresh_reindexQuery w k w' :
    reached_fresh w -> reindexQuery w k = Some w' -> reached_fresh w'.

(** A call that inserts a shape inserts one that is not in the index. *)
Definition call_fresh (w : World) (c : method_call) : Prop :=
  match c with
  | Insert k id => contains w k id = false
  | _ => True
  end.

(** Every call of the sequence [cs], run from [w] on, is fresh. *)
Fixpoint calls_fresh (w : World) (cs : list method_call) : Prop :=
  match cs with
  | [] => True
  | c :: cs' =>
      call_fresh w c
      /\ match do_call w c with
         | Some w1 => calls_fresh w1 cs'
         | None => True
         end
  end.


End Index.

(** ** The threads of pairs

    Every leaf heads a doubly linked thread of the pairs it is in; a pair
    sits in the threads of its two leaves. *)

Module ThreadInv.

Import BBTree TreeShape Structure Index.
Open Scope Z_scope.

(** The link fields of the pair [x] in the thread of the leaf [l]. *)
Definition next_of (l : ref) (x : Pair) : option pref :=
  if decide (leafA x = l) then nextA x else nextB x.

Definition prev_of (l : ref) (x : Pair) : option pref :=
  if decide (leafA x = l) then prevA x else prevB x.

(** [x] with a link field on the side of [l] set, as [unlinkThread] and
    [pairInsert] set it. *)
Definition with_prev (l : ref) (v : option pref) (x : Pair) : Pair :=
  if decide (leafA x = l) then set_prevA x v else set_prevB x v.

Definition with_next (l : ref) (v : option pref) (x : Pair) : Pair :=
  if decide (leafA x = l) then set_nextA x v else set_nextB x v.

(** The pair [x'] is to the thread of [l] what [x] is. *)
Definition same_links (l : ref) (x x' : Pair) : Prop :=
  leafA x' = leafA x /\ leafB x' = leafB x
  /\ next_of l x' = next_of l x /\ prev_of l x' = prev_of l x.

(** The same but for the back link. *)
Definition same_next (l : ref) (x x' : Pair) : Prop :=
  leafA x' = leafA x /\ leafB x' = leafB x /\ next_of l x' = next_of l x.

(** The leaf [l] is one of the two leaves of the pair [x]. *)
Definition on (l : ref) (x : Pair) : Prop := leafA x = l \/ leafB x = l.

(** The thread of [l] from [head] on holds the pairs [th] in this order;
    [prev] is what the first of them has as its predecessor. *)
Fixpoint chain (ps : gmap pref Pair) (l : ref) (prev head : option pref)
    (th : list pref) : Prop :=
  match th with
  | [] => head = None
  | p :: th' =>
      head = Some p
      /\ exists x,
           ps !! p = Some x /\ on l x /\ leafA x <> leafB x
           /\ prev_of l x = prev
           /\ chain ps l (Some p) (next_of l x) th'
  end.

(** The same without the back links: what is left of the thread of a
    leaf while [clearPairs] takes it apart. *)
Fixpoint nchain (ps : gmap pref Pair) (l : ref) (head : option pref)
    (th : list pref) : Prop :=
  match th with
  | [] => head = None
  | p :: th' =>
      head = Some p
      /\ exists x,
           ps !! p = Some x /\ on l x /\ leafA x <> leafB x
           /\ nchain ps l (next_of l x) th'
  end.

(** The free list of pairs, threaded through [prevA]. *)
Fixpoint ppool (ps : gmap pref Pair) (head : option pref) (l : list pref)
  : Prop :=
  match l with
  | [] => head = None
  | p :: l' =>
      head = Some p /\ exists x, ps !! p = Some x /\ ppool ps (prevA x) l'
  end.

(** The object [l] is a leaf that hangs in one of the two trees, for the
    shape [id] and with the box [b]. *)
Definition in_tree (s : Store) (l : ref) (id : Z) (b : BB) : Prop :=
  (exists k, hangs s k l) /\ leaf_of s l id b.

(** The two leaves of the pair [x] hang in the trees, and their boxes
    meet. *)
Definition met (s : Store) (x : Pair) : Prop :=
  exists ida idb ba bb,
    in_tree s (leafA x) ida ba /\ in_tree s (leafB x) idb bb
    /\ bbTreeIntersectsNode ba bb = true.

(** The invariant of the threads: [th l] is the thread of the leaf [l],
    [pd] and [pst] are the free lists of the two trees. *)
Record threads_ok (s : Store) (t : Threads) (th : ref -> list pref)
    (pd pst : list pref) : Prop := {
  tk_chain : forall l, chain (pairs t) l None (lpairs t !! l) (th l);
  tk_nodup : forall l, NoDup (th l);
  tk_both :
    forall l p x, p ∈ th l -> pairs t !! p = Some x ->
                  p ∈ th (leafA x) /\ p ∈ th (leafB x) /\ met s x;
  tk_poold : ppool (pairs t) (pooledPairs (dynT t)) pd;
  tk_pools : ppool (pairs t) (pooledPairs (statT t)) pst;
  tk_pool_nodup : NoDup (pd ++ pst);
  tk_pool_free : forall l p, p ∈ th l -> p ∉ pd ++ pst;
  tk_alloc : forall p, is_Some (pairs t !! p) -> (p < numPairs t)%nat
}.

(** The invariant while [clearPairs] runs on the leaf [this], with the
    pairs from [head] on still to clear: [th this] lists them. *)
Record clearing (s : Store) (t : Threads) (this : ref)
    (head : option pref) (th : ref -> list pref) (pd pst : list pref)
  : Prop := {
  cl_chain :
    forall l, l <> this -> chain (pairs t) l None (lpairs t !! l) (th l);
  cl_this : lpairs t !! this = None;
  cl_rest : nchain (pairs t) this head (th this);
  cl_nodup : forall l, NoDup (th l);
  cl_both :
    forall l p x, p ∈ th l -> pairs t !! p = Some x ->
                  p ∈ th (leafA x) /\ p ∈ th (leafB x) /\ met s x;
  cl_poold : ppool (pairs t) (pooledPairs (dynT t)) pd;
  cl_pools : ppool (pairs t) (pooledPairs (statT t)) pst;
  cl_pool_nodup : NoDup (pd ++ pst);
  cl_pool_free : forall l p, p ∈ th l -> p ∉ pd ++ pst;
  cl_alloc : forall p, is_Some (pairs t !! p) -> (p < numPairs t)%nat
}.

Definition threads_inv (s : Store) (t : Threads) : Prop :=
  exists th pd pst, threads_ok s t th pd pst.

(** The threads with the pair [pp] put in front of those of [a] and of
    [b]. *)
Definition th_cons (a b : ref) (pp : pref) (th : ref -> list pref)
  : ref -> list pref :=
  fun l => if decide (l = a \/ l = b) then pp :: th l else th l.

(** The threads without the pair [p]. *)
Definition th_del (p : pref) (th : ref -> list pref) : ref -> list pref :=
  fun l => filter (fun q => q <> p) (th l).

(** The other leaf of the pair [x], seen from [this]. *)
Definition other_leaf (this : ref) (x : Pair) : ref :=
  if decide (leafA x = this) then leafB x else leafA x.

(** The free list of the tree [k] among the two. *)
Definition pool_of (k : which) (pd pst : list pref) : list pref :=
  match k with Dynamic => pd | Static => pst end.

(** The two free lists with the one of [k] replaced by [l]. *)
Definition with_pool (k : which) (l pd pst : list pref)
  : list pref * list pref :=
  match k with Dynamic => (l, pst) | Static => (pd, l) end.

(** A callback for the shapes of two different leaves that hang in the
    trees and whose boxes meet. *)
Definition overlap (s : Store) (c : Z * Z) : Prop :=
  exists l1 l2 b1 b2,
    l1 <> l2 /\ in_tree s l1 c.1 b1 /\ in_tree s l2 c.2 b2
    /\ bbTreeIntersectsNode b1 b2 = true.

(** Every leaf below [r] hangs in a tree and is another leaf than
    [leaf]. *)
Definition apart (s : Store) (r leaf : ref) : Prop :=
  forall path l o,
    at_path (objs s) r path = Some l -> objs s !! l = Some o ->
    isLeaf o = true ->
    l <> leaf /\ exists id, in_tree s l id (box o).

(** From [t] to [t'] the threads stayed sound and the stamps what they
    were, and every callback since was for two leaves that overlap. *)
Definition grown (s : Store) (t t' : Threads) : Prop :=
  threads_inv s t' /\ stamps t' = stamps t
  /\ (forall k, stamp (treeT t' k) = stamp (treeT t k))
  /\ exists new, calls t' = new ++ calls t /\ Forall (overlap s) new.

(** The thread of the leaf [l] as the loops of [clearPairs] and
    [markSubtree] walk it: from [pp] on through [nextA] or [nextB]; a
    thread has no more pairs than were allocated. *)
Fixpoint thread_from (fuel : nat) (ps : gmap pref Pair) (l : ref)
    (pp : option pref) : list pref :=
  match fuel, pp with
  | S fuel', Some p =>
      match ps !! p with
      | Some x => p :: thread_from fuel' ps l (next_of l x)
      | None => []
      end
  | _, _ => []
  end.

Definition thread_of (t : Threads) (l : ref) : list pref :=
  thread_from (numPairs t) (pairs t) l (lpairs t !! l).

(** The sample of [SampleTree] before its [reindexQuery]: a static shape,
    a dynamic shape that overlaps it, and one that has moved onto both. *)
Module SampleQuery.

Definition world : World :=
  default (empty SampleTree.shapes)
    (do_calls (empty SampleTree.shapes) (take 4 SampleTree.calls)).

End SampleQuery.

End ThreadInv.

(** ** The free lists as lists

    [pooledNodes] heads a list of nodes threaded through [parent],
    [pooledPairs] a list of pairs threaded through [prevA]. *)

Module Pools.

Import BBTree TreeShape Structure Index ThreadInv.

(** The objects from [head] on along [parent]; a free list has no more
    objects than were allocated. *)
Fixpoint pool_from (fuel : nat) (h : gmap ref Obj) (head : option ref)
  : list ref :=
  match fuel, head with
  | S fuel', Some r =>
      match h !! r with
      | Some o => r :: pool_from fuel' h (parent o)
      | None => []
      end
  | _, _ => []
  end.

Definition node_pool (s : Store) (k : which) : list ref :=
  pool_from (nobjs s) (objs s) (pooledNodes (treeS s k)).

(** The pairs from [head] on along [prevA]. *)
Fixpoint ppool_from (fuel : nat) (ps : gmap pref Pair) (head : option pref)
  : list pref :=
  match fuel, head with
  | S fuel', Some p =>
      match ps !! p with
      | Some x => p :: ppool_from fuel' ps (prevA x)
      | None => []
      end
  | _, _ => []
  end.

Definition pair_pool (t : Threads) (k : which) : list pref :=
  ppool_from (numPairs t) (pairs t) (pooledPairs (treeT t k)).

(** The [parent] field of the object [r]. *)
Definition parent_of (s : Store) (r : ref) : option ref :=
  o ← objs s !! r; parent o.

(** The trees and the threads of pairs are as the methods keep them. *)
Definition sound (w : World) : Prop :=
  inv (store w) /\ threads_inv (store w) (threads w).

End Pools.

(** ** The traversal of a segment query, node by node *)

Module SegmentRun.

Import BBTree TreeShape.




End SegmentRun.

(** ** The joints on double-precision numbers

    JavaScript numbers are the binary64 numbers of IEEE 754, and every
    operation of the solver rounds to the nearest of them.  Where rounding
    decides a property, the joints are embedded a second time, on Rocq's
    primitive floats, which are these numbers with these operations.  The
    module repeats [preStep] and [applyImpulse] of the five joints, with
    the names they have above. *)

Module Doubles.

Import Stdlib.Floats.Floats.
#[local] Set Warnings "-inexact-float".
Local Open Scope float_scope.

(** *** Numbers *)

(** [Math.max] and [Math.min]: [NaN] when an argument is [NaN]; [+0]
    counts as larger than [-0]. *)
Definition Math_max (a b : float) : float :=
  if is_nan a || is_nan b then nan
  else if a <? b then b
  else if b <? a then a
  else if get_sign a then b else a.

Definition Math_min (a b : float) : float :=
  if is_nan a || is_nan b then nan
  else if a <? b then a
  else if b <? a then b
  else if get_sign a then a else b.

(** [Math.floor]: a number with no fractional bits is its own floor; of
    another one the floor is the quotient of its mantissa by the power of
    two of its exponent, rounded down, which is less than [2^53]. *)
Definition Math_floor (f : float) : float :=
  match Prim2SF f with
  | S754_finite s m e =>
      if (0 <=? e)%Z then f
      else
        let z := ((if s then Z.neg m else Z.pos m) / 2 ^ (- e))%Z in
        if (z <? 0)%Z then - of_uint63 (Uint63Axioms.of_Z (- z))
        else of_uint63 (Uint63Axioms.of_Z z)
  | _ => f
  end.

(** [!x] for a number [x]: true of [+0], [-0] and [NaN]. *)
Definition falsy (f : float) : bool := (f =? 0) || is_nan f.

(** [clamp] is imported from [../util], which is not among the sources;
    it limits [f] to the interval from [lo] to [hi] as
    [Math.min(Math.max(f, lo), hi)]. *)
Definition clamp (f lo hi : float) : float := Math_min (Math_max f lo) hi.

(** *** Vectors and bodies *)

Record Vect : Type := mkVect { x : float; y : float }.

Definition vzero : Vect := mkVect 0 0.

Record Body : Type := mkBody {
  p : Vect;
  rot : Vect;
  v : Vect;
  w : float;
  a : float;
  m_inv : float;
  i : float;
  i_inv : float
}.

Definition set_w (b : Body) (w' : float) : Body :=
  mkBody (p b) (rot b) (v b) w' (a b) (m_inv b) (i b) (i_inv b).

(** The tunable parameters every [Constraint] carries; [maxForce] and
    [maxBias] may be [Infinity]. *)
Record Params : Type := mkParams {
  maxForce : float;
  maxBias : float;
  errorBias : float
}.

(** The helpers the joints import from [./util] and [../vect], which are
    not among the sources. *)
Class Helpers : Type := {
  bias_coef : float -> float -> float;
  k_scalar : Body -> Body -> Vect -> Vect -> Vect -> float;
  normal_relative_velocity : Body -> Body -> Vect -> Vect -> Vect -> float;
  relativeVelocity : Body -> Body -> Vect -> Vect -> Vect;
  apply_impulses :
    Body -> Body -> Vect -> Vect -> float -> float -> Body * Body;
  kTensor : Body -> Body -> Vect -> Vect -> Vect * Vect;
  multK : Vect -> Vect -> Vect -> Vect;
  local2World : Body -> Vect -> Vect;
  vadd : Vect -> Vect -> Vect;
  vsub : Vect -> Vect -> Vect;
  vmult : Vect -> float -> Vect;
  vdot : Vect -> Vect -> float;
  vcross : Vect -> Vect -> float;
  vperp : Vect -> Vect;
  vrotate : Vect -> Vect -> Vect;
  vlength : Vect -> float;
  vproject : Vect -> Vect -> Vect;
  vnormalize : Vect -> Vect;
  vclamp : Vect -> float -> Vect
}.

(** *** GearJoint ([gear-joint.ts]) *)

Module GearJoint.

Record t : Type := mk {
  params : Params;
  phase : float;
  ratio : float;
  ratio_inv : float;
  jAcc : float;
  iSum : float;
  bias : float;
  jMax : float
}.

Definition new (ps : Params) (phase ratio : float) : t :=
  mk ps phase ratio (1 / ratio) 0 0 0 0.

Definition preStep `{Helpers} (j : t) (ba bb : Body) (dt : float) : t :=
  let iSum' := 1 / (i_inv ba * ratio_inv j + ratio j * i_inv bb) in
  let maxBias := maxBias (params j) in
  let bias' :=
    clamp (- bias_coef (errorBias (params j)) dt
             * (a bb * ratio j - a ba - phase j) / dt)
          (- maxBias) maxBias in
  let jMax' := maxForce (params j) * dt in
  mk (params j) (phase j) (ratio j) (ratio_inv j) (jAcc j) iSum' bias' jMax'.

Definition applyImpulse (j : t) (ba bb : Body) : t * Body * Body :=
  let wr := w bb * ratio j - w ba in
  let j0 := (bias j - wr) * iSum j in
  let jOld := jAcc j in
  let jAcc' := clamp (jOld + j0) (- jMax j) (jMax j) in
  let j1 := jAcc' - jOld in
  (mk (params j) (phase j) (ratio j) (ratio_inv j) jAcc' (iSum j) (bias j)
      (jMax j),
   set_w ba (w ba - j1 * i_inv ba * ratio_inv j),
   set_w bb (w bb + j1 * i_inv bb)).

End GearJoint.

(** *** RotaryLimitJoint ([rotary-limit-joint.ts]) *)

Module RotaryLimitJoint.

Record t : Type := mk {
  params : Params;
  min : float;
  max : float;
  jAcc : float;
  iSum : float;
  bias : float;
  jMax : float
}.

Definition new (ps : Params) (min max : float) : t := mk ps min max 0 0 0 0.

Definition preStep `{Helpers} (j : t) (ba bb : Body) (dt : float) : t :=
  let dist := a bb - a ba in
  let pdist :=
    if max j <? dist then max j - dist
    else if dist <? min j then min j - dist
    else 0 in
  let iSum' := 1 / (1 / i ba + 1 / i bb) in
  let maxBias := maxBias (params j) in
  let bias' :=
    clamp (- bias_coef (errorBias (params j)) dt * pdist / dt)
          (- maxBias) maxBias in
  let jMax' := maxForce (params j) * dt in
  let jAcc' := if falsy bias' then 0 else jAcc j in
  mk (params j) (min j) (max j) jAcc' iSum' bias' jMax'.

Definition applyImpulse (j : t) (ba bb : Body) : t * Body * Body :=
  if falsy (bias j) then (j, ba, bb)
  else
    let wr := w bb - w ba in
    let j0 := - (bias j + wr) * iSum j in
    let jOld := jAcc j in
    let jAcc' :=
      if bias j <? 0 then clamp (jOld + j0) 0 (jMax j)
      else clamp (jOld + j0) (- jMax j) 0 in
    let j1 := jAcc' - jOld in
    (mk (params j) (min j) (max j) jAcc' (iSum j) (bias j) (jMax j),
     set_w ba (w ba - j1 * i_inv ba),
     set_w bb (w bb + j1 * i_inv bb)).

End RotaryLimitJoint.

(** *** RatchetJoint ([ratchet-joint.ts]) *)

Module RatchetJoint.

Record t : Type := mk {
  params : Params;
  angle : float;
  phase : float;
  ratchet : float;
  iSum : float;
  bias : float;
  jAcc : float;
  jMax : float
}.

Definition new (ps : Params) (ba bb : Body) (phase ratchet : float) : t :=
  mk ps (a bb - a ba) phase ratchet 0 0 0 0.

Definition preStep `{Helpers} (j : t) (ba bb : Body) (dt : float) : t :=
  let delta := a bb - a ba in
  let diff := angle j - delta in
  let slipping := 0 <? diff * ratchet j in
  let pdist := if slipping then diff else 0 in
  let angle' :=
    if slipping then angle j
    else Math_floor ((delta - phase j) / ratchet j) * ratchet j + phase j in
  let iSum' := 1 / (i_inv ba + i_inv bb) in
  let maxBias := maxBias (params j) in
  let bias' :=
    clamp (- bias_coef (errorBias (params j)) dt * pdist / dt)
          (- maxBias) maxBias in
  let jMax' := maxForce (params j) * dt in
  let jAcc' := if falsy bias' then 0 else jAcc j in
  mk (params j) angle' (phase j) (ratchet j) iSum' bias' jAcc' jMax'.

Definition applyImpulse (j : t) (ba bb : Body) : t * Body * Body :=
  if falsy (bias j) then (j, ba, bb)
  else
    let wr := w bb - w ba in
    let ratchet := ratchet j in
    let j0 := - (bias j + wr) * iSum j in
    let jOld := jAcc j in
    let jAcc' :=
      clamp ((jOld + j0) * ratchet) 0 (jMax j * abs ratchet) / ratchet in
    let j1 := jAcc' - jOld in
    (mk (params j) (angle j) (phase j) ratchet (iSum j) (bias j) jAcc'
        (jMax j),
     set_w ba (w ba - j1 * i_inv ba),
     set_w bb (w bb + j1 * i_inv bb)).

End RatchetJoint.

(** *** PinJoint ([pin-joint.ts])

    [r1], [r2] and [n] are [null] until the first [preStep]; a method that
    reads a [null] vector throws, which is the result [None]. *)

Module PinJoint.

Record t : Type := mk {
  params : Params;
  anchr1 : Vect;
  anchr2 : Vect;
  dist : float;
  r1 : option Vect;
  r2 : option Vect;
  n : option Vect;
  nMass : float;
  jnAcc : float;
  jnMax : float;
  bias : float
}.

Definition preStep `{Helpers} (j : t) (ba bb : Body) (dt : float) : t :=
  let r1' := vrotate (anchr1 j) (rot ba) in
  let r2' := vrotate (anchr2 j) (rot bb) in
  let delta := vsub (vadd (p bb) r2') (vadd (p ba) r1') in
  let dist' := vlength delta in
  let n' := vmult delta (1 / (if falsy dist' then infinity else dist')) in
  let nMass' := 1 / k_scalar ba bb r1' r2' n' in
  let maxBias := maxBias (params j) in
  let bias' :=
    clamp (- bias_coef (errorBias (params j)) dt * (dist' - dist j) / dt)
          (- maxBias) maxBias in
  let jnMax' := maxForce (params j) * dt in
  mk (params j) (anchr1 j) (anchr2 j) (dist j) (Some r1') (Some r2')
     (Some n') nMass' (jnAcc j) jnMax' bias'.

Definition applyImpulse `{Helpers} (j : t) (ba bb : Body)
  : option (t * (Body * Body)) :=
  match r1 j, r2 j, n j with
  | Some r1', Some r2', Some n' =>
      let vrn := normal_relative_velocity ba bb r1' r2' n' in
      let jn := (bias j - vrn) * nMass j in
      let jnOld := jnAcc j in
      let jnAcc' := clamp (jnOld + jn) (- jnMax j) (jnMax j) in
      let jn' := jnAcc' - jnOld in
      Some (mk (params j) (anchr1 j) (anchr2 j) (dist j) (r1 j) (r2 j) (n j)
               (nMass j) jnAcc' (jnMax j) (bias j),
            apply_impulses ba bb r1' r2' (x n' * jn') (y n' * jn'))
  | _, _, _ => None
  end.

End PinJoint.

(** *** GrooveJoint ([groove-joint.ts])

    [grooveTN], [r1], [r2] and [bias] are [null] until the first
    [preStep]; [clamp_] is the field [clamp]. *)

Module GrooveJoint.

Record t : Type := mk {
  params : Params;
  grooveA : Vect;
  grooveB : Vect;
  grooveN : Vect;
  grooveTN : option Vect;
  anchr2 : Vect;
  clamp_ : float;
  r1 : option Vect;
  r2 : option Vect;
  k1 : Vect;
  k2 : Vect;
  jAcc : Vect;
  jMaxLen : float;
  bias : option Vect
}.

Definition new `{Helpers} (ps : Params) (grooveA grooveB anchr2 : Vect)
  : t :=
  mk ps grooveA grooveB (vperp (vnormalize (vsub grooveB grooveA))) None
     anchr2 0 None None (mkVect 0 0) (mkVect 0 0) vzero 0 None.

Definition preStep `{Helpers} (j : t) (ba bb : Body) (dt : float) : t :=
  let ta := local2World ba (grooveA j) in
  let tb := local2World ba (grooveB j) in
  let n := vrotate (grooveN j) (rot ba) in
  let d := vdot ta n in
  let r2' := vrotate (anchr2 j) (rot bb) in
  let td := vcross (vadd (p bb) r2') n in
  let '(clamp', r1') :=
    if td <=? vcross ta n then (1, vsub ta (p ba))
    else if vcross tb n <=? td then (- (1), vsub tb (p ba))
    else (0, vsub (vadd (vmult (vperp n) (- td)) (vmult n d)) (p ba)) in
  let '(k1', k2') := kTensor ba bb r1' r2' in
  let jMaxLen' := maxForce (params j) * dt in
  let delta := vsub (vadd (p bb) r2') (vadd (p ba) r1') in
  let bias' :=
    vclamp (vmult delta (- bias_coef (errorBias (params j)) dt / dt))
           (maxBias (params j)) in
  mk (params j) (grooveA j) (grooveB j) (grooveN j) (Some n) (anchr2 j)
     clamp' (Some r1') (Some r2') k1' k2' (jAcc j) jMaxLen' (Some bias').

Definition grooveConstrain `{Helpers} (j : t) (n jv : Vect) : Vect :=
  let jClamp :=
    if 0 <? clamp_ j * vcross jv n then jv else vproject jv n in
  vclamp jClamp (jMaxLen j).

Definition applyImpulse `{Helpers} (j : t) (ba bb : Body)
  : option (t * (Body * Body)) :=
  match r1 j, r2 j, bias j, grooveTN j with
  | Some r1', Some r2', Some bias', Some n' =>
      let vr := relativeVelocity ba bb r1' r2' in
      let j0 := multK (vsub bias' vr) (k1 j) (k2 j) in
      let jOld := jAcc j in
      let jAcc' := grooveConstrain j n' (vadd jOld j0) in
      Some (mk (params j) (grooveA j) (grooveB j) (grooveN j) (grooveTN j)
               (anchr2 j) (clamp_ j) (r1 j) (r2 j) (k1 j) (k2 j) jAcc'
               (jMaxLen j) (bias j),
            apply_impulses ba bb r1' r2' (x jAcc' - x jOld) (y jAcc' - y jOld))
  | _, _, _, _ => None
  end.

End GrooveJoint.

(** *** The constraint contract *)

Inductive Constraint : Type :=
| CPin (j : PinJoint.t)
| CGear (j : GearJoint.t)
| CGroove (j : GrooveJoint.t)
| CRatchet (j : RatchetJoint.t)
| CRotaryLimit (j : RotaryLimitJoint.t).

Definition params_of (c : Constraint) : Params :=
  match c with
  | CPin j => PinJoint.params j
  | CGear j => GearJoint.params j
  | CGroove j => GrooveJoint.params j
  | CRatchet j => RatchetJoint.params j
  | CRotaryLimit j => RotaryLimitJoint.params j
  end.

Definition preStep `{Helpers} (c : Constraint) (ba bb : Body) (dt : float)
  : Constraint :=
  match c with
  | CPin j => CPin (PinJoint.preStep j ba bb dt)
  | CGear j => CGear (GearJoint.preStep j ba bb dt)
  | CGroove j => CGroove (GrooveJoint.preStep j ba bb dt)
  | CRatchet j => CRatchet (RatchetJoint.preStep j ba bb dt)
  | CRotaryLimit j => CRotaryLimit (RotaryLimitJoint.preStep j ba bb dt)
  end.

Definition applyImpulse `{Helpers} (c : Constraint) (ba bb : Body)
  : option (Constraint * (Body * Body)) :=
  match c with
  | CPin j =>
      '(j', bs) ← PinJoint.applyImpulse j ba bb; Some (CPin j', bs)
  | CGear j =>
      let '(j', ba', bb') := GearJoint.applyImpulse j ba bb in
      Some (CGear j', (ba', bb'))
  | CGroove j =>
      '(j', bs) ← GrooveJoint.applyImpulse j ba bb; Some (CGroove j', bs)
  | CRatchet j =>
      let '(j', ba', bb') := RatchetJoint.applyImpulse j ba bb in
      Some (CRatchet j', (ba', bb'))
  | CRotaryLimit j =>
      let '(j', ba', bb') := RotaryLimitJoint.applyImpulse j ba bb in
      Some (CRotaryLimit j', (ba', bb'))
  end.

(** The impulse clamp [jMax] (the fields [jnMax], [jMax], [jMaxLen]). *)
Definition jMax_of (c : Constraint) : float :=
  match c with
  | CPin j => PinJoint.jnMax j
  | CGear j => GearJoint.jMax j
  | CGroove j => GrooveJoint.jMaxLen j
  | CRatchet j => RatchetJoint.jMax j
  | CRotaryLimit j => RotaryLimitJoint.jMax j
  end.

(** The states a joint goes through while the solver iterates
    [applyImpulse] on it, the bodies changing freely between two calls. *)
Inductive iterated `{Helpers} : Constraint -> Constraint -> Prop :=
| iterated_refl c : iterated c c
| iterated_step c c1 c2 ba bb bs :
    iterated c c1 -> applyImpulse c1 ba bb = Some (c2, bs) -> iterated c c2.

(** *** What the impulse bound speaks of *)

(** The number [f] is [NaN] or lies between [lo] and [hi]. *)
Definition within (f lo hi : float) : Prop :=
  is_nan f = true \/ ((lo <=? f) = true /\ (f <=? hi) = true).

(** The accumulated impulse of a joint that [applyImpulse] has been
    called on: the clamp of the variant holds, unless the number is
    [NaN].  The ratchet joint clamps the impulse times [ratchet] and
    divides the result by [ratchet]; the groove joint has what [vclamp]
    returns for the bound [jMaxLen]; the limit joints keep the impulse
    that [preStep] reset to [0] while their bias is [0] or [NaN]. *)
Definition impulse_ok `{Helpers} (c : Constraint) : Prop :=
  match c with
  | CPin j =>
      within (PinJoint.jnAcc j) (- PinJoint.jnMax j) (PinJoint.jnMax j)
  | CGear j =>
      within (GearJoint.jAcc j) (- GearJoint.jMax j) (GearJoint.jMax j)
  | CGroove j =>
      exists u, GrooveJoint.jAcc j = vclamp u (GrooveJoint.jMaxLen j)
  | CRatchet j =>
      if falsy (RatchetJoint.bias j) then RatchetJoint.jAcc j = 0
      else
        exists f,
          RatchetJoint.jAcc j = f / RatchetJoint.ratchet j
          /\ within f 0 (RatchetJoint.jMax j * abs (RatchetJoint.ratchet j))
  | CRotaryLimit j =>
      if falsy (RotaryLimitJoint.bias j) then RotaryLimitJoint.jAcc j = 0
      else if RotaryLimitJoint.bias j <? 0
      then within (RotaryLimitJoint.jAcc j) 0 (RotaryLimitJoint.jMax j)
      else within (RotaryLimitJoint.jAcc j) (- RotaryLimitJoint.jMax j) 0
  end.

(** What [preStep] establishes and every [applyImpulse] keeps. *)
Definition stepped (c : Constraint) (jmax : float) : Prop :=
  jMax_of c = jmax /\
  match c with
  | CPin j =>
      is_Some (PinJoint.r1 j) /\ is_Some (PinJoint.r2 j)
      /\ is_Some (PinJoint.n j)
  | CGroove j =>
      is_Some (GrooveJoint.r1 j) /\ is_Some (GrooveJoint.r2 j)
      /\ is_Some (GrooveJoint.bias j) /\ is_Some (GrooveJoint.grooveTN j)
  | CRatchet j =>
      falsy (RatchetJoint.bias j) = true -> RatchetJoint.jAcc j = 0
  | CRotaryLimit j =>
      falsy (RotaryLimitJoint.bias j) = true -> RotaryLimitJoint.jAcc j = 0
  | CGear _ => True
  end.

(** *** An instance of the helper interface, and sample inputs

    The vector and impulse helpers are the usual ones; [bias_coef], which
    is [1 - Math.pow(errorBias, dt)], is given for the time step [1] of
    the samples, where the power is [errorBias] itself. *)

Module FloatHelpers.

Definition vadd (u v : Vect) : Vect := mkVect (x u + x v) (y u + y v).
Definition vsub (u v : Vect) : Vect := mkVect (x u - x v) (y u - y v).
Definition vmult (u : Vect) (s : float) : Vect := mkVect (x u * s) (y u * s).
Definition vdot (u v : Vect) : float := x u * x v + y u * y v.
Definition vcross (u v : Vect) : float := x u * y v - y u * x v.
Definition vperp (u : Vect) : Vect := mkVect (- y u) (x u).
Definition vrotate (u v : Vect) : Vect :=
  mkVect (x u * x v - y u * y v) (x u * y v + y u * x v).
Definition vproject (u v : Vect) : Vect := vmult v (vdot u v / vdot v v).
Definition vlength (u : Vect) : float := sqrt (vdot u u).
Definition vnormalize (u : Vect) : Vect := vmult u (1 / vlength u).
Definition vclamp (u : Vect) (len : float) : Vect :=
  if len * len <? vdot u u then vmult (vnormalize u) len else u.

Definition bias_coef (errorBias dt : float) : float := 1 - errorBias.

Definition k_scalar_body (b : Body) (r n : Vect) : float :=
  let rcn := vcross r n in m_inv b + i_inv b * rcn * rcn.
Definition k_scalar (ba bb : Body) (r1 r2 n : Vect) : float :=
  k_scalar_body ba r1 n + k_scalar_body bb r2 n.

Definition relativeVelocity (ba bb : Body) (r1 r2 : Vect) : Vect :=
  mkVect ((x (v bb) - y r2 * w bb) - (x (v ba) - y r1 * w ba))
         ((y (v bb) + x r2 * w bb) - (y (v ba) + x r1 * w ba)).
Definition normal_relative_velocity (ba bb : Body) (r1 r2 n : Vect)
  : float :=
  vdot (relativeVelocity ba bb r1 r2) n.

Definition apply_impulse (b : Body) (jx jy : float) (r : Vect) : Body :=
  mkBody (p b) (rot b)
    (mkVect (x (v b) + jx * m_inv b) (y (v b) + jy * m_inv b))
    (w b + i_inv b * (x r * jy - y r * jx)) (a b) (m_inv b) (i b) (i_inv b).
Definition apply_impulses (ba bb : Body) (r1 r2 : Vect) (jx jy : float)
  : Body * Body :=
  (apply_impulse ba (- jx) (- jy) r1, apply_impulse bb jx jy r2).

Definition kTensor (ba bb : Body) (r1 r2 : Vect) : Vect * Vect :=
  let m_sum := m_inv ba + m_inv bb in
  let k11 := m_sum + i_inv ba * (y r1 * y r1) + i_inv bb * (y r2 * y r2) in
  let k12 := - (i_inv ba * (x r1 * y r1)) - i_inv bb * (x r2 * y r2) in
  let k22 := m_sum + i_inv ba * (x r1 * x r1) + i_inv bb * (x r2 * x r2) in
  let det_inv := 1 / (k11 * k22 - k12 * k12) in
  (mkVect (k22 * det_inv) (- k12 * det_inv),
   mkVect (- k12 * det_inv) (k11 * det_inv)).
Definition multK (vr k1 k2 : Vect) : Vect :=
  mkVect (vdot vr k1) (vdot vr k2).

Definition local2World (b : Body) (u : Vect) : Vect :=
  vadd (p b) (vrotate u (rot b)).

End FloatHelpers.

Definition float_helpers : Helpers := {|
  bias_coef := FloatHelpers.bias_coef;
  k_scalar := FloatHelpers.k_scalar;
  normal_relative_velocity := FloatHelpers.normal_relative_velocity;
  relativeVelocity := FloatHelpers.relativeVelocity;
  apply_impulses := FloatHelpers.apply_impulses;
  kTensor := FloatHelpers.kTensor;
  multK := FloatHelpers.multK;
  local2World := FloatHelpers.local2World;
  vadd := FloatHelpers.vadd;
  vsub := FloatHelpers.vsub;
  vmult := FloatHelpers.vmult;
  vdot := FloatHelpers.vdot;
  vcross := FloatHelpers.vcross;
  vperp := FloatHelpers.vperp;
  vrotate := FloatHelpers.vrotate;
  vlength := FloatHelpers.vlength;
  vproject := FloatHelpers.vproject;
  vnormalize := FloatHelpers.vnormalize;
  vclamp := FloatHelpers.vclamp
|}.

Module Sample.

(** [maxForce = 3], [maxBias = 100] and [errorBias = 1/2]. *)
Definition ps : Params := mkParams 3 100 0.5.

(** Two bodies of unit mass and inertia; the second stands at the angle
    [turn] and turns at the angular velocity [spin]. *)
Definition body_a : Body :=
  mkBody (mkVect 0 0) (mkVect 1 0) (mkVect 0 0) 0 0 1 1 1.
Definition body_b (turn spin : float) : Body :=
  mkBody (mkVect 3 4) (mkVect 1 0) (mkVect 0 0) spin turn 1 1 1.

Definition dt : float := 1.

(** A ratchet joint of tooth [0.1] built at rest, whose second body then
    stands one radian back: [preStep] finds it held back. *)
Definition ratchet : RatchetJoint.t :=
  RatchetJoint.preStep (H := float_helpers)
    (RatchetJoint.new ps body_a (body_b 0 0) 0 0.1) body_a (body_b (-1) 0) dt.

(** A gear joint of ratio [0], after [preStep]. *)
Definition gear : GearJoint.t :=
  GearJoint.preStep (H := float_helpers) (GearJoint.new ps 0 0) body_a
    (body_b 1 0) dt.

(** The second body moving up at the velocity [16]. *)
Definition body_up : Body :=
  mkBody (mkVect 3 4) (mkVect 1 0) (mkVect 0 16) 0 0 1 1 1.

(** A groove joint with the groove from [(0, 0)] to [(2, 0)] on the first
    body and the anchor at the centre of the second, after [preStep]: the
    second body is past the end of the groove. *)
Definition groove : GrooveJoint.t :=
  GrooveJoint.preStep (H := float_helpers)
    (GrooveJoint.new (H := float_helpers) ps (mkVect 0 0) (mkVect 2 0)
       (mkVect 0 0))
    body_a (body_b 0 0) dt.

End Sample.

End Doubles.

(** * Properties of the constraint solver *)

Section JointFacts.

Context `{Helpers}.

Lemma clamp_between (f lo hi : Q) : lo <= hi -> lo <= clamp f lo hi <= hi.
Proof.
  intros Hle. unfold clamp.
  destruct (Q.max_spec f lo) as [[? ->] | [? ->]];
    destruct (Q.min_spec (Qmax f lo) hi) as [[? E] | [? E]];
    destruct (Q.max_spec f lo) as [[? E'] | [? E']];
    rewrite ?E, ?E' in *; split; lra.
Qed.

Lemma falsy_zero (q : Q) : falsy q = true <-> q == 0.
Proof. unfold falsy. apply Qeq_bool_iff. Qed.


Lemma preStep_stepped c ba bb dt :
  stepped (preStep c ba bb dt) (maxForce (params_of c) * dt).
Proof.
  destruct c as [j|j|j|j|j]; cbn.
  - split; [reflexivity|]. repeat split; eauto.
  - split; [reflexivity|]. exact I.
  - unfold GrooveJoint.preStep.
    repeat (destruct (Qle_bool _ _)); destruct (kTensor _ _ _ _);
      cbn; (split; [reflexivity|]); repeat split; eauto.
  - split; [reflexivity|]. intros Hb.
    apply falsy_zero in Hb. unfold RatchetJoint.preStep in *.
    cbn in *. now rewrite Hb.
  - split; [reflexivity|]. intros Hb.
    apply falsy_zero in Hb. unfold RotaryLimitJoint.preStep in *.
    cbn in *. now rewrite Hb.
Qed.

Lemma ratchet_clamp_between (t r m : Q) :
  0 <= m -> ~ r == 0 ->
  - m <= clamp (t * r) 0 (m * Qabs r) / r <= m.
Proof.
  intros Hm Hr.
  assert (Habs : 0 <= m * Qabs r).
  { apply Qmult_le_0_compat; [exact Hm | apply Qabs_nonneg]. }
  pose proof (clamp_between (t * r) 0 (m * Qabs r) Habs) as [Hlo Hhi].
  set (cl := clamp (t * r) 0 (m * Qabs r)) in *.
  destruct (Qlt_le_dec 0 r) as [Hpos | Hneg].
  - rewrite Qabs_pos in Hhi by lra.
    assert (E : cl / r * r == cl) by (field; exact Hr).
    split; apply Qnot_lt_le; intros Hc; nra.
  - rewrite Qabs_neg in Hhi by lra.
    assert (Hlt : r < 0).
    { destruct (Qlt_le_dec r 0); [assumption|].
      exfalso. apply Hr. lra. }
    assert (E : cl / r * r == cl) by (field; exact Hr).
    split; apply Qnot_lt_le; intros Hc; nra.
Qed.


Lemma ratchet_clamp_zero (t r m : Q) :
  r == 0 -> clamp (t * r) 0 (m * Qabs r) / r == 0.
Proof.
  intros Hr. unfold Qdiv.
  assert (E : / r == 0) by (apply (Qinv_comp r 0 Hr)).
  rewrite E. ring.
Qed.

Lemma applyImpulse_ok c jmax ba bb :
  vclamp_bounded -> 0 <= jmax -> stepped c jmax ->
  exists c' bs,
    applyImpulse c ba bb = Some (c', bs) /\ stepped c' jmax /\ impulse_ok c'.
Proof.
  intros Hv Hj [Hmax Hst].
  destruct c as [j|j|j|j|j]; cbn in Hmax, Hst |- *.
  - destruct Hst as ([r1 E1] & [r2 E2] & [n En]).
    destruct j; cbn in *; subst.
    eexists _, _. split; [reflexivity|]. split.
    + split; [reflexivity|]. cbn. eauto.
    + cbn. apply clamp_between. lra.
  - eexists _, _. split; [reflexivity|]. split.
    + split; [exact Hmax | exact I].
    + cbn. apply clamp_between. rewrite Hmax. lra.
  - destruct Hst as ([r1 E1] & [r2 E2] & [b Eb] & [n En]).
    destruct j; cbn in *; subst.
    eexists _, _. split; [reflexivity|]. split.
    + split; [reflexivity|]. cbn. eauto.
    + cbn. unfold GrooveJoint.grooveConstrain. apply Hv. exact Hj.
  - unfold RatchetJoint.applyImpulse.
    destruct (falsy (RatchetJoint.bias j)) eqn:Hb.
    + apply falsy_zero in Hb.
      eexists _, _. split; [reflexivity|]. split.
      * split; [exact Hmax | exact Hst].
      * cbn. split; [|exact Hst]. rewrite (Hst Hb), Hmax. lra.
    + assert (Hnz : ~ RatchetJoint.bias j == 0).
      { intros Hz. apply falsy_zero in Hz. congruence. }
      eexists _, _. split; [reflexivity|]. split.
      * split; [exact Hmax|]. cbn. intros Hz. contradiction.
      * cbn. split; [|intros Hz; contradiction].
        rewrite Hmax.
        destruct (Qeq_dec (RatchetJoint.ratchet j) 0) as [Hr | Hr].
        -- rewrite (ratchet_clamp_zero _ _ _ Hr). lra.
        -- apply ratchet_clamp_between; assumption.
  - unfold RotaryLimitJoint.applyImpulse.
    destruct (falsy (RotaryLimitJoint.bias j)) eqn:Hb.
    + apply falsy_zero in Hb.
      eexists _, _. split; [reflexivity|]. split.
      * split; [exact Hmax | exact Hst].
      * cbn. split; [|exact Hst]. rewrite (Hst Hb), Hmax. lra.
    + assert (Hnz : ~ RotaryLimitJoint.bias j == 0).
      { intros Hz. apply falsy_zero in Hz. congruence. }
      eexists _, _. split; [reflexivity|]. split.
      * split; [exact Hmax|]. cbn. intros Hz. contradiction.
      * cbn. split; [|intros Hz; contradiction].
        rewrite Hmax.
        destruct (Qlt_le_dec (RotaryLimitJoint.bias j) 0).
        -- pose proof (clamp_between
             (RotaryLimitJoint.jAcc j
              + - (RotaryLimitJoint.bias j
                   + (w bb - w ba)) * RotaryLimitJoint.iSum j) 0 jmax Hj).
           lra.
        -- pose proof (clamp_between
             (RotaryLimitJoint.jAcc j
              + - (RotaryLimitJoint.bias j
                   + (w bb - w ba)) * RotaryLimitJoint.iSum j) (- jmax) 0).
           lra.
Qed.

Lemma iterated_stepped c jmax c1 :
  vclamp_bounded -> 0 <= jmax -> stepped c jmax -> iterated c c1 ->
  stepped c1 jmax.
Proof.
  intros Hv Hj Hst Hit. induction Hit as [c | c c1 c2 ba bb bs _ IH Hap].
  - exact Hst.
  - destruct (applyImpulse_ok c1 jmax ba bb Hv Hj (IH Hst))
      as (c' & bs' & E & Hst' & _).
    rewrite Hap in E. injection E as <- _. exact Hst'.
Qed.


(** The impulse bound in exact arithmetic.  Take any joint of any variant,
    run [preStep dt] on it with [maxForce >= 0] and [dt > 0], and let the
    solver iterate [applyImpulse] any number of times, the bodies changing
    freely in between.  Then every further call of [applyImpulse] returns,
    and after it the impulse clamp is [maxForce * dt], is not negative, and
    the accumulated impulse lies within it: in [[-jMax, jMax]] for the
    scalar joints, in the disc of radius [jMaxLen] for the groove joint, and
    it is zero for a ratchet or rotary-limit joint whose bias is zero.
    This is the bound without rounding and with finite numbers only; what
    is left of it on the double-precision numbers of the code is
    [DoubleFacts.impulse_bound_invariant]. *)
Lemma impulse_bound_exact
    (c : Constraint) (ba bb : Body) (dt : Q) (c1 : Constraint)
    (ba' bb' : Body) :
  vclamp_bounded ->
  0 <= maxForce (params_of c) -> 0 < dt ->
  iterated (preStep c ba bb dt) c1 ->
  exists c2 bs,
    applyImpulse c1 ba' bb' = Some (c2, bs)
    /\ jMax_of c2 = maxForce (params_of c) * dt
    /\ 0 <= jMax_of c2
    /\ impulse_ok c2.
Proof.
  intros Hv Hf Hdt Hit.
  assert (Hj : 0 <= maxForce (params_of c) * dt) by nra.
  pose proof (iterated_stepped _ _ _ Hv Hj (preStep_stepped c ba bb dt) Hit)
    as Hst.
  destruct (applyImpulse_ok c1 _ ba' bb' Hv Hj Hst)
    as (c2 & bs & E & [Hmax Hst2] & Hok).
  exists c2, bs. rewrite Hmax. auto.
Qed.

(** The ratchet joint divides by [ratchet] only when its bias is not zero,
    and with [maxBias >= 0] the bias [preStep] computes is not zero only
    when [ratchet] is not zero. *)
Lemma ratchet_preStep_divisor (j : RatchetJoint.t) (ba bb : Body) (dt : Q) :
  0 <= maxBias (RatchetJoint.params j) ->
  ~ RatchetJoint.bias (RatchetJoint.preStep j ba bb dt) == 0 ->
  ~ RatchetJoint.ratchet (RatchetJoint.preStep j ba bb dt) == 0.
Proof.
  intros Hmb Hb Hr. apply Hb. clear Hb.
  unfold RatchetJoint.preStep in *. cbn in *.
  destruct (Qlt_le_dec 0 _) as [Hpos | _].
  - exfalso. rewrite Hr in Hpos. lra.
  - set (mb := maxBias (RatchetJoint.params j)) in *.
    assert (E : - bias_coef (errorBias (RatchetJoint.params j)) dt * 0 / dt
                == 0) by (unfold Qdiv; ring).
    unfold clamp.
    destruct (Q.max_spec
                (- bias_coef (errorBias (RatchetJoint.params j)) dt * 0 / dt)
                (- mb)) as [[? E1] | [? E1]];
      destruct (Q.min_spec
                (Qmax (- bias_coef (errorBias (RatchetJoint.params j)) dt
                         * 0 / dt) (- mb)) mb) as [[? E2] | [? E2]];
      rewrite E2; try rewrite E1 in *; lra.
Qed.

(** C7.  For the limit-style joints (ratchet and rotary limit), a [preStep]
    that computes a bias of exactly zero leaves the accumulated impulse
    reset to zero. *)
Theorem preStep_zero_bias_resets
    (c : Constraint) (ba bb : Body) (dt : Q) (b : Q) :
  limit_bias (preStep c ba bb dt) = Some b -> b == 0 ->
  limit_jAcc (preStep c ba bb dt) = Some 0.
Proof.
  intros Hb Hz.
  destruct c as [j|j|j|j|j]; cbn in Hb |- *; try discriminate.
  - injection Hb as <-.
    unfold RatchetJoint.preStep in *. cbn in *.
    apply falsy_zero in Hz. now rewrite Hz.
  - injection Hb as <-.
    unfold RotaryLimitJoint.preStep in *. cbn in *.
    apply falsy_zero in Hz. now rewrite Hz.
Qed.

(** C10.  For a ratchet or rotary-limit joint whose bias is zero,
    [applyImpulse] returns at once: the joint and both bodies are what they
    were. *)
Theorem applyImpulse_zero_bias_noop
    (c : Constraint) (ba bb : Body) (b : Q) :
  limit_bias c = Some b -> b == 0 ->
  applyImpulse c ba bb = Some (c, (ba, bb)).
Proof.
  intros Hb Hz.
  destruct c as [j|j|j|j|j]; cbn in Hb |- *; try discriminate;
    injection Hb as <-; apply falsy_zero in Hz.
  - unfold RatchetJoint.applyImpulse. now rewrite Hz.
  - unfold RotaryLimitJoint.applyImpulse. now rewrite Hz.
Qed.

End JointFacts.
Lemma rational_vclamp_bounded (u : Vect) (len : Q) :
  0 <= len ->
  RationalHelpers.vdot (RationalHelpers.vclamp u len)
    (RationalHelpers.vclamp u len) <= len * len.
Proof.
  intros Hlen. unfold RationalHelpers.vclamp.
  destruct (Qlt_le_dec _ _) as [Hgt | Hle]; [|exact Hle].
  unfold RationalHelpers.vdot, RationalHelpers.vmult,
    RationalHelpers.vnormalize, RationalHelpers.vlength in *; cbn in *.
  destruct u as [ux uy]; cbn in *.
  pose proof (Qabs_nonneg ux) as Hx. pose proof (Qabs_nonneg uy) as Hy.
  assert (Hxx : Qabs ux * Qabs ux == ux * ux).
  { rewrite <- Qabs_Qmult. apply Qabs_pos. nra. }
  assert (Hyy : Qabs uy * Qabs uy == uy * uy).
  { rewrite <- Qabs_Qmult. apply Qabs_pos. nra. }
  set (s := Qabs ux + Qabs uy) in *.
  assert (Hs : 0 < s).
  { destruct (Qlt_le_dec 0 s) as [|Hs0]; [assumption|].
    assert (Qabs ux == 0) by (unfold s in *; lra).
    assert (Qabs uy == 0) by (unfold s in *; lra).
    nra. }
  assert (E : ux * (1 / s) * len * (ux * (1 / s) * len)
              + uy * (1 / s) * len * (uy * (1 / s) * len)
              == len * len * ((ux * ux + uy * uy) / (s * s))).
  { field. lra. }
  rewrite E.
  assert (Hr : (ux * ux + uy * uy) / (s * s) <= 1).
  { apply Qle_shift_div_r; [nra|]. unfold s. nra. }
  nra.
Qed.

(** The groove joint of the samples is within its clamp after the first
    solver iteration that follows a step. *)
Lemma impulse_bound_exact_witness :
  exists c2 bs,
    applyImpulse (H := rational_helpers)
      (preStep (H := rational_helpers) (CGroove Sample.groove) Sample.body_a
         (Sample.body_b 0) Sample.dt) Sample.body_a (Sample.body_b 0)
    = Some (c2, bs)
    /\ jMax_of c2 = maxForce (params_of (CGroove Sample.groove)) * Sample.dt
    /\ 0 <= jMax_of c2
    /\ impulse_ok (H := rational_helpers) c2.
Proof.
  apply (@impulse_bound_exact rational_helpers (CGroove Sample.groove)
           Sample.body_a (Sample.body_b 0) Sample.dt).
  - exact rational_vclamp_bounded.
  - vm_compute. discriminate.
  - reflexivity.
  - apply iterated_refl.
Defined.

(** The rotary limit joint of the samples, within its limits, has its
    stored impulse of [5] reset by [preStep]. *)
Lemma preStep_zero_bias_resets_witness :
  limit_jAcc
    (preStep (H := rational_helpers) (CRotaryLimit Sample.rotary)
       Sample.body_a (Sample.body_b 0) Sample.dt) = Some 0.
Proof.
  apply (@preStep_zero_bias_resets rational_helpers
           (CRotaryLimit Sample.rotary) Sample.body_a (Sample.body_b 0)
           Sample.dt
           (RotaryLimitJoint.bias
              (RotaryLimitJoint.preStep (H := rational_helpers) Sample.rotary
                 Sample.body_a (Sample.body_b 0) Sample.dt))).
  - reflexivity.
  - vm_compute. reflexivity.
Defined.

(** The same joint, its bias being zero, is left alone by
    [applyImpulse]. *)
Lemma applyImpulse_zero_bias_noop_witness :
  applyImpulse (H := rational_helpers) (CRotaryLimit Sample.rotary)
    Sample.body_a (Sample.body_b 0)
  = Some (CRotaryLimit Sample.rotary, (Sample.body_a, Sample.body_b 0)).
Proof.
  apply (@applyImpulse_zero_bias_noop rational_helpers
           (CRotaryLimit Sample.rotary) Sample.body_a (Sample.body_b 0) 0).
  - reflexivity.
  - reflexivity.
Defined.

(** ** The impulse each iteration applies *)

(** On that joint [applyImpulse] accumulates [-1/4], the impulse
    [-(bias + wr) * iSum]; the worded formula gives [+1/4], which none of
    the clamp ranges turns into [-1/4]. *)
Lemma applyImpulse_delta_counterexample :
  let j := rotary_beyond in
  let wr := w (Sample.body_b 2) - w Sample.body_a in
  let total :=
    RotaryLimitJoint.jAcc j
    + claimed_delta (RotaryLimitJoint.bias j) wr (RotaryLimitJoint.iSum j) in
  let jAcc' :=
    RotaryLimitJoint.jAcc
      (fst (fst (RotaryLimitJoint.applyImpulse j Sample.body_a
                   (Sample.body_b 2)))) in
  jAcc' == - (1 # 4)
  /\ ~ jAcc' == clamp total (- RotaryLimitJoint.jMax j) (RotaryLimitJoint.jMax j)
  /\ ~ jAcc' == clamp total (- RotaryLimitJoint.jMax j) 0
  /\ ~ jAcc' == clamp total 0 (RotaryLimitJoint.jMax j).
Proof.
  vm_compute. repeat split; intros E; discriminate E.
Qed.

Section ImpulseSteps.

Context `{Helpers}.

(** C2, as the code has it.  Each [applyImpulse] forms an unclamped
    impulse, adds it to the accumulated one, limits the sum, and changes the
    velocities by the difference between the new and the old total only.
    The unclamped impulse is [(bias - relativeVelocity) * effectiveMass] for
    the pin, gear and groove joints (a matrix product for the groove joint,
    whose total is constrained to the groove and then to a disc), and
    [-(bias + relativeVelocity) * effectiveMass] for the ratchet and rotary
    limit joints, which do nothing at all while their bias is zero. *)
Theorem applyImpulse_accumulates :
  (forall j ba bb,
      let jOld := GearJoint.jAcc j in
      let wr := w bb * GearJoint.ratio j - w ba in
      let total :=
        clamp (jOld + (GearJoint.bias j - wr) * GearJoint.iSum j)
              (- GearJoint.jMax j) (GearJoint.jMax j) in
      let '(j', ba', bb') := GearJoint.applyImpulse j ba bb in
      GearJoint.jAcc j' = total
      /\ ba' = set_w ba (w ba - (total - jOld) * i_inv ba
                                * GearJoint.ratio_inv j)
      /\ bb' = set_w bb (w bb + (total - jOld) * i_inv bb))
  /\ (forall j ba bb r1 r2 n,
      PinJoint.r1 j = Some r1 -> PinJoint.r2 j = Some r2 ->
      PinJoint.n j = Some n ->
      let jOld := PinJoint.jnAcc j in
      let vrn := normal_relative_velocity ba bb r1 r2 n in
      let total :=
        clamp (jOld + (PinJoint.bias j - vrn) * PinJoint.nMass j)
              (- PinJoint.jnMax j) (PinJoint.jnMax j) in
      exists j',
        PinJoint.applyImpulse j ba bb
        = Some (j', apply_impulses ba bb r1 r2 (x n * (total - jOld))
                      (y n * (total - jOld)))
        /\ PinJoint.jnAcc j' = total)
  /\ (forall j ba bb r1 r2 bias n,
      GrooveJoint.r1 j = Some r1 -> GrooveJoint.r2 j = Some r2 ->
      GrooveJoint.bias j = Some bias -> GrooveJoint.grooveTN j = Some n ->
      let jOld := GrooveJoint.jAcc j in
      let vr := relativeVelocity ba bb r1 r2 in
      let total :=
        GrooveJoint.grooveConstrain j n
          (vadd jOld
             (multK (vsub bias vr) (GrooveJoint.k1 j) (GrooveJoint.k2 j))) in
      exists j',
        GrooveJoint.applyImpulse j ba bb
        = Some (j', apply_impulses ba bb r1 r2 (x total - x jOld)
                      (y total - y jOld))
        /\ GrooveJoint.jAcc j' = total)
  /\ (forall j ba bb,
      let jOld := RotaryLimitJoint.jAcc j in
      let wr := w bb - w ba in
      let sum :=
        jOld + - (RotaryLimitJoint.bias j + wr) * RotaryLimitJoint.iSum j in
      let total :=
        if Qlt_le_dec (RotaryLimitJoint.bias j) 0
        then clamp sum 0 (RotaryLimitJoint.jMax j)
        else clamp sum (- RotaryLimitJoint.jMax j) 0 in
      let '(j', ba', bb') := RotaryLimitJoint.applyImpulse j ba bb in
      (RotaryLimitJoint.bias j == 0 -> j' = j /\ ba' = ba /\ bb' = bb)
      /\ (~ RotaryLimitJoint.bias j == 0 ->
          RotaryLimitJoint.jAcc j' = total
          /\ ba' = set_w ba (w ba - (total - jOld) * i_inv ba)
          /\ bb' = set_w bb (w bb + (total - jOld) * i_inv bb)))
  /\ (forall j ba bb,
      let jOld := RatchetJoint.jAcc j in
      let wr := w bb - w ba in
      let sum :=
        jOld + - (RatchetJoint.bias j + wr) * RatchetJoint.iSum j in
      let total :=
        clamp (sum * RatchetJoint.ratchet j) 0
              (RatchetJoint.jMax j * Qabs (RatchetJoint.ratchet j))
        / RatchetJoint.ratchet j in
      let '(j', ba', bb') := RatchetJoint.applyImpulse j ba bb in
      (RatchetJoint.bias j == 0 -> j' = j /\ ba' = ba /\ bb' = bb)
      /\ (~ RatchetJoint.bias j == 0 ->
          RatchetJoint.jAcc j' = total
          /\ ba' = set_w ba (w ba - (total - jOld) * i_inv ba)
          /\ bb' = set_w bb (w bb + (total - jOld) * i_inv bb))).
Proof.
  split; [|split; [|split; [|split]]].
  - intros j ba bb. cbn. auto.
  - intros j ba bb r1 r2 n E1 E2 En. cbn.
    unfold PinJoint.applyImpulse. rewrite E1, E2, En.
    eexists. split; reflexivity.
  - intros j ba bb r1 r2 bias n E1 E2 Eb En. cbn.
    unfold GrooveJoint.applyImpulse. rewrite E1, E2, Eb, En.
    eexists. split; reflexivity.
  - intros j ba bb. cbn. unfold RotaryLimitJoint.applyImpulse.
    destruct (falsy (RotaryLimitJoint.bias j)) eqn:Hb.
    + split; [auto|]. intros Hnz. apply falsy_zero in Hb. contradiction.
    + split; [|cbn; auto]. intros Hz. apply falsy_zero in Hz. congruence.
  - intros j ba bb. cbn. unfold RatchetJoint.applyImpulse.
    destruct (falsy (RatchetJoint.bias j)) eqn:Hb.
    + split; [auto|]. intros Hnz. apply falsy_zero in Hb. contradiction.
    + split; [|cbn; auto]. intros Hz. apply falsy_zero in Hz. congruence.
Qed.

End ImpulseSteps.

(** The rotary limit joint beyond its upper limit applies [-1/4] to its
    second body, the difference between its new total and its old one. *)
Lemma applyImpulse_accumulates_witness :
  let '(j', ba', bb') :=
    RotaryLimitJoint.applyImpulse rotary_beyond Sample.body_a
      (Sample.body_b 2) in
  RotaryLimitJoint.jAcc j' == - (1 # 4) /\ w bb' == - (1 # 4).
Proof.
  destruct (@applyImpulse_accumulates rational_helpers)
    as (_ & _ & _ & Hrot & _).
  specialize (Hrot rotary_beyond Sample.body_a (Sample.body_b 2)).
  cbv zeta in Hrot.
  destruct (RotaryLimitJoint.applyImpulse rotary_beyond Sample.body_a
              (Sample.body_b 2)) as [[j' ba'] bb'].
  destruct Hrot as [_ Hact].
  destruct Hact as (E1 & _ & E3).
  - vm_compute. intros E. discriminate E.
  - rewrite E1, E3. vm_compute. split; reflexivity.
Defined.

(** * The zero-length pin joint *)

Module PinJointXFacts.

Import XNum PinJointX.

Lemma is_fin_inv (a : xnum) : is_fin a = true -> exists q, a = Fin q.
Proof. destruct a; try discriminate. eauto. Qed.

Lemma vfin_inv (u : XVect) :
  vfin u = true -> exists q r, u = mkXVect (Fin q) (Fin r).
Proof.
  destruct u as [[] []]; try discriminate. eauto.
Qed.

Lemma fin_not_nan (a : xnum) : is_fin a = true -> is_nan a = false.
Proof. now destruct a. Qed.

Lemma vfin_not_nan (u : XVect) : vfin u = true -> vnan u = false.
Proof. now destruct u as [[] []]. Qed.

Lemma max_not_nan (a b : xnum) :
  is_nan a = false -> is_nan b = false -> is_nan (max a b) = false.
Proof.
  destruct a, b; cbn; try discriminate; intros; try reflexivity;
    now destruct (Qle_bool _ _).
Qed.

Lemma min_not_nan (a b : xnum) :
  is_nan a = false -> is_nan b = false -> is_nan (min a b) = false.
Proof.
  destruct a, b; cbn; try discriminate; intros; try reflexivity;
    now destruct (Qle_bool _ _).
Qed.

Lemma neg_not_nan (a : xnum) : is_nan a = false -> is_nan (neg a) = false.
Proof. now destruct a. Qed.

Lemma clamp_not_nan (f lo hi : xnum) :
  is_nan f = false -> is_nan lo = false -> is_nan hi = false ->
  is_nan (clamp f lo hi) = false.
Proof. intros. unfold clamp. auto using min_not_nan, max_not_nan. Qed.


Lemma signed_inf_not_nan (q : Q) (b : bool) :
  ~ q == 0 -> is_nan (signed_inf q b) = false.
Proof.
  intros Hq. unfold signed_inf.
  destruct (Qeq_bool q 0) eqn:E.
  - apply Qeq_bool_iff in E. contradiction.
  - now destruct (Bool.eqb _ _).
Qed.

Lemma inv_not_nan (q : Q) : is_nan (div (Fin 1) (Fin q)) = false.
Proof.
  cbn. destruct (Qeq_bool q 0); [|reflexivity].
  apply signed_inf_not_nan. intros E. discriminate E.
Qed.

Lemma mul_pos_not_nan (a : xnum) (q : Q) :
  is_nan a = false -> 0 < q -> is_nan (mul a (Fin q)) = false.
Proof.
  intros Ha Hq. destruct a; try discriminate; cbn; try reflexivity;
    apply signed_inf_not_nan; lra.
Qed.

Section ZeroLength.

Context `{XHelpers} (Hok : helpers_ok).

(** C9.  A pin joint whose two anchors coincide in world space is
    constructed all the same: the constructor returns the joint, with rest
    distance zero, and logs the soft warning.  And whenever [preStep] meets a
    zero-length separation (on a joint and bodies holding rationals, but for
    [maxForce] and [maxBias], which may be infinite, and with a step
    [dt > 0]), the direction [n] it stores is the zero vector and no number
    in the joint is [NaN]; [preStep] does not write to the bodies. *)
Theorem pin_zero_length :
  (forall mf mb eb ba bb a1 a2,
      is_zero (vlength (vsub (vadd (p bb) (vrotate a2 (rot bb)))
                             (vadd (p ba) (vrotate a1 (rot ba))))) ->
      exists j,
        new mf mb eb ba bb a1 a2 = (j, [warning]) /\ is_zero (dist j))
  /\ (forall j ba bb dt q,
      has_nan j = false -> is_fin (dist j) = true ->
      is_fin (errorBias j) = true ->
      vfin (anchr1 j) = true -> vfin (anchr2 j) = true ->
      bfin ba = true -> bfin bb = true ->
      dt = Fin q -> 0 < q ->
      is_zero (vlength (vsub (vadd (p bb) (vrotate (anchr2 j) (rot bb)))
                             (vadd (p ba) (vrotate (anchr1 j) (rot ba))))) ->
      let j' := preStep j ba bb dt in
      (exists nx ny, n j' = Some (mkXVect nx ny) /\ is_zero nx /\ is_zero ny)
      /\ has_nan j' = false
      /\ dist j' = dist j).
Proof.
  destruct Hok as [_ _ Hvmult Hvrot Hvlen Hks Hbcf].
  split.
  - intros mf mb eb ba bb a1 a2 (z & Ez & Hz).
    unfold new. rewrite Ez. cbn.
    assert (E : Qlt_bool 0 z = false).
    { unfold Qlt_bool. apply negb_false_iff, Qle_bool_iff. lra. }
    rewrite E. eexists. split; [reflexivity|]. cbn. exists z. auto.
  - intros j ba bb dt q Hnan Hd He Ha1 Ha2 Hba Hbb -> Hq (z & Ez & Hz).
    unfold bfin in Hba, Hbb.
    apply andb_prop in Hba as [Hba Hbai]. apply andb_prop in Hba as [Hba Hbam].
    apply andb_prop in Hba as [Hbap Hbar].
    apply andb_prop in Hbb as [Hbb Hbbi]. apply andb_prop in Hbb as [Hbb Hbbm].
    apply andb_prop in Hbb as [Hbbp Hbbr].
    pose proof (Hvrot _ _ Ha1 Hbar) as Hr1.
    pose proof (Hvrot _ _ Ha2 Hbbr) as Hr2.
    pose proof (Hvlen _ _ Ez) as Hdelta.
    apply vfin_inv in Hdelta as (dx & dy & Edelta).
    unfold has_nan in Hnan. repeat (apply orb_false_elim in Hnan as [Hnan ?]).
    cbv zeta. unfold preStep. rewrite Ez, Edelta.
    assert (Et : truthy (Fin z) = false).
    { cbn. apply negb_false_iff, Qeq_bool_iff, Hz. }
    rewrite Et. rewrite Hvmult. cbn [xx xy div mul n dist].
    split; [|split; [|reflexivity]].
    + eexists _, _. split; [reflexivity|].
      split; eexists; (split; [reflexivity | ring]).
    + assert (Hn : vfin (mkXVect (Fin (dx * 0)) (Fin (dy * 0))) = true)
        by reflexivity.
      assert (Hbaf : bfin ba = true).
      { unfold bfin. now rewrite Hbap, Hbar, Hbam, Hbai. }
      assert (Hbbf : bfin bb = true).
      { unfold bfin. now rewrite Hbbp, Hbbr, Hbbm, Hbbi. }
      pose proof (Hks ba bb _ _ _ Hbaf Hbbf Hr1 Hr2 Hn) as Hk.
      apply is_fin_inv in Hk as (k & Ek).
      assert (Hq' : is_fin (Fin q) = true) by reflexivity.
      pose proof (Hbcf _ _ He Hq') as Hbc.
      apply is_fin_inv in Hbc as (bc & Ebc).
      apply is_fin_inv in Hd as (d0 & Ed0).
      unfold has_nan. cbn [maxForce maxBias errorBias anchr1 anchr2 dist r1 r2
                             n nMass jnAcc jnMax bias onan].
      rewrite Ek, Ebc, Ed0. cbv iota.
      pose proof (inv_not_nan k) as Hinv. unfold div in Hinv. rewrite Hinv.
      rewrite (vfin_not_nan _ Hr1), (vfin_not_nan _ Hr2).
      rewrite (mul_pos_not_nan (maxForce j) q) by assumption.
      rewrite clamp_not_nan; [| |apply neg_not_nan; assumption|assumption].
      * repeat match goal with Hx : _ = false |- _ => rewrite Hx end.
        reflexivity.
      * cbn. assert (Eq : Qeq_bool q 0 = false).
        { destruct (Qeq_bool q 0) eqn:E; [|reflexivity].
          apply Qeq_bool_iff in E. lra. }
        now rewrite Eq.
Qed.

End ZeroLength.

Lemma sample_helpers_ok : helpers_ok (H := sample_helpers).
Proof.
  constructor; try reflexivity.
  - intros [[] []] [[] []]; discriminate || reflexivity.
  - intros u r Hu. destruct u as [[] []]; cbn in *; try discriminate;
      reflexivity.
  - intros ba bb u v m Hba Hbb Hu Hv Hm.
    apply vfin_inv in Hu as (? & ? & ->). apply vfin_inv in Hv as (? & ? & ->).
    apply vfin_inv in Hm as (? & ? & ->).
    unfold bfin in Hba, Hbb.
    repeat match goal with
           | Hx : _ && _ = true |- _ => apply andb_prop in Hx as [? ?]
           end.
    destruct ba as [pa ra ma ia], bb as [pb rb mb ib]; cbn in *.
    repeat match goal with
           | Hx : is_fin _ = true |- _ => apply is_fin_inv in Hx as (? & ->)
           end.
    reflexivity.
  - intros [] []; cbn; intros; try discriminate; reflexivity.
Qed.

(** The sample joint pins two bodies at the same place. *)
Lemma pin_zero_length_witness :
  let j' :=
    preStep (H := sample_helpers) sample_joint sample_body sample_body
      (Fin (1 # 60)) in
  (exists nx ny, n j' = Some (mkXVect nx ny) /\ is_zero nx /\ is_zero ny)
  /\ has_nan j' = false
  /\ dist j' = dist sample_joint.
Proof.
  destruct (@pin_zero_length sample_helpers sample_helpers_ok) as [_ Hstep].
  apply (Hstep sample_joint sample_body sample_body (Fin (1 # 60)) (1 # 60));
    try reflexivity.
  eexists. split; [vm_compute; reflexivity | reflexivity].
Defined.

End PinJointXFacts.

(** ** The impulse bound on double-precision numbers *)

Module DoubleFacts.
Import Stdlib.Floats.Floats.
Import Doubles.
#[local] Set Warnings "-inexact-float".
Local Open Scope float_scope.

(** *** Comparisons of binary64 numbers *)

Lemma SFcompare_refl (p : spec_float) :
  p <> S754_nan -> SFcompare p p = Some Eq.
Proof.
  destruct p as [s|s| |s m e]; cbn; intros Hp; try reflexivity.
  - now destruct s.
  - contradiction.
  - destruct s; rewrite Z.compare_refl, Pos.compare_cont_refl; reflexivity.
Qed.

Lemma SFcompare_antisym (p q : spec_float) :
  SFcompare q p
  = match SFcompare p q with Some c => Some (CompOpp c) | None => None end.
Proof.
  destruct p as [sp|sp| |sp mp ep], q as [sq|sq| |sq mq eq_]; cbn;
    try reflexivity; try (destruct sp; reflexivity);
    try (destruct sq; reflexivity); try (destruct sp, sq; reflexivity).
  destruct sp, sq; try reflexivity;
    rewrite (Z.compare_antisym ep eq_);
    destruct (ep ?= eq_)%Z; cbn; try reflexivity;
    change (Pos.compare_cont Eq mq mp) with (Pos.compare mq mp);
    change (Pos.compare_cont Eq mp mq) with (Pos.compare mp mq);
    rewrite (Pos.compare_antisym mp mq);
    destruct (mp ?= mq)%positive; reflexivity.
Qed.

Lemma SFcompare_None (p q : spec_float) :
  SFcompare p q = None -> p = S754_nan \/ q = S754_nan.
Proof.
  destruct p as [sp|sp| |sp mp ep], q as [sq|sq| |sq mq eq_]; cbn;
    auto; discriminate.
Qed.

Lemma is_nan_false (f : float) : is_nan f = false <-> Prim2SF f <> S754_nan.
Proof.
  unfold is_nan. rewrite eqb_spec. unfold SFeqb. split.
  - intros H E. rewrite E in H. discriminate.
  - intros H. now rewrite (SFcompare_refl _ H).
Qed.

Lemma is_nan_true (f : float) : is_nan f = true <-> Prim2SF f = S754_nan.
Proof.
  split.
  - intros H. destruct (Prim2SF f) eqn:E; try reflexivity;
      assert (N : is_nan f = false) by (apply is_nan_false; congruence);
      congruence.
  - intros E. destruct (is_nan f) eqn:N; [reflexivity|].
    apply is_nan_false in N. contradiction.
Qed.

(** Two numbers that are not [NaN] compare one of three ways. *)
Lemma cmp_cases (f g : float) :
  is_nan f = false -> is_nan g = false ->
  ((f <? g) = true /\ (f <=? g) = true
   /\ (g <? f) = false /\ (g <=? f) = false)
  \/ ((f <? g) = false /\ (g <? f) = false
      /\ (f <=? g) = true /\ (g <=? f) = true)
  \/ ((g <? f) = true /\ (g <=? f) = true
      /\ (f <? g) = false /\ (f <=? g) = false).
Proof.
  intros Hf Hg. apply is_nan_false in Hf, Hg.
  rewrite !ltb_spec, !leb_spec. unfold SFltb, SFleb.
  rewrite (SFcompare_antisym (Prim2SF f) (Prim2SF g)).
  destruct (SFcompare (Prim2SF f) (Prim2SF g)) as [[]|] eqn:E; cbn; auto 10.
  apply SFcompare_None in E. tauto.
Qed.

Lemma leb_not_nan (f g : float) :
  (f <=? g) = true -> is_nan f = false /\ is_nan g = false.
Proof.
  rewrite leb_spec. unfold SFleb. intros H.
  split; apply is_nan_false; intros E; rewrite E in H;
    [|destruct (Prim2SF f)]; discriminate.
Qed.

Lemma leb_refl (f : float) : is_nan f = false -> (f <=? f) = true.
Proof.
  intros H. apply is_nan_false in H. rewrite leb_spec. unfold SFleb.
  now rewrite (SFcompare_refl _ H).
Qed.

(** *** [Math.max], [Math.min] and [clamp] *)

Lemma is_nan_nan : is_nan nan = true.
Proof. reflexivity. Qed.

Lemma Math_max_nan (f g : float) :
  is_nan f = true \/ is_nan g = true -> Math_max f g = nan.
Proof.
  unfold Math_max. intros [-> | ->]; [reflexivity|]. now rewrite orb_true_r.
Qed.

Lemma Math_min_nan (f g : float) :
  is_nan f = true \/ is_nan g = true -> Math_min f g = nan.
Proof.
  unfold Math_min. intros [-> | ->]; [reflexivity|]. now rewrite orb_true_r.
Qed.

Lemma Math_max_spec (f g : float) :
  is_nan f = false -> is_nan g = false ->
  (Math_max f g = f \/ Math_max f g = g)
  /\ (f <=? Math_max f g) = true /\ (g <=? Math_max f g) = true.
Proof.
  intros Hf Hg. unfold Math_max. rewrite Hf, Hg. cbn [orb].
  destruct (cmp_cases f g Hf Hg)
    as [(-> & L & _) | [(-> & -> & L1 & L2) | (L & L2 & -> & _)]].
  - split; [now right|]. split; [exact L|now apply leb_refl].
  - destruct (get_sign f).
    + split; [now right|]. split; [exact L1|now apply leb_refl].
    + split; [now left|]. split; [now apply leb_refl|exact L2].
  - rewrite L. split; [now left|]. split; [now apply leb_refl|exact L2].
Qed.

Lemma Math_min_spec (f g : float) :
  is_nan f = false -> is_nan g = false ->
  (Math_min f g = f \/ Math_min f g = g)
  /\ (Math_min f g <=? f) = true /\ (Math_min f g <=? g) = true.
Proof.
  intros Hf Hg. unfold Math_min. rewrite Hf, Hg. cbn [orb].
  destruct (cmp_cases f g Hf Hg)
    as [(-> & L & _) | [(-> & -> & L1 & L2) | (L & L2 & -> & _)]].
  - split; [now left|]. split; [now apply leb_refl|exact L].
  - destruct (get_sign f).
    + split; [now left|]. split; [now apply leb_refl|exact L1].
    + split; [now right|]. split; [exact L2|now apply leb_refl].
  - rewrite L. split; [now right|]. split; [exact L2|now apply leb_refl].
Qed.

(** [clamp(f, lo, hi)] is [NaN] or lies between [lo] and [hi], when [lo]
    is not above [hi]. *)
Lemma clamp_within (f lo hi : float) :
  is_nan lo = true \/ is_nan hi = true \/ (lo <=? hi) = true ->
  within (clamp f lo hi) lo hi.
Proof.
  intros H. unfold within, clamp.
  destruct (is_nan f) eqn:Nf;
    [left; rewrite (Math_max_nan f lo), Math_min_nan; auto|].
  destruct (is_nan lo) eqn:Nl;
    [left; rewrite (Math_max_nan f lo), Math_min_nan; auto|].
  destruct (is_nan hi) eqn:Nh; [left; rewrite Math_min_nan; auto|].
  destruct H as [H | [H | H]]; try discriminate.
  destruct (Math_max_spec f lo Nf Nl) as (Em & _ & Lm).
  assert (Nm : is_nan (Math_max f lo) = false)
    by (destruct Em as [-> | ->]; assumption).
  destruct (Math_min_spec (Math_max f lo) hi Nm Nh) as (Ec & L1 & L2).
  right. split; [|exact L2].
  destruct Ec as [-> | ->]; assumption.
Qed.

(** *** Signs *)

Lemma Prim2SF_zero : Prim2SF 0 = S754_zero false.
Proof. reflexivity. Qed.

Lemma nonneg_spec (f : float) :
  (0 <=? f) = true <->
  match Prim2SF f with
  | S754_zero _ => True
  | S754_infinity s | S754_finite s _ _ => s = false
  | S754_nan => False
  end.
Proof.
  rewrite leb_spec, Prim2SF_zero. unfold SFleb.
  destruct (Prim2SF f) as [s|s| |s m e]; cbn; try tauto;
    try (destruct s; cbn; split; auto; discriminate).
  split; [discriminate|contradiction].
Qed.

Lemma ltb_leb (f g : float) : (f <? g) = true -> (f <=? g) = true.
Proof.
  rewrite ltb_spec, leb_spec. unfold SFltb, SFleb.
  destruct (SFcompare _ _) as [[]|]; congruence.
Qed.

(** A number that is [NaN] or not below zero is not negative. *)
Lemma not_negative (f : float) :
  is_nan f = true \/ (0 <=? f) = true -> (f <? 0) = false.
Proof.
  intros [H | H].
  - apply is_nan_true in H. rewrite ltb_spec, H. reflexivity.
  - destruct (leb_not_nan _ _ H) as [N0 Nf].
    destruct (cmp_cases f 0 Nf N0) as [(_ & _ & _ & E) | [? | ?]];
      [congruence|tauto|tauto].
Qed.

Lemma binary_round_aux_sign (s : bool) (m e : Z) (l : location) :
  match binary_round_aux prec emax s m e l with
  | S754_zero s' | S754_infinity s' | S754_finite s' _ _ => s' = s
  | S754_nan => True
  end.
Proof.
  unfold binary_round_aux.
  destruct (shr_fexp prec emax m e l) as [mrs e'].
  destruct (shr_fexp prec emax _ e' loc_Exact) as [mrs' e''].
  destruct (shr_m mrs'); [reflexivity| |exact I].
  now destruct (Z.leb e'' (emax - prec)).
Qed.

(** The product of two numbers that are [NaN] or not below zero is [NaN]
    or not below zero. *)
Lemma mul_nonneg (f g : float) :
  is_nan f = true \/ (0 <=? f) = true ->
  is_nan g = true \/ (0 <=? g) = true ->
  is_nan (f * g) = true \/ (0 <=? f * g) = true.
Proof.
  rewrite !is_nan_true, !nonneg_spec, mul_spec. unfold SF64mul.
  intros Hf Hg.
  destruct (Prim2SF f) as [sf|sf| |sf mf ef]; cbn;
    try (now left);
    destruct (Prim2SF g) as [sg|sg| |sg mg eg]; cbn; auto;
    destruct Hf as [Hf | Hf]; try discriminate Hf;
    destruct Hg as [Hg | Hg]; try discriminate Hg; subst; cbn; auto.
  pose proof (binary_round_aux_sign false (Z.pos (mf * mg)) (ef + eg) loc_Exact)
    as Hs.
  destruct (binary_round_aux prec emax false (Z.pos (mf * mg)) (ef + eg)
              loc_Exact); auto.
Qed.

Lemma abs_nonneg (f : float) : is_nan (abs f) = true \/ (0 <=? abs f) = true.
Proof.
  rewrite is_nan_true, nonneg_spec, abs_spec.
  destruct (Prim2SF f); cbn; auto.
Qed.

Lemma opp_nan (f : float) : is_nan f = true -> is_nan (- f) = true.
Proof. rewrite !is_nan_true, opp_spec. now intros ->. Qed.

Lemma opp_leb (f : float) :
  (0 <=? f) = true -> (- f <=? f) = true /\ (- f <=? 0) = true.
Proof.
  rewrite nonneg_spec, !leb_spec, opp_spec, Prim2SF_zero. unfold SFleb.
  destruct (Prim2SF f) as [s|s| |s m e]; cbn; try tauto;
    intros ->; cbn; auto.
Qed.

(** The bounds of the clamps of the joints are in order, or [NaN]. *)
Lemma bounds_sym (m : float) :
  is_nan m = true \/ (0 <=? m) = true ->
  is_nan (- m) = true \/ is_nan m = true \/ (- m <=? m) = true.
Proof. intros [H | H]; [auto|]. right. right. now apply opp_leb. Qed.

Lemma bounds_pos (m : float) :
  is_nan m = true \/ (0 <=? m) = true ->
  is_nan 0 = true \/ is_nan m = true \/ (0 <=? m) = true.
Proof. tauto. Qed.

Lemma bounds_neg (m : float) :
  is_nan m = true \/ (0 <=? m) = true ->
  is_nan (- m) = true \/ is_nan 0 = true \/ (- m <=? 0) = true.
Proof.
  intros [H | H]; [left; now apply opp_nan|]. right. right. now apply opp_leb.
Qed.

(** *** The joints *)

Section Joints.

Context `{Helpers}.

Lemma preStep_stepped_double c ba bb dt :
  stepped (preStep c ba bb dt) (maxForce (params_of c) * dt).
Proof.
  destruct c as [j|j|j|j|j]; unfold stepped, preStep, jMax_of, params_of.
  - split; [reflexivity|]. cbn. repeat split; eauto.
  - split; [reflexivity|exact I].
  - unfold GrooveJoint.preStep.
    destruct (_ <=? _); [|destruct (_ <=? _)];
      destruct (kTensor _ _ _ _); cbn; repeat split; eauto.
  - split; [reflexivity|]. unfold RatchetJoint.preStep. cbv zeta.
    cbn [RatchetJoint.bias RatchetJoint.jAcc]. intros E. now rewrite E.
  - split; [reflexivity|]. unfold RotaryLimitJoint.preStep. cbv zeta.
    cbn [RotaryLimitJoint.bias RotaryLimitJoint.jAcc]. intros E.
    now rewrite E.
Qed.

Lemma applyImpulse_ok_double c jmax ba bb :
  is_nan jmax = true \/ (0 <=? jmax) = true ->
  stepped c jmax ->
  exists c2 bs,
    applyImpulse c ba bb = Some (c2, bs)
    /\ stepped c2 jmax /\ impulse_ok c2.
Proof.
  intros Hj [Hmax Hst]. destruct c as [j|j|j|j|j]; cbn in Hmax, Hst |- *.
  - destruct j as [ps a1 a2 d r1 r2 n nm jn jm b]. cbn in Hmax, Hst.
    destruct Hst as ([r1' ->] & [r2' ->] & [n' ->]).
    eexists _, _. split; [reflexivity|]. cbn.
    split; [split; eauto|]. subst jmax. apply clamp_within, bounds_sym, Hj.
  - eexists _, _. split; [reflexivity|]. cbn.
    split; [split; auto|]. subst jmax. apply clamp_within, bounds_sym, Hj.
  - destruct j as [ps ga gb gn gtn a2 cl r1 r2 k1 k2 ja jm b].
    cbn in Hmax, Hst.
    destruct Hst as ([r1' ->] & [r2' ->] & [b' ->] & [n' ->]).
    eexists _, _. split; [reflexivity|]. cbn.
    split; [split; eauto 6|].
    unfold GrooveJoint.grooveConstrain. cbn. eauto.
  - unfold RatchetJoint.applyImpulse.
    destruct (falsy (RatchetJoint.bias j)) eqn:Eb.
    + eexists _, _. split; [reflexivity|]. unfold stepped, impulse_ok, jMax_of.
      cbn -[falsy]. rewrite Eb.
      split; [split; [exact Hmax|intros _]|]; exact (Hst eq_refl).
    + eexists _, _. split; [reflexivity|]. unfold stepped, impulse_ok, jMax_of.
      cbn -[falsy clamp]. rewrite Eb.
      split; [split; [exact Hmax|discriminate]|].
      eexists. split; [reflexivity|]. subst jmax.
      apply clamp_within, bounds_pos, mul_nonneg; [exact Hj|].
      apply abs_nonneg.
  - unfold RotaryLimitJoint.applyImpulse.
    destruct (falsy (RotaryLimitJoint.bias j)) eqn:Eb.
    + eexists _, _. split; [reflexivity|]. unfold stepped, impulse_ok, jMax_of.
      cbn -[falsy]. rewrite Eb.
      split; [split; [exact Hmax|intros _]|]; exact (Hst eq_refl).
    + eexists _, _. split; [reflexivity|]. unfold stepped, impulse_ok, jMax_of.
      cbn -[falsy clamp]. rewrite Eb.
      split; [split; [exact Hmax|discriminate]|]. subst jmax.
      destruct (RotaryLimitJoint.bias j <? 0).
      * apply clamp_within, bounds_pos, Hj.
      * apply clamp_within, bounds_neg, Hj.
Qed.

Lemma iterated_stepped_double c jmax c1 :
  is_nan jmax = true \/ (0 <=? jmax) = true ->
  stepped c jmax -> iterated c c1 -> stepped c1 jmax.
Proof.
  intros Hj Hst Hit. induction Hit as [c | c c1 c2 ba bb bs _ IH E].
  - exact Hst.
  - destruct (applyImpulse_ok_double c1 jmax ba bb Hj (IH Hst))
      as (c2' & bs' & E' & Hst2 & _).
    rewrite E in E'. injection E' as <- _. exact Hst2.
Qed.

(** C1, as the code has it on double-precision numbers.  Take any joint
    of any variant, run [preStep(dt)] with [maxForce >= 0] and [dt > 0],
    then [applyImpulse] any number of times, the bodies changing freely.
    The next [applyImpulse] returns; [jMax] is [maxForce * dt] and is not
    negative; and the accumulated impulse is [NaN] or within the clamp of
    the variant: between [-jMax] and [jMax] for the pin and the gear
    joint; for the rotary limit joint between [0] and [jMax] when the bias
    is negative and between [-jMax] and [0] otherwise; for the ratchet
    joint it is the quotient by [ratchet] of a number between [0] and
    [jMax * |ratchet|], which rounding can take above [jMax]; for the
    groove joint it is what [vclamp] returns for the bound [jMaxLen]; and
    it is [0] for a limit joint whose bias is [0] or [NaN]. *)
Theorem impulse_bound_invariant
    (c : Constraint) (ba bb : Body) (dt : float) (c1 : Constraint)
    (ba' bb' : Body) :
  (0 <=? maxForce (params_of c)) = true -> (0 <? dt) = true ->
  iterated (preStep c ba bb dt) c1 ->
  exists c2 bs,
    applyImpulse c1 ba' bb' = Some (c2, bs)
    /\ jMax_of c2 = maxForce (params_of c) * dt
    /\ (jMax_of c2 <? 0) = false
    /\ impulse_ok c2.
Proof.
  intros Hf Hdt Hit.
  assert (Hj : is_nan (maxForce (params_of c) * dt) = true
               \/ (0 <=? maxForce (params_of c) * dt) = true).
  { apply mul_nonneg; right; [exact Hf|now apply ltb_leb]. }
  pose proof (iterated_stepped_double _ _ _ Hj
                (preStep_stepped_double c ba bb dt) Hit)
    as Hst.
  destruct (applyImpulse_ok_double c1 _ ba' bb' Hj Hst)
    as (c2 & bs & E & [Hmax Hst2] & Hok).
  exists c2, bs. rewrite Hmax. split; [exact E|]. split; [reflexivity|].
  split; [now apply not_negative|exact Hok].
Qed.

End Joints.

(** C1 as stated fails on the numbers the code computes with.  A ratchet
    joint of tooth [0.1] with [maxForce = 3] is held back; after
    [preStep(1)] its [jMax] is [3].  Its second body turns fast enough for
    the clamp to bind: [applyImpulse] clamps to [3 * 0.1], which is
    [0.30000000000000004], and the quotient by [0.1] is
    [3.0000000000000004], above [jMax]. *)
Lemma impulse_bound_counterexample :
  let j1 := Sample.ratchet in
  let '(j2, _, _) :=
    RatchetJoint.applyImpulse j1 Sample.body_a (Sample.body_b (-1) (-100)) in
  (0 <=? maxForce Sample.ps) = true /\ (0 <? Sample.dt) = true
  /\ RatchetJoint.jMax j1 = 3 /\ RatchetJoint.jMax j2 = 3
  /\ RatchetJoint.jAcc j2 = 3.0000000000000004
  /\ (RatchetJoint.jMax j2 <? RatchetJoint.jAcc j2) = true
  /\ (RatchetJoint.jAcc j2 <=? RatchetJoint.jMax j2) = false.
Proof. vm_compute. repeat split. Qed.

(** The accumulated impulse can be [NaN]: a gear joint of ratio [0] has
    [ratio_inv = Infinity]; its first [applyImpulse] makes the angular
    velocity of the first body [NaN] ([0 * Infinity]) and its second one
    the accumulated impulse. *)
Lemma gear_ratio_zero_nan :
  let '(j2, ba2, bb2) :=
    GearJoint.applyImpulse Sample.gear Sample.body_a (Sample.body_b 1 0) in
  let '(j3, _, _) := GearJoint.applyImpulse j2 ba2 bb2 in
  is_nan (w ba2) = true /\ is_nan (GearJoint.jAcc j3) = true.
Proof. vm_compute. split; reflexivity. Qed.

(** With the usual [vclamp], which scales the normalised vector by the
    bound, the impulse of the groove joint can be longer than [jMaxLen] by
    a rounding error: here [jMaxLen] is [3], the unclamped impulse is
    [(-0.25, -3)], and what [vclamp] returns has the length
    [3.0000000000000004]. *)
Lemma groove_disc_rounding :
  match
    GrooveJoint.applyImpulse (H := float_helpers) Sample.groove
      Sample.body_a Sample.body_up
  with
  | Some (j2, _) =>
      GrooveJoint.jMaxLen j2 = 3
      /\ FloatHelpers.vlength (GrooveJoint.jAcc j2) = 3.0000000000000004
      /\ (GrooveJoint.jMaxLen j2 <? FloatHelpers.vlength (GrooveJoint.jAcc j2))
         = true
  | None => False
  end.
Proof. vm_compute. repeat split. Qed.

(** The ratchet joint of the counterexample: its impulse is the quotient
    by [0.1] of a number within the clamp. *)
Lemma impulse_bound_invariant_witness :
  exists c2 bs,
    applyImpulse (H := float_helpers)
      (preStep (H := float_helpers)
         (CRatchet (RatchetJoint.new Sample.ps Sample.body_a
                      (Sample.body_b 0 0) 0 0.1))
         Sample.body_a (Sample.body_b (-1) 0) Sample.dt)
      Sample.body_a (Sample.body_b (-1) (-100))
    = Some (c2, bs)
    /\ jMax_of c2
       = maxForce
           (params_of
              (CRatchet (RatchetJoint.new Sample.ps Sample.body_a
                           (Sample.body_b 0 0) 0 0.1)))
         * Sample.dt
    /\ (jMax_of c2 <? 0) = false
    /\ impulse_ok (H := float_helpers) c2.
Proof.
  apply (@impulse_bound_invariant float_helpers
           (CRatchet (RatchetJoint.new Sample.ps Sample.body_a
                        (Sample.body_b 0 0) 0 0.1))
           Sample.body_a (Sample.body_b (-1) 0) Sample.dt).
  - reflexivity.
  - reflexivity.
  - apply iterated_refl.
Defined.

End DoubleFacts.

(** * Properties of the bounding-box tree *)

(** ** The tree a store holds: frames and contexts *)

Module TreeShapeFacts.

Import BBTree TreeShape.
Open Scope Z_scope.

Lemma update_Some (s : Store) (r : ref) (f : Obj -> Obj) (o : Obj) :
  objs s !! r = Some o -> update s r f = Some (set_objs s (<[r := f o]> (objs s))).
Proof. intros E. unfold update. now rewrite E. Qed.

Lemma update_lookup (s s' : Store) (r r' : ref) (f : Obj -> Obj) :
  update s r f = Some s' ->
  objs s' !! r' = if decide (r = r') then f <$> objs s !! r else objs s !! r'.
Proof.
  unfold update. destruct (objs s !! r) as [o|] eqn:E; [|discriminate].
  cbn. intros [= <-]. cbn. rewrite lookup_insert.
  destruct (decide (r = r')); subst; reflexivity.
Qed.

Lemma update_is_Some (s s' : Store) (r r' : ref) (f : Obj -> Obj) :
  update s r f = Some s' -> is_Some (objs s !! r') -> is_Some (objs s' !! r').
Proof.
  intros Hu [o Ho]. rewrite (update_lookup _ _ _ r' _ Hu).
  destruct (decide (r = r')) as [Heq|]; [subst; rewrite Ho|]; cbn; eauto.
Qed.

Lemma update_treeS (s s' : Store) (r : ref) (f : Obj -> Obj) (k : which) :
  update s r f = Some s' -> treeS s' k = treeS s k.
Proof.
  unfold update. destruct (objs s !! r); [|discriminate].
  cbn. intros [= <-]. now destruct k.
Qed.

Lemma agree_sub (X Y : list ref) h h' :
  (forall r, r ∈ X -> r ∈ Y) -> agree Y h h' -> agree X h h'.
Proof. unfold agree. auto. Qed.

Lemma rt_in_refs (t : tree) : rt t ∈ refs t.
Proof. destruct t; cbn; apply list_elem_of_here. Qed.

Lemma leafs_in_refs (t : tree) (r : ref) : r ∈ leafs t -> r ∈ refs t.
Proof. induction t; cbn; set_solver. Qed.

Lemma is_leaf_at_frame h h' r :
  h' !! r = h !! r -> is_leaf_at h r -> is_leaf_at h' r.
Proof. unfold is_leaf_at. intros ->. auto. Qed.

Lemma is_node_at_frame h h' r a b :
  h' !! r = h !! r -> is_node_at h r a b -> is_node_at h' r a b.
Proof. unfold is_node_at. intros ->. auto. Qed.

Lemma parent_at_frame h h' r par :
  h' !! r = h !! r -> parent_at h r par -> parent_at h' r par.
Proof. unfold parent_at. intros ->. auto. Qed.

Lemma bx_frame h h' r : h' !! r = h !! r -> bx h' r = bx h r.
Proof. unfold bx. now intros ->. Qed.

Lemma shape'_frame h h' t : agree (refs t) h h' -> shape' h t -> shape' h' t.
Proof.
  induction t as [r | r a IHa b IHb]; cbn; intros Hag.
  - apply is_leaf_at_frame, Hag. set_solver.
  - intros (Hn & Hpa & Hpb & Ha & Hb).
    pose proof (rt_in_refs a). pose proof (rt_in_refs b).
    repeat split.
    + eapply is_node_at_frame; [apply Hag; set_solver | exact Hn].
    + eapply parent_at_frame; [apply Hag; set_solver | exact Hpa].
    + eapply parent_at_frame; [apply Hag; set_solver | exact Hpb].
    + apply IHa; [|exact Ha]. eapply agree_sub; [|exact Hag]. set_solver.
    + apply IHb; [|exact Hb]. eapply agree_sub; [|exact Hag]. set_solver.
Qed.

Lemma shape_frame h h' par t :
  agree (refs t) h h' -> shape h par t -> shape h' par t.
Proof.
  intros Hag [Hs Hp]. split; [eapply shape'_frame; eauto|].
  eapply parent_at_frame; [apply Hag, rt_in_refs | exact Hp].
Qed.

Lemma bbok_frame h h' t : agree (refs t) h h' -> bbok h t -> bbok h' t.
Proof.
  induction t as [r | r a IHa b IHb]; cbn; intros Hag; [auto|].
  intros (Hb0 & Ha & Hb).
  pose proof (rt_in_refs a). pose proof (rt_in_refs b).
  repeat split.
  - rewrite !(bx_frame h h') by (apply Hag; set_solver). exact Hb0.
  - apply IHa; [|exact Ha]. eapply agree_sub; [|exact Hag]. set_solver.
  - apply IHb; [|exact Hb]. eapply agree_sub; [|exact Hag]. set_solver.
Qed.

Lemma pool_ok_frame h h' head l :
  agree l h h' -> pool_ok h head l -> pool_ok h' head l.
Proof.
  revert head. induction l as [|r l IH]; cbn; intros head Hag; [auto|].
  intros (-> & o & Ho & Hl & Hp). split; [reflexivity|].
  exists o. rewrite (Hag r) by set_solver. repeat split; auto.
  apply IH; [|exact Hp]. eapply agree_sub; [|exact Hag]. set_solver.
Qed.

(** *** Contexts *)

Lemma plug_comp c outer t : plug (comp c outer) t = plug outer (plug c t).
Proof. revert t. induction c; cbn; intros; auto. Qed.

Lemma refs_plug c t : refs (plug c t) ≡ₚ refs t ++ ctx_refs c.
Proof.
  revert t. induction c as [| r c IH sib | r sib c IH]; cbn; intros t.
  - now rewrite app_nil_r.
  - rewrite IH. cbn. rewrite <- !app_assoc. apply Permutation_middle.
  - rewrite IH. cbn.
    rewrite (Permutation_app_comm (refs sib) (refs t)).
    rewrite <- !app_assoc. apply Permutation_middle.
Qed.

Lemma shape_plug h c t :
  shape h None (plug c t) <-> shape h (ctx_parent c) t /\ ctx_shape h c (rt t).
Proof.
  revert t. induction c as [| r c IH sib | r sib c IH]; cbn; intros t.
  - tauto.
  - rewrite IH. unfold shape. cbn. tauto.
  - rewrite IH. unfold shape. cbn. tauto.
Qed.

Lemma bbok_plug h c t :
  bbok h (plug c t) <-> bbok h t /\ ctx_bbok h c (rt t).
Proof.
  revert t. induction c as [| r c IH sib | r sib c IH]; cbn; intros t.
  - tauto.
  - rewrite IH. cbn. tauto.
  - rewrite IH. cbn. tauto.
Qed.

Lemma ctx_bbok_sibs h c x : ctx_bbok h c x -> sibs_bbok h c.
Proof.
  revert x. induction c; cbn; intros x; [auto| |]; intros (_ & ? & ?); eauto.
Qed.

Lemma leafs_ctx (t : tree) (l : ref) :
  l ∈ leafs t -> exists c, t = plug c (TLeaf l).
Proof.
  induction t as [r | r a IHa b IHb]; cbn; intros Hin.
  - apply list_elem_of_singleton in Hin as ->. now exists Top.
  - apply elem_of_app in Hin as [Hin | Hin].
    + destruct (IHa Hin) as [c ->].
      exists (comp c (InA r Top b)). now rewrite plug_comp.
    + destruct (IHb Hin) as [c ->].
      exists (comp c (InB r a Top)). now rewrite plug_comp.
Qed.

Lemma tins_ctx L N t t' :
  tins L N t t' ->
  exists c p, t = plug c (TLeaf p)
              /\ t' = plug (InA N c (TLeaf p)) (TLeaf L).
Proof.
  induction 1 as [p | r a a' b _ (c & p & -> & ->)
                    | r a b b' _ (c & p & -> & ->)].
  - exists Top, p. auto.
  - exists (comp c (InA r Top b)), p. cbn. now rewrite !plug_comp.
  - exists (comp c (InB r a Top)), p. cbn. now rewrite !plug_comp.
Qed.


(** *** Making a node *)

Lemma same_index_refl s k : same_index s s k.
Proof. unfold same_index. repeat split; auto. Qed.

Lemma same_index_trans s1 s2 s3 k :
  same_index s1 s2 k -> same_index s2 s3 k -> same_index s1 s3 k.
Proof.
  unfold same_index.
  intros (E1 & E2 & E3 & E4 & E5 & E6 & E7) (F1 & F2 & F3 & F4 & F5 & F6 & F7).
  repeat split; try congruence.
  intros k' Hk. rewrite F4, E4; auto.
Qed.

Lemma update_same_index s s' r f k :
  update s r f = Some s' -> same_index s s' k /\ numNodes s' = numNodes s.
Proof.
  unfold update. destruct (objs s !! r); [|discriminate].
  cbn. intros [= <-]. unfold same_index. now destruct k.
Qed.

Lemma Node_constructor_spec (s : Store) (N a b : ref) (oa ob : Obj) :
  objs s !! a = Some oa -> objs s !! b = Some ob ->
  N <> a -> N <> b -> a <> b ->
  exists s',
    Node_constructor s N a b = Some s'
    /\ objs s' !! N
       = Some (mkObj false None (merge (box oa) (box ob)) None (Some a)
                 (Some b))
    /\ objs s' !! a = Some (set_parent oa (Some N))
    /\ objs s' !! b = Some (set_parent ob (Some N))
    /\ (forall r, r <> N -> r <> a -> r <> b -> objs s' !! r = objs s !! r)
    /\ numNodes s' = numNodes s /\ numLeaves s' = numLeaves s
    /\ dynS s' = dynS s /\ statS s' = statS s
    /\ shapes s' = shapes s /\ velocityFunc s' = velocityFunc s.
Proof.
  intros Ha Hb HNa HNb Hab. unfold Node_constructor. rewrite Ha, Hb. cbn.
  unfold setA, setB, update. cbn.
  repeat first [ rewrite lookup_insert_eq | rewrite lookup_insert_ne by done
               | rewrite Ha | rewrite Hb | progress cbn ].
  eexists. split; [reflexivity|]. cbn.
  repeat split.
  - rewrite lookup_insert_ne by done. now rewrite lookup_insert_eq.
  - rewrite lookup_insert_ne by done. rewrite lookup_insert_ne by done.
    now rewrite lookup_insert_eq.
  - now rewrite lookup_insert_eq.
  - intros r H1 H2 H3. now rewrite !lookup_insert_ne by done.
Qed.


Lemma makeNode_spec (s : Store) (k : which) (a b : ref) (oa ob : Obj)
    (pl : list ref) :
  objs s !! a = Some oa -> objs s !! b = Some ob -> a <> b ->
  pool_ok (objs s) (pooledNodes (treeS s k)) pl -> NoDup pl ->
  a ∉ pl -> b ∉ pl -> alloc s ->
  exists s' N pl',
    makeNode s k a b = Some (s', N)
    /\ (pl = N :: pl' \/ (pl = [] /\ pl' = [] /\ N = nobjs s))
    /\ N <> a /\ N <> b
    /\ objs s' !! N = Some (node_of oa ob a b)
    /\ objs s' !! a = Some (set_parent oa (Some N))
    /\ objs s' !! b = Some (set_parent ob (Some N))
    /\ (forall r, r <> N -> r <> a -> r <> b -> objs s' !! r = objs s !! r)
    /\ pool_ok (objs s') (pooledNodes (treeS s' k)) pl'
    /\ same_index s s' k /\ alloc s' /\ (nobjs s <= nobjs s')%nat.
Proof.
  intros Ha Hb Hab Hpool Hnd Hapl Hbpl Hal. unfold makeNode.
  assert (Hla : (a < nobjs s)%nat) by (apply Hal; eauto).
  assert (Hlb : (b < nobjs s)%nat) by (apply Hal; eauto).
  destruct pl as [|N pl']; cbn in Hpool.
  - rewrite Hpool.
    set (s0 := mkStore _ _ _ _ _ _ _).
    assert (HNa : nobjs s <> a) by lia. assert (HNb : nobjs s <> b) by lia.
    destruct (Node_constructor_spec s0 (nobjs s) a b oa ob Ha Hb HNa HNb Hab)
      as (s' & E & EN & Ea & Eb & Hfr & En & El & Ed & Es & Esh & Ev).
    unfold nobjs in E. rewrite E. cbn.
    exists s', (nobjs s), []. split; [reflexivity|].
    split; [right; auto|]. repeat split; auto.
    + cbn. destruct k; cbn; [rewrite Ed | rewrite Es]; exact Hpool.
    + destruct k; cbn; rewrite ?Ed, ?Es; reflexivity.
    + destruct k; cbn; rewrite ?Ed, ?Es; reflexivity.
    + destruct k; cbn; rewrite ?Ed, ?Es; reflexivity.
    + intros k' Hk. destruct k, k'; try congruence; cbn;
        rewrite ?Ed, ?Es; reflexivity.
    + intros r [o Ho]. unfold nobjs. rewrite En, El. cbn.
      destruct (decide (r = nobjs s)) as [->|HrN]; [unfold nobjs; lia|].
      destruct (decide (r = a)) as [->|Hra]; [unfold nobjs in *; lia|].
      destruct (decide (r = b)) as [->|Hrb]; [unfold nobjs in *; lia|].
      rewrite (Hfr r HrN Hra Hrb) in Ho.
      assert (r < nobjs s)%nat by (apply Hal; eauto). unfold nobjs in *. lia.
    + unfold nobjs. rewrite En, El. cbn. lia.
  - destruct Hpool as (EN & o & Ho & Hl & Hpool). rewrite EN, Ho. cbn.
    apply NoDup_cons in Hnd as [HNpl Hnd'].
    assert (HNa : N <> a) by (intros ->; apply Hapl; set_solver).
    assert (HNb : N <> b) by (intros ->; apply Hbpl; set_solver).
    set (s0 := set_pooledNodes s k (parent o)).
    assert (Ha0 : objs s0 !! a = Some oa) by (unfold s0; now destruct k).
    assert (Hb0 : objs s0 !! b = Some ob) by (unfold s0; now destruct k).
    destruct (Node_constructor_spec s0 N a b oa ob Ha0 Hb0 HNa HNb Hab)
      as (s' & E & EN' & Ea & Eb & Hfr & En & El & Ed & Es & Esh & Ev).
    rewrite E. cbn.
    assert (Hobjs0 : objs s0 = objs s) by (unfold s0; now destruct k).
    exists s', N, pl'. split; [reflexivity|].
    split; [left; auto|]. repeat split; auto.
    + intros r H1 H2 H3. rewrite Hfr by auto. now rewrite Hobjs0.
    + assert (Ep : pooledNodes (treeS s' k) = parent o).
      { destruct k; cbn; rewrite ?Ed, ?Es; unfold s0; reflexivity. }
      rewrite Ep. eapply pool_ok_frame; [|exact Hpool].
      intros r Hr. rewrite Hfr, Hobjs0; [reflexivity| | |].
      * intros ->. contradiction.
      * intros ->. apply Hapl. set_solver.
      * intros ->. apply Hbpl. set_solver.
    + destruct k; cbn; rewrite ?Ed, ?Es; unfold s0; reflexivity.
    + destruct k; cbn; rewrite ?Ed, ?Es; unfold s0; reflexivity.
    + destruct k; cbn; rewrite ?Ed, ?Es; unfold s0; reflexivity.
    + intros k' Hk. destruct k, k'; try congruence; cbn;
        rewrite ?Ed, ?Es; unfold s0; reflexivity.
    + rewrite Esh. unfold s0. now destruct k.
    + rewrite Ev. unfold s0. now destruct k.
    + rewrite El. unfold s0. now destruct k.
    + intros r [o' Ho']. unfold nobjs. rewrite En, El.
      assert (Hn0 : nobjs s0 = nobjs s) by (unfold s0; now destruct k).
      unfold nobjs in Hn0. rewrite Hn0.
      destruct (decide (r = N)) as [->|HrN]; [apply Hal; eauto|].
      destruct (decide (r = a)) as [->|Hra]; [exact Hla|].
      destruct (decide (r = b)) as [->|Hrb]; [exact Hlb|].
      rewrite (Hfr r HrN Hra Hrb), Hobjs0 in Ho'. apply Hal. eauto.
    + unfold nobjs. rewrite En, El. unfold s0. destruct k; cbn; lia.
Qed.


(** *** Frames by field *)

Lemma merge_assoc a b c : merge (merge a b) c = merge a (merge b c).
Proof. unfold merge. cbn. f_equal; lia. Qed.

Lemma merge_comm a b : merge a b = merge b a.
Proof. unfold merge. f_equal; lia. Qed.

Lemma lk_lk' h h' r : lk h' r = lk h r -> lk' h' r = lk' h r.
Proof.
  unfold lk, lk'. destruct (h' !! r), (h !! r); cbn; try discriminate; auto.
  intros [= E1 E2 E3 E4 E5]. congruence.
Qed.

Lemma lk_same h h' r : h' !! r = h !! r -> lk h' r = lk h r.
Proof. unfold lk. now intros ->. Qed.

Lemma is_leaf_at_lk h h' r :
  lk' h' r = lk' h r -> is_leaf_at h r -> is_leaf_at h' r.
Proof.
  unfold lk', is_leaf_at. intros E (o & Ho & Hl & Hob). rewrite Ho in E.
  destruct (h' !! r) as [o'|]; [|discriminate]. cbn in E.
  injection E as E1 E2 E3 E4. exists o'. repeat split; congruence.
Qed.

Lemma is_node_at_lk h h' r a b :
  lk' h' r = lk' h r -> is_node_at h r a b -> is_node_at h' r a b.
Proof.
  unfold lk', is_node_at. intros E (o & Ho & Hl & Ha & Hb). rewrite Ho in E.
  destruct (h' !! r) as [o'|]; [|discriminate]. cbn in E.
  injection E as E1 E2 E3 E4. exists o'. repeat split; congruence.
Qed.

Lemma parent_at_lk h h' r par :
  lk h' r = lk h r -> parent_at h r par -> parent_at h' r par.
Proof.
  unfold lk, parent_at. intros E (o & Ho & Hp). rewrite Ho in E.
  destruct (h' !! r) as [o'|]; [|discriminate]. cbn in E.
  injection E as E1 E2 E3 E4 E5. exists o'. split; [reflexivity | congruence].
Qed.

Lemma NoDup_node r a b :
  NoDup (refs (TNode r a b)) ->
  NoDup (refs a) /\ NoDup (refs b) /\ (r ∉ refs a) /\ (r ∉ refs b)
  /\ (forall x, x ∈ refs a -> x ∉ refs b).
Proof.
  cbn. intros Hnd. apply NoDup_cons in Hnd as [Hr Hnd].
  apply NoDup_app in Hnd as (Ha & Hab & Hb).
  rewrite elem_of_app in Hr. repeat split; auto.
Qed.

(** [shape'] looks at the pointer fields only, and not at the parent of
    the root. *)
Lemma shape'_links h h' t :
  NoDup (refs t) ->
  lk' h' (rt t) = lk' h (rt t) ->
  (forall r, r ∈ refs t -> r <> rt t -> lk h' r = lk h r) ->
  shape' h t -> shape' h' t.
Proof.
  induction t as [r | r a IHa b IHb]; cbn; intros Hnd Hrt Hag.
  - now apply is_leaf_at_lk.
  - intros (Hn & Hpa & Hpb & Ha & Hb).
    apply (NoDup_node r a b) in Hnd as (Hnda & Hndb & Hra & Hrb & Hab).
    pose proof (rt_in_refs a) as Hrta. pose proof (rt_in_refs b) as Hrtb.
    assert (Hla : lk h' (rt a) = lk h (rt a)).
    { apply Hag; [set_solver|]. intros E. rewrite E in Hrta. contradiction. }
    assert (Hlb : lk h' (rt b) = lk h (rt b)).
    { apply Hag; [set_solver|]. intros E. rewrite E in Hrtb. contradiction. }
    repeat split.
    + eapply is_node_at_lk; eauto.
    + eapply parent_at_lk; eauto.
    + eapply parent_at_lk; eauto.
    + apply IHa; auto using lk_lk'.
      intros x Hx _. apply Hag; [set_solver|]. intros ->. contradiction.
    + apply IHb; auto using lk_lk'.
      intros x Hx _. apply Hag; [set_solver|]. intros ->. contradiction.
Qed.

Lemma bbok_boxes h h' t :
  (forall r, r ∈ refs t -> bx h' r = bx h r) -> bbok h t -> bbok h' t.
Proof.
  induction t as [r | r a IHa b IHb]; cbn; intros Hag; [auto|].
  intros (Hb0 & Ha & Hb).
  pose proof (rt_in_refs a). pose proof (rt_in_refs b).
  repeat split.
  - rewrite !Hag by set_solver. exact Hb0.
  - apply IHa; [|exact Ha]. intros x Hx. apply Hag. set_solver.
  - apply IHb; [|exact Hb]. intros x Hx. apply Hag. set_solver.
Qed.

Lemma shape'_is_Some h t r : shape' h t -> r ∈ refs t -> is_Some (h !! r).
Proof.
  induction t as [x | x a IHa b IHb]; cbn.
  - intros (o & Ho & _) Hr. apply list_elem_of_singleton in Hr as ->. eauto.
  - intros ((o & Ho & _) & _ & _ & Ha & Hb) Hr.
    apply elem_of_cons in Hr as [-> | Hr]; [eauto|].
    apply elem_of_app in Hr as [Hr | Hr]; eauto.
Qed.

Lemma height_le_refs t : (height t <= length (refs t))%nat.
Proof.
  induction t as [x | x a IHa b IHb]; cbn; [lia|].
  rewrite length_app. lia.
Qed.


(** *** Updates of one object *)

Lemma same_but_objs_index s s' k : same_but_objs s s' -> same_index s s' k.
Proof.
  intros (Ed & Es & Esh & Ev & En & El). unfold same_index.
  destruct k; cbn; rewrite ?Ed, ?Es; repeat split; auto;
    intros []; cbn; congruence.
Qed.

Lemma same_but_objs_nobjs s s' : same_but_objs s s' -> nobjs s' = nobjs s.
Proof. intros (_ & _ & _ & _ & En & El). unfold nobjs. congruence. Qed.

Lemma same_but_objs_trans s1 s2 s3 :
  same_but_objs s1 s2 -> same_but_objs s2 s3 -> same_but_objs s1 s3.
Proof. unfold same_but_objs. intuition congruence. Qed.

Lemma update_spec s r f o :
  objs s !! r = Some o ->
  exists s',
    update s r f = Some s'
    /\ objs s' !! r = Some (f o)
    /\ (forall r', r' <> r -> objs s' !! r' = objs s !! r')
    /\ same_but_objs s s'.
Proof.
  intros Ho. rewrite (update_Some _ _ _ _ Ho). eexists. split; [reflexivity|].
  cbn. rewrite lookup_insert_eq. repeat split; auto.
  intros r' Hr. now rewrite lookup_insert_ne.
Qed.

Lemma alloc_same_dom s s' :
  (forall r, is_Some (objs s' !! r) -> is_Some (objs s !! r)) ->
  (nobjs s <= nobjs s')%nat -> alloc s -> alloc s'.
Proof. intros Hd Hn Hal r Hr. specialize (Hal r (Hd r Hr)). lia. Qed.

Lemma setChild_spec d s node value on ov :
  objs s !! node = Some on -> objs s !! value = Some ov -> node <> value ->
  exists s',
    setChild d s node value = Some s'
    /\ objs s' !! node = Some (set_child d on (Some value))
    /\ objs s' !! value = Some (set_parent ov (Some node))
    /\ (forall r, r <> node -> r <> value -> objs s' !! r = objs s !! r)
    /\ same_but_objs s s'.
Proof.
  intros Hn Hv Hne.
  destruct (update_spec s node (fun o => set_child d o (Some value)) on Hn)
    as (s1 & E1 & L1 & F1 & S1).
  assert (Hv1 : objs s1 !! value = Some ov) by (rewrite F1; auto).
  destruct (update_spec s1 value (fun o => set_parent o (Some node)) ov Hv1)
    as (s2 & E2 & L2 & F2 & S2).
  exists s2. split.
  - unfold setChild, setA, setB. destruct d; cbn in *; rewrite E1; exact E2.
  - split; [rewrite F2; auto|]. split; [exact L2|]. split.
    + intros r H1 H2. rewrite F2, F1; auto.
    + eapply same_but_objs_trans; eauto.
Qed.

End TreeShapeFacts.

(** ** Insertion into a subtree *)

Module InsertFacts.

Import BBTree TreeShape TreeShapeFacts.
Open Scope Z_scope.

Lemma tins_refs L N t t' : tins L N t t' -> refs t' ≡ₚ N :: L :: refs t.
Proof.
  induction 1 as [p | r a a' b _ IH | r a b b' _ IH]; cbn.
  - reflexivity.
  - rewrite IH. cbn.
    etrans; [apply Permutation_swap|]. constructor. apply Permutation_swap.
  - rewrite IH.
    rewrite <- !Permutation_middle.
    etrans; [apply Permutation_swap|]. constructor. apply Permutation_swap.
Qed.

Lemma tins_rt L N t t' :
  tins L N t t' ->
  rt t' = match t with TLeaf _ => N | TNode r _ _ => r end.
Proof. now destruct 1. Qed.

Lemma bx_lookup h r o : h !! r = Some o -> bx h r = box o.
Proof. unfold bx. now intros ->. Qed.

Lemma leaves_kept_refl h : leaves_kept h h.
Proof. intros r o Ho Hl. eauto. Qed.

Lemma leaves_kept_trans h1 h2 h3 :
  leaves_kept h1 h2 -> leaves_kept h2 h3 -> leaves_kept h1 h3.
Proof.
  intros H12 H23 r o Ho Hl.
  destruct (H12 r o Ho Hl) as (o2 & Ho2 & Hl2 & E1 & E2).
  destruct (H23 r o2 Ho2 Hl2) as (o3 & Ho3 & Hl3 & E3 & E4).
  exists o3. repeat split; congruence.
Qed.

(** The end of the node case of [subtreeInsert]: hang [c] below [st] and
    widen the box of [st] by the box of the leaf. *)
Lemma attach (d : bool) (s1 : Store) (st c L : ref) (o_st o_c oL1 : Obj) :
  objs s1 !! st = Some o_st -> objs s1 !! c = Some o_c ->
  objs s1 !! L = Some oL1 -> st <> c -> L <> st -> L <> c ->
  exists s3,
    (s2 ← setChild d s1 st c;
     o2 ← objs s2 !! st; ol2 ← objs s2 !! L;
     s3 ← update s2 st (fun o => set_box o (merge (box o2) (box ol2)));
     Some (s3, st)) = Some (s3, st)
    /\ objs s3 !! st
       = Some (set_box (set_child d o_st (Some c))
                 (merge (box o_st) (box oL1)))
    /\ objs s3 !! c = Some (set_parent o_c (Some st))
    /\ (forall r, r <> st -> r <> c -> objs s3 !! r = objs s1 !! r)
    /\ same_but_objs s1 s3.
Proof.
  intros Hst Hc HL Hne HLst HLc.
  destruct (setChild_spec d s1 st c o_st o_c Hst Hc Hne)
    as (s2 & E2 & Lst & Lc & F2 & S2).
  rewrite E2. cbn. rewrite Lst. cbn.
  rewrite (F2 L HLst HLc), HL. cbn.
  destruct (update_spec s2 st
              (fun o => set_box o
                 (merge (box (set_child d o_st (Some c))) (box oL1)))
              _ Lst) as (s3 & E3 & L3 & F3 & S3).
  rewrite E3. cbn. exists s3. split; [reflexivity|].
  split; [rewrite L3; now destruct d|].
  split; [rewrite F3 by auto; exact Lc|].
  split; [|eapply same_but_objs_trans; eauto].
  intros r H1 H2. rewrite F3, F2; auto.
Qed.


Lemma node_refs d r ch sib : refs (node d r ch sib) ≡ₚ r :: refs ch ++ refs sib.
Proof.
  destruct d; cbn; [|reflexivity]. constructor. apply Permutation_app_comm.
Qed.

Lemma node_rt d r ch sib : rt (node d r ch sib) = r.
Proof. now destruct d. Qed.

Lemma node_shape' h d r ch sib :
  shape' h (node d r ch sib) <->
  (exists o, h !! r = Some o /\ isLeaf o = false
             /\ (if d then B o else A o) = Some (rt ch)
             /\ (if d then A o else B o) = Some (rt sib))
  /\ parent_at h (rt ch) (Some r) /\ parent_at h (rt sib) (Some r)
  /\ shape' h ch /\ shape' h sib.
Proof.
  destruct d; cbn; unfold is_node_at; split.
  - intros ((o & ? & ? & ? & ?) & ? & ? & ? & ?). repeat split; eauto.
  - intros ((o & ? & ? & ? & ?) & ? & ? & ? & ?). repeat split; eauto.
  - intros ((o & ? & ? & ? & ?) & ? & ? & ? & ?). repeat split; eauto.
  - intros ((o & ? & ? & ? & ?) & ? & ? & ? & ?). repeat split; eauto.
Qed.

Lemma node_bbok h d r ch sib :
  bbok h (node d r ch sib) <->
  bx h r = (if d then merge (bx h (rt sib)) (bx h (rt ch))
            else merge (bx h (rt ch)) (bx h (rt sib)))
  /\ bbok h ch /\ bbok h sib.
Proof. destruct d; cbn; tauto. Qed.

Lemma node_tins L N d r ch ch' sib :
  tins L N ch ch' -> tins L N (node d r ch sib) (node d r ch' sib).
Proof. destruct d; cbn; intros; now constructor. Qed.


(** The node case of [subtreeInsert], once the leaf is inserted below the
    child [ch] on the side [d]. *)
Lemma insert_descend (k : which) (L : ref) (oL : Obj) (d : bool) (r : ref)
    (ch sib : tree) (f : nat) (s : Store) (pl : list ref)
    (par : option ref) :
  shape (objs s) par (node d r ch sib) -> bbok (objs s) (node d r ch sib) ->
  NoDup (refs (node d r ch sib)) -> L ∉ refs (node d r ch sib) ->
  objs s !! L = Some oL -> isLeaf oL = true ->
  NoDup pl -> (forall x, x ∈ pl -> x ∉ refs (node d r ch sib)) ->
  alloc s ->
  (exists s1 ch' N pl',
      subtreeInsert f s k (Some (rt ch)) L = Some (s1, rt ch')
      /\ ins_post k L oL s pl (Some r) ch s1 ch' N pl') ->
  exists s' t' N pl',
    (('(s1, r0) ← subtreeInsert f s k (Some (rt ch)) L;
      setChild d s1 r r0) ≫=
     (fun s2 =>
        o2 ← objs s2 !! r; ol2 ← objs s2 !! L;
        s3 ← update s2 r (fun o => set_box o (merge (box o2) (box ol2)));
        Some (s3, r))) = Some (s', rt t')
    /\ ins_post k L oL s pl par (node d r ch sib) s' t' N pl'.
Proof.
  intros [Hsh Hpar] Hbb Hnd HL HoL HlL Hndpl Hdisj Hal
         (s1 & ch' & N & pl' & E & Hpost).
  destruct Hpost as (Htins & Hpl & HNL & Hsh1 & Hp1 & Hbb1 & Hbx1 & Hfr1
                       & Hlk1 & Hpool1 & Hsi1 & Hal1 & Hn1).
  apply node_shape' in Hsh
    as ((o_r & Hor & Hlr & Hch & Hsib) & Hpch & Hpsib & Hshch & Hshsib).
  apply node_bbok in Hbb as (Hbxr & Hbbch & Hbbsib).
  rewrite node_refs in Hnd. rewrite node_refs in HL.
  assert (Hdisj' : forall x, x ∈ pl -> x ∉ r :: refs ch ++ refs sib).
  { intros x Hx. rewrite <- node_refs. now apply Hdisj. }
  clear Hdisj. rewrite node_rt in Hpar.
  apply NoDup_cons in Hnd as [Hr Hnd].
  apply NoDup_app in Hnd as (Hndch & Hchsib & Hndsib).
  rewrite not_elem_of_cons, not_elem_of_app in HL.
  destruct HL as (HLr & HLch & HLsib).
  rewrite not_elem_of_app in Hr. destruct Hr as [Hrch Hrsib].
  (* the node taken is none of the tree's objects *)
  assert (HN : N ∉ r :: refs ch ++ refs sib).
  { destruct Hpl as [-> | (-> & -> & ->)].
    - apply Hdisj'. set_solver.
    - intros Hin. assert (Hs : is_Some (objs s !! nobjs s)).
      { apply elem_of_cons in Hin as [<- | Hin]; [eauto|].
        apply elem_of_app in Hin as [Hin | Hin];
          [eapply (shape'_is_Some _ ch) | eapply (shape'_is_Some _ sib)];
          eauto. }
      apply Hal in Hs. lia. }
  rewrite not_elem_of_cons, not_elem_of_app in HN.
  destruct HN as (HNr & HNch & HNsib).
  assert (Hrefs' : refs ch' ≡ₚ N :: L :: refs ch) by (eapply tins_refs; eauto).
  assert (Hin' : forall x, x ∈ refs ch' -> x = N \/ x = L \/ x ∈ refs ch).
  { intros x Hx. rewrite Hrefs' in Hx. set_solver. }
  assert (Hndch' : NoDup (refs ch')).
  { rewrite Hrefs'. apply NoDup_cons. split; [set_solver|].
    apply NoDup_cons. split; assumption. }
  assert (Hrt' : rt ch' = N \/ rt ch' ∈ refs ch).
  { rewrite (tins_rt _ _ _ _ Htins). destruct ch; cbn; [auto|].
    right. set_solver. }
  assert (Hrrt : r <> rt ch').
  { intros ->. destruct Hrt' as [E' | Hin]; [congruence | contradiction]. }
  assert (HLrt : L <> rt ch').
  { intros ->. destruct Hrt' as [E' | Hin]; [congruence | contradiction]. }
  (* the objects the last steps read *)
  assert (Hor1 : objs s1 !! r = Some o_r) by (rewrite Hfr1; auto).
  destruct (shape'_is_Some _ _ (rt ch') Hsh1 (rt_in_refs ch')) as [o_c Hoc].
  destruct (Hlk1 L oL HoL HlL) as (oL1 & HoL1 & HlL1 & Eobj1 & EboxL).
  rewrite E. cbn.
  destruct (attach d s1 r (rt ch') L o_r o_c oL1 Hor1 Hoc HoL1 Hrrt HLr HLrt)
    as (s3 & E3 & L3r & L3c & F3 & S3).
  rewrite E3. clear E3.
  exists s3, (node d r ch' sib), N, pl'. rewrite node_rt.
  split; [reflexivity|].
  assert (Fsib : forall x, x ∈ refs sib -> objs s3 !! x = objs s !! x).
  { intros x Hx. rewrite F3, Hfr1; auto.
    - intros Hc. apply (Hchsib x); auto.
    - intros ->. contradiction.
    - intros ->. contradiction.
    - intros ->. contradiction.
    - intros ->. destruct Hrt' as [E' | Hin];
        [congruence | apply (Hchsib (rt ch')); auto]. }
  assert (Fch : forall x, x ∈ refs ch' -> x <> rt ch' ->
                          objs s3 !! x = objs s1 !! x).
  { intros x Hx Hne. apply F3; auto. intros ->.
    destruct (Hin' r Hx) as [-> | [-> | Hc]]; congruence || contradiction. }
  unfold ins_post.
  split.
  { now apply node_tins. }
  split.
  { exact Hpl. }
  split.
  { exact HNL. }
  split.
  { apply node_shape'. repeat split.
      + eexists. split; [exact L3r|]. cbn.
        destruct d; cbn; repeat split; auto.
      + eexists. split; [exact L3c | reflexivity].
      + eapply parent_at_frame; [|exact Hpsib]. apply Fsib, rt_in_refs.
      + eapply shape'_links; [exact Hndch' | | | exact Hsh1].
        * unfold lk'. now rewrite L3c, Hoc.
        * intros x Hx Hne. apply lk_same. now apply Fch.
      + eapply shape'_frame; [|exact Hshsib]. exact Fsib. }
  split.
  { rewrite node_rt. eexists. split; [exact L3r|]. cbn.
      destruct Hpar as (o & Ho & Hp). rewrite Hor in Ho. injection Ho as <-.
      destruct d; exact Hp. }
  split.
  { apply node_bbok.
      assert (Bsib : bx (objs s3) (rt sib) = bx (objs s) (rt sib)).
      { apply bx_frame, Fsib, rt_in_refs. }
      assert (Bch : bx (objs s3) (rt ch')
                    = merge (bx (objs s) (rt ch)) (box oL)).
      { rewrite <- Hbx1. rewrite (bx_lookup _ _ _ L3c), (bx_lookup _ _ _ Hoc).
        reflexivity. }
      assert (Br : bx (objs s3) r = merge (bx (objs s) r) (box oL)).
      { rewrite (bx_lookup _ _ _ L3r), (bx_lookup _ _ _ Hor). cbn.
        rewrite EboxL. now destruct d. }
      repeat split.
      + rewrite Br, Bsib, Bch, Hbxr. destruct d.
        * apply merge_assoc.
        * rewrite !merge_assoc. f_equal. apply merge_comm.
      + eapply bbok_boxes; [|exact Hbb1]. intros x Hx.
        destruct (decide (x = rt ch')) as [-> | Hne].
        * now rewrite (bx_lookup _ _ _ L3c), (bx_lookup _ _ _ Hoc).
        * apply bx_frame. now apply Fch.
      + eapply bbok_frame; [|exact Hbbsib]. exact Fsib. }
  split.
  { rewrite !node_rt.
      rewrite (bx_lookup _ _ _ L3r), (bx_lookup _ _ _ Hor). cbn.
      rewrite EboxL. now destruct d. }
  split.
  { intros x Hx HxL HxN. rewrite node_refs in Hx.
      rewrite not_elem_of_cons, not_elem_of_app in Hx.
      destruct Hx as (Hxr & Hxch & Hxsib).
      rewrite F3, Hfr1; auto.
      intros ->. destruct Hrt' as [E' | Hin]; [congruence | contradiction]. }
  split.
  { eapply leaves_kept_trans; [exact Hlk1|].
      intros x o Ho Hl.
      destruct (decide (x = r)) as [-> | Hxr]; [congruence|].
      destruct (decide (x = rt ch')) as [-> | Hxc].
      + rewrite Hoc in Ho. injection Ho as <-.
        eexists. split; [exact L3c|]. auto.
      + exists o. rewrite F3 by auto. auto. }
  split.
  { destruct S3 as (Ed & Es & _).
      assert (Ep : pooledNodes (treeS s3 k) = pooledNodes (treeS s1 k)).
      { destruct k; cbn; congruence. }
      rewrite Ep. eapply pool_ok_frame; [|exact Hpool1].
      intros x Hx.
      assert (Hxpl : x ∈ pl).
      { destruct Hpl as [-> | (-> & -> & _)]; set_solver. }
      apply F3.
      + intros ->. apply (Hdisj' r Hxpl). set_solver.
      + intros ->. destruct Hrt' as [E' | Hin].
        * destruct Hpl as [-> | (-> & -> & _)]; [|set_solver].
          apply NoDup_cons in Hndpl as [Hn _]. congruence.
        * apply (Hdisj' (rt ch') Hxpl). set_solver. }
  split.
  { eapply same_index_trans; [exact Hsi1|].
      now apply same_but_objs_index. }
  split.
  { apply (alloc_same_dom s1 s3); [| |exact Hal1].
      + intros x [o Ho].
        destruct (decide (x = r)) as [-> | Hxr]; [eauto|].
        destruct (decide (x = rt ch')) as [-> | Hxc]; [eauto|].
        rewrite F3 in Ho by auto. eauto.
      + rewrite (same_but_objs_nobjs _ _ S3). lia. }
  rewrite (same_but_objs_nobjs _ _ S3). exact Hn1.
Qed.


(** [subtreeInsert] on a store that holds the tree [t]. *)
Lemma subtreeInsert_spec (k : which) (L : ref) (oL : Obj) (t : tree) :
  forall (fuel : nat) (s : Store) (pl : list ref) (par : option ref),
  (height t <= fuel)%nat ->
  shape (objs s) par t -> bbok (objs s) t -> NoDup (refs t) ->
  L ∉ refs t -> objs s !! L = Some oL -> isLeaf oL = true ->
  is_Some (obj oL) ->
  pool_ok (objs s) (pooledNodes (treeS s k)) pl -> NoDup pl ->
  (forall x, x ∈ pl -> x ∉ refs t) -> L ∉ pl -> alloc s ->
  exists s' t' N pl',
    subtreeInsert fuel s k (Some (rt t)) L = Some (s', rt t')
    /\ ins_post k L oL s pl par t s' t' N pl'.
Proof.
  induction t as [p | r a IHa b IHb];
    intros fuel s pl par Hf Hsh Hbb Hnd HL HoL HlL HobL Hpool Hndpl Hdisj
           HLpl Hal;
    (destruct fuel as [|f]; [cbn in Hf; lia|]).
  - destruct Hsh as [(o_p & Hop & Hlp & Hobp) Hpar]. cbn in HL.
    assert (HLp : L <> p) by set_solver.
    assert (Hppl : p ∉ pl) by (intros Hin; apply (Hdisj p Hin); set_solver).
    destruct (makeNode_spec s k L p oL o_p pl HoL Hop HLp Hpool Hndpl HLpl
                Hppl Hal)
      as (s' & N & pl' & E & Hpl & HNL & HNp & LN & LL & Lp & Fr & Hpool'
            & Hsi & Hal' & Hn).
    cbn [subtreeInsert rt]. rewrite Hop. cbn. rewrite Hlp.
    exists s', (TNode N (TLeaf L) (TLeaf p)), N, pl'.
    split; [exact E|]. unfold ins_post.
    split. { constructor. }
    split. { exact Hpl. }
    split. { exact HNL. }
    split.
    { cbn. repeat split.
      - eexists. split; [exact LN|]. cbn. auto.
      - eexists. split; [exact LL | reflexivity].
      - eexists. split; [exact Lp | reflexivity].
      - eexists. split; [exact LL|]. cbn. auto.
      - eexists. split; [exact Lp|]. cbn. auto. }
    split. { eexists. split; [exact LN | reflexivity]. }
    split.
    { cbn. rewrite (bx_lookup _ _ _ LN), (bx_lookup _ _ _ LL),
        (bx_lookup _ _ _ Lp). cbn. auto. }
    split.
    { cbn. rewrite (bx_lookup _ _ _ LN), (bx_lookup _ _ _ Hop). cbn.
      apply merge_comm. }
    split.
    { intros x Hx HxL HxN. apply Fr; auto. cbn in Hx. set_solver. }
    split.
    { intros x o Ho Hl.
      destruct (decide (x = L)) as [-> | HxL].
      { rewrite HoL in Ho. injection Ho as <-.
        eexists. split; [exact LL|]. auto. }
      destruct (decide (x = p)) as [-> | Hxp].
      { rewrite Hop in Ho. injection Ho as <-.
        eexists. split; [exact Lp|]. auto. }
      destruct (decide (x = N)) as [-> | HxN].
      { exfalso. destruct Hpl as [-> | (_ & _ & ->)].
        - cbn in Hpool. destruct Hpool as (_ & o' & Ho' & Hl' & _).
          congruence.
        - assert (Hs : is_Some (objs s !! nobjs s)) by eauto.
          apply Hal in Hs. lia. }
      exists o. rewrite Fr by auto. auto. }
    auto.
  - cbn in Hf. destruct Hsh as [Hsh Hpar]. pose proof Hsh as Hsh0.
    cbn in Hsh.
    destruct Hsh as ((o_r & Hor & Hlr & HA & HB) & Hpa & Hpb & Hsha & Hshb).
    destruct (shape'_is_Some _ _ (rt a) Hsha (rt_in_refs a)) as [oa Hoa].
    destruct (shape'_is_Some _ _ (rt b) Hshb (rt_in_refs b)) as [ob Hob].
    pose proof Hnd as Hnd0.
    apply NoDup_node in Hnd as (Hnda & Hndb & Hra & Hrb & Hab).
    pose proof Hbb as Hbb0. cbn in Hbb. destruct Hbb as (_ & Hbba & Hbbb).
    assert (HLa : L ∉ refs a) by (cbn in HL; set_solver).
    assert (HLb : L ∉ refs b) by (cbn in HL; set_solver).
    assert (HB' : exists s' t' N pl',
      (('(s1, r0) ← subtreeInsert f s k (Some (rt b)) L;
        setChild true s1 r r0) ≫=
       (fun s2 =>
          o2 ← objs s2 !! r; ol2 ← objs s2 !! L;
          s3 ← update s2 r (fun o => set_box o (merge (box o2) (box ol2)));
          Some (s3, r))) = Some (s', rt t')
      /\ ins_post k L oL s pl par (TNode r a b) s' t' N pl').
    { apply (insert_descend k L oL true r b a f s pl par); auto.
      - split; assumption.
      - apply (IHb f s pl (Some r)); auto; [lia | split; assumption |].
        intros x Hx Hin. apply (Hdisj x Hx). cbn. set_solver. }
    assert (HA' : exists s' t' N pl',
      (('(s1, r0) ← subtreeInsert f s k (Some (rt a)) L;
        setChild false s1 r r0) ≫=
       (fun s2 =>
          o2 ← objs s2 !! r; ol2 ← objs s2 !! L;
          s3 ← update s2 r (fun o => set_box o (merge (box o2) (box ol2)));
          Some (s3, r))) = Some (s', rt t')
      /\ ins_post k L oL s pl par (TNode r a b) s' t' N pl').
    { apply (insert_descend k L oL false r a b f s pl par); auto.
      - split; assumption.
      - apply (IHa f s pl (Some r)); auto; [lia | split; assumption |].
        intros x Hx Hin. apply (Hdisj x Hx). cbn. set_solver. }
    cbn [subtreeInsert rt]. rewrite Hor. cbn. rewrite Hlr, HA, HB. cbn.
    rewrite Hoa, Hob, HoL. cbn.
    destruct (decide _); destruct (decide _);
      first [exact HB' | exact HA'].
Qed.

End InsertFacts.

(** ** Removal from a subtree *)

Module RemoveFacts.

Import BBTree TreeShape TreeShapeFacts InsertFacts.
Open Scope Z_scope.

Lemma ctx_cases (c : ctx) :
  c = Top \/ exists d r c' sib, c = cons_ctx d r c' sib.
Proof.
  destruct c as [| r c' sib | r sib c']; [now left | right | right].
  - now exists false, r, c', sib.
  - now exists true, r, c', sib.
Qed.

Lemma cons_ctx_shape h d r c sib x :
  ctx_shape h (cons_ctx d r c sib) x <->
  (exists o, h !! r = Some o /\ isLeaf o = false
             /\ (if d then B o else A o) = Some x
             /\ (if d then A o else B o) = Some (rt sib))
  /\ parent_at h (rt sib) (Some r) /\ shape' h sib
  /\ parent_at h r (ctx_parent c) /\ ctx_shape h c r.
Proof.
  destruct d; cbn; unfold is_node_at; split.
  - intros ((o & ? & ? & ? & ?) & ? & ? & ? & ?). repeat split; eauto.
  - intros ((o & ? & ? & ? & ?) & ? & ? & ? & ?). repeat split; eauto.
  - intros ((o & ? & ? & ? & ?) & ? & ? & ? & ?). repeat split; eauto.
  - intros ((o & ? & ? & ? & ?) & ? & ? & ? & ?). repeat split; eauto.
Qed.

Lemma cons_ctx_refs d r c sib :
  ctx_refs (cons_ctx d r c sib) = r :: refs sib ++ ctx_refs c.
Proof. now destruct d. Qed.

Lemma cons_ctx_path d r c sib :
  ctx_path (cons_ctx d r c sib) = r :: ctx_path c.
Proof. now destruct d. Qed.

Lemma cons_ctx_parent d r c sib : ctx_parent (cons_ctx d r c sib) = Some r.
Proof. now destruct d. Qed.

Lemma cons_ctx_plug d r c sib t :
  plug (cons_ctx d r c sib) t = plug c (node d r t sib).
Proof. now destruct d. Qed.

Lemma cons_ctx_exact h d r c sib x :
  path_exact h (cons_ctx d r c sib) x <->
  bx h r = (if d then merge (bx h (rt sib)) (bx h x)
            else merge (bx h x) (bx h (rt sib)))
  /\ path_exact h c r.
Proof. destruct d; cbn; tauto. Qed.

Lemma cons_ctx_sibs h d r c sib :
  sibs_bbok h (cons_ctx d r c sib) <-> bbok h sib /\ sibs_bbok h c.
Proof. destruct d; cbn; tauto. Qed.

Lemma cons_ctx_tdel d r c sib : tdel (cons_ctx d r c sib) = Some (plug c sib).
Proof. now destruct d. Qed.

Lemma ctx_path_refs c x : x ∈ ctx_path c -> x ∈ ctx_refs c.
Proof. induction c; cbn; set_solver. Qed.

Lemma ctx_shape_frame h h' c x :
  agree (ctx_refs c) h h' -> ctx_shape h c x -> ctx_shape h' c x.
Proof.
  revert x. induction c as [| r c IH sib | r sib c IH]; cbn; intros x Hag;
    [auto| |];
    intros (Hn & Hps & Hs & Hp & Hc);
    pose proof (rt_in_refs sib).
  - repeat split.
    + eapply is_node_at_frame; [apply Hag; set_solver | exact Hn].
    + eapply parent_at_frame; [apply Hag; set_solver | exact Hps].
    + eapply shape'_frame; [|exact Hs]. eapply agree_sub; [|exact Hag].
      set_solver.
    + eapply parent_at_frame; [apply Hag; set_solver | exact Hp].
    + apply IH; [|exact Hc]. eapply agree_sub; [|exact Hag]. set_solver.
  - repeat split.
    + eapply is_node_at_frame; [apply Hag; set_solver | exact Hn].
    + eapply parent_at_frame; [apply Hag; set_solver | exact Hps].
    + eapply shape'_frame; [|exact Hs]. eapply agree_sub; [|exact Hag].
      set_solver.
    + eapply parent_at_frame; [apply Hag; set_solver | exact Hp].
    + apply IH; [|exact Hc]. eapply agree_sub; [|exact Hag]. set_solver.
Qed.

Lemma sibs_bbok_frame h h' c :
  agree (ctx_refs c) h h' -> sibs_bbok h c -> sibs_bbok h' c.
Proof.
  induction c as [| r c IH sib | r sib c IH]; cbn; intros Hag; [auto| |];
    intros (Hb & Hc); split.
  - eapply bbok_frame; [|exact Hb]. eapply agree_sub; [|exact Hag]. set_solver.
  - apply IH; [|exact Hc]. eapply agree_sub; [|exact Hag]. set_solver.
  - eapply bbok_frame; [|exact Hb]. eapply agree_sub; [|exact Hag]. set_solver.
  - apply IH; [|exact Hc]. eapply agree_sub; [|exact Hag]. set_solver.
Qed.


Lemma lk_set_box h r o bxv y :
  h !! r = Some o -> lk (<[r := set_box o bxv]> h) y = lk h y.
Proof.
  intros Ho. unfold lk. destruct (decide (r = y)) as [<- | Hne].
  - now rewrite lookup_insert_eq, Ho.
  - now rewrite lookup_insert_ne.
Qed.

(** The loop of [replaceChild], from the parent of the hole of [c] up. *)
Lemma refit_ctx (c : ctx) :
  forall (x : ref) (s : Store) (fuel : nat),
  ctx_shape (objs s) c x -> is_Some (objs s !! x) ->
  NoDup (x :: ctx_refs c) -> (length (ctx_path c) <= fuel)%nat ->
  exists s',
    refit fuel s (ctx_parent c) = Some s'
    /\ (forall y, y ∉ ctx_path c -> objs s' !! y = objs s !! y)
    /\ (forall y, lk (objs s') y = lk (objs s) y)
    /\ path_exact (objs s') c x
    /\ same_but_objs s s'.
Proof.
  induction c as [| r c IH sib | r sib c IH]; intros x s fuel Hsh [ox Hox] Hnd Hf.
  - exists s. destruct fuel; cbn; repeat split; auto.
  - cbn in Hsh, Hnd, Hf. destruct fuel as [|f]; [lia|].
    destruct Hsh as ((o & Ho & Hl & HA & HB) & (os & Hos & Hps) & Hss & Hp & Hc).
    apply NoDup_cons in Hnd as [Hx Hnd]. apply NoDup_cons in Hnd as [Hr Hnd].
    apply NoDup_app in Hnd as (Hnds & Hsc & Hndc).
    rewrite not_elem_of_cons, not_elem_of_app in Hx.
    destruct Hx as (Hxr & Hxs & Hxc).
    rewrite not_elem_of_app in Hr. destruct Hr as [Hrs Hrc].
    pose proof (rt_in_refs sib) as Hrts.
    destruct (update_spec s r
                (fun o0 => set_box o0 (merge (box ox) (box os))) o Ho)
      as (s1 & E1 & L1 & F1 & S1).
    assert (Hsh1 : ctx_shape (objs s1) c r).
    { eapply ctx_shape_frame; [|exact Hc]. intros y Hy. apply F1.
      intros ->. contradiction. }
    assert (Hnd1 : NoDup (r :: ctx_refs c)) by (apply NoDup_cons; auto).
    assert (Hf1 : (length (ctx_path c) <= f)%nat) by lia.
    destruct (IH r s1 f Hsh1 (ex_intro _ _ L1) Hnd1 Hf1)
      as (s' & E' & F' & K' & X' & S').
    exists s'. split.
    { cbn. rewrite Ho. cbn. rewrite HA, HB. cbn. rewrite Hox, Hos. cbn.
      rewrite E1. cbn. destruct Hp as (o' & Ho' & Hp').
      rewrite Ho in Ho'. injection Ho' as <-. rewrite Hp'. exact E'. }
    split.
    { intros y Hy. cbn in Hy. rewrite not_elem_of_cons in Hy.
      destruct Hy as [Hyr Hyc].
      rewrite F', F1; auto. }
    split.
    { intros y. rewrite K'. unfold lk.
      destruct (decide (y = r)) as [-> | Hne].
      - now rewrite L1, Ho.
      - now rewrite F1. }
    split; [|eapply same_but_objs_trans; eauto].
    cbn. split; [|exact X'].
    assert (Hp' : forall y, y ∈ ctx_path c -> y ∈ ctx_refs c)
      by (intros y; apply ctx_path_refs).
    rewrite (bx_frame (objs s1) (objs s') r), (bx_frame (objs s1) (objs s') x),
      (bx_frame (objs s1) (objs s') (rt sib)).
    + rewrite (bx_lookup _ _ _ L1). cbn.
      rewrite (bx_frame (objs s) (objs s1) x), (bx_frame (objs s) (objs s1) (rt sib))
        by (apply F1; congruence).
      now rewrite (bx_lookup _ _ _ Hox), (bx_lookup _ _ _ Hos).
    + apply F'. intros Hin. apply (Hsc (rt sib)); auto.
    + apply F'. intros Hin. apply Hxc; auto.
    + apply F'. intros Hin. apply Hrc; auto.
  - cbn in Hsh, Hnd, Hf. destruct fuel as [|f]; [lia|].
    destruct Hsh as ((o & Ho & Hl & HA & HB) & (os & Hos & Hps) & Hss & Hp & Hc).
    apply NoDup_cons in Hnd as [Hx Hnd]. apply NoDup_cons in Hnd as [Hr Hnd].
    apply NoDup_app in Hnd as (Hnds & Hsc & Hndc).
    rewrite not_elem_of_cons, not_elem_of_app in Hx.
    destruct Hx as (Hxr & Hxs & Hxc).
    rewrite not_elem_of_app in Hr. destruct Hr as [Hrs Hrc].
    pose proof (rt_in_refs sib) as Hrts.
    destruct (update_spec s r
                (fun o0 => set_box o0 (merge (box os) (box ox))) o Ho)
      as (s1 & E1 & L1 & F1 & S1).
    assert (Hsh1 : ctx_shape (objs s1) c r).
    { eapply ctx_shape_frame; [|exact Hc]. intros y Hy. apply F1.
      intros ->. contradiction. }
    assert (Hnd1 : NoDup (r :: ctx_refs c)) by (apply NoDup_cons; auto).
    assert (Hf1 : (length (ctx_path c) <= f)%nat) by lia.
    destruct (IH r s1 f Hsh1 (ex_intro _ _ L1) Hnd1 Hf1)
      as (s' & E' & F' & K' & X' & S').
    exists s'. split.
    { cbn. rewrite Ho. cbn. rewrite HA, HB. cbn. rewrite Hox, Hos. cbn.
      rewrite E1. cbn. destruct Hp as (o' & Ho' & Hp').
      rewrite Ho in Ho'. injection Ho' as <-. rewrite Hp'. exact E'. }
    split.
    { intros y Hy. cbn in Hy. rewrite not_elem_of_cons in Hy.
      destruct Hy as [Hyr Hyc].
      rewrite F', F1; auto. }
    split.
    { intros y. rewrite K'. unfold lk.
      destruct (decide (y = r)) as [-> | Hne].
      - now rewrite L1, Ho.
      - now rewrite F1. }
    split; [|eapply same_but_objs_trans; eauto].
    cbn. split; [|exact X'].
    assert (Hp' : forall y, y ∈ ctx_path c -> y ∈ ctx_refs c)
      by (intros y; apply ctx_path_refs).
    rewrite (bx_frame (objs s1) (objs s') r), (bx_frame (objs s1) (objs s') x),
      (bx_frame (objs s1) (objs s') (rt sib)).
    + rewrite (bx_lookup _ _ _ L1). cbn.
      rewrite (bx_frame (objs s) (objs s1) x), (bx_frame (objs s) (objs s1) (rt sib))
        by (apply F1; congruence).
      now rewrite (bx_lookup _ _ _ Hox), (bx_lookup _ _ _ Hos).
    + apply F'. intros Hin. apply (Hsc (rt sib)); auto.
    + apply F'. intros Hin. apply Hxc; auto.
    + apply F'. intros Hin. apply Hrc; auto.
Qed.


Lemma rt_plug c t : rt (plug c t) = ctx_root c (rt t).
Proof. revert t. induction c; cbn; intros; auto. Qed.

Lemma ctx_root_in c x : ctx_root c x ∈ x :: ctx_path c.
Proof.
  revert x. induction c as [| r c IH sib | r sib c IH]; cbn; intros x.
  - apply list_elem_of_here.
  - right. apply IH.
  - right. apply IH.
Qed.

Lemma ctx_root_path c x : c <> Top -> ctx_root c x ∈ ctx_path c.
Proof.
  destruct c as [| r c sib | r sib c]; cbn; intros Hne; [congruence| |];
    apply ctx_root_in.
Qed.

Lemma cons_ctx_root d r c sib x :
  ctx_root (cons_ctx d r c sib) x = ctx_root c r.
Proof. now destruct d. Qed.

Lemma recycle_spec (s : Store) (k : which) (r : ref) (o : Obj) :
  objs s !! r = Some o -> isLeaf o = false ->
  exists s',
    recycle s k r = Some s'
    /\ pooledNodes (treeS s' k) = Some r
    /\ objs s' !! r = Some (set_parent o (pooledNodes (treeS s k)))
    /\ (forall x, x <> r -> objs s' !! x = objs s !! x)
    /\ same_index s s' k /\ numNodes s' = numNodes s.
Proof.
  intros Ho Hl. unfold recycle. rewrite Ho. cbn. rewrite Hl.
  destruct (update_spec s r
              (fun o0 => set_parent o0 (pooledNodes (treeS s k))) o Ho)
    as (s1 & E1 & L1 & F1 & S1).
  rewrite E1. cbn. eexists. split; [reflexivity|].
  destruct S1 as (Ed & Es & Esh & Ev & En & El).
  assert (Hobjs : objs (set_pooledNodes s1 k (Some r)) = objs s1)
    by now destruct k.
  rewrite Hobjs.
  split; [now destruct k|]. split; [exact L1|]. split; [exact F1|].
  split; [|now destruct k].
  unfold same_index. destruct k; cbn; rewrite ?Ed, ?Es; repeat split; auto;
    intros []; cbn; congruence.
Qed.

Lemma otherChild_spec (o : Obj) (d : bool) (L x : ref) :
  (if d then B o else A o) = Some L -> (if d then A o else B o) = Some x ->
  x <> L -> otherChild o L = Some x.
Proof.
  unfold otherChild. destruct d; intros HL Hx Hne.
  - rewrite Hx. destruct (decide (Some x = Some L)); [congruence | reflexivity].
  - rewrite HL. destruct (decide (Some L = Some L)); [assumption | congruence].
Qed.


Lemma shape'_lk h h' t :
  (forall y, y ∈ refs t -> lk h' y = lk h y) -> shape' h t -> shape' h' t.
Proof.
  induction t as [r | r a IHa b IHb]; cbn; intros Hlk.
  - apply is_leaf_at_lk, lk_lk', Hlk. set_solver.
  - intros (Hn & Hpa & Hpb & Ha & Hb).
    pose proof (rt_in_refs a). pose proof (rt_in_refs b).
    repeat split.
    + eapply is_node_at_lk; [apply lk_lk', Hlk; set_solver | exact Hn].
    + eapply parent_at_lk; [apply Hlk; set_solver | exact Hpa].
    + eapply parent_at_lk; [apply Hlk; set_solver | exact Hpb].
    + apply IHa; [|exact Ha]. intros y Hy. apply Hlk. set_solver.
    + apply IHb; [|exact Hb]. intros y Hy. apply Hlk. set_solver.
Qed.

Lemma ctx_shape_lk h h' c x :
  (forall y, lk h' y = lk h y) -> ctx_shape h c x -> ctx_shape h' c x.
Proof.
  intros Hlk. revert x.
  induction c as [| r c IH sib | r sib c IH]; cbn; intros x; [auto| |];
    intros (Hn & Hps & Hs & Hp & Hc); repeat split; auto.
  - eapply is_node_at_lk; [apply lk_lk', Hlk | exact Hn].
  - eapply parent_at_lk; [apply Hlk | exact Hps].
  - eapply shape'_lk; [|exact Hs]. auto.
  - eapply parent_at_lk; [apply Hlk | exact Hp].
  - eapply is_node_at_lk; [apply lk_lk', Hlk | exact Hn].
  - eapply parent_at_lk; [apply Hlk | exact Hps].
  - eapply shape'_lk; [|exact Hs]. auto.
  - eapply parent_at_lk; [apply Hlk | exact Hp].
Qed.

Lemma ctx_bbok_of_exact h c x :
  path_exact h c x -> sibs_bbok h c -> ctx_bbok h c x.
Proof.
  revert x. induction c as [| r c IH sib | r sib c IH]; cbn; intros x;
    [auto| |]; intros (Hb & Hp) (Hs & Hc); auto.
Qed.

Lemma sibs_bbok_boxes h h' c :
  (forall y, y ∈ ctx_refs c -> y ∉ ctx_path c -> bx h' y = bx h y) ->
  NoDup (ctx_refs c) -> sibs_bbok h c -> sibs_bbok h' c.
Proof.
  induction c as [| r c IH sib | r sib c IH]; cbn; intros Hbx Hnd; [auto| |];
    intros (Hb & Hc);
    apply NoDup_cons in Hnd as [Hr Hnd];
    apply NoDup_app in Hnd as (Hnds & Hsc & Hndc);
    rewrite not_elem_of_app in Hr; destruct Hr as [Hrs Hrc]; split.
  - eapply bbok_boxes; [|exact Hb]. intros y Hy. apply Hbx; [set_solver|].
    rewrite not_elem_of_cons. split; [intros ->; contradiction|].
    intros Hin. apply (Hsc y Hy). now apply ctx_path_refs.
  - apply IH; auto. intros y Hy Hyp. apply Hbx; [set_solver|].
    rewrite not_elem_of_cons. split; [intros ->; contradiction | exact Hyp].
  - eapply bbok_boxes; [|exact Hb]. intros y Hy. apply Hbx; [set_solver|].
    rewrite not_elem_of_cons. split; [intros ->; contradiction|].
    intros Hin. apply (Hsc y Hy). now apply ctx_path_refs.
  - apply IH; auto. intros y Hy Hyp. apply Hbx; [set_solver|].
    rewrite not_elem_of_cons. split; [intros ->; contradiction | exact Hyp].
Qed.

(** What a store that holds [plug (cons_ctx d N c' sib) (TLeaf L)] has at
    [L] and [N]. *)
Lemma leaf_in_ctx h d N c' sib L :
  shape h None (plug (cons_ctx d N c' sib) (TLeaf L)) ->
  (exists oL, h !! L = Some oL /\ isLeaf oL = true /\ parent oL = Some N)
  /\ (exists oN, h !! N = Some oN /\ isLeaf oN = false
                 /\ (if d then B oN else A oN) = Some L
                 /\ (if d then A oN else B oN) = Some (rt sib)
                 /\ parent oN = ctx_parent c')
  /\ parent_at h (rt sib) (Some N) /\ shape' h sib /\ ctx_shape h c' N.
Proof.
  intros Hsh. apply shape_plug in Hsh as [[HL HpL] Hc].
  rewrite cons_ctx_parent in HpL. cbn in HL, HpL, Hc.
  apply cons_ctx_shape in Hc
    as ((oN & HoN & HlN & HdL & Hds) & Hps & Hss & HpN & Hc).
  destruct HL as (oL & HoL & HlL & _). destruct HpL as (oL' & HoL' & HpL).
  rewrite HoL in HoL'. injection HoL' as <-.
  destruct HpN as (oN' & HoN' & HpN). rewrite HoN in HoN'.
  injection HoN' as <-.
  repeat split; eauto 10.
Qed.


(** [subtreeRemove] when the parent of the leaf is the root. *)
Lemma remove_at_root (k : which) (L : ref) (d : bool) (N : ref) (sib : tree)
    (s : Store) (pl : list ref) (fuel : nat) :
  shape (objs s) None (plug (cons_ctx d N Top sib) (TLeaf L)) ->
  NoDup (L :: N :: refs sib) -> bbok (objs s) sib ->
  pool_ok (objs s) (pooledNodes (treeS s k)) pl ->
  (forall x, x ∈ pl -> x <> N /\ x ∉ refs sib) ->
  exists s',
    subtreeRemove fuel s k (Some N) L = Some (s', Some (rt sib))
    /\ rem_post k L N Top sib s pl s'.
Proof.
  intros Hsh Hnd Hbb Hpool Hdisj.
  apply leaf_in_ctx in Hsh
    as ((oL & HoL & HlL & HpL) & (oN & HoN & HlN & HdL & Hds & HpN)
        & (os & Hos & Hps) & Hss & _).
  cbn in HpN.
  apply NoDup_cons in Hnd as [HL Hnd]. apply NoDup_cons in Hnd as [HN Hnds].
  rewrite not_elem_of_cons in HL. destruct HL as [HLN HLs].
  pose proof (rt_in_refs sib) as Hrts.
  assert (HsL : rt sib <> L) by (intros E; rewrite E in Hrts; contradiction).
  assert (HsN : rt sib <> N) by (intros E; rewrite E in Hrts; contradiction).
  destruct (update_spec s (rt sib) (fun x => set_parent x (parent oN)) os Hos)
    as (s1 & E1 & L1 & F1 & S1).
  assert (HoN1 : objs s1 !! N = Some oN) by (rewrite F1; auto).
  destruct (recycle_spec s1 k N oN HoN1 HlN)
    as (s2 & E2 & P2 & L2 & F2 & S2 & Nn2).
  exists s2. split.
  { unfold subtreeRemove.
    destruct (decide (Some L = Some N)) as [E | _]; [congruence|].
    rewrite HoL. cbn. rewrite HpL.
    destruct (decide (Some N = Some N)) as [_ | E]; [|congruence].
    cbn. rewrite HoN. cbn.
    rewrite (otherChild_spec oN d L (rt sib) HdL Hds HsL). cbn.
    rewrite E1. cbn. rewrite E2. reflexivity. }
  assert (Fs : forall x, x ∈ refs sib -> x <> rt sib ->
                         objs s2 !! x = objs s !! x).
  { intros x Hx Hne. rewrite F2, F1; auto. intros ->. contradiction. }
  assert (Ls : objs s2 !! rt sib = Some (set_parent os (parent oN)))
    by (rewrite F2; auto).
  unfold rem_post. cbn [plug ctx_refs].
  split.
  { split.
    - eapply shape'_links; [exact Hnds | | | exact Hss].
      + unfold lk'. now rewrite Ls, Hos.
      + intros x Hx Hne. apply lk_same. now apply Fs.
    - eexists. split; [exact Ls|]. cbn. exact HpN. }
  split.
  { eapply bbok_boxes; [|exact Hbb]. intros x Hx.
    destruct (decide (x = rt sib)) as [-> | Hne].
    - now rewrite (bx_lookup _ _ _ Ls), (bx_lookup _ _ _ Hos).
    - apply bx_frame. now apply Fs. }
  split.
  { cbn. split; [exact P2|]. eexists. split; [exact L2|].
    split; [exact HlN|]. cbn.
    assert (Ep : pooledNodes (treeS s1 k) = pooledNodes (treeS s k)).
    { destruct S1 as (Ed & Es & _). destruct k; cbn; congruence. }
    rewrite Ep. eapply pool_ok_frame; [|exact Hpool].
    intros x Hx. destruct (Hdisj x Hx) as [HxN Hxs].
    rewrite F2, F1; auto. intros ->. contradiction. }
  split.
  { intros x HxN Hxs _. rewrite F2, F1; auto. intros ->. contradiction. }
  split.
  { intros x o Ho Hl.
    destruct (decide (x = N)) as [-> | HxN]; [congruence|].
    destruct (decide (x = rt sib)) as [-> | Hxs].
    - rewrite Hos in Ho. injection Ho as <-.
      eexists. split; [exact Ls|]. auto.
    - exists o. rewrite F2, F1; auto. }
  split.
  { intros x [o Ho].
    destruct (decide (x = N)) as [-> | HxN]; [eauto|].
    destruct (decide (x = rt sib)) as [-> | Hxs]; [eauto|].
    rewrite F2, F1 in Ho; eauto. }
  split.
  { eapply same_index_trans; [apply same_but_objs_index; exact S1 | exact S2]. }
  destruct S1 as (_ & _ & _ & _ & En & _). congruence.
Qed.


(** [subtreeRemove] when the parent of the leaf has a parent [G]. *)
Lemma remove_below (k : which) (L : ref) (d : bool) (N : ref) (d' : bool)
    (G : ref) (c'' : ctx) (sib2 sib : tree) (s : Store) (pl : list ref)
    (fuel : nat) :
  let c' := cons_ctx d' G c'' sib2 in
  shape (objs s) None (plug (cons_ctx d N c' sib) (TLeaf L)) ->
  NoDup (L :: N :: refs sib ++ ctx_refs c') ->
  bbok (objs s) sib -> sibs_bbok (objs s) c' ->
  pool_ok (objs s) (pooledNodes (treeS s k)) pl ->
  (forall x, x ∈ pl -> x <> N /\ x ∉ refs sib /\ x ∉ ctx_refs c') ->
  (length (ctx_path c') <= fuel)%nat ->
  exists s',
    subtreeRemove fuel s k (Some (ctx_root c' N)) L
    = Some (s', Some (ctx_root c' N))
    /\ rem_post k L N c' sib s pl s'.
Proof.
  intros c' Hsh Hnd Hbb Hsibs Hpool Hdisj Hf.
  apply leaf_in_ctx in Hsh
    as ((oL & HoL & HlL & HpL) & (oN & HoN & HlN & HdL & Hds & HpN)
        & (os & Hos & Hps) & Hss & Hc').
  unfold c' in HpN. rewrite cons_ctx_parent in HpN.
  pose proof Hc' as Hc'0. unfold c' in Hc'. apply cons_ctx_shape in Hc'
    as ((oG & HoG & HlG & HdN & Hds2) & Hps2 & Hss2 & HpG & Hc'').
  apply NoDup_cons in Hnd as [HL Hnd]. apply NoDup_cons in Hnd as [HN Hnd].
  apply NoDup_app in Hnd as (Hnds & Hsc & Hndc).
  rewrite not_elem_of_cons, not_elem_of_app in HL.
  destruct HL as (HLN & HLs & HLc).
  rewrite not_elem_of_app in HN. destruct HN as [HNs HNc].
  pose proof (rt_in_refs sib) as Hrts.
  assert (HGc : G ∈ ctx_refs c').
  { unfold c'. rewrite cons_ctx_refs. set_solver. }
  assert (Hpc : forall y, y ∈ ctx_path c' -> y ∈ ctx_refs c')
    by (intros y; apply ctx_path_refs).
  assert (HsL : rt sib <> L) by (intros E; rewrite E in Hrts; contradiction).
  assert (HsN : rt sib <> N) by (intros E; rewrite E in Hrts; contradiction).
  assert (HsG : rt sib <> G).
  { intros E. apply (Hsc (rt sib)); auto. now rewrite E. }
  assert (HNG : N <> G) by (intros ->; contradiction).
  assert (HLG : L <> G) by (intros ->; contradiction).
  assert (Hroot : ctx_root c' N ∈ ctx_path c').
  { apply ctx_root_path. unfold c'. now destruct d'. }
  (* recycle the parent, hang the sibling below the grandparent *)
  destruct (recycle_spec s k N oN HoN HlN)
    as (s1 & E1 & P1 & L1 & F1 & S1 & Nn1).
  assert (HoG1 : objs s1 !! G = Some oG) by (rewrite F1; auto).
  assert (Hos1 : objs s1 !! rt sib = Some os) by (rewrite F1; auto).
  destruct (setChild_spec d' s1 G (rt sib) oG os HoG1 Hos1 (not_eq_sym HsG))
    as (s2 & E2 & L2G & L2s & F2 & S2).
  (* the context of the sibling in the new store *)
  assert (F12 : forall y, y <> N -> y <> G -> y <> rt sib ->
                          objs s2 !! y = objs s !! y).
  { intros y H1 H2 H3. rewrite F2, F1; auto. }
  assert (HrG2 : rt sib2 ∈ refs sib2) by apply rt_in_refs.
  unfold c' in Hndc. rewrite cons_ctx_refs in Hndc.
  apply NoDup_cons in Hndc as [HG Hndc].
  apply NoDup_app in Hndc as (Hnds2 & Hs2c & Hndc'').
  rewrite not_elem_of_app in HG. destruct HG as [HGs2 HGc''].
  assert (Hin2 : forall y, y ∈ refs sib2 ++ ctx_refs c'' ->
                           y ∈ ctx_refs c' /\ y <> G).
  { intros y Hy. split.
    - unfold c'. rewrite cons_ctx_refs. set_solver.
    - intros ->. apply elem_of_app in Hy as [Hy | Hy]; contradiction. }
  assert (F12' : forall y, y ∈ refs sib2 ++ ctx_refs c'' ->
                           objs s2 !! y = objs s !! y).
  { intros y Hy. destruct (Hin2 y Hy) as [Hyc HyG]. apply F12; auto.
    - intros ->. contradiction.
    - intros ->. apply (Hsc (rt sib)); auto. }
  assert (Hsh2 : ctx_shape (objs s2) c' (rt sib)).
  { unfold c'. apply cons_ctx_shape. repeat split.
    - eexists. split; [exact L2G|]. destruct d'; cbn; auto.
    - eapply parent_at_frame; [|exact Hps2]. apply F12'. set_solver.
    - eapply shape'_frame; [|exact Hss2]. intros y Hy. apply F12'. set_solver.
    - destruct HpG as (o & Ho & Hp). rewrite HoG in Ho. injection Ho as <-.
      eexists. split; [exact L2G|]. destruct d'; exact Hp.
    - eapply ctx_shape_frame; [|exact Hc'']. intros y Hy. apply F12'.
      set_solver. }
  assert (Hnd2 : NoDup (rt sib :: ctx_refs c')).
  { apply NoDup_cons. split.
    - intros Hin. apply (Hsc (rt sib)); auto.
    - unfold c'. rewrite cons_ctx_refs. apply NoDup_cons. split.
      + rewrite not_elem_of_app. auto.
      + apply NoDup_app. auto. }
  destruct (refit_ctx c' (rt sib) s2 fuel Hsh2 (ex_intro _ _ L2s) Hnd2 Hf)
    as (s3 & E3 & F3 & K3 & X3 & S3).
  exists s3. split.
  { unfold subtreeRemove.
    destruct (decide (Some L = Some (ctx_root c' N))) as [E | _].
    { injection E as E. rewrite <- E in Hroot. apply Hpc in Hroot.
      contradiction. }
    rewrite HoL. cbn. rewrite HpL.
    destruct (decide (Some N = Some (ctx_root c' N))) as [E | _].
    { injection E as E. rewrite <- E in Hroot. apply Hpc in Hroot.
      contradiction. }
    cbn. rewrite HoN. cbn. rewrite HpN. cbn.
    rewrite (otherChild_spec oN d L (rt sib) HdL Hds HsL). cbn.
    unfold replaceChild. rewrite HoG. cbn.
    assert (Estep :
      (if decide (A oG = Some N)
       then a ← A oG; s1 ← recycle s k a; setA s1 G (rt sib)
       else b ← B oG; s1 ← recycle s k b; setB s1 G (rt sib)) = Some s2).
    { destruct d'; cbn in HdN, Hds2, E2.
      - destruct (decide (A oG = Some N)) as [E | _].
        + rewrite E in Hds2. injection Hds2 as Hds2.
          rewrite Hds2 in HNc. exfalso. apply HNc.
          unfold c'. cbn. set_solver.
        + rewrite HdN. cbn. rewrite E1. cbn. exact E2.
      - destruct (decide (A oG = Some N)) as [_ | E]; [|congruence].
        rewrite HdN. cbn. rewrite E1. cbn. exact E2. }
    rewrite Estep. cbn.
    unfold c' in E3. rewrite cons_ctx_parent in E3. rewrite E3. reflexivity. }
  (* what the new store holds *)
  assert (Fs : forall x, x ∈ refs sib -> x <> rt sib ->
                         objs s3 !! x = objs s !! x).
  { intros x Hx Hne. rewrite F3, F12; auto.
    - intros ->. contradiction.
    - intros ->. apply (Hsc G); auto.
    - intros Hin. apply (Hsc x); auto. }
  assert (Bs : forall x, x ∈ refs sib -> bx (objs s3) x = bx (objs s) x).
  { intros x Hx. destruct (decide (x = rt sib)) as [-> | Hne].
    - rewrite (bx_frame (objs s2) (objs s3)).
      + now rewrite (bx_lookup _ _ _ L2s), (bx_lookup _ _ _ Hos).
      + apply F3. intros Hin. apply (Hsc (rt sib)); auto.
    - apply bx_frame. now apply Fs. }
  unfold rem_post.
  split.
  { apply shape_plug. unfold c' at 1. rewrite cons_ctx_parent. split.
    - split.
      + eapply shape'_links; [exact Hnds | | | exact Hss].
        * rewrite (lk_lk' _ _ _ (K3 (rt sib))). unfold lk'.
          now rewrite L2s, Hos.
        * intros x Hx Hne. apply lk_same. now apply Fs.
      + eapply parent_at_lk; [apply K3|].
        eexists. split; [exact L2s | reflexivity].
    - eapply ctx_shape_lk; [exact K3 | exact Hsh2]. }
  split.
  { apply bbok_plug. split.
    - eapply bbok_boxes; [|exact Hbb]. exact Bs.
    - apply ctx_bbok_of_exact; [exact X3|].
      eapply sibs_bbok_boxes; [| |exact Hsibs].
      + intros y Hy Hyp. apply bx_frame. rewrite F3 by exact Hyp.
        apply F12.
        * intros ->. contradiction.
        * intros ->. apply Hyp. unfold c'. rewrite cons_ctx_path. set_solver.
        * intros ->. apply (Hsc (rt sib)); auto.
      + unfold c'. rewrite cons_ctx_refs. apply NoDup_cons. split.
        * rewrite not_elem_of_app. auto.
        * apply NoDup_app. auto. }
  split.
  { cbn.
    assert (Ep : pooledNodes (treeS s3 k) = Some N).
    { destruct S2 as (Ed2 & Es2 & _), S3 as (Ed3 & Es3 & _).
      destruct k; cbn in *; congruence. }
    split; [exact Ep|]. exists (set_parent oN (pooledNodes (treeS s k))).
    split.
    { rewrite F3 by (intros Hin; apply HNc; auto).
      rewrite F2 by auto. exact L1. }
    split; [exact HlN|]. cbn.
    eapply pool_ok_frame; [|exact Hpool].
    intros x Hx. destruct (Hdisj x Hx) as (HxN & Hxs & Hxc).
    rewrite F3 by (intros Hin; apply Hxc; auto).
    apply F12; auto; intros ->; contradiction. }
  split.
  { intros x HxN Hxs Hxc.
    rewrite F3 by (intros Hin; apply Hxc; auto).
    apply F12; auto; intros ->; contradiction. }
  split.
  { intros x o Ho Hl.
    assert (Hk : lk (objs s3) x = lk (objs s2) x) by apply K3.
    destruct (decide (x = N)) as [-> | HxN]; [congruence|].
    destruct (decide (x = G)) as [-> | HxG]; [congruence|].
    destruct (decide (x ∈ ctx_path c')) as [Hin | Hnin].
    - (* a node of the path is no leaf *)
      exfalso. unfold lk in Hk.
      assert (Hn : exists o2, objs s2 !! x = Some o2 /\ isLeaf o2 = isLeaf o).
      { destruct (decide (x = rt sib)) as [-> | Hxs].
        - rewrite Hos in Ho. injection Ho as <-. eexists. split; [exact L2s|].
          reflexivity.
        - exists o. rewrite F12; auto. }
      destruct Hn as (o2 & Ho2 & El).
      clear Hk. revert x Hin o Ho Hl HxN HxG o2 Ho2 El.
      assert (Hall : forall y, y ∈ ctx_path c' ->
                exists oy, objs s2 !! y = Some oy /\ isLeaf oy = false).
      { clear -Hsh2. revert Hsh2. generalize (rt sib).
        induction c' as [| r c IH sb | r sb c IH]; cbn; intros x0 Hsh y Hy.
        - set_solver.
        - destruct Hsh as ((o & Ho & Hl & _) & _ & _ & _ & Hc).
          apply elem_of_cons in Hy as [-> | Hy]; eauto.
        - destruct Hsh as ((o & Ho & Hl & _) & _ & _ & _ & Hc).
          apply elem_of_cons in Hy as [-> | Hy]; eauto. }
      intros x Hin o Ho Hl HxN HxG o2 Ho2 El.
      destruct (Hall x Hin) as (oy & Hoy & Hly). congruence.
    - destruct (decide (x = rt sib)) as [-> | Hxs].
      + rewrite Hos in Ho. injection Ho as <-.
        exists (set_parent os (Some G)). rewrite F3 by exact Hnin.
        split; [exact L2s|]. auto.
      + exists o. rewrite F3, F12; auto. }
  split.
  { intros x [o Ho].
    destruct (decide (x = N)) as [-> | HxN]; [eauto|].
    destruct (decide (x = G)) as [-> | HxG]; [eauto|].
    destruct (decide (x = rt sib)) as [-> | Hxs]; [eauto|].
    assert (Hk : lk (objs s3) x = lk (objs s2) x) by apply K3.
    unfold lk in Hk. rewrite Ho in Hk.
    destruct (objs s2 !! x) as [o2|] eqn:E; [|discriminate].
    rewrite F12 in E; eauto. }
  split.
  { eapply same_index_trans; [exact S1|].
    apply same_but_objs_index. eapply same_but_objs_trans; eauto. }
  destruct S2 as (_ & _ & _ & _ & En2 & _), S3 as (_ & _ & _ & _ & En3 & _).
  congruence.
Qed.

End RemoveFacts.

(** ** The invariant of the store *)

Module InvFacts.

Import BBTree TreeShape Structure TreeShapeFacts InsertFacts RemoveFacts.
Open Scope Z_scope.

Lemma other_other k : other (other k) = k.
Proof. now destruct k. Qed.

Lemma inv_k_swap s k ot ot' pl pl' :
  inv_k s k ot ot' pl pl' -> inv_k s (other k) ot' ot pl' pl.
Proof.
  intros [H1 H2 H3 H4 H5 H6 H7 H8 H9 H10].
  constructor; rewrite ?other_other; auto.
  - eapply NoDup_Permutation_proper; [|exact H5].
    rewrite !app_assoc.
    rewrite (Permutation_app_comm (orefs ot') (orefs ot)).
    rewrite <- !app_assoc. do 2 apply Permutation_app_head.
    apply Permutation_app_comm.
  - intros l o Hl. apply H10. set_solver.
Qed.

Lemma inv_any s k : inv s -> exists ot ot' pl pl', inv_k s k ot ot' pl pl'.
Proof.
  intros (td & ts & pd & ps & H). destruct k; [eauto 6|].
  apply inv_k_swap in H. eauto 6.
Qed.

Lemma inv_of_k s k ot ot' pl pl' : inv_k s k ot ot' pl pl' -> inv s.
Proof.
  intros H. destruct k; [unfold inv; eauto 6|].
  apply inv_k_swap in H. unfold inv; eauto 6.
Qed.

Lemma inv_empty shapes : inv (store (empty shapes)).
Proof.
  exists None, None, [], []. constructor; cbn; auto.
  - constructor.
  - intros r [o Ho]. cbn in Ho. done.
  - intros id l Hl. done.
  - intros id l Hl. done.
  - intros [] id l Hl; cbn in Hl; done.
  - intros l o Hl. set_solver.
Qed.

(** Distinct allocated references are no more than were allocated. *)
Lemma bounded_length (l : list nat) (n : nat) :
  NoDup l -> (forall x, x ∈ l -> (x < n)%nat) -> (length l <= n)%nat.
Proof.
  intros Hnd Hb.
  assert (Hsub : l ⊆+ seq 0 n).
  { apply NoDup_submseteq; [exact Hnd|]. intros x Hx.
    apply elem_of_seq. specialize (Hb x Hx). lia. }
  apply submseteq_length in Hsub. now rewrite length_seq in Hsub.
Qed.

Lemma pool_ok_is_Some h head l x : pool_ok h head l -> x ∈ l -> is_Some (h !! x).
Proof.
  revert head. induction l as [|r l IH]; cbn; intros head Hp Hx; [set_solver|].
  destruct Hp as (_ & o & Ho & _ & Hp).
  apply elem_of_cons in Hx as [-> | Hx]; eauto.
Qed.

Lemma shape'_leaf h t l : shape' h t -> l ∈ leafs t -> is_leaf_at h l.
Proof.
  induction t as [r | r a IHa b IHb]; cbn.
  - intros H Hl. apply list_elem_of_singleton in Hl as ->. exact H.
  - intros (_ & _ & _ & Ha & Hb) Hl.
    apply elem_of_app in Hl as [Hl | Hl]; auto.
Qed.

Lemma tins_leafs L N t t' : tins L N t t' -> leafs t' ≡ₚ L :: leafs t.
Proof.
  induction 1 as [p | r a a' b _ IH | r a b b' _ IH]; cbn.
  - reflexivity.
  - now rewrite IH.
  - rewrite IH. now rewrite <- Permutation_middle.
Qed.

Lemma leafs_plug c u : leafs (plug c u) ≡ₚ leafs u ++ ctx_leafs c.
Proof.
  revert u. induction c as [| r c IH sib | r sib c IH]; intros u; cbn.
  - now rewrite app_nil_r.
  - rewrite IH. cbn. now rewrite app_assoc.
  - rewrite IH. cbn.
    rewrite (Permutation_app_comm (leafs sib) (leafs u)).
    now rewrite app_assoc.
Qed.


(** What the invariant says of the references in play. *)
Lemma inv_refs_alloc s k ot ot' pl pl' x :
  inv_k s k ot ot' pl pl' -> x ∈ orefs ot ++ orefs ot' ++ pl ++ pl' ->
  (x < nobjs s)%nat.
Proof.
  intros [H1 H2 H3 H4 H5 H6 H7 H8 H9 H10] Hx. apply H6.
  rewrite !elem_of_app in Hx. destruct Hx as [Hx | [Hx | [Hx | Hx]]].
  - destruct ot as [t|]; [|set_solver]. destruct H1 as (_ & [Hs _] & _).
    eapply shape'_is_Some; eauto.
  - destruct ot' as [t|]; [|set_solver]. destruct H2 as (_ & [Hs _] & _).
    eapply shape'_is_Some; eauto.
  - eapply (pool_ok_is_Some _ _ pl); eauto.
  - eapply (pool_ok_is_Some _ _ pl'); eauto.
Qed.

Lemma with_leaf_facts s k id bxv :
  let s2 := with_leaf s k id bxv in
  objs s2 = <[nobjs s := mkObj true (Some id) bxv None None None]> (objs s)
  /\ nobjs s2 = S (nobjs s)
  /\ leaves (treeS s2 k) = <[id := nobjs s]> (leaves (treeS s k))
  /\ root (treeS s2 k) = root (treeS s k)
  /\ pooledNodes (treeS s2 k) = pooledNodes (treeS s k)
  /\ count (treeS s2 k) = count (treeS s k)
  /\ treeS s2 (other k) = treeS s (other k)
  /\ shapes s2 = shapes s /\ velocityFunc s2 = velocityFunc s.
Proof.
  unfold with_leaf, nobjs. destruct k; cbn; repeat split; auto; lia.
Qed.

Lemma insertS_unfold s k id bxv :
  getBB s id = Some bxv ->
  insertS s k id =
  ('(s3, r) ← subtreeInsert (fuel (with_leaf s k id bxv))
                (with_leaf s k id bxv) k
                (root (treeS (with_leaf s k id bxv) k)) (nobjs s);
   let tr3 := treeS s3 k in
   Some (set_treeS s3 k
           (mkTreeS (leaves tr3) (count tr3 + 1) (Some r) (pooledNodes tr3)))).
Proof. intros E. unfold insertS. rewrite E. reflexivity. Qed.


Lemma NoDup_app4 (a b c d : list ref) :
  NoDup (a ++ b ++ c ++ d) <->
  NoDup a /\ NoDup b /\ NoDup c /\ NoDup d
  /\ (forall x, x ∈ a -> x ∉ b /\ x ∉ c /\ x ∉ d)
  /\ (forall x, x ∈ b -> x ∉ c /\ x ∉ d)
  /\ (forall x, x ∈ c -> x ∉ d).
Proof.
  rewrite !NoDup_app. split.
  - intros (Ha & Hd1 & Hb & Hd2 & Hc & Hd3 & Hd).
    split; [exact Ha|]. split; [exact Hb|]. split; [exact Hc|].
    split; [exact Hd|].
    split; [|split; [|exact Hd3]]; intros x Hx.
    + specialize (Hd1 x Hx). rewrite !not_elem_of_app in Hd1. tauto.
    + specialize (Hd2 x Hx). rewrite !not_elem_of_app in Hd2. tauto.
  - intros (Ha & Hb & Hc & Hd & H1 & H2 & H3).
    split; [exact Ha|]. split.
    { intros x Hx. rewrite !not_elem_of_app. exact (H1 x Hx). }
    split; [exact Hb|]. split.
    { intros x Hx. rewrite !not_elem_of_app. exact (H2 x Hx). }
    split; [exact Hc|]. split; [exact H3 | exact Hd].
Qed.

Lemma holds_frame s s' k ot :
  root (treeS s' k) = root (treeS s k) ->
  agree (orefs ot) (objs s) (objs s') -> holds s k ot -> holds s' k ot.
Proof.
  intros Hr Hag. destruct ot as [t|]; cbn in *; [|congruence].
  intros (E & Hs & Hb). rewrite Hr.
  split; [exact E|]. split.
  - eapply shape_frame; eauto.
  - eapply bbok_frame; eauto.
Qed.

Lemma leaves_kept_insert h L o :
  h !! L = None -> leaves_kept h (<[L := o]> h).
Proof.
  intros HL x ox Hx Hl. exists ox.
  rewrite lookup_insert_ne by congruence. auto.
Qed.

Lemma leaves_kept_obj h h' l o o' :
  leaves_kept h h' -> h !! l = Some o -> isLeaf o = true ->
  h' !! l = Some o' -> obj o' = obj o /\ box o' = box o /\ isLeaf o' = true.
Proof.
  intros Hk Ho Hl Ho'. destruct (Hk l o Ho Hl) as (o2 & Ho2 & ? & ? & ?).
  rewrite Ho' in Ho2. injection Ho2 as <-. auto.
Qed.


Lemma oleafs_in_orefs ot l : l ∈ oleafs ot -> l ∈ orefs ot.
Proof. destruct ot as [t|]; cbn; [apply leafs_in_refs | auto]. Qed.

(** The invariant after a step that left the other index and its objects
    alone: what is left to show speaks of the index [k] only. *)
Lemma inv_k_rebuild s s' k ot ot' pl pl' nt npl :
  inv_k s k ot ot' pl pl' ->
  holds s' k nt ->
  pool_ok (objs s') (pooledNodes (treeS s' k)) npl ->
  treeS s' (other k) = treeS s (other k) ->
  shapes s' = shapes s ->
  agree (orefs ot' ++ pl') (objs s) (objs s') ->
  NoDup (orefs nt) -> NoDup npl ->
  (forall x, x ∈ orefs nt -> x ∉ npl) ->
  (forall x, x ∈ orefs nt ++ npl -> x ∉ orefs ot' /\ x ∉ pl') ->
  alloc s' ->
  (forall id l, leaves (treeS s' k) !! id = Some l ->
      l ∈ oleafs nt /\ exists o, objs s' !! l = Some o /\ obj o = Some id) ->
  (forall l o, l ∈ oleafs nt -> objs s' !! l = Some o ->
      exists id, obj o = Some id /\ is_Some (shapes s !! id)) ->
  inv_k s' k nt ot' npl pl'.
Proof.
  intros [Hown Hoth Hpool Hpool' Hnd Hal Hlv Hlv' Hkeys Hshp]
    Hown2 Hpool2 Eoth Esh Hag Hnd1 Hnd2 Hd1 Hd2 Hal2 Hlv2 Hshp2.
  apply NoDup_app4 in Hnd as (Hndo & Hndo' & Hndp & Hndp' & D1 & D2 & D3).
  constructor; auto.
  - eapply holds_frame; [| |exact Hoth]; [now rewrite Eoth|].
    eapply agree_sub; [|exact Hag]. intros r Hr. set_solver.
  - rewrite Eoth. eapply pool_ok_frame; [|exact Hpool'].
    eapply agree_sub; [|exact Hag]. intros r Hr. set_solver.
  - apply NoDup_app4.
    split; [exact Hnd1|]. split; [exact Hndo'|]. split; [exact Hnd2|].
    split; [exact Hndp'|]. split; [|split].
    + intros x Hx. destruct (Hd2 x) as [? ?]; [set_solver|]. auto.
    + intros x Hx. split; [|now apply D2].
      intros Hc. destruct (Hd2 x) as [? ?]; [set_solver|]. contradiction.
    + intros x Hx. destruct (Hd2 x) as [? ?]; [set_solver|]. auto.
  - intros id l Hl. now apply Hlv2 in Hl.
  - rewrite Eoth. exact Hlv'.
  - intros k' id l Hl. destruct (decide (k' = k)) as [-> | Hk].
    + now apply Hlv2 in Hl.
    + assert (k' = other k) as -> by (destruct k, k'; cbn; congruence).
      rewrite Eoth in Hl. pose proof (Hlv' _ _ Hl) as Hin.
      rewrite Hag by (apply elem_of_app; left; now apply oleafs_in_orefs).
      eapply Hkeys; eauto.
  - intros l o Hl Ho. rewrite Esh.
    apply elem_of_app in Hl as [Hl | Hl]; [eauto|].
    rewrite Hag in Ho by (apply elem_of_app; left; now apply oleafs_in_orefs).
    eapply Hshp; [|exact Ho]. set_solver.
Qed.

(** [insert] on a store that satisfies the invariant. *)
Lemma insertS_inv s k id ot ot' pl pl' :
  inv_k s k ot ot' pl pl' -> is_Some (shapes s !! id) ->
  exists s' t' pl2,
    insertS s k id = Some s'
    /\ inv_k s' k (Some t') ot' pl2 pl'
    /\ leaves (treeS s' k) = <[id := nobjs s]> (leaves (treeS s k))
    /\ leaves_kept (objs s) (objs s')
    /\ inserted (nobjs s) ot t' pl pl2
    /\ shapes s' = shapes s /\ velocityFunc s' = velocityFunc s
    /\ (nobjs s < nobjs s')%nat.
Proof.
  intros Hinv [bx0 Hbx0].
  pose proof Hinv as [Hown Hoth Hpool Hpool' Hnd Hal Hlv Hlv' Hkeys Hshp].
  set (L := nobjs s).
  set (bxv := match velocityFunc s with Some f => f id bx0 | None => bx0 end).
  assert (Hget : getBB s id = Some bxv) by (unfold getBB; now rewrite Hbx0).
  set (oL := mkObj true (Some id) bxv None None None).
  set (s2 := with_leaf s k id bxv).
  destruct (with_leaf_facts s k id bxv)
    as (Eobjs & En2 & Elv2 & Ert2 & Epl2 & Ect2 & Eoth2 & Esh2 & Ev2).
  fold s2 in Eobjs, En2, Elv2, Ert2, Epl2, Ect2, Eoth2, Esh2, Ev2.
  fold L oL in Eobjs.
  rewrite (insertS_unfold s k id bxv Hget). fold s2 L.
  assert (HLnone : objs s !! L = None).
  { destruct (objs s !! L) eqn:E; [|reflexivity].
    assert (L < nobjs s)%nat by (apply Hal; eauto). unfold L in *. lia. }
  assert (Hlt : forall x, x ∈ orefs ot ++ orefs ot' ++ pl ++ pl' ->
                          (x < nobjs s)%nat).
  { intros x Hx. eapply inv_refs_alloc; eauto. }
  assert (Hfresh : forall x, x ∈ orefs ot ++ orefs ot' ++ pl ++ pl' -> x <> L).
  { intros x Hx. specialize (Hlt x Hx). unfold L. lia. }
  assert (F2 : forall x, x <> L -> objs s2 !! x = objs s !! x).
  { intros x Hx. rewrite Eobjs. now rewrite lookup_insert_ne. }
  assert (HL2 : objs s2 !! L = Some oL).
  { rewrite Eobjs. now rewrite lookup_insert_eq. }
  assert (Hal2 : alloc s2).
  { intros x [o Ho]. rewrite En2.
    destruct (decide (x = L)) as [-> | Hx]; [unfold L; lia|].
    rewrite F2 in Ho by exact Hx.
    assert (x < nobjs s)%nat by (apply Hal; eauto). lia. }
  assert (Hk2 : leaves_kept (objs s) (objs s2)).
  { rewrite Eobjs. now apply leaves_kept_insert. }
  pose proof Hnd as Hnd4.
  apply NoDup_app4 in Hnd4 as (Hndo & Hndo' & Hndp & Hndp' & D1 & D2 & D3).
  assert (Hag : forall X, (forall x, x ∈ X -> x <> L) ->
                          agree X (objs s) (objs s2)).
  { intros X HX x Hx. apply F2, HX, Hx. }
  assert (Hpool2 : pool_ok (objs s2) (pooledNodes (treeS s2 k)) pl).
  { rewrite Epl2. eapply pool_ok_frame; [|exact Hpool].
    apply Hag. intros x Hx. apply Hfresh. set_solver. }
  destruct ot as [t|].
  - (* the index holds a tree *)
    destruct Hown as (Ert & Hsh & Hbb). cbn in Hndo, D1, Hlv.
    assert (Hx_t : forall x, x ∈ refs t -> x <> L).
    { intros x Hx. apply Hfresh. cbn. set_solver. }
    assert (Hh : (height t <= fuel s2)%nat).
    { unfold fuel. rewrite En2. etrans; [apply height_le_refs|].
      etrans; [apply (bounded_length _ (nobjs s)); auto|]; [|lia].
      intros x Hx. apply Hlt. cbn. set_solver. }
    destruct (subtreeInsert_spec k L oL t (fuel s2) s2 pl None Hh)
      as (s3 & t' & N & pl2 & E3 & Hpost); auto.
    { eapply shape_frame; [|exact Hsh]. now apply Hag. }
    { eapply bbok_frame; [|exact Hbb]. now apply Hag. }
    { intros Hin. now apply (Hx_t L). }
    { intros x Hx Hin. destruct (D1 x Hin) as (_ & Hc & _). contradiction. }
    { intros Hin. apply (Hfresh L); [set_solver | reflexivity]. }
    destruct Hpost as (Htins & Hpl & HNL & Hsh3 & Hp3 & Hbb3 & _ & Hfr3 & Hk3
                         & Hpool3 & Hsi3 & Hal3 & Hn3).
    destruct Hsi3 as (Elv3 & Ect3 & Ert3 & Eoth3 & Esh3 & Ev3 & Enl3).
    rewrite Ert2, Ert. cbn [rt]. rewrite E3. cbn.
    match goal with |- context [Some (set_treeS s3 k ?T)] =>
      set (s' := set_treeS s3 k T) end.
    assert (Eobjs' : objs s' = objs s3) by (unfold s'; now destruct k).
    assert (En' : nobjs s' = nobjs s3) by (unfold s'; now destruct k).
    assert (Esh' : shapes s' = shapes s3) by (unfold s'; now destruct k).
    assert (Ev' : velocityFunc s' = velocityFunc s3)
      by (unfold s'; now destruct k).
    assert (Eoth' : treeS s' (other k) = treeS s3 (other k))
      by (unfold s'; now destruct k).
    assert (Eown' : treeS s' k =
                    mkTreeS (leaves (treeS s3 k)) (count (treeS s3 k) + 1)
                      (Some (rt t')) (pooledNodes (treeS s3 k)))
      by (unfold s'; now destruct k).
    assert (HN : N ∉ refs t /\ N ∉ orefs ot' /\ N ∉ pl2 /\ N ∉ pl').
    { destruct Hpl as [-> | (-> & -> & ->)].
      - apply NoDup_cons in Hndp as [HNp _].
        split; [intros Hc; destruct (D1 N Hc) as (_ & Hc2 & _); set_solver|].
        split; [intros Hc; destruct (D2 N Hc) as (Hc2 & _); set_solver|].
        split; [exact HNp|]. apply D3. set_solver.
      - rewrite En2.
        assert (forall x, x ∈ orefs (Some t) ++ orefs ot' ++ [] ++ pl' ->
                          x <> S (nobjs s)).
        { intros x Hx. specialize (Hlt x Hx). lia. }
        split; [intros Hc; apply (H (S (nobjs s))); cbn; set_solver|].
        split; [intros Hc; apply (H (S (nobjs s))); cbn; set_solver|].
        split; [set_solver|].
        intros Hc; apply (H (S (nobjs s))); cbn; set_solver. }
    destruct HN as (HN1 & HN2 & HN3 & HN4).
    assert (Hpl2 : forall x, x ∈ pl2 -> x ∈ pl).
    { destruct Hpl as [-> | (-> & -> & _)]; set_solver. }
    assert (Fr : forall x, x ∉ refs t -> x <> L -> x <> N ->
                           objs s' !! x = objs s !! x).
    { intros x H1 H2 H3. rewrite Eobjs', Hfr3 by auto. now apply F2. }
    assert (Hk' : leaves_kept (objs s) (objs s')).
    { rewrite Eobjs'. eapply leaves_kept_trans; eauto. }
    pose proof (tins_refs _ _ _ _ Htins) as Prefs.
    pose proof (tins_leafs _ _ _ _ Htins) as Pleafs.
    exists s', t', pl2.
    split; [reflexivity|]. split; [|split; [|split; [|split]]].
    + eapply (inv_k_rebuild s s' k (Some t) ot' pl pl'); eauto.
      * cbn. rewrite Eown'. cbn. split; [reflexivity|].
        rewrite Eobjs'. split; [split; [exact Hsh3|]|exact Hbb3].
        destruct t; exact Hp3.
      * rewrite Eown', Eobjs'. exact Hpool3.
      * rewrite Eoth', Eoth3, Eoth2; [reflexivity|]. now destruct k.
      * congruence.
      * intros x Hx. apply Fr.
        -- intros Hc. destruct (D1 x Hc) as (Hc1 & _ & Hc2).
           apply elem_of_app in Hx as [Hx | Hx]; contradiction.
        -- apply Hfresh. set_solver.
        -- intros ->. apply elem_of_app in Hx as [Hx | Hx]; contradiction.
      * cbn. rewrite Prefs. constructor; [|constructor; [|exact Hndo]].
        -- rewrite not_elem_of_cons. split; [exact HNL | exact HN1].
        -- intros Hc. now apply (Hx_t L).
      * destruct Hpl as [-> | (-> & -> & _)]; [|constructor].
        now apply NoDup_cons in Hndp as [_ ?].
      * cbn. intros x Hx Hc. rewrite Prefs in Hx.
        rewrite !elem_of_cons in Hx. destruct Hx as [-> | [-> | Hx]].
        -- contradiction.
        -- apply (Hfresh L); [|reflexivity]. apply Hpl2 in Hc. set_solver.
        -- destruct (D1 x Hx) as (_ & Hc2 & _). auto.
      * cbn. intros x Hx. rewrite Prefs in Hx.
        rewrite elem_of_app, !elem_of_cons in Hx.
        destruct Hx as [[-> | [-> | Hx]] | Hx].
        -- auto.
        -- split; intros Hc; apply (Hfresh L); try reflexivity; set_solver.
        -- destruct (D1 x Hx) as (? & _ & ?). auto.
        -- apply Hpl2 in Hx. split; [|now apply D3].
           intros Hc. destruct (D2 x Hc) as (? & _). contradiction.
      * intros x Hx. rewrite En'. apply Hal3. now rewrite <- Eobjs'.
      * rewrite Eown'. cbn [leaves]. rewrite Elv3, Elv2. intros i l Hl.
        cbn [oleafs]. rewrite Pleafs.
        destruct (decide (i = id)) as [-> | Hi].
        -- rewrite lookup_insert_eq in Hl. injection Hl as <-. fold L.
           split; [set_solver|].
           destruct (Hk3 L oL HL2 eq_refl) as (o' & Ho' & _ & E & _).
           exists o'. rewrite Eobjs'. auto.
        -- rewrite lookup_insert_ne in Hl by congruence.
           pose proof (Hlv _ _ Hl) as Hin. split; [set_solver|].
           destruct (Hkeys k i l Hl) as (o & Ho & Eo).
           destruct (shape'_leaf _ _ _ (proj1 Hsh) Hin) as (o1 & Ho1 & Hl1 & _).
           assert (o1 = o) as -> by congruence.
           destruct (Hk' l o Ho Hl1) as (o' & Ho' & _ & E & _).
           exists o'. split; [exact Ho'|congruence].
      * cbn [oleafs]. intros l o Hl Ho. rewrite Pleafs in Hl.
        apply elem_of_cons in Hl as [-> | Hl].
        -- destruct (Hk3 L oL HL2 eq_refl) as (o' & Ho' & _ & E & _).
           rewrite Eobjs' in Ho. assert (o' = o) as -> by congruence.
           exists id. split; [exact E|eauto].
        -- destruct (shape'_leaf _ _ _ (proj1 Hsh) Hl) as (o1 & Ho1 & Hl1 & _).
           destruct (Hk' l o1 Ho1 Hl1) as (o' & Ho' & _ & E & _).
           assert (o' = o) as -> by congruence. rewrite E.
           eapply Hshp; [|exact Ho1]. cbn. set_solver.
    + rewrite Eown'. cbn. now rewrite Elv3, Elv2.
    + exact Hk'.
    + cbn. exists N. split; [exact Htins|]. split; [exact HN1|].
      destruct Hpl as [-> | (-> & -> & _)]; auto.
    + split; [congruence|]. split; [congruence|]. rewrite En'. lia.
  - (* the index is empty *)
    cbn in Hown, Hlv. rewrite Ert2, Hown. cbn.
    match goal with |- context [Some (set_treeS s2 k ?T)] =>
      set (s' := set_treeS s2 k T) end.
    assert (Eobjs' : objs s' = objs s2) by (unfold s'; now destruct k).
    assert (En' : nobjs s' = nobjs s2) by (unfold s'; now destruct k).
    assert (Esh' : shapes s' = shapes s2) by (unfold s'; now destruct k).
    assert (Ev' : velocityFunc s' = velocityFunc s2)
      by (unfold s'; now destruct k).
    assert (Eoth' : treeS s' (other k) = treeS s2 (other k))
      by (unfold s'; now destruct k).
    assert (Eown' : treeS s' k =
                    mkTreeS (leaves (treeS s2 k)) (count (treeS s2 k) + 1)
                      (Some L) (pooledNodes (treeS s2 k)))
      by (unfold s'; now destruct k).
    exists s', (TLeaf L), pl.
    split; [reflexivity|]. split; [|split; [|split; [|split]]].
    + eapply (inv_k_rebuild s s' k None ot' pl pl'); eauto.
      * cbn. rewrite Eown', Eobjs'. cbn. split; [reflexivity|].
        split; [split|exact I]; exists oL; cbn; eauto.
      * rewrite Eown', Eobjs'. cbn. exact Hpool2.
      * now rewrite Eoth', Eoth2.
      * congruence.
      * intros x Hx. rewrite Eobjs'. apply F2, Hfresh. set_solver.
      * cbn. apply NoDup_singleton.
      * cbn. intros x Hx Hc. apply list_elem_of_singleton in Hx as ->.
        apply (Hfresh L); [set_solver | reflexivity].
      * cbn. intros x Hx. apply elem_of_cons in Hx as [-> | Hx].
        -- split; intros Hc; apply (Hfresh L); try reflexivity; set_solver.
        -- split; [|now apply D3].
           intros Hc. destruct (D2 x Hc) as (? & _). contradiction.
      * intros x Hx. rewrite En'. apply Hal2. now rewrite <- Eobjs'.
      * rewrite Eown'. cbn [leaves]. rewrite Elv2. intros i l Hl.
        destruct (decide (i = id)) as [-> | Hi].
        -- rewrite lookup_insert_eq in Hl. injection Hl as <-. fold L.
           split; [cbn; set_solver|]. exists oL. rewrite Eobjs'. auto.
        -- rewrite lookup_insert_ne in Hl by congruence.
           apply Hlv in Hl. set_solver.
      * cbn. intros l o Hl Ho. apply list_elem_of_singleton in Hl as ->.
        rewrite Eobjs', HL2 in Ho. injection Ho as <-.
        exists id. cbn. eauto.
    + rewrite Eown'. cbn. now rewrite Elv2.
    + now rewrite Eobjs'.
    + cbn. auto.
    + split; [congruence|]. split; [congruence|]. rewrite En', En2. lia.
Qed.

End InvFacts.

(** ** Removal preserves the invariant *)

Module RemoveInvFacts.
Import BBTree TreeShape Structure TreeShapeFacts InsertFacts RemoveFacts
  InvFacts.
Local Open Scope Z_scope.

Lemma subtreeRemove_spec (k : which) (L : ref) (c : ctx) (s : Store)
    (pl : list ref) (fuel : nat) :
  shape (objs s) None (plug c (TLeaf L)) ->
  sibs_bbok (objs s) c ->
  NoDup (refs (plug c (TLeaf L))) ->
  pool_ok (objs s) (pooledNodes (treeS s k)) pl ->
  (forall x, x ∈ pl -> x ∉ refs (plug c (TLeaf L))) ->
  (length (ctx_path c) <= fuel)%nat ->
  exists s' r,
    subtreeRemove fuel s k (Some (rt (plug c (TLeaf L)))) L = Some (s', r)
    /\ removed k L c s pl s' r.
Proof.
  intros Hsh Hbb Hnd Hpool Hdis Hfuel.
  destruct (ctx_cases c) as [-> | (d & N & c' & sib & ->)].
  { cbn. exists s, None. unfold subtreeRemove.
    rewrite decide_True by reflexivity. auto. }
  assert (Hrm : forall s' r,
            r = Some (rt (plug c' sib)) /\ rem_post k L N c' sib s pl s' ->
            removed k L (cons_ctx d N c' sib) s pl s' r).
  { intros s' r H. destruct d; exact H. }
  rewrite refs_plug, cons_ctx_refs in Hnd. cbn in Hnd.
  assert (Hnd' : NoDup (L :: N :: refs sib ++ ctx_refs c')) by exact Hnd.
  assert (Hdis' : forall x, x ∈ pl ->
                    x <> N /\ x ∉ refs sib /\ x ∉ ctx_refs c').
  { intros x Hx. specialize (Hdis x Hx).
    rewrite refs_plug, cons_ctx_refs in Hdis. cbn in Hdis.
    rewrite !not_elem_of_cons, not_elem_of_app in Hdis. tauto. }
  apply cons_ctx_sibs in Hbb as [Hbsib Hsibs].
  rewrite rt_plug, cons_ctx_root. cbn [rt].
  rewrite cons_ctx_path in Hfuel. cbn in Hfuel.
  destruct (ctx_cases c') as [-> | (d' & G & c'' & sib2 & ->)].
  - destruct (remove_at_root k L d N sib s pl fuel Hsh) as (s' & E & Hp); auto.
    { now rewrite app_nil_r in Hnd'. }
    { intros x Hx. destruct (Hdis' x Hx) as (? & ? & _). auto. }
    exists s', (Some (rt sib)). split; [exact E|]. apply Hrm. auto.
  - destruct (remove_below k L d N d' G c'' sib2 sib s pl fuel Hsh)
      as (s' & E & Hp); auto.
    { lia. }
    exists s', (Some (ctx_root (cons_ctx d' G c'' sib2) N)).
    split; [exact E|]. apply Hrm. split; [|exact Hp].
    now rewrite rt_plug, !cons_ctx_root.
Qed.

Lemma removed_cons k L d N c' sib s pl s' r :
  removed k L (cons_ctx d N c' sib) s pl s' r <->
  r = Some (rt (plug c' sib)) /\ rem_post k L N c' sib s pl s'.
Proof. now destruct d. Qed.

Lemma removed_pool_cons d N c' sib pl :
  removed_pool (cons_ctx d N c' sib) pl = N :: pl.
Proof. now destruct d. Qed.

Lemma ctx_path_length c : (length (ctx_path c) <= length (ctx_refs c))%nat.
Proof.
  induction c as [| r c IH sib | r sib c IH]; cbn; [lia| |];
    rewrite length_app; lia.
Qed.

Lemma recycle_leaf_noop (s : Store) (k : which) (r : ref) (o : Obj) :
  objs s !! r = Some o -> isLeaf o = true -> recycle s k r = Some s.
Proof. intros Ho Hl. unfold recycle. rewrite Ho. cbn. now rewrite Hl. Qed.

Lemma without_key_facts s k id :
  let s1 := without_key s k id in
  objs s1 = objs s /\ nobjs s1 = nobjs s
  /\ leaves (treeS s1 k) = delete id (leaves (treeS s k))
  /\ root (treeS s1 k) = root (treeS s k)
  /\ pooledNodes (treeS s1 k) = pooledNodes (treeS s k)
  /\ treeS s1 (other k) = treeS s (other k)
  /\ shapes s1 = shapes s /\ velocityFunc s1 = velocityFunc s.
Proof. destruct k; cbn; repeat split; reflexivity. Qed.

Lemma removed_pool_app c pl : removed_pool c pl = removed_pool c [] ++ pl.
Proof. now destruct c. Qed.

Lemma tdel_refs_perm c L :
  refs (plug c (TLeaf L)) ≡ₚ L :: removed_pool c [] ++ orefs (tdel c).
Proof.
  destruct (ctx_cases c) as [-> | (d & N & c' & sib & ->)]; [reflexivity|].
  rewrite refs_plug, cons_ctx_refs, cons_ctx_tdel, removed_pool_cons.
  cbn. now rewrite refs_plug.
Qed.

Lemma tdel_leafs_perm c L :
  leafs (plug c (TLeaf L)) ≡ₚ L :: oleafs (tdel c).
Proof.
  destruct (ctx_cases c) as [-> | (d & N & c' & sib & ->)]; [reflexivity|].
  rewrite leafs_plug, cons_ctx_tdel. cbn. rewrite leafs_plug.
  now destruct d.
Qed.

(** [remove] on a store that satisfies the invariant, for an object whose
    leaf [L] sits in the context [c]. *)
Lemma removeS_inv s k id L c ot' pl pl' :
  inv_k s k (Some (plug c (TLeaf L))) ot' pl pl' ->
  leaves (treeS s k) !! id = Some L ->
  exists s',
    removeS s k id = Some s'
    /\ inv_k s' k (tdel c) ot' (removed_pool c pl) pl'
    /\ leaves (treeS s' k) = delete id (leaves (treeS s k))
    /\ leaves_kept (objs s) (objs s')
    /\ shapes s' = shapes s /\ velocityFunc s' = velocityFunc s
    /\ nobjs s' = nobjs s.
Proof.
  intros Hinv HidL.
  pose proof Hinv as [Hown Hoth Hpool Hpool' Hnd Hal Hlv Hlv' Hkeys Hshp].
  destruct Hown as (Ert & Hsh & Hbb). cbn [orefs oleafs] in *.
  set (t := plug c (TLeaf L)) in *.
  pose proof Hnd as Hnd4.
  apply NoDup_app4 in Hnd4 as (Hndo & Hndo' & Hndp & Hndp' & D1 & D2 & D3).
  destruct (without_key_facts s k id)
    as (Eo1 & En1 & Elv1 & Ert1 & Epl1 & Eoth1 & Esh1 & Ev1).
  unfold removeS. rewrite HidL. cbn [mbind option_bind].
  fold (without_key s k id). set (s1 := without_key s k id) in *.
  assert (Hlen : (length (ctx_path c) <= fuel s1)%nat).
  { unfold fuel. rewrite En1. etrans; [apply ctx_path_length|].
    assert (length (ctx_refs c) <= length (refs t))%nat.
    { unfold t. rewrite refs_plug, length_app. lia. }
    assert (length (refs t) <= nobjs s)%nat; [|lia].
    apply bounded_length; [exact Hndo|].
    intros x Hx. eapply inv_refs_alloc; [exact Hinv|]. cbn. set_solver. }
  destruct (subtreeRemove_spec k L c s1 pl (fuel s1))
    as (s2 & r & E2 & Hrem); auto.
  { now rewrite Eo1. }
  { rewrite Eo1. apply bbok_plug in Hbb as [_ Hcb].
    eapply ctx_bbok_sibs, Hcb. }
  { now rewrite Eo1, Epl1. }
  { intros x Hx Hc. destruct (D1 x Hc) as (_ & ? & _). contradiction. }
  rewrite Ert1, Ert. fold t in E2. rewrite E2. cbn [mbind option_bind].
  match goal with |- context [recycle ?S k L] => set (s' := S) end.
  assert (Eobjs' : objs s' = objs s2) by (unfold s'; now destruct k).
  assert (En' : nobjs s' = nobjs s2) by (unfold s'; now destruct k).
  assert (Esh' : shapes s' = shapes s2) by (unfold s'; now destruct k).
  assert (Ev' : velocityFunc s' = velocityFunc s2)
    by (unfold s'; now destruct k).
  assert (Eoth' : treeS s' (other k) = treeS s2 (other k))
    by (unfold s'; now destruct k).
  assert (Eown' : treeS s' k =
                  mkTreeS (leaves (treeS s2 k)) (count (treeS s2 k) - 1)
                    r (pooledNodes (treeS s2 k)))
    by (unfold s'; now destruct k).
  destruct (shape'_leaf (objs s) t L (proj1 Hsh)) as (oL & HoL & HlL & HidL').
  { unfold t. rewrite leafs_plug. set_solver. }
  assert (HobjL : obj oL = Some id).
  { destruct (Hkeys k id L HidL) as (o & Ho & E). congruence. }
  assert (Huniq : forall i l, i <> id -> leaves (treeS s k) !! i = Some l ->
                              l <> L).
  { intros i l Hi Hl ->. destruct (Hkeys k i L Hl) as (o & Ho & E).
    congruence. }
  pose proof (tdel_refs_perm c L) as Prefs. fold t in Prefs.
  pose proof (tdel_leafs_perm c L) as Pleafs. fold t in Pleafs.
  set (rp := removed_pool c []) in *.
  rewrite (removed_pool_app c pl). fold rp.
  assert (HLt : L ∈ refs t) by (rewrite Prefs; set_solver).
  assert (Hcore :
    leaves_kept (objs s) (objs s2)
    /\ holds s' k (tdel c)
    /\ pool_ok (objs s2) (pooledNodes (treeS s2 k)) (rp ++ pl)
    /\ same_index s1 s2 k
    /\ (forall x, x ∉ refs t -> objs s2 !! x = objs s !! x)
    /\ (forall x, is_Some (objs s2 !! x) -> is_Some (objs s !! x))
    /\ numNodes s2 = numNodes s).
  { destruct (ctx_cases c) as [Ec | (d & N & c' & sib & Ec)].
    - subst c. cbn in Hrem. destruct Hrem as [-> ->]. cbn in rp.
      split; [rewrite Eo1; apply leaves_kept_refl|].
      split; [cbn; now rewrite Eown'|].
      split; [cbn; now rewrite Eo1, Epl1|].
      split; [apply same_index_refl|].
      split; [intros; now rewrite Eo1|].
      split; [intros x; now rewrite Eo1|].
      unfold s1, without_key. now destruct k.
    - subst c. apply removed_cons in Hrem as [-> Hrem].
      destruct Hrem as (Hs2 & Hb2 & Hp2 & Hfr2 & Hk2 & Hdom2 & Hsi2 & Hnn2).
      unfold rp. rewrite removed_pool_cons.
      split; [now rewrite <- Eo1|].
      split.
      { rewrite cons_ctx_tdel. cbn. rewrite Eown', Eobjs'. cbn. auto. }
      split; [exact Hp2|]. split; [exact Hsi2|].
      split.
      { intros x Hx. rewrite <- Eo1. unfold t in Hx.
        rewrite refs_plug, cons_ctx_refs in Hx. cbn in Hx.
        rewrite !not_elem_of_cons, not_elem_of_app in Hx.
        apply Hfr2; tauto. }
      split; [intros x Hx; rewrite <- Eo1; auto|].
      rewrite Hnn2. unfold s1, without_key. now destruct k. }
  destruct Hcore as (Hk2 & Hown2 & Hpool2 & Hsi2 & Hfr2 & Hdom2 & Hnn2).
  destruct Hsi2 as (Elv2 & Ect2 & Ert2 & Eoth2 & Esh2 & Ev2 & Enl2).
  destruct (Hk2 L oL HoL HlL) as (oL' & HoL' & HlL' & _).
  rewrite (recycle_leaf_noop s' k L oL');
    [| now rewrite Eobjs' | exact HlL'].
  assert (Hk' : leaves_kept (objs s) (objs s')) by (now rewrite Eobjs').
  assert (Hnd3 : NoDup (L :: rp ++ orefs (tdel c))) by (now rewrite <- Prefs).
  apply NoDup_cons in Hnd3 as [HLn Hnd3].
  apply NoDup_app in Hnd3 as (Hndrp & Hdrp & Hndt).
  assert (Hin_t : forall x, x ∈ rp ++ orefs (tdel c) -> x ∈ refs t).
  { intros x Hx. rewrite Prefs. now right. }
  assert (En2 : nobjs s2 = nobjs s).
  { unfold nobjs. rewrite Hnn2, Enl2. unfold s1, without_key. now destruct k. }
  exists s'. split; [reflexivity|].
  split; [|split; [|split; [|split; [|split]]]].
  - eapply (inv_k_rebuild s s' k (Some t) ot' pl pl'); eauto.
    + rewrite Eown', Eobjs'. exact Hpool2.
    + rewrite Eoth', Eoth2, Eoth1; [reflexivity|]. now destruct k.
    + congruence.
    + intros x Hx. rewrite Eobjs'. apply Hfr2. intros Hc.
      destruct (D1 x Hc) as (? & _ & ?).
      apply elem_of_app in Hx as [Hx | Hx]; contradiction.
    + apply NoDup_app. split; [exact Hndrp|]. split; [|exact Hndp].
      intros x Hx Hc. destruct (D1 x) as (_ & ? & _); [|contradiction].
      apply Hin_t. set_solver.
    + intros x Hx Hc. apply elem_of_app in Hc as [Hc | Hc].
      * now apply (Hdrp x).
      * destruct (D1 x) as (_ & ? & _); [|contradiction].
        apply Hin_t. set_solver.
    + intros x Hx. rewrite !elem_of_app in Hx.
      destruct Hx as [Hx | [Hx | Hx]].
      * destruct (D1 x) as (? & _ & ?); [apply Hin_t; set_solver | auto].
      * destruct (D1 x) as (? & _ & ?); [apply Hin_t; set_solver | auto].
      * split; [|now apply D3].
        intros Hc. destruct (D2 x Hc) as (? & _). contradiction.
    + intros x Hx. rewrite En', En2. apply Hal, Hdom2. now rewrite <- Eobjs'.
    + rewrite Eown'. cbn [leaves]. rewrite Elv2, Elv1. intros i l Hl.
      apply lookup_delete_Some in Hl as [Hi Hl].
      pose proof (Hlv _ _ Hl) as Hin.
      assert (l <> L) by (eapply Huniq; eauto).
      split; [rewrite Pleafs in Hin; set_solver|].
      destruct (Hkeys k i l Hl) as (o & Ho & Eo).
      destruct (shape'_leaf _ _ _ (proj1 Hsh) Hin) as (o1 & Ho1 & Hl1 & _).
      assert (o1 = o) as -> by congruence.
      destruct (Hk' l o Ho Hl1) as (o' & Ho' & _ & E & _).
      exists o'. split; [exact Ho'|congruence].
    + intros l o Hl Ho.
      assert (Hin : l ∈ leafs t) by (rewrite Pleafs; now right).
      destruct (shape'_leaf _ _ _ (proj1 Hsh) Hin) as (o1 & Ho1 & Hl1 & _).
      destruct (Hk' l o1 Ho1 Hl1) as (o' & Ho' & _ & E & _).
      assert (o' = o) as -> by congruence. rewrite E.
      eapply Hshp; [|exact Ho1]. set_solver.
  - rewrite Eown'. cbn. now rewrite Elv2, Elv1.
  - exact Hk'.
  - congruence.
  - congruence.
  - now rewrite En'.
Qed.

End RemoveInvFacts.

(** ** Leaf updates preserve the invariant *)

Module UpdateFacts.
Import BBTree TreeShape Structure TreeShapeFacts InsertFacts RemoveFacts
  InvFacts RemoveInvFacts.
Local Open Scope Z_scope.

Lemma set_root_facts s k r :
  let s' := set_root s k r in
  objs s' = objs s /\ nobjs s' = nobjs s
  /\ leaves (treeS s' k) = leaves (treeS s k)
  /\ root (treeS s' k) = r
  /\ pooledNodes (treeS s' k) = pooledNodes (treeS s k)
  /\ treeS s' (other k) = treeS s (other k)
  /\ shapes s' = shapes s /\ velocityFunc s' = velocityFunc s.
Proof. destruct k; cbn; repeat split; reflexivity. Qed.

(** The leaf [L] of a tree with a new box: the shape of the tree and the
    boxes beside the path to [L] are as they were. *)
Lemma rebox_leaf (s s1 : Store) (L : ref) (oL : Obj) (bxv : BB) (c : ctx)
    (k : which) (pl : list ref) :
  objs s !! L = Some oL ->
  objs s1 = <[L := set_box oL bxv]> (objs s) ->
  shape (objs s) None (plug c (TLeaf L)) ->
  bbok (objs s) (plug c (TLeaf L)) ->
  NoDup (refs (plug c (TLeaf L))) ->
  pool_ok (objs s) (pooledNodes (treeS s k)) pl ->
  (forall x, x ∈ pl -> x ∉ refs (plug c (TLeaf L))) ->
  shape (objs s1) None (plug c (TLeaf L))
  /\ sibs_bbok (objs s1) c
  /\ pool_ok (objs s1) (pooledNodes (treeS s k)) pl.
Proof.
  intros HoL Eo [Hs Hp] Hbb Hnd Hpool Hdis.
  assert (Hlk : forall y, lk (objs s1) y = lk (objs s) y).
  { intros y. rewrite Eo. now apply lk_set_box. }
  assert (HL : L ∈ refs (plug c (TLeaf L))).
  { rewrite refs_plug. set_solver. }
  split; [split|split].
  - eapply shape'_lk; [|exact Hs]. auto.
  - eapply parent_at_lk; [|exact Hp]. auto.
  - apply bbok_plug in Hbb as [_ Hcb]. apply ctx_bbok_sibs in Hcb.
    eapply sibs_bbok_frame; [|exact Hcb]. intros x Hx. rewrite Eo.
    apply lookup_insert_ne. intros E. subst x.
    rewrite refs_plug in Hnd. cbn in Hnd. apply NoDup_cons in Hnd as [Hn _].
    contradiction.
  - eapply pool_ok_frame; [|exact Hpool]. intros x Hx. rewrite Eo.
    apply lookup_insert_ne. intros E. subst x. now apply (Hdis L).
Qed.

(** [subtreeRemove] followed by [subtreeInsert] of the same leaf, as
    [Leaf.update] runs them: the node that the removal put into the pool is
    the one that the insertion takes from it. *)
Lemma reinsert_spec (k : which) (L : ref) (c : ctx) (s : Store)
    (pl : list ref) :
  shape (objs s) None (plug c (TLeaf L)) ->
  sibs_bbok (objs s) c ->
  NoDup (refs (plug c (TLeaf L))) ->
  pool_ok (objs s) (pooledNodes (treeS s k)) pl -> NoDup pl ->
  (forall x, x ∈ pl -> x ∉ refs (plug c (TLeaf L))) ->
  alloc s ->
  exists s2 r s3 t',
    subtreeRemove (fuel s) s k (Some (rt (plug c (TLeaf L)))) L = Some (s2, r)
    /\ subtreeInsert (fuel s2) s2 k r L = Some (s3, rt t')
    /\ shape (objs s3) None t' /\ bbok (objs s3) t'
    /\ pool_ok (objs s3) (pooledNodes (treeS s3 k)) pl
    /\ same_index s s3 k
    /\ (forall x, x ∉ refs (plug c (TLeaf L)) -> objs s3 !! x = objs s !! x)
    /\ alloc s3
    /\ leaves_kept (objs s) (objs s3)
    /\ refs t' ≡ₚ refs (plug c (TLeaf L))
    /\ leafs t' ≡ₚ leafs (plug c (TLeaf L)).
Proof.
  intros Hsh Hsibs Hnd Hpool Hndp Hdis Hal.
  set (t := plug c (TLeaf L)) in *.
  assert (Hlt : forall x, x ∈ refs t -> (x < nobjs s)%nat).
  { intros x Hx. apply Hal. eapply shape'_is_Some; [apply Hsh|exact Hx]. }
  assert (Hlen : (length (ctx_path c) <= fuel s)%nat).
  { unfold fuel. etrans; [apply ctx_path_length|].
    assert (length (ctx_refs c) <= length (refs t))%nat.
    { unfold t. rewrite refs_plug, length_app. lia. }
    assert (length (refs t) <= nobjs s)%nat; [|lia].
    apply bounded_length; auto. }
  destruct (subtreeRemove_spec k L c s pl (fuel s))
    as (s2 & r & E2 & Hrem); auto.
  fold t in E2.
  pose proof (tdel_refs_perm c L) as Prefs. fold t in Prefs.
  pose proof (tdel_leafs_perm c L) as Pleafs. fold t in Pleafs.
  destruct (shape'_leaf (objs s) t L (proj1 Hsh)) as (oL & HoL & HlL & HidL).
  { rewrite Pleafs. set_solver. }
  exists s2, r.
  destruct (ctx_cases c) as [Ec | (d & N & c' & sib & Ec)].
  - subst c. cbn in Hrem. destruct Hrem as [-> ->].
    exists s, (TLeaf L). split; [exact E2|].
    split; [reflexivity|]. split; [exact Hsh|]. split; [exact I|].
    split; [exact Hpool|]. split; [apply same_index_refl|].
    split; [auto|]. split; [exact Hal|].
    split; [apply leaves_kept_refl|]. split; reflexivity.
  - subst c. apply removed_cons in Hrem as [-> Hrem].
    destruct Hrem as (Hs2 & Hb2 & Hp2 & Hfr2 & Hk2 & Hdom2 & Hsi2 & Hnn2).
    rewrite cons_ctx_tdel, removed_pool_cons in Prefs. cbn in Prefs.
    rewrite cons_ctx_tdel in Pleafs. cbn in Pleafs.
    set (t2 := plug c' sib) in *.
    pose proof Hnd as Hnd2. rewrite Prefs in Hnd2.
    apply NoDup_cons in Hnd2 as [HL2 Hnd2].
    apply NoDup_cons in Hnd2 as [HN2 Hnd2].
    rewrite not_elem_of_cons in HL2. destruct HL2 as [HLN HLt2].
    assert (En2 : nobjs s2 = nobjs s).
    { unfold nobjs. destruct Hsi2 as (_ & _ & _ & _ & _ & _ & ->).
      now rewrite Hnn2. }
    assert (Hal2 : alloc s2).
    { apply (alloc_same_dom s s2); auto. lia. }
    assert (Hin2 : forall x, x ∈ refs t2 -> x ∈ refs t).
    { intros x Hx. rewrite Prefs. set_solver. }
    assert (HNt : N ∈ refs t) by (rewrite Prefs; set_solver).
    assert (HLt : L ∈ refs t) by (rewrite Prefs; set_solver).
    destruct (Hk2 L oL HoL HlL) as (oL2 & HoL2 & HlL2 & Eobj2 & _).
    assert (Hh : (height t2 <= fuel s2)%nat).
    { unfold fuel. rewrite En2. etrans; [apply height_le_refs|].
      etrans; [apply (bounded_length _ (nobjs s)); auto|lia]. }
    destruct (subtreeInsert_spec k L oL2 t2 (fuel s2) s2 (N :: pl) None Hh)
      as (s3 & t' & N' & pl2 & E3 & Hpost); auto.
    { now rewrite Eobj2. }
    { constructor; [|exact Hndp]. intros Hc. now apply (Hdis N). }
    { intros x Hx Hc. apply elem_of_cons in Hx as [-> | Hx];
        [contradiction|]. apply (Hdis x Hx). auto. }
    { rewrite not_elem_of_cons. split; [exact HLN|].
      intros Hc. now apply (Hdis L). }
    destruct Hpost as (Htins & Hpl & HNL & Hsh3 & Hp3 & Hbb3 & _ & Hfr3 & Hk3
                         & Hpool3 & Hsi3 & Hal3 & Hn3).
    assert (N' = N /\ pl2 = pl) as [-> ->].
    { destruct Hpl as [E | (E & _)]; [|discriminate].
      injection E as -> ->. auto. }
    exists s3, t'. split; [exact E2|]. split; [exact E3|].
    split; [split; [exact Hsh3|destruct t2; exact Hp3]|].
    split; [exact Hbb3|]. split; [exact Hpool3|].
    split; [eapply same_index_trans; eauto|].
    split.
    { intros x Hx. rewrite Hfr3.
      - apply Hfr2.
        + intros ->. contradiction.
        + intros Hc. apply Hx. rewrite Prefs. unfold t2.
          rewrite refs_plug. set_solver.
        + intros Hc. apply Hx. rewrite Prefs. unfold t2.
          rewrite refs_plug. set_solver.
      - intros Hc. auto.
      - intros ->. contradiction.
      - intros ->. contradiction. }
    split; [exact Hal3|].
    split; [eapply leaves_kept_trans; eauto|].
    split.
    + rewrite (tins_refs _ _ _ _ Htins), Prefs. apply Permutation_swap.
    + now rewrite (tins_leafs _ _ _ _ Htins), Pleafs.
Qed.

(** [Leaf.update] on a store that satisfies the invariant, for the leaf
    [L] in the context [c]. *)
Lemma updateS_inv s k L c ot' pl pl' :
  inv_k s k (Some (plug c (TLeaf L))) ot' pl pl' ->
  exists s' b t',
    updateS s k L = Some (s', b)
    /\ inv_k s' k (Some t') ot' pl pl'
    /\ leaves (treeS s' k) = leaves (treeS s k)
    /\ treeS s' (other k) = treeS s (other k)
    /\ leafs t' ≡ₚ leafs (plug c (TLeaf L))
    /\ shapes s' = shapes s /\ velocityFunc s' = velocityFunc s.
Proof.
  intros Hinv.
  pose proof Hinv as [Hown Hoth Hpool Hpool' Hnd Hal Hlv Hlv' Hkeys Hshp].
  destruct Hown as (Ert & Hsh & Hbb). cbn [orefs oleafs] in *.
  set (t := plug c (TLeaf L)) in *.
  pose proof Hnd as Hnd4.
  apply NoDup_app4 in Hnd4 as (Hndo & Hndo' & Hndp & Hndp' & D1 & D2 & D3).
  assert (HLl : L ∈ leafs t) by (unfold t; rewrite leafs_plug; set_solver).
  destruct (shape'_leaf (objs s) t L (proj1 Hsh) HLl)
    as (oL & HoL & HlL & _).
  destruct (Hshp L oL) as (id & Hid & [sb Hsb]); [set_solver|exact HoL|].
  unfold updateS. rewrite HoL. cbn [mbind option_bind]. rewrite Hid.
  cbn [mbind option_bind]. rewrite Hsb. cbn [mbind option_bind].
  destruct (containsObj (box oL) sb).
  { exists s, false, t. split; [reflexivity|]. split; [exact Hinv|].
    split; [reflexivity|]. split; [reflexivity|]. split; [reflexivity|].
    split; reflexivity. }
  unfold getBB. rewrite Hsb. cbn [mbind option_bind].
  set (bxv := match velocityFunc s with Some f => f id sb | None => sb end).
  rewrite (update_Some s L _ oL HoL). cbn [mbind option_bind].
  set (s1 := set_objs s _).
  assert (Eo1 : objs s1 = <[L := set_box oL bxv]> (objs s)) by reflexivity.
  assert (Etr1 : forall k', treeS s1 k' = treeS s k') by (now intros []).
  assert (En1 : nobjs s1 = nobjs s) by reflexivity.
  destruct (rebox_leaf s s1 L oL bxv c k pl) as (Hsh1 & Hsib1 & Hpool1); auto.
  { intros x Hx Hc. destruct (D1 x Hc) as (_ & ? & _). contradiction. }
  fold t in Hsh1.
  assert (Hal1 : alloc s1).
  { intros x [o Ho]. rewrite En1. apply Hal. rewrite Eo1 in Ho.
    destruct (decide (x = L)) as [-> | Hx]; [eauto|].
    rewrite lookup_insert_ne in Ho by congruence. eauto. }
  destruct (reinsert_spec k L c s1 pl)
    as (s2 & r & s3 & t' & E2 & E3 & Hsh3 & Hbb3 & Hpool3 & Hsi3 & Hfr3
          & Hal3 & Hk3 & Prefs & Pleafs); auto.
  { intros x Hx Hc. destruct (D1 x Hc) as (_ & ? & _). contradiction. }
  fold t in E2, Hfr3, Prefs, Pleafs.
  rewrite Etr1, Ert, E2. cbn [mbind option_bind]. rewrite E3.
  cbn [mbind option_bind].
  destruct (set_root_facts s3 k (Some (rt t')))
    as (Eo' & En' & Elv' & Ert' & Epl' & Eoth' & Esh' & Ev').
  set (s' := set_root s3 k (Some (rt t'))) in *.
  destruct Hsi3 as (Elv3 & Ect3 & Ert3 & Eoth3 & Esh3 & Ev3 & Enl3).
  assert (Hobj : forall l o, objs s !! l = Some o -> isLeaf o = true ->
            exists o', objs s' !! l = Some o' /\ obj o' = obj o).
  { intros l o Ho Hl. rewrite Eo'.
    destruct (decide (l = L)) as [-> | Hne].
    - destruct (Hk3 L (set_box oL bxv)) as (o' & Ho' & _ & E & _).
      + rewrite Eo1. apply lookup_insert_eq.
      + exact HlL.
      + exists o'. split; [exact Ho'|]. rewrite E. cbn. congruence.
    - destruct (Hk3 l o) as (o' & Ho' & _ & E & _); eauto.
      rewrite Eo1. now rewrite lookup_insert_ne. }
  exists s', true, t'. split; [reflexivity|].
  split; [|split; [|split; [|split; [|split]]]].
  - eapply (inv_k_rebuild s s' k (Some t) ot' pl pl'); eauto.
    + cbn. rewrite Ert', Eo'. auto.
    + rewrite Epl', Eo'. exact Hpool3.
    + rewrite Eoth', Eoth3, Etr1; [reflexivity|]. now destruct k.
    + rewrite Esh', Esh3. reflexivity.
    + intros x Hx. rewrite Eo', Hfr3.
      * rewrite Eo1. apply lookup_insert_ne. intros E. subst x.
        destruct (D1 L) as (? & _ & ?); [now apply leafs_in_refs|].
        apply elem_of_app in Hx as [Hx | Hx]; contradiction.
      * intros Hc. destruct (D1 x Hc) as (? & _ & ?).
        apply elem_of_app in Hx as [Hx | Hx]; contradiction.
    + cbn. now rewrite Prefs.
    + cbn. intros x Hx. rewrite Prefs in Hx.
      destruct (D1 x Hx) as (_ & ? & _). auto.
    + cbn. intros x Hx. apply elem_of_app in Hx as [Hx | Hx].
      * rewrite Prefs in Hx. destruct (D1 x Hx) as (? & _ & ?). auto.
      * split; [|now apply D3].
        intros Hc. destruct (D2 x Hc) as (? & _). contradiction.
    + intros x Hx. rewrite En'. apply Hal3. now rewrite <- Eo'.
    + rewrite Elv', Elv3, Etr1. intros i l Hl. cbn [oleafs].
      pose proof (Hlv _ _ Hl) as Hin. split; [now rewrite Pleafs|].
      destruct (Hkeys k i l Hl) as (o & Ho & Eo).
      destruct (shape'_leaf _ _ _ (proj1 Hsh) Hin) as (o1 & Ho1 & Hl1 & _).
      assert (o1 = o) as -> by congruence.
      destruct (Hobj l o Ho Hl1) as (o' & Ho' & E).
      exists o'. split; [exact Ho'|congruence].
    + cbn [oleafs]. intros l o Hl Ho. rewrite Pleafs in Hl.
      destruct (shape'_leaf _ _ _ (proj1 Hsh) Hl) as (o1 & Ho1 & Hl1 & _).
      destruct (Hobj l o1 Ho1 Hl1) as (o' & Ho' & E).
      assert (o' = o) as -> by congruence. rewrite E.
      eapply Hshp; [|exact Ho1]. set_solver.
  - now rewrite Elv', Elv3, Etr1.
  - rewrite Eoth', Eoth3, Etr1; [reflexivity|]. now destruct k.
  - exact Pleafs.
  - now rewrite Esh', Esh3.
  - now rewrite Ev', Ev3.
Qed.

End UpdateFacts.

(** ** Every reachable store satisfies the invariant *)

Module ReachFacts.
Import BBTree TreeShape Structure TreeShapeFacts InsertFacts RemoveFacts
  InvFacts RemoveInvFacts UpdateFacts.
Local Open Scope Z_scope.

Lemma update_allS_inv (k : which) (ls : list ref) :
  forall s t ot' pl pl',
  inv_k s k (Some t) ot' pl pl' -> (forall l, l ∈ ls -> l ∈ leafs t) ->
  exists s' t',
    update_allS s k ls = Some s'
    /\ inv_k s' k (Some t') ot' pl pl'
    /\ leaves (treeS s' k) = leaves (treeS s k)
    /\ treeS s' (other k) = treeS s (other k)
    /\ leafs t' ≡ₚ leafs t
    /\ shapes s' = shapes s /\ velocityFunc s' = velocityFunc s.
Proof.
  induction ls as [|l ls IH]; intros s t ot' pl pl' Hinv Hin.
  { exists s, t. cbn. split; [reflexivity|]. split; [exact Hinv|].
    split; [reflexivity|]. split; [reflexivity|]. split; [reflexivity|].
    split; reflexivity. }
  destruct (leafs_ctx t l) as (c & ->); [apply Hin; set_solver|].
  destruct (updateS_inv s k l c ot' pl pl' Hinv)
    as (s1 & b & t1 & E1 & Hinv1 & Elv1 & Eoth1 & P1 & Esh1 & Ev1).
  destruct (IH s1 t1 ot' pl pl' Hinv1)
    as (s2 & t2 & E2 & Hinv2 & Elv2 & Eoth2 & P2 & Esh2 & Ev2).
  { intros x Hx. rewrite P1. apply Hin. set_solver. }
  exists s2, t2. cbn. rewrite E1. cbn. split; [exact E2|].
  split; [exact Hinv2|]. split; [congruence|]. split; [congruence|].
  split; [now rewrite P2|]. split; congruence.
Qed.

Lemma leaves_in_order_elem (tr : TreeS) (l : ref) :
  l ∈ leaves_in_order tr <-> exists id, leaves tr !! id = Some l.
Proof.
  unfold leaves_in_order. rewrite list_elem_of_fmap. split.
  - intros ([id l'] & -> & Hin). cbn.
    rewrite merge_sort_Permutation in Hin.
    apply elem_of_map_to_list in Hin. eauto.
  - intros (id & Hid). exists (id, l). split; [reflexivity|].
    rewrite merge_sort_Permutation. now apply elem_of_map_to_list.
Qed.

Lemma reindexQueryS_inv s k ot ot' pl pl' :
  inv_k s k ot ot' pl pl' ->
  exists s' nt,
    reindexQueryS s k = Some s' /\ inv_k s' k nt ot' pl pl'
    /\ leaves (treeS s' k) = leaves (treeS s k)
    /\ treeS s' (other k) = treeS s (other k)
    /\ shapes s' = shapes s /\ velocityFunc s' = velocityFunc s.
Proof.
  intros Hinv. pose proof (inv_own _ _ _ _ _ _ Hinv) as Hown.
  unfold reindexQueryS. destruct ot as [t|]; cbn in Hown.
  - destruct Hown as (Ert & _). rewrite Ert.
    destruct (update_allS_inv k (leaves_in_order (treeS s k)) s t ot' pl pl'
                Hinv)
      as (s' & t' & E & Hinv' & Elv & Eoth & P & Esh & Ev).
    { intros l Hl. apply leaves_in_order_elem in Hl as (id & Hid).
      exact (inv_leaves _ _ _ _ _ _ Hinv id l Hid). }
    rewrite E. cbn.
    destruct (inv_own _ _ _ _ _ _ Hinv') as (Ert' & _). rewrite Ert'.
    exists s', (Some t'). auto 10.
  - rewrite Hown. exists s, None. auto 10.
Qed.

Lemma reindexObjectS_inv s k id ot ot' pl pl' :
  inv_k s k ot ot' pl pl' ->
  exists s' nt,
    reindexObjectS s k id = Some s' /\ inv_k s' k nt ot' pl pl'
    /\ leaves (treeS s' k) = leaves (treeS s k)
    /\ treeS s' (other k) = treeS s (other k)
    /\ shapes s' = shapes s /\ velocityFunc s' = velocityFunc s.
Proof.
  intros Hinv. unfold reindexObjectS.
  destruct (leaves (treeS s k) !! id) as [l|] eqn:Hid.
  - pose proof (inv_leaves _ _ _ _ _ _ Hinv id l Hid) as Hin.
    destruct ot as [t|]; [|cbn in Hin; set_solver]. cbn in Hin.
    destruct (leafs_ctx t l Hin) as (c & ->).
    destruct (updateS_inv s k l c ot' pl pl' Hinv)
      as (s1 & b & t1 & E1 & Hinv1 & Elv1 & Eoth1 & P1 & Esh1 & Ev1).
    rewrite E1. cbn. exists s1, (Some t1). auto 10.
  - exists s, ot. auto 10.
Qed.

Lemma moveShapeS_inv s id bxv : inv s -> inv (moveShapeS s id bxv).
Proof.
  intros (td & ts & pd & ps & [H1 H2 H3 H4 H5 H6 H7 H8 H9 H10]).
  exists td, ts, pd, ps. constructor; auto.
  intros l o Hl Ho. destruct (H10 l o Hl Ho) as (i & Ei & Hs).
  exists i. split; [exact Ei|]. cbn.
  destruct (decide (i = id)) as [-> | Hne].
  - rewrite lookup_insert_eq. eauto.
  - now rewrite lookup_insert_ne.
Qed.

Lemma setVelocityFuncS_inv s f : inv s -> inv (setVelocityFuncS s f).
Proof.
  intros (td & ts & pd & ps & [H1 H2 H3 H4 H5 H6 H7 H8 H9 H10]).
  exists td, ts, pd, ps. constructor; auto.
Qed.

Lemma insertS_shape s k id s' :
  insertS s k id = Some s' -> is_Some (shapes s !! id).
Proof.
  unfold insertS, getBB. destruct (shapes s !! id); [eauto|discriminate].
Qed.

Lemma removeS_leaf s k id s' :
  removeS s k id = Some s' -> is_Some (leaves (treeS s k) !! id).
Proof.
  unfold removeS. destruct (leaves (treeS s k) !! id); [eauto|discriminate].
Qed.

(** The invariant holds of every store that the operations lead to. *)
Lemma reachable_inv s : reachable s -> inv s.
Proof.
  induction 1 as [shapes | s k id s' _ IH E | s k id s' _ IH E
                 | s id bxv _ IH | s f _ IH | s k id s' _ IH E
                 | s k s' _ IH E].
  - apply inv_empty.
  - destruct (inv_any s k IH) as (ot & ot' & pl & pl' & Hk).
    destruct (insertS_inv s k id ot ot' pl pl' Hk (insertS_shape _ _ _ _ E))
      as (s2 & t' & pl2 & E2 & Hk2 & _).
    assert (s2 = s') as -> by congruence. eapply inv_of_k, Hk2.
  - destruct (inv_any s k IH) as (ot & ot' & pl & pl' & Hk).
    destruct (removeS_leaf _ _ _ _ E) as [L HL].
    pose proof (inv_leaves _ _ _ _ _ _ Hk id L HL) as Hin.
    destruct ot as [t|]; [|cbn in Hin; set_solver]. cbn in Hin.
    destruct (leafs_ctx t L Hin) as (c & ->).
    destruct (removeS_inv s k id L c ot' pl pl' Hk HL) as (s2 & E2 & Hk2 & _).
    assert (s2 = s') as -> by congruence. eapply inv_of_k, Hk2.
  - now apply moveShapeS_inv.
  - now apply setVelocityFuncS_inv.
  - destruct (inv_any s k IH) as (ot & ot' & pl & pl' & Hk).
    destruct (reindexObjectS_inv s k id ot ot' pl pl' Hk)
      as (s2 & nt & E2 & Hk2 & _).
    assert (s2 = s') as -> by congruence. eapply inv_of_k, Hk2.
  - destruct (inv_any s k IH) as (ot & ot' & pl & pl' & Hk).
    destruct (reindexQueryS_inv s k ot ot' pl pl' Hk)
      as (s2 & nt & E2 & Hk2 & _).
    assert (s2 = s') as -> by congruence. eapply inv_of_k, Hk2.
Qed.

End ReachFacts.

(** ** The tree invariant, read off the store *)

Module PathFacts.
Import BBTree TreeShape Structure TreeShapeFacts InsertFacts RemoveFacts
  InvFacts.
Local Open Scope Z_scope.

Lemma sub_at_shape h t path u :
  shape' h t -> bbok h t -> sub_at t path = Some u -> shape' h u /\ bbok h u.
Proof.
  revert t. induction path as [|d path IH]; intros t Hs Hb E.
  - destruct t; cbn in E; injection E as <-; auto.
  - destruct t as [r | r a b]; cbn in E; [discriminate|].
    destruct Hs as (_ & _ & _ & Ha & Hb'). destruct Hb as (_ & Hba & Hbb).
    destruct d; [apply (IH b) | apply (IH a)]; auto.
Qed.

Lemma sub_at_refs t path u : sub_at t path = Some u -> rt u ∈ refs t.
Proof.
  revert t. induction path as [|d path IH]; intros t E.
  - destruct t; cbn in E; injection E as <-; apply rt_in_refs.
  - destruct t as [r | r a b]; cbn in E; [discriminate|].
    cbn. destruct d; apply IH in E; set_solver.
Qed.

Lemma sub_at_path h t path u :
  shape' h t -> sub_at t path = Some u -> at_path h (rt t) path = Some (rt u).
Proof.
  revert t. induction path as [|d path IH]; intros t Hs E.
  - destruct t; cbn in E; injection E as <-; reflexivity.
  - destruct t as [r | r a b]; cbn in E; [discriminate|].
    destruct Hs as ((o & Ho & Hl & HA & HB) & _ & _ & Ha & Hb).
    cbn. rewrite Ho. cbn. rewrite Hl.
    destruct d; [rewrite HB | rewrite HA]; cbn; now apply IH.
Qed.

Lemma at_path_sub h t path n :
  shape' h t -> at_path h (rt t) path = Some n ->
  exists u, sub_at t path = Some u /\ rt u = n.
Proof.
  revert t. induction path as [|d path IH]; intros t Hs E.
  - cbn in E. injection E as <-. exists t. now destruct t.
  - destruct t as [r | r a b]; cbn in E.
    + destruct Hs as (o & Ho & Hl & _). rewrite Ho in E. cbn in E.
      rewrite Hl in E. discriminate.
    + destruct Hs as ((o & Ho & Hl & HA & HB) & _ & _ & Ha & Hb).
      rewrite Ho in E. cbn in E. rewrite Hl in E.
      destruct d; [rewrite HB in E | rewrite HA in E]; cbn in E;
        apply IH in E; auto.
Qed.

Lemma leafs_sub_at t l :
  l ∈ leafs t -> exists path, sub_at t path = Some (TLeaf l).
Proof.
  induction t as [r | r a IHa b IHb]; cbn; intros Hl.
  - apply list_elem_of_singleton in Hl as ->. now exists [].
  - apply elem_of_app in Hl as [Hl | Hl].
    + destruct (IHa Hl) as (p & E). now exists (false :: p).
    + destruct (IHb Hl) as (p & E). now exists (true :: p).
Qed.

Lemma sub_at_unique t :
  NoDup (refs t) ->
  forall p p' u u', sub_at t p = Some u -> sub_at t p' = Some u' ->
                    rt u = rt u' -> p = p'.
Proof.
  induction t as [r | r a IHa b IHb]; intros Hnd p p' u u' E E' Hr.
  - destruct p, p'; cbn in *; congruence.
  - apply NoDup_node in Hnd as (Hnda & Hndb & Hra & Hrb & Hdis).
    destruct p as [|d p], p' as [|d' p']; cbn in E, E'.
    + reflexivity.
    + injection E as <-. cbn in Hr. exfalso.
      apply sub_at_refs in E'. rewrite <- Hr in E'. destruct d'; auto.
    + injection E' as <-. cbn in Hr. exfalso.
      apply sub_at_refs in E. rewrite Hr in E. destruct d; auto.
    + pose proof (sub_at_refs _ _ _ E) as Hin.
      pose proof (sub_at_refs _ _ _ E') as Hin'. rewrite <- Hr in Hin'.
      destruct d, d'.
      * f_equal. eapply IHb; eauto.
      * exfalso. exact (Hdis _ Hin' Hin).
      * exfalso. exact (Hdis _ Hin Hin').
      * f_equal. eapply IHa; eauto.
Qed.

Lemma exact_root h u : shape' h u -> bbok h u -> exact_box h (rt u).
Proof.
  intros Hs Hb o Ho Hl. destruct u as [r | r a b]; cbn in *.
  - destruct Hs as (o' & Ho' & Hl' & _). congruence.
  - destruct Hs as ((o' & Ho' & _ & HA & HB) & _ & _ & Ha & Hb').
    assert (o' = o) as -> by congruence. destruct Hb as (Hbx & _ & _).
    destruct (shape'_is_Some h a (rt a) Ha (rt_in_refs a)) as [oa Hoa].
    destruct (shape'_is_Some h b (rt b) Hb' (rt_in_refs b)) as [ob Hob].
    exists (rt a), (rt b), oa, ob.
    unfold bx in Hbx. rewrite Ho, Hoa, Hob in Hbx. cbn in Hbx.
    rewrite Hbx. cbn. auto 10.
Qed.

(** The invariant of the development gives the invariant of the
    specification. *)
Lemma inv_tree_invariant s k : inv s -> tree_invariant s k.
Proof.
  intros Hinv. destruct (inv_any s k Hinv) as (ot & ot' & pl & pl' & Hk).
  destruct Hk as [Hown _ _ _ Hnd _ Hlv _ _ _].
  apply NoDup_app4 in Hnd as (Hndo & _).
  destruct ot as [t|]; cbn in Hown, Hndo, Hlv.
  - destruct Hown as (Ert & [Hs _] & Hb). split.
    + intros r path n Hr Hp. rewrite Ert in Hr. injection Hr as <-.
      destruct (at_path_sub _ _ _ _ Hs Hp) as (u & Eu & <-).
      destruct (sub_at_shape _ _ _ _ Hs Hb Eu). now apply exact_root.
    + intros id l Hl. apply Hlv in Hl.
      destruct (leafs_sub_at t l Hl) as (path & Ep).
      exists (rt t), path. split; [exact Ert|].
      split; [exact (sub_at_path _ _ _ _ Hs Ep)|].
      intros path' Hp'.
      destruct (at_path_sub _ _ _ _ Hs Hp') as (u & Eu & Hu).
      eapply sub_at_unique; eauto.
  - split.
    + intros r path n Hr. congruence.
    + intros id l Hl. apply Hlv in Hl. set_solver.
Qed.

End PathFacts.

(** ** The methods and their effect on the tree structure *)

Module WorldFacts.
Import BBTree TreeShape Structure TreeShapeFacts InvFacts ReachFacts.
Local Open Scope Z_scope.

Local Ltac step :=
  cbn -[subtreeRemove subtreeInsert update recycle clearPairs addPairs
        getBB markSubtree update_all update_allS].

Lemma store_insert w k id : store <$> insert w k id = insertS (store w) k id.
Proof.
  unfold insert, newLeaf, insertS.
  destruct (getBB (store w) id) as [bxv|]; [|reflexivity].
  step.
  match goal with |- context [subtreeInsert ?f ?s k ?r ?l] =>
    destruct (subtreeInsert f s k r l) as [[s3 r3]|] end; reflexivity.
Qed.

Lemma store_remove w k id : store <$> remove w k id = removeS (store w) k id.
Proof.
  unfold remove, removeS.
  destruct (leaves (treeS (store w) k) !! id) as [l|]; [|reflexivity].
  step.
  match goal with |- context [subtreeRemove ?f ?s k ?r ?l] =>
    destruct (subtreeRemove f s k r l) as [[s2 r2]|] end; [|reflexivity].
  step. match goal with |- context [recycle ?s k l] =>
    destruct (recycle s k l) end; reflexivity.
Qed.

Lemma store_Leaf_update w k l :
  prod_map store id <$> Leaf_update w k l = updateS (store w) k l.
Proof.
  unfold Leaf_update, updateS.
  destruct (objs (store w) !! l) as [o|]; [|reflexivity]. step.
  destruct (obj o) as [i|]; [|reflexivity]. step.
  destruct (shapes (store w) !! i) as [sb|]; [|reflexivity]. step.
  destruct (containsObj (box o) sb); [reflexivity|].
  destruct (getBB (store w) i) as [bxv|]; [|reflexivity].
  step.
  destruct (update (store w) l _) as [s1|]; [|reflexivity].
  step.
  destruct (subtreeRemove _ _ _ _ _) as [[s2 r2]|]; [|reflexivity].
  step.
  destruct (subtreeInsert _ _ _ _ _) as [[s3 r3]|]; reflexivity.
Qed.

Lemma store_update_all k ls :
  forall w, store <$> update_all w k ls = update_allS (store w) k ls.
Proof.
  induction ls as [|l ls IH]; intros w; [reflexivity|].
  cbn [update_all update_allS].
  rewrite <- store_Leaf_update.
  destruct (Leaf_update w k l) as [[w1 b]|]; [|reflexivity]. step.
  apply IH.
Qed.

Lemma store_reindexObject w k id :
  store <$> reindexObject w k id = reindexObjectS (store w) k id.
Proof.
  unfold reindexObject, reindexObjectS.
  destruct (leaves (treeS (store w) k) !! id) as [l|]; [|reflexivity].
  rewrite <- store_Leaf_update.
  destruct (Leaf_update w k l) as [[w1 b]|]; reflexivity.
Qed.

Lemma store_reindexQuery w k :
  store <$> reindexQuery w k = reindexQueryS (store w) k.
Proof.
  unfold reindexQuery, reindexQueryS.
  destruct (root (treeS (store w) k)); [|reflexivity].
  rewrite <- store_update_all.
  destruct (update_all w k _) as [w1|]; [|reflexivity]. step.
  destruct (root (treeS (store w1) k)); reflexivity.
Qed.

Lemma fmap_Some_store {A} (f : A -> Store) (x : option A) (a : A) s :
  f <$> x = s -> x = Some a -> s = Some (f a).
Proof. intros <- ->. reflexivity. Qed.

(** The stores of the states that the methods lead to are reachable. *)
Lemma reached_reachable w : reached w -> reachable (store w).
Proof.
  induction 1 as [shapes | w k id w' _ IH E | w k id w' _ IH E
                 | w id bxv _ IH | w f _ IH | w k id w' _ IH E
                 | w k w' _ IH E].
  - constructor.
  - eapply reach_insert; [exact IH|].
    exact (fmap_Some_store _ _ _ _ (store_insert w k id) E).
  - eapply reach_remove; [exact IH|].
    exact (fmap_Some_store _ _ _ _ (store_remove w k id) E).
  - exact (reach_move _ id bxv IH).
  - exact (reach_velocity _ f IH).
  - eapply reach_reindexObject; [exact IH|].
    exact (fmap_Some_store _ _ _ _ (store_reindexObject w k id) E).
  - eapply reach_reindexQuery; [exact IH|].
    exact (fmap_Some_store _ _ _ _ (store_reindexQuery w k) E).
Qed.

Lemma reached_inv w : reached w -> inv (store w).
Proof. intros H. now apply reachable_inv, reached_reachable. Qed.

End WorldFacts.

(** ** The tree invariant after any sequence of calls *)

Module InvariantFacts.
Import BBTree TreeShape Structure TreeShapeFacts InvFacts RemoveInvFacts
  UpdateFacts ReachFacts PathFacts WorldFacts.
Local Open Scope Z_scope.

Lemma fmap_is_Some {A B} (f : A -> B) (x : option A) (y : B) :
  f <$> x = Some y -> exists a, x = Some a /\ f a = y.
Proof. destruct x; cbn; [|discriminate]. intros [= <-]. eauto. Qed.

(** On a state that satisfies the invariant every call whose precondition
    holds returns. *)
Lemma call_completes w c :
  inv (store w) -> call_ok w c -> is_Some (do_call w c).
Proof.
  intros Hinv Hok. destruct c as [k id | k id | id bxv | f | k id | k]; cbn;
    try (destruct (inv_any _ k Hinv) as (ot & ot' & pl & pl' & Hk)); eauto.
  - destruct (insertS_inv _ k id ot ot' pl pl' Hk Hok) as (s' & ? & ? & E & _).
    rewrite <- store_insert in E.
    apply fmap_is_Some in E as (w' & -> & _). eauto.
  - destruct Hok as [L HL].
    pose proof (inv_leaves _ _ _ _ _ _ Hk id L HL) as Hin.
    destruct ot as [t|]; [|cbn in Hin; set_solver]. cbn in Hin.
    destruct (leafs_ctx t L Hin) as (c & ->).
    destruct (removeS_inv _ k id L c ot' pl pl' Hk HL) as (s' & E & _).
    rewrite <- store_remove in E.
    apply fmap_is_Some in E as (w' & -> & _). eauto.
  - destruct (reindexObjectS_inv _ k id ot ot' pl pl' Hk) as (s' & ? & E & _).
    rewrite <- store_reindexObject in E.
    apply fmap_is_Some in E as (w' & -> & _). eauto.
  - destruct (reindexQueryS_inv _ k ot ot' pl pl' Hk) as (s' & ? & E & _).
    rewrite <- store_reindexQuery in E.
    apply fmap_is_Some in E as (w' & -> & _). eauto.
Qed.

Lemma do_call_reached w c w' : reached w -> do_call w c = Some w' -> reached w'.
Proof.
  intros Hr E. destruct c as [k id | k id | id bxv | f | k id | k]; cbn in E.
  - eapply reached_insert; eauto.
  - eapply reached_remove; eauto.
  - injection E as <-. now constructor.
  - injection E as <-. now constructor.
  - eapply reached_reindexObject; eauto.
  - eapply reached_reindexQuery; eauto.
Qed.

Lemma do_calls_reached cs :
  forall w w', reached w -> do_calls w cs = Some w' -> reached w'.
Proof.
  induction cs as [|c cs IH]; intros w w' Hr E; cbn in E.
  - now injection E as <-.
  - destruct (do_call w c) as [w1|] eqn:E1; [|discriminate]. cbn in E.
    eapply IH; [|exact E]. eapply do_call_reached; eauto.
Qed.

Lemma sample_runs :
  is_Some (do_calls (empty SampleTree.shapes) SampleTree.calls).
Proof. vm_compute. eexists. reflexivity. Qed.

Lemma sample_reached : reached SampleTree.world.
Proof.
  unfold SampleTree.world.
  destruct (do_calls (empty SampleTree.shapes) SampleTree.calls) as [w|] eqn:E.
  - cbn. eapply do_calls_reached; [|exact E]. constructor.
  - cbn. constructor.
Qed.

(** C4. In every state that calls of [insert], [remove], [reindexObject]
    and [reindexQuery] (with shapes moving in between) lead to from the
    empty trees, and in both trees: the box of every node reachable
    from [root] is the componentwise union of the boxes of its two
    children, and every leaf recorded in [leaves] is found from [root] by
    exactly one path.  Moreover the next call returns, whenever the shape
    to insert exists and the shape to remove is in the index. *)
Theorem tree_invariant_maintained (w : World) (k : which) :
  reached w ->
  tree_invariant (store w) k
  /\ forall c, call_ok w c -> is_Some (do_call w c).
Proof.
  intros Hr. pose proof (reached_inv w Hr) as Hinv. split.
  - now apply inv_tree_invariant.
  - intros c Hok. now apply call_completes.
Qed.

(** The state after the sample calls: a static and two dynamic shapes
    inserted, one moved, re-indexed and removed. *)
Lemma tree_invariant_maintained_witness :
  tree_invariant (store SampleTree.world) Dynamic
  /\ forall c, call_ok SampleTree.world c ->
               is_Some (do_call SampleTree.world c).
Proof. apply (tree_invariant_maintained SampleTree.world Dynamic sample_reached). Defined.

End InvariantFacts.

(** ** Insertion followed by removal *)

Module RoundTripFacts.
Import BBTree TreeShape Structure TreeShapeFacts InsertFacts InvFacts
  RemoveInvFacts ReachFacts WorldFacts InvariantFacts.
Local Open Scope Z_scope.

(** [subtreeQuery] on a tree that the store holds. *)
Lemma subtreeQuery_tree (s : Store) (bb : BB) (t : tree) :
  forall fuel, shape' (objs s) t -> (height t <= fuel)%nat ->
  subtreeQuery fuel s (rt t) bb = Some (tquery (objs s) t bb).
Proof.
  induction t as [r | r a IHa b IHb]; intros fuel Hs Hh;
    (destruct fuel as [|fuel]; [cbn in Hh; lia|]); cbn in Hh.
  - destruct Hs as (o & Ho & Hl & [id Hid]). cbn.
    unfold bx, oid. rewrite Ho. cbn. rewrite Hl, Hid.
    now destruct (intersectsBB (box o) bb).
  - destruct Hs as ((o & Ho & Hl & HA & HB) & _ & _ & Ha & Hb).
    cbn [subtreeQuery rt tquery]. unfold bx. rewrite Ho. cbn.
    rewrite Hl, HA, HB. cbn. destruct (intersectsBB (box o) bb); [|reflexivity].
    rewrite (IHa fuel Ha) by lia. cbn. rewrite (IHb fuel Hb) by lia.
    reflexivity.
Qed.

(** The boxes of the leaves fix those of the nodes. *)
Lemma boxes_determined h h' t :
  bbok h t -> bbok h' t -> (forall l, l ∈ leafs t -> bx h' l = bx h l) ->
  forall r, r ∈ refs t -> bx h' r = bx h r.
Proof.
  induction t as [x | x a IHa b IHb]; cbn; intros Hb Hb' Hl r Hr.
  - apply list_elem_of_singleton in Hr as ->. apply Hl. set_solver.
  - destruct Hb as (E & Ha & Hbb). destruct Hb' as (E' & Ha' & Hbb').
    assert (Fa : forall r, r ∈ refs a -> bx h' r = bx h r).
    { apply IHa; auto. intros l Hin. apply Hl. set_solver. }
    assert (Fb : forall r, r ∈ refs b -> bx h' r = bx h r).
    { apply IHb; auto. intros l Hin. apply Hl. set_solver. }
    apply elem_of_cons in Hr as [-> | Hr].
    + rewrite E, E'. rewrite (Fa _ (rt_in_refs a)), (Fb _ (rt_in_refs b)).
      reflexivity.
    + apply elem_of_app in Hr as [Hr | Hr]; auto.
Qed.

Lemma tquery_ext h h' t bb :
  (forall r, r ∈ refs t -> bx h' r = bx h r) ->
  (forall l, l ∈ leafs t -> oid h' l = oid h l) ->
  tquery h' t bb = tquery h t bb.
Proof.
  induction t as [x | x a IHa b IHb]; cbn; intros Hb Ho.
  - rewrite Hb, Ho by set_solver. reflexivity.
  - rewrite Hb by set_solver.
    rewrite IHa; [rewrite IHb; [reflexivity| |]| |]; intros r Hr;
      (apply Hb || apply Ho); set_solver.
Qed.

(** [query] on a state that satisfies the invariant. *)
Lemma query_inv w k ot ot' pl pl' bb :
  inv_k (store w) k ot ot' pl pl' ->
  query w k bb =
  Some (match ot with
        | Some t => tquery (objs (store w)) t bb
        | None => []
        end).
Proof.
  intros Hk. pose proof (inv_own _ _ _ _ _ _ Hk) as Hown. unfold query.
  destruct ot as [t|]; cbn in Hown; [|now rewrite Hown].
  destruct Hown as (-> & [Hs _] & _). apply subtreeQuery_tree; [exact Hs|].
  unfold fuel. etrans; [apply height_le_refs|].
  etrans; [apply (bounded_length _ (nobjs (store w)))|lia].
  - pose proof (inv_nodup _ _ _ _ _ _ Hk) as Hnd.
    apply NoDup_app4 in Hnd as (Hnd & _). exact Hnd.
  - intros x Hx. eapply inv_refs_alloc; [exact Hk|]. cbn. set_solver.
Qed.

(** Two stores that hold the same tree with the same leaves answer
    queries alike. *)
Lemma tquery_kept h h' t bb :
  shape' h t -> bbok h t -> bbok h' t -> leaves_kept h h' ->
  tquery h' t bb = tquery h t bb.
Proof.
  intros Hs Hb Hb' Hk.
  assert (Hl : forall l, l ∈ leafs t ->
                 bx h' l = bx h l /\ oid h' l = oid h l).
  { intros l Hin. destruct (shape'_leaf h t l Hs Hin) as (o & Ho & Hlf & _).
    destruct (Hk l o Ho Hlf) as (o' & Ho' & _ & E1 & E2).
    unfold bx, oid. rewrite Ho, Ho'. cbn. now rewrite E1, E2. }
  apply tquery_ext.
  - apply boxes_determined; auto. intros l Hin. now apply Hl.
  - intros l Hin. now apply Hl.
Qed.

Lemma query_same w w2 k ot ot' pl pl' pl2 pl2' bb :
  inv_k (store w) k ot ot' pl pl' -> inv_k (store w2) k ot ot' pl2 pl2' ->
  leaves_kept (objs (store w)) (objs (store w2)) ->
  query w2 k bb = query w k bb.
Proof.
  intros Hk Hk2 Hkept.
  rewrite (query_inv w k ot ot' pl pl' bb Hk).
  rewrite (query_inv w2 k ot ot' pl2 pl2' bb Hk2).
  destruct ot as [t|]; [|reflexivity]. f_equal.
  destruct (inv_own _ _ _ _ _ _ Hk) as (_ & [Hs _] & Hb).
  destruct (inv_own _ _ _ _ _ _ Hk2) as (_ & _ & Hb2).
  now apply tquery_kept.
Qed.

(** [insert] and then [remove] of the same shape, on the tree
    structure: the index holds the tree that it held. *)
Lemma round_trip_store s k id ot ot' pl pl' :
  inv_k s k ot ot' pl pl' -> is_Some (shapes s !! id) ->
  exists s1 s2 pl2,
    insertS s k id = Some s1 /\ removeS s1 k id = Some s2
    /\ inv_k s2 k ot ot' pl2 pl'
    /\ leaves (treeS s2 k) !! id = None
    /\ leaves_kept (objs s) (objs s2).
Proof.
  intros Hk Hid.
  destruct (insertS_inv s k id ot ot' pl pl' Hk Hid)
    as (s1 & t' & pl1 & E1 & Hk1 & Elv1 & Hkept1 & Hins & _).
  assert (HL : leaves (treeS s1 k) !! id = Some (nobjs s)).
  { rewrite Elv1. apply lookup_insert_eq. }
  assert (exists c, t' = plug c (TLeaf (nobjs s)) /\ tdel c = ot)
    as (c & -> & Hdel).
  { destruct ot as [t|]; cbn in Hins.
    - destruct Hins as (N & Htins & _).
      destruct (tins_ctx _ _ _ _ Htins) as (c & p & -> & ->).
      exists (InA N c (TLeaf p)). auto.
    - destruct Hins as [-> _]. exists Top. auto. }
  destruct (removeS_inv s1 k id (nobjs s) c ot' pl1 pl' Hk1 HL)
    as (s2 & E2 & Hk2 & Elv2 & Hkept2 & _).
  exists s1, s2, (removed_pool c pl1).
  split; [exact E1|]. split; [exact E2|]. rewrite Hdel in Hk2.
  split; [exact Hk2|]. split.
  - rewrite Elv2. apply lookup_delete_eq.
  - eapply leaves_kept_trans; eauto.
Qed.

(** C5. In every state that the calls lead to, [insert] of a shape that
    exists followed by [remove] of it returns; afterwards [contains] is
    false for the shape, and [query] over any box, on either tree, passes
    the same shapes to its callback, in the same order, as it did before
    the two calls. *)
Theorem insert_remove_round_trip (w : World) (k : which) (id : Z) :
  reached w -> is_Some (shapes (store w) !! id) ->
  exists w1 w2,
    insert w k id = Some w1 /\ remove w1 k id = Some w2
    /\ contains w2 k id = false
    /\ forall k' bb, exists found,
         query w k' bb = Some found /\ query w2 k' bb = Some found.
Proof.
  intros Hr Hid. pose proof (reached_inv w Hr) as Hinv.
  destruct (inv_any _ k Hinv) as (ot & ot' & pl & pl' & Hk).
  destruct (round_trip_store _ k id ot ot' pl pl' Hk Hid)
    as (s1 & s2 & pl2 & E1 & E2 & Hk2 & Hnone & Hkept).
  rewrite <- store_insert in E1.
  apply fmap_is_Some in E1 as (w1 & Ew1 & <-).
  rewrite <- store_remove in E2.
  apply fmap_is_Some in E2 as (w2 & Ew2 & <-).
  exists w1, w2. split; [exact Ew1|]. split; [exact Ew2|]. split.
  - unfold contains. rewrite Hnone. apply bool_decide_eq_false.
    now intros [x Hx].
  - intros k' bb. destruct (decide (k' = k)) as [-> | Hne].
    + exists (match ot with
              | Some t => tquery (objs (store w)) t bb
              | None => []
              end).
      split; [eapply query_inv; eauto|].
      rewrite (query_same w w2 k ot ot' pl pl' pl2 pl' bb); auto.
      eapply query_inv; eauto.
    + assert (k' = other k) as -> by (destruct k, k'; cbn; congruence).
      apply inv_k_swap in Hk. apply inv_k_swap in Hk2.
      exists (match ot' with
              | Some t => tquery (objs (store w)) t bb
              | None => []
              end).
      split; [eapply query_inv; eauto|].
      rewrite (query_same w w2 (other k) ot' ot pl' pl pl' pl2 bb); auto.
      eapply query_inv; eauto.
Qed.

Lemma sample_shape : is_Some (shapes (store SampleTree.world) !! 2).
Proof. vm_compute. eexists. reflexivity. Qed.

(** Shape [2] is inserted into the dynamic tree of the sample state and
    removed again. *)
Lemma insert_remove_round_trip_witness :
  exists w1 w2,
    insert SampleTree.world Dynamic 2 = Some w1
    /\ remove w1 Dynamic 2 = Some w2
    /\ contains w2 Dynamic 2 = false
    /\ forall k' bb, exists found,
         query SampleTree.world k' bb = Some found
         /\ query w2 k' bb = Some found.
Proof.
  apply (insert_remove_round_trip SampleTree.world Dynamic 2 sample_reached
           sample_shape).
Defined.

End RoundTripFacts.

(** ** Pooling of nodes and pairs *)

Module PoolFacts.
Import BBTree TreeShape Structure TreeShapeFacts.
Local Open Scope Z_scope.

(** C8 as stated fails for leaves. A shape is inserted into empty trees,
    removed and inserted again: after the removal its [Leaf] is on no free
    list (both [pooledNodes] are [null]), and the second [insert]
    allocates a second [Leaf] instead of taking the first one back. *)
Lemma leaf_not_pooled_counterexample :
  exists w1 w2 w3 L,
    insert (empty SampleLeaf.shapes) Dynamic 1 = Some w1
    /\ leaves (dynS (store w1)) !! 1 = Some L
    /\ remove w1 Dynamic 1 = Some w2
    /\ pooledNodes (dynS (store w2)) = None
    /\ pooledNodes (statS (store w2)) = None
    /\ recycle (store w1) Dynamic L = Some (store w1)
    /\ insert w2 Dynamic 1 = Some w3
    /\ leaves (dynS (store w3)) !! 1 = Some (S L)
    /\ numLeaves (store w3) = 2%nat.
Proof.
  set (w0 := empty SampleLeaf.shapes).
  set (w1 := default w0 (insert w0 Dynamic 1)).
  set (w2 := default w0 (remove w1 Dynamic 1)).
  set (w3 := default w0 (insert w2 Dynamic 1)).
  exists w1, w2, w3, 0%nat. vm_compute. repeat split.
Qed.

End PoolFacts.

(** ** The collision pairs of a re-index pass *)

Module PairFacts.
Import BBTree TreeShape Structure.
Local Open Scope Z_scope.

(** C3 fails in the code. A static shape is inserted and then a dynamic
    shape whose box overlaps it; these are the first two calls, so the
    stamp of the dynamic tree is still [0] and [getStamp] of the static tree
    answers with the static tree's own stamp. Both leaves get the stamp
    [0], [markLeafQuery] finds [this.stamp < leaf.stamp] false and caches no
    pair, and the re-index pass that follows, in which neither shape has
    moved, calls the collision callback for no pair at all. *)
Lemma first_dynamic_insert_misses_static :
  exists w' lS lD oS oD,
    do_calls (empty SampleMiss.shapes) SampleMiss.calls
    = Some SampleMiss.world
    /\ leaves (statS (store SampleMiss.world)) !! 1 = Some lS
    /\ leaves (dynS (store SampleMiss.world)) !! 2 = Some lD
    /\ objs (store SampleMiss.world) !! lS = Some oS
    /\ objs (store SampleMiss.world) !! lD = Some oD
    /\ bbTreeIntersectsNode (box oD) (box oS) = true
    /\ stamps (threads SampleMiss.world) !! lS = Some 0
    /\ stamps (threads SampleMiss.world) !! lD = Some 0
    /\ pairs (threads SampleMiss.world) = ∅
    /\ calls (threads SampleMiss.world) = []
    /\ reindexQuery SampleMiss.world Dynamic = Some w'
    /\ calls (threads w') = [].
Proof.
  exists (default SampleMiss.world (reindexQuery SampleMiss.world Dynamic)),
    0%nat, 1%nat, (default (mkObj true None (mkBB 0 0 0 0) None None None) (objs (store SampleMiss.world) !! 0%nat)),
    (default (mkObj true None (mkBB 0 0 0 0) None None None) (objs (store SampleMiss.world) !! 1%nat)).
  vm_compute. repeat split.
Qed.

End PairFacts.

(** ** Segment queries *)

Module SegmentFacts.
Import BBTree TreeShape Structure SegmentRun TreeShapeFacts InvFacts
  WorldFacts InvariantFacts.
Import XNum.
Local Open Scope Q_scope.


Local Ltac qb :=
  repeat match goal with
  | H : Qle_bool _ _ = true |- _ => apply Qle_bool_iff in H
  | H : Qle_bool ?a ?b = false |- _ =>
      assert (~ a <= b) by (rewrite <- Qle_bool_iff; congruence); clear H
  | H : Qeq_bool _ _ = true |- _ => apply Qeq_bool_iff in H
  | H : Qeq_bool ?a ?b = false |- _ =>
      assert (~ a == b) by (rewrite <- Qeq_bool_iff; congruence); clear H
  | |- Qle_bool _ _ = true => apply Qle_bool_iff
  | |- Qeq_bool _ _ = true => apply Qeq_bool_iff
  end.

















Section Segment.

Variables (s : Store) (func : Z -> xnum) (ax ay cx cy : Q).





End Segment.




End SegmentFacts.

(** * Further properties of the joints *)

Module JointMoreFacts.




Section Joints.

Context `{Helpers}.



End Joints.



End JointMoreFacts.

(** * Properties of the bounding boxes *)

Module BboxFacts.
Import Bbox.

Local Ltac qb :=
  repeat match goal with
  | H : _ && _ = true |- _ => apply andb_true_iff in H; destruct H
  | H : Qle_bool _ _ = true |- _ => apply Qle_bool_iff in H
  | |- _ && _ = true => apply andb_true_iff; split
  | |- Qle_bool _ _ = true => apply Qle_bool_iff
  end.

Lemma bbContainsVect_holds (a1 : BB) (v : Vect) :
  bbContainsVect a1 v = true <-> holds a1 v.
Proof.
  unfold bbContainsVect, holds. split.
  - intros H. qb. auto.
  - intros [[? ?] [? ?]]. qb; auto.
Qed.

Lemma bbContainsBB_le (a1 other : BB) :
  bbContainsBB a1 other = true <->
  l a1 <= l other /\ r other <= r a1 /\ b a1 <= b other /\ t other <= t a1.
Proof.
  unfold bbContainsBB. split.
  - intros H. qb. auto.
  - intros (? & ? & ? & ?). qb; auto.
Qed.

(** [bbContainsBB(bb, other)] says that every point of [other] is a point
    of [bb], for a well-formed [other]; for any [other] it is enough for
    that. *)
Theorem bbContainsBB_points (a1 other : BB) :
  wf other -> (bbContainsBB a1 other = true <-> within other a1).
Proof.
  intros [Hw1 Hw2]. rewrite bbContainsBB_le. unfold within, holds. split.
  - intros (? & ? & ? & ?) v [[? ?] [? ?]]. repeat split; lra.
  - intros Hin.
    destruct (Hin (mkVect (l other) (b other))) as [[? ?] [? ?]];
      [cbn; lra|].
    destruct (Hin (mkVect (r other) (t other))) as [[? ?] [? ?]];
      [cbn; lra|].
    cbn in *. auto.
Qed.

(** Two well-formed boxes intersect, by [bbIntersects], exactly when they
    have a point in common; the edges count. *)
Theorem bbIntersects_common_point (a1 a2 : BB) :
  wf a1 -> wf a2 ->
  (bbIntersects a1 a2 = true <-> exists v, holds a1 v /\ holds a2 v).
Proof.
  intros [H1 H2] [H3 H4]. unfold bbIntersects, holds. split.
  - intros H. qb.
    exists (mkVect (Qmax (l a1) (l a2)) (Qmax (b a1) (b a2))). cbn.
    pose proof (Q.le_max_l (l a1) (l a2)).
    pose proof (Q.le_max_r (l a1) (l a2)).
    pose proof (Q.le_max_l (b a1) (b a2)).
    pose proof (Q.le_max_r (b a1) (b a2)).
    assert (Qmax (l a1) (l a2) <= r a1) by (apply Q.max_lub; lra).
    assert (Qmax (l a1) (l a2) <= r a2) by (apply Q.max_lub; lra).
    assert (Qmax (b a1) (b a2) <= t a1) by (apply Q.max_lub; lra).
    assert (Qmax (b a1) (b a2) <= t a2) by (apply Q.max_lub; lra).
    repeat split; assumption.
  - intros (v & [[? ?] [? ?]] & [[? ?] [? ?]]). qb; lra.
Qed.

(** [bbMerge(a, b)] contains [a] and [b], and every box that contains both
    contains it. *)
Theorem bbMerge_least (a1 a2 : BB) :
  bbContainsBB (bbMerge a1 a2) a1 = true
  /\ bbContainsBB (bbMerge a1 a2) a2 = true
  /\ forall c, bbContainsBB c a1 = true -> bbContainsBB c a2 = true ->
               bbContainsBB c (bbMerge a1 a2) = true.
Proof.
  rewrite !bbContainsBB_le. cbn.
  pose proof (Q.le_min_l (l a1) (l a2)). pose proof (Q.le_min_r (l a1) (l a2)).
  pose proof (Q.le_min_l (b a1) (b a2)). pose proof (Q.le_min_r (b a1) (b a2)).
  pose proof (Q.le_max_l (r a1) (r a2)). pose proof (Q.le_max_r (r a1) (r a2)).
  pose proof (Q.le_max_l (t a1) (t a2)). pose proof (Q.le_max_r (t a1) (t a2)).
  split; [auto|]. split; [auto|].
  intros c Hc1 Hc2. rewrite bbContainsBB_le in *. cbn.
  destruct Hc1 as (? & ? & ? & ?), Hc2 as (? & ? & ? & ?).
  repeat split;
    first [apply Q.min_glb; assumption | apply Q.max_lub; assumption].
Qed.

(** [bbExpand(bb, v)] contains [bb] and the point [v], and every box that
    contains both contains it. *)
Theorem bbExpand_least (a1 : BB) (v : Vect) :
  bbContainsBB (bbExpand a1 v) a1 = true
  /\ bbContainsVect (bbExpand a1 v) v = true
  /\ forall c, bbContainsBB c a1 = true -> bbContainsVect c v = true ->
               bbContainsBB c (bbExpand a1 v) = true.
Proof.
  rewrite bbContainsBB_le, bbContainsVect_holds. unfold holds. cbn.
  pose proof (Q.le_min_l (l a1) (x v)). pose proof (Q.le_min_r (l a1) (x v)).
  pose proof (Q.le_min_l (b a1) (y v)). pose proof (Q.le_min_r (b a1) (y v)).
  pose proof (Q.le_max_l (r a1) (x v)). pose proof (Q.le_max_r (r a1) (x v)).
  pose proof (Q.le_max_l (t a1) (y v)). pose proof (Q.le_max_r (t a1) (y v)).
  split; [auto|]. split; [auto|].
  intros c Hc1 Hc2. rewrite bbContainsBB_le in *.
  apply bbContainsVect_holds in Hc2. unfold holds in Hc2. cbn.
  destruct Hc1 as (? & ? & ? & ?), Hc2 as ((? & ?) & ? & ?).
  repeat split;
    first [apply Q.min_glb; assumption | apply Q.max_lub; assumption].
Qed.

(** A well-formed box has an area that is not negative, and merging it
    with any box does not make the area smaller; [bbMergedArea] is the area
    of [bbMerge], and [bbMergedArea2] is [bbMergedArea] on the four
    numbers. *)
Theorem bbMergedArea_grows (a1 a2 : BB) :
  wf a1 ->
  0 <= bbArea a1 <= bbMergedArea a1 a2
  /\ bbMergedArea a1 a2 == bbArea (bbMerge a1 a2)
  /\ bbMergedArea2 a1 (l a2) (b a2) (r a2) (t a2) == bbMergedArea a1 a2.
Proof.
  intros [H1 H2]. unfold bbArea, bbMergedArea, bbMergedArea2. cbn.
  pose proof (Q.le_min_l (l a1) (l a2)). pose proof (Q.le_min_l (b a1) (b a2)).
  pose proof (Q.le_max_l (r a1) (r a2)). pose proof (Q.le_max_l (t a1) (t a2)).
  set (L := Qmin (l a1) (l a2)) in *. set (B := Qmin (b a1) (b a2)) in *.
  set (R := Qmax (r a1) (r a2)) in *. set (T := Qmax (t a1) (t a2)) in *.
  split; [|split; reflexivity]. split; nra.
Qed.

Lemma bbContainsBB_points_witness :
  bbContainsBB (bb 0 0 3 3) (bb 1 1 2 2) = true
  <-> within (bb 1 1 2 2) (bb 0 0 3 3).
Proof.
  apply (bbContainsBB_points (bb 0 0 3 3) (bb 1 1 2 2)).
  split; vm_compute; intros E; discriminate E.
Defined.

Lemma bbIntersects_common_point_witness :
  bbIntersects (bb 0 0 2 2) (bb 2 1 4 3) = true
  <-> exists v, holds (bb 0 0 2 2) v /\ holds (bb 2 1 4 3) v.
Proof.
  apply (bbIntersects_common_point (bb 0 0 2 2) (bb 2 1 4 3)).
  - split; vm_compute; intros E; discriminate E.
  - split; vm_compute; intros E; discriminate E.
Defined.

Lemma bbMergedArea_grows_witness :
  0 <= bbArea (bb 0 0 2 2) <= bbMergedArea (bb 0 0 2 2) (bb 1 (-1) 4 1)
  /\ bbMergedArea (bb 0 0 2 2) (bb 1 (-1) 4 1)
     == bbArea (bbMerge (bb 0 0 2 2) (bb 1 (-1) 4 1))
  /\ bbMergedArea2 (bb 0 0 2 2) 1 (-1) 4 1
     == bbMergedArea (bb 0 0 2 2) (bb 1 (-1) 4 1).
Proof.
  apply (bbMergedArea_grows (bb 0 0 2 2) (bb 1 (-1) 4 1)).
  split; vm_compute; intros E; discriminate E.
Defined.

End BboxFacts.

(** * Further properties of the bounding-box tree *)

(** ** What a query reports *)

Module QueryFacts.
Import BBTree TreeShape Structure Index TreeShapeFacts InsertFacts InvFacts
  RemoveInvFacts ReachFacts PathFacts WorldFacts InvariantFacts
  RoundTripFacts.
Local Open Scope Z_scope.

Lemma intersectsBB_spec (a bb : BB) :
  intersectsBB a bb = true <->
  bb_l a <= bb_r bb /\ bb_l bb <= bb_r a
  /\ bb_b a <= bb_t bb /\ bb_b bb <= bb_t a.
Proof.
  unfold intersectsBB. rewrite !andb_true_iff, !Z.leb_le. tauto.
Qed.

Lemma containsObj_spec (a b : BB) :
  containsObj a b = true <->
  bb_l a <= bb_l b /\ bb_r b <= bb_r a
  /\ bb_b a <= bb_b b /\ bb_t b <= bb_t a.
Proof.
  unfold containsObj. rewrite !andb_true_iff, !Z.leb_le. tauto.
Qed.

Lemma intersectsBB_merge_l (a b bb : BB) :
  intersectsBB a bb = true -> intersectsBB (merge a b) bb = true.
Proof. rewrite !intersectsBB_spec. unfold merge. cbn. lia. Qed.

Lemma intersectsBB_merge_r (a b bb : BB) :
  intersectsBB b bb = true -> intersectsBB (merge a b) bb = true.
Proof. rewrite !intersectsBB_spec. unfold merge. cbn. lia. Qed.

(** No leaf whose box meets [bb] is passed over: the boxes on the way to
    it hold its box. *)
Lemma tquery_complete h t bb l o id :
  shape' h t -> bbok h t -> l ∈ leafs t -> h !! l = Some o ->
  obj o = Some id -> intersectsBB (box o) bb = true ->
  intersectsBB (bx h (rt t)) bb = true /\ id ∈ tquery h t bb.
Proof.
  induction t as [r | r a IHa b IHb]; cbn; intros Hs Hb Hl Ho Hid Hi.
  - apply list_elem_of_singleton in Hl as ->.
    rewrite (bx_lookup h r o Ho), Hi. unfold oid. rewrite Ho. cbn.
    rewrite Hid. split; [reflexivity | set_solver].
  - destruct Hs as (_ & _ & _ & Hsa & Hsb). destruct Hb as (E & Hba & Hbb).
    rewrite E. apply elem_of_app in Hl as [Hl | Hl].
    + destruct (IHa Hsa Hba Hl Ho Hid Hi) as [Hia Hin].
      rewrite (intersectsBB_merge_l _ _ _ Hia).
      split; [reflexivity | set_solver].
    + destruct (IHb Hsb Hbb Hl Ho Hid Hi) as [Hib Hin].
      rewrite (intersectsBB_merge_r _ _ _ Hib).
      split; [reflexivity | set_solver].
Qed.

(** Whatever is reported is the shape of a leaf of the tree whose box
    meets [bb]. *)
Lemma tquery_sound h t bb id :
  shape' h t -> id ∈ tquery h t bb ->
  exists l o,
    l ∈ leafs t /\ h !! l = Some o /\ isLeaf o = true /\ obj o = Some id
    /\ intersectsBB (box o) bb = true.
Proof.
  induction t as [r | r a IHa b IHb]; cbn; intros Hs Hin.
  - destruct Hs as (o & Ho & Hl & _).
    rewrite (bx_lookup h r o Ho) in Hin. unfold oid in Hin.
    rewrite Ho in Hin. cbn in Hin.
    destruct (intersectsBB (box o) bb) eqn:Hi; [|set_solver].
    destruct (obj o) as [i|] eqn:Hid; [|set_solver].
    apply list_elem_of_singleton in Hin as ->.
    exists r, o. split; [set_solver|]. auto.
  - destruct Hs as (_ & _ & _ & Hsa & Hsb).
    destruct (intersectsBB (bx h r) bb); [|set_solver].
    apply elem_of_app in Hin as [Hin | Hin].
    + destruct (IHa Hsa Hin) as (l & o & Hl & H). exists l, o.
      split; [set_solver | exact H].
    + destruct (IHb Hsb Hin) as (l & o & Hl & H). exists l, o.
      split; [set_solver | exact H].
Qed.

Lemma sub_at_leafs t path l : sub_at t path = Some (TLeaf l) -> l ∈ leafs t.
Proof.
  revert t. induction path as [|d path IH]; intros t E.
  - destruct t; cbn in E; injection E as E; [|discriminate].
    subst. cbn. set_solver.
  - destruct t as [r | r a b]; cbn in E; [discriminate|].
    cbn. destruct d; apply IH in E; set_solver.
Qed.

(** The leaves that hang in the tree of an index are the leaves of the
    tree that the invariant speaks of. *)
Lemma hangs_leafs s k ot ot' pl pl' :
  inv_k s k ot ot' pl pl' ->
  forall l,
    l ∈ oleafs ot <->
    hangs s k l /\ exists o, objs s !! l = Some o /\ isLeaf o = true.
Proof.
  intros [Hown _ _ _ _ _ _ _ _ _] l. unfold hangs.
  destruct ot as [t|]; cbn in Hown |- *.
  - destruct Hown as (Ert & [Hs _] & Hb). split.
    + intros Hl. destruct (leafs_sub_at t l Hl) as [path Hp].
      split.
      * exists (rt t), path. split; [exact Ert|].
        apply (sub_at_path _ _ _ _ Hs Hp).
      * destruct (shape'_leaf (objs s) t l Hs Hl) as (o & Ho & Hlf & _).
        eauto.
    + intros [(r & path & Er & Hp) (o & Ho & Hlf)].
      rewrite Ert in Er. injection Er as <-.
      destruct (at_path_sub _ _ _ _ Hs Hp) as (u & Hu & Eu).
      destruct (sub_at_shape _ _ _ _ Hs Hb Hu) as [Hsu _].
      destruct u as [x | x a b]; cbn in Eu; subst x.
      * eapply sub_at_leafs, Hu.
      * destruct Hsu as ((o' & Ho' & Hn & _) & _). congruence.
  - split; [set_solver|]. intros [(r & path & Er & _) _]. congruence.
Qed.

(** On a store that satisfies the invariant, [query] reports the shapes
    of the leaves that hang in the tree and whose box meets [bb]. *)
Lemma query_exact_inv w k bb :
  inv (store w) ->
  exists found,
    query w k bb = Some found
    /\ forall id,
         id ∈ found <->
         exists l b,
           hangs (store w) k l /\ leaf_of (store w) l id b
           /\ intersectsBB b bb = true.
Proof.
  intros Hinv. destruct (inv_any _ k Hinv) as (ot & ot' & pl & pl' & Hk).
  rewrite (query_inv w k ot ot' pl pl' bb Hk). eexists. split; [reflexivity|].
  intros id. pose proof (hangs_leafs _ _ _ _ _ _ Hk) as Hh.
  destruct Hk as [Hown _ _ _ _ _ _ _ _ _].
  destruct ot as [t|]; cbn in Hown, Hh.
  - destruct Hown as (Ert & [Hs _] & Hb). split.
    + intros Hin.
      destruct (tquery_sound _ _ _ _ Hs Hin) as (l & o & Hl & Ho & Hlf & Hid & Hi).
      exists l, (box o). split; [apply Hh, Hl|].
      split; [|exact Hi]. exists o. auto.
    + intros (l & b & Hhang & (o & Ho & Hlf & Hid & <-) & Hi).
      assert (Hl : l ∈ leafs t) by (apply Hh; eauto).
      apply (tquery_complete _ _ _ _ _ _ Hs Hb Hl Ho Hid Hi).
  - split; [set_solver|].
    intros (l & b & (r & path & Er & _) & _). congruence.
Qed.

(** [query(bb, func)] returns, and passes to [func] the shapes of the
    leaves that hang in the tree and whose box meets [bb], and no other;
    so every shape filed in [leaves] whose leaf has a box that meets [bb]
    is passed to [func]; and [pointQuery] is the query with the box of
    the point. *)
Theorem query_exact (w : World) (k : which) (bb : BB) :
  reached w ->
  exists found,
    query w k bb = Some found
    /\ (forall id,
          id ∈ found <->
          exists l b,
            hangs (store w) k l /\ leaf_of (store w) l id b
            /\ intersectsBB b bb = true)
    /\ (forall id l b,
          leaves (treeS (store w) k) !! id = Some l ->
          leaf_of (store w) l id b ->
          intersectsBB b bb = true -> id ∈ found)
    /\ (forall vx vy,
          bb = mkBB vx vy vx vy -> pointQuery w k vx vy = Some found).
Proof.
  intros Hr. pose proof (reached_inv w Hr) as Hinv.
  destruct (query_exact_inv w k bb Hinv) as (found & E & Hf).
  exists found. split; [exact E|]. split; [exact Hf|]. split.
  - intros id l b Hl Hlo Hi. apply Hf. exists l, b.
    split; [|auto].
    destruct (inv_any _ k Hinv) as (ot & ot' & pl & pl' & Hk).
    apply (hangs_leafs _ _ _ _ _ _ Hk l).
    eapply inv_leaves; eauto.
  - intros vx vy ->. exact E.
Qed.

Lemma query_exact_witness :
  exists found,
    query SampleTree.world Dynamic (mkBB 0 0 5 5) = Some found
    /\ (forall id,
          id ∈ found <->
          exists l b,
            hangs (store SampleTree.world) Dynamic l
            /\ leaf_of (store SampleTree.world) l id b
            /\ intersectsBB b (mkBB 0 0 5 5) = true)
    /\ (forall id l b,
          leaves (treeS (store SampleTree.world) Dynamic) !! id = Some l ->
          leaf_of (store SampleTree.world) l id b ->
          intersectsBB b (mkBB 0 0 5 5) = true -> id ∈ found)
    /\ (forall vx vy,
          mkBB 0 0 5 5 = mkBB vx vy vx vy ->
          pointQuery SampleTree.world Dynamic vx vy = Some found).
Proof.
  apply (query_exact SampleTree.world Dynamic (mkBB 0 0 5 5) sample_reached).
Defined.

End QueryFacts.

(** ** What the subtree functions leave alone *)

Module BooksFacts.
Import BBTree TreeShape Structure Index TreeShapeFacts InsertFacts InvFacts
  RemoveInvFacts UpdateFacts ReachFacts PathFacts WorldFacts InvariantFacts
  RoundTripFacts QueryFacts.
Local Open Scope Z_scope.

Local Ltac opt :=
  repeat match goal with
  | H : _ ≫= _ = Some _ |- _ =>
      let E := fresh "E" in apply bind_Some in H as (? & E & H)
  | H : Some _ = Some _ |- _ => injection H as H
  | H : (let '(_, _) := ?p in _) = Some _ |- _ => destruct p
  | H : (if ?b then _ else _) = Some _ |- _ => destruct b
  | H : None = Some _ |- _ => discriminate H
  end.

Lemma books_treeS s s' :
  (forall k, treeS s' k = treeS s k) -> books s' = books s.
Proof.
  intros H. unfold books.
  now rewrite (H Dynamic : dynS s' = _), (H Static : statS s' = _).
Qed.

Lemma update_books s r f s' : update s r f = Some s' -> books s' = books s.
Proof.
  intros E. apply books_treeS. intros k.
  exact (update_treeS _ _ _ _ k E).
Qed.

Lemma setA_books s n v s' : setA s n v = Some s' -> books s' = books s.
Proof.
  unfold setA. intros H. opt.
  rewrite (update_books _ _ _ _ H). eapply update_books; eauto.
Qed.

Lemma setB_books s n v s' : setB s n v = Some s' -> books s' = books s.
Proof.
  unfold setB. intros H. opt.
  rewrite (update_books _ _ _ _ H). eapply update_books; eauto.
Qed.

Lemma set_pooledNodes_books s k r : books (set_pooledNodes s k r) = books s.
Proof. now destruct k. Qed.

Lemma Node_constructor_books s n a b s' :
  Node_constructor s n a b = Some s' -> books s' = books s.
Proof.
  unfold Node_constructor. intros H. opt.
  rewrite (setB_books _ _ _ _ H).
  match goal with E : setA _ _ _ = Some _ |- _ =>
    rewrite (setA_books _ _ _ _ E) end.
  reflexivity.
Qed.

Lemma makeNode_books s k a b s' n :
  makeNode s k a b = Some (s', n) -> books s' = books s.
Proof.
  unfold makeNode. intros H.
  destruct (pooledNodes (treeS s k)); opt; subst.
  - match goal with E : Node_constructor _ _ _ _ = Some _ |- _ =>
      rewrite (Node_constructor_books _ _ _ _ _ E) end.
    apply set_pooledNodes_books.
  - match goal with E : Node_constructor _ _ _ _ = Some _ |- _ =>
      rewrite (Node_constructor_books _ _ _ _ _ E) end.
    reflexivity.
Qed.

Lemma recycle_books s k r s' : recycle s k r = Some s' -> books s' = books s.
Proof.
  unfold recycle. intros H. opt; subst; [reflexivity|].
  rewrite set_pooledNodes_books. eapply update_books; eauto.
Qed.

Lemma refit_books fuel :
  forall s n s', refit fuel s n = Some s' -> books s' = books s.
Proof.
  induction fuel as [|fuel IH]; intros s [r|] s' H; cbn in H;
    try discriminate; opt; subst; try reflexivity.
  rewrite (IH _ _ _ H). eapply update_books; eauto.
Qed.

Lemma replaceChild_books fuel s k this child value s' :
  replaceChild fuel s k this child value = Some s' -> books s' = books s.
Proof.
  unfold replaceChild. intros H. opt.
  - rewrite (refit_books _ _ _ _ H).
    match goal with E : setA _ _ _ = Some _ |- _ =>
      rewrite (setA_books _ _ _ _ E) end.
    eapply recycle_books; eauto.
  - rewrite (refit_books _ _ _ _ H).
    match goal with E : setB _ _ _ = Some _ |- _ =>
      rewrite (setB_books _ _ _ _ E) end.
    eapply recycle_books; eauto.
Qed.

Lemma subtreeInsert_books fuel :
  forall s k st l s' r,
    subtreeInsert fuel s k st l = Some (s', r) -> books s' = books s.
Proof.
  induction fuel as [|fuel IH]; intros s k [st|] l s' r H; cbn in H;
    try discriminate; try (injection H as <- <-; reflexivity).
  apply bind_Some in H as (o & Eo & H).
  destruct (isLeaf o); [eapply makeNode_books; eauto|].
  apply bind_Some in H as (a & Ea & H). apply bind_Some in H as (b & Eb & H).
  apply bind_Some in H as (oa & Eoa & H).
  apply bind_Some in H as (ob & Eob & H).
  apply bind_Some in H as (ol & Eol & H).
  match type of H with (let '(_, _) := ?p in _) = _ => destruct p end.
  apply bind_Some in H as (s2 & E2 & H).
  apply bind_Some in H as (o2 & Eo2 & H).
  apply bind_Some in H as (ol2 & Eol2 & H).
  apply bind_Some in H as (s3 & E3 & H). injection H as <- <-.
  rewrite (update_books _ _ _ _ E3).
  match type of E2 with (if ?c then _ else _) = _ => destruct c end;
    apply bind_Some in E2 as ([s1 r1] & E1 & E2).
  - rewrite (setB_books _ _ _ _ E2). eapply IH; eauto.
  - rewrite (setA_books _ _ _ _ E2). eapply IH; eauto.
Qed.

Lemma subtreeRemove_books fuel s k st l s' r :
  subtreeRemove fuel s k st l = Some (s', r) -> books s' = books s.
Proof.
  unfold subtreeRemove. intros H.
  destruct (decide (Some l = st)); [now injection H as <- <-|].
  apply bind_Some in H as (ol & Eol & H).
  destruct (decide (parent ol = st)).
  - opt. subst.
    match goal with E : recycle _ _ _ = Some _ |- _ =>
      rewrite (recycle_books _ _ _ _ E) end.
    eapply update_books; eauto.
  - opt. subst. eapply replaceChild_books; eauto.
Qed.

Lemma insertS_books s k id s' :
  insertS s k id = Some s' ->
  count (treeS s' k) = count (treeS s k) + 1
  /\ count (treeS s' (other k)) = count (treeS s (other k))
  /\ leaves (treeS s' (other k)) = leaves (treeS s (other k)).
Proof.
  unfold insertS. intros H. apply bind_Some in H as (bxv & _ & H).
  apply bind_Some in H as ([s3 r] & E3 & H). injection H as <-.
  apply subtreeInsert_books in E3. unfold books in E3. cbn in E3.
  injection E3 as Eld Ed Els Es. destruct k; cbn in *; auto with lia.
Qed.

Lemma removeS_books s k id s' :
  removeS s k id = Some s' ->
  count (treeS s' k) = count (treeS s k) - 1
  /\ count (treeS s' (other k)) = count (treeS s (other k))
  /\ leaves (treeS s' (other k)) = leaves (treeS s (other k)).
Proof.
  unfold removeS. intros H. apply bind_Some in H as (l & _ & H).
  apply bind_Some in H as ([s2 r] & E2 & H).
  apply recycle_books in H. apply subtreeRemove_books in E2.
  unfold books in H, E2. injection H as Hld Hd Hls Hs.
  injection E2 as Eld Ed Els Es.
  destruct k; cbn in *; repeat split; congruence || lia.
Qed.

Lemma set_root_books s k r : books (set_root s k r) = books s.
Proof. now destruct k. Qed.

Lemma updateS_books s k l s' b :
  updateS s k l = Some (s', b) -> books s' = books s.
Proof.
  unfold updateS. intros H. apply bind_Some in H as (o & _ & H).
  apply bind_Some in H as (id & _ & H). apply bind_Some in H as (sb & _ & H).
  destruct (containsObj (box o) sb); [now injection H as <- <-|].
  apply bind_Some in H as (bxv & _ & H). apply bind_Some in H as (s1 & E1 & H).
  apply bind_Some in H as ([s2 r] & E2 & H).
  apply bind_Some in H as ([s3 r'] & E3 & H). injection H as <- <-.
  rewrite set_root_books, (subtreeInsert_books _ _ _ _ _ _ _ E3),
    (subtreeRemove_books _ _ _ _ _ _ _ E2).
  eapply update_books; eauto.
Qed.

Lemma update_allS_books k ls :
  forall s s', update_allS s k ls = Some s' -> books s' = books s.
Proof.
  induction ls as [|l ls IH]; intros s s' H; cbn in H.
  - now injection H as <-.
  - apply bind_Some in H as ([s1 b] & E1 & H).
    rewrite (IH _ _ H). eapply updateS_books; eauto.
Qed.

Lemma books_count s s' k :
  books s' = books s ->
  count (treeS s' k) = count (treeS s k)
  /\ leaves (treeS s' k) = leaves (treeS s k).
Proof. unfold books. intros [= Hld Hd Hls Hs]. now destruct k. Qed.

End BooksFacts.

(** ** The leaves across the methods *)

Module StepFacts.
Import BBTree TreeShape Structure Index TreeShapeFacts InsertFacts InvFacts
  RemoveInvFacts UpdateFacts ReachFacts PathFacts WorldFacts InvariantFacts
  RoundTripFacts QueryFacts BooksFacts.
Local Open Scope Z_scope.

(** [Leaf.update] on the leaf [L]: every leaf keeps its shape, every
    other leaf its box, and [L] gets the box of [getBB] when it is
    re-inserted. *)
Lemma updateS_leaves s k L c ot' pl pl' s' b :
  inv_k s k (Some (plug c (TLeaf L))) ot' pl pl' ->
  updateS s k L = Some (s', b) ->
  (forall l o, objs s !! l = Some o -> isLeaf o = true -> l <> L ->
     exists o', objs s' !! l = Some o' /\ isLeaf o' = true
                /\ obj o' = obj o /\ box o' = box o)
  /\ exists oL oL' id sb,
       objs s !! L = Some oL /\ objs s' !! L = Some oL'
       /\ isLeaf oL' = true /\ obj oL = Some id /\ obj oL' = Some id
       /\ shapes s !! id = Some sb
       /\ b = negb (containsObj (box oL) sb)
       /\ box oL' =
          if b then match velocityFunc s with
                    | Some f => f id sb
                    | None => sb
                    end
          else box oL.
Proof.
  intros Hinv Hupd.
  pose proof Hinv as [Hown Hoth Hpool Hpool' Hnd Hal Hlv Hlv' Hkeys Hshp].
  destruct Hown as (Ert & Hsh & Hbb). cbn [orefs oleafs] in *.
  set (t := plug c (TLeaf L)) in *.
  pose proof Hnd as Hnd4.
  apply NoDup_app4 in Hnd4 as (Hndo & Hndo' & Hndp & Hndp' & D1 & D2 & D3).
  assert (HLl : L ∈ leafs t) by (unfold t; rewrite leafs_plug; set_solver).
  destruct (shape'_leaf (objs s) t L (proj1 Hsh) HLl)
    as (oL & HoL & HlL & _).
  destruct (Hshp L oL) as (id & Hid & [sb Hsb]); [set_solver|exact HoL|].
  revert Hupd. unfold updateS. rewrite HoL. cbn [mbind option_bind].
  rewrite Hid. cbn [mbind option_bind]. rewrite Hsb. cbn [mbind option_bind].
  destruct (containsObj (box oL) sb) eqn:Hc.
  { intros [= <- <-]. split.
    - intros l o Ho Hl _. exists o. auto.
    - exists oL, oL, id, sb. rewrite Hc. cbn. auto 10. }
  unfold getBB. rewrite Hsb. cbn [mbind option_bind].
  set (bxv := match velocityFunc s with Some f => f id sb | None => sb end).
  rewrite (update_Some s L _ oL HoL). cbn [mbind option_bind].
  set (s1 := set_objs s _).
  assert (Eo1 : objs s1 = <[L := set_box oL bxv]> (objs s)) by reflexivity.
  assert (Etr1 : forall k', treeS s1 k' = treeS s k') by (now intros []).
  assert (En1 : nobjs s1 = nobjs s) by reflexivity.
  destruct (rebox_leaf s s1 L oL bxv c k pl) as (Hsh1 & Hsib1 & Hpool1); auto.
  { intros x Hx Hcx. destruct (D1 x Hcx) as (_ & ? & _). contradiction. }
  fold t in Hsh1.
  assert (Hal1 : alloc s1).
  { intros x [o Ho]. rewrite En1. apply Hal. rewrite Eo1 in Ho.
    destruct (decide (x = L)) as [-> | Hx]; [eauto|].
    rewrite lookup_insert_ne in Ho by congruence. eauto. }
  destruct (reinsert_spec k L c s1 pl)
    as (s2 & r & s3 & t' & E2 & E3 & Hsh3 & Hbb3 & Hpool3 & Hsi3 & Hfr3
          & Hal3 & Hk3 & Prefs & Pleafs); auto.
  { intros x Hx Hcx. destruct (D1 x Hcx) as (_ & ? & _). contradiction. }
  fold t in E2, Hfr3, Prefs, Pleafs.
  rewrite Etr1, Ert, E2. cbn [mbind option_bind]. rewrite E3.
  cbn [mbind option_bind]. intros [= <- <-].
  destruct (set_root_facts s3 k (Some (rt t')))
    as (Eo' & _).
  rewrite Eo'. split.
  - intros l o Ho Hl Hne. apply (Hk3 l o); [|exact Hl].
    rewrite Eo1. now rewrite lookup_insert_ne.
  - destruct (Hk3 L (set_box oL bxv)) as (o' & Ho' & Hl' & Eobj & Ebox).
    + rewrite Eo1. apply lookup_insert_eq.
    + exact HlL.
    + exists oL, o', id, sb. cbn in Eobj, Ebox. cbn.
      repeat (split; [first [reflexivity | assumption | congruence]|]).
      rewrite Hc. split; [reflexivity | exact Ebox].
Qed.

(** [insert] makes a leaf with the box of [getBB]. *)
Lemma insertS_leaf s k id ot ot' pl pl' sb s' :
  inv_k s k ot ot' pl pl' -> shapes s !! id = Some sb ->
  insertS s k id = Some s' ->
  leaf_of s' (nobjs s) id
    (match velocityFunc s with Some f => f id sb | None => sb end).
Proof.
  intros Hinv Hbx0 Hins.
  pose proof Hinv as [Hown Hoth Hpool Hpool' Hnd Hal Hlv Hlv' Hkeys Hshp].
  set (L := nobjs s).
  set (bxv := match velocityFunc s with Some f => f id sb | None => sb end).
  assert (Hget : getBB s id = Some bxv) by (unfold getBB; now rewrite Hbx0).
  set (oL := mkObj true (Some id) bxv None None None).
  set (s2 := with_leaf s k id bxv).
  destruct (with_leaf_facts s k id bxv)
    as (Eobjs & En2 & Elv2 & Ert2 & Epl2 & Ect2 & Eoth2 & Esh2 & Ev2).
  fold s2 in Eobjs, En2, Elv2, Ert2, Epl2, Ect2, Eoth2, Esh2, Ev2.
  fold L oL in Eobjs.
  rewrite (insertS_unfold s k id bxv Hget) in Hins. fold s2 L in Hins.
  assert (HLnone : objs s !! L = None).
  { destruct (objs s !! L) eqn:E; [|reflexivity].
    assert (L < nobjs s)%nat by (apply Hal; eauto). unfold L in *. lia. }
  assert (Hlt : forall x, x ∈ orefs ot ++ orefs ot' ++ pl ++ pl' ->
                          (x < nobjs s)%nat).
  { intros x Hx. eapply inv_refs_alloc; eauto. }
  assert (Hfresh : forall x, x ∈ orefs ot ++ orefs ot' ++ pl ++ pl' -> x <> L).
  { intros x Hx. specialize (Hlt x Hx). unfold L. lia. }
  assert (F2 : forall x, x <> L -> objs s2 !! x = objs s !! x).
  { intros x Hx. rewrite Eobjs. now rewrite lookup_insert_ne. }
  assert (HL2 : objs s2 !! L = Some oL).
  { rewrite Eobjs. now rewrite lookup_insert_eq. }
  assert (Hal2 : alloc s2).
  { intros x [o Ho]. rewrite En2.
    destruct (decide (x = L)) as [-> | Hx]; [unfold L; lia|].
    rewrite F2 in Ho by exact Hx.
    assert (x < nobjs s)%nat by (apply Hal; eauto). lia. }
  pose proof Hnd as Hnd4.
  apply NoDup_app4 in Hnd4 as (Hndo & Hndo' & Hndp & Hndp' & D1 & D2 & D3).
  assert (Hag : forall X, (forall x, x ∈ X -> x <> L) ->
                          agree X (objs s) (objs s2)).
  { intros X HX x Hx. apply F2, HX, Hx. }
  assert (Hpool2 : pool_ok (objs s2) (pooledNodes (treeS s2 k)) pl).
  { rewrite Epl2. eapply pool_ok_frame; [|exact Hpool].
    apply Hag. intros x Hx. apply Hfresh. set_solver. }
  destruct ot as [t|].
  - destruct Hown as (Ert & Hsh & Hbb). cbn in Hndo, D1, Hlv.
    assert (Hx_t : forall x, x ∈ refs t -> x <> L).
    { intros x Hx. apply Hfresh. cbn. set_solver. }
    assert (Hh : (height t <= fuel s2)%nat).
    { unfold fuel. rewrite En2. etrans; [apply height_le_refs|].
      etrans; [apply (bounded_length _ (nobjs s)); auto|]; [|lia].
      intros x Hx. apply Hlt. cbn. set_solver. }
    destruct (subtreeInsert_spec k L oL t (fuel s2) s2 pl None Hh)
      as (s3 & t' & N & pl2 & E3 & Hpost); auto.
    { eapply shape_frame; [|exact Hsh]. now apply Hag. }
    { eapply bbok_frame; [|exact Hbb]. now apply Hag. }
    { intros Hin. now apply (Hx_t L). }
    { intros x Hx Hin. destruct (D1 x Hin) as (_ & Hc & _). contradiction. }
    { intros Hin. apply (Hfresh L); [set_solver | reflexivity]. }
    destruct Hpost as (_ & _ & _ & _ & _ & _ & _ & _ & Hk3 & _).
    rewrite Ert2, Ert in Hins. cbn [rt] in Hins. rewrite E3 in Hins.
    cbn in Hins. injection Hins as <-.
    destruct (Hk3 L oL HL2 eq_refl) as (o' & Ho' & Hl' & Eobj & Ebox).
    exists o'. split; [now destruct k|]. auto.
  - cbn in Hown. rewrite Ert2, Hown in Hins. cbn in Hins.
    injection Hins as <-. exists oL.
    split; [destruct k; exact HL2|]. auto.
Qed.

Lemma containsObj_refl (b : BB) : containsObj b b = true.
Proof. apply containsObj_spec. lia. Qed.

Lemma getBB_expansive (f : option (Z -> BB -> BB)) (id : Z) (sb : BB) :
  expansive f ->
  containsObj (match f with Some g => g id sb | None => sb end) sb = true.
Proof. destruct f as [g|]; cbn; [auto | intros _; apply containsObj_refl]. Qed.

(** The loop of [reindexQuery] over the leaves [ls]: every leaf keeps its
    shape, the leaves outside [ls] keep their box, and the leaves of [ls]
    end with a box that holds their shape's. *)
Lemma update_allS_leaves k ls :
  forall s t ot' pl pl' s',
  inv_k s k (Some t) ot' pl pl' -> (forall l, l ∈ ls -> l ∈ leafs t) ->
  update_allS s k ls = Some s' ->
  (exists t', inv_k s' k (Some t') ot' pl pl' /\ leafs t' ≡ₚ leafs t)
  /\ leaves (treeS s' k) = leaves (treeS s k)
  /\ shapes s' = shapes s /\ velocityFunc s' = velocityFunc s
  /\ (forall l o, objs s !! l = Some o -> isLeaf o = true ->
        exists o', objs s' !! l = Some o' /\ isLeaf o' = true
                   /\ obj o' = obj o /\ (l ∉ ls -> box o' = box o))
  /\ (expansive (velocityFunc s) -> forall l, l ∈ ls -> leaf_current s' l).
Proof.
  induction ls as [|L ls IH]; intros s t ot' pl pl' s' Hinv Hls H; cbn in H.
  - injection H as <-. split; [exists t; auto|].
    split; [reflexivity|]. split; [reflexivity|]. split; [reflexivity|].
    split; [|intros _ l Hl; set_solver].
    intros l o Ho Hl. exists o. auto.
  - apply bind_Some in H as ([s1 b] & E1 & H).
    destruct (leafs_ctx t L) as (c & ->); [apply Hls; set_solver|].
    destruct (updateS_inv s k L c ot' pl pl' Hinv)
      as (s1' & b' & t1 & E1' & Hinv1 & Elv1 & Eoth1 & P1 & Esh1 & Ev1).
    rewrite E1 in E1'. injection E1' as <- <-.
    destruct (updateS_leaves s k L c ot' pl pl' s1 b Hinv E1)
      as (Hkeep1 & oL & oL1 & id & sb & HoL & HoL1 & HlL1 & Hid & Hid1 & Hsb
            & Eb & Ebox).
    destruct (IH s1 t1 ot' pl pl' s' Hinv1) as (Ht' & Elv & Esh & Ev & Hkeep & Hcur);
      [intros l Hl; rewrite P1; apply Hls; set_solver | exact H |].
    destruct Ht' as (t' & Hinv' & P').
    split; [exists t'; split; [exact Hinv' | now rewrite P', P1]|].
    split; [congruence|]. split; [congruence|]. split; [congruence|].
    split.
    + intros l o Ho Hl. destruct (decide (l = L)) as [-> | Hne].
      * assert (o = oL) as -> by congruence.
        destruct (Hkeep L oL1 HoL1 HlL1) as (o' & Ho' & Hl' & Eo' & _).
        exists o'. split; [exact Ho'|]. split; [exact Hl'|].
        split; [congruence|]. intros Hn. set_solver.
      * destruct (Hkeep1 l o Ho Hl Hne) as (o1 & Ho1 & Hl1 & Eo1 & Eb1).
        destruct (Hkeep l o1 Ho1 Hl1) as (o' & Ho' & Hl' & Eo' & Eb').
        exists o'. split; [exact Ho'|]. split; [exact Hl'|].
        split; [congruence|]. intros Hn. rewrite Eb'; [exact Eb1|].
        set_solver.
    + intros Hex l Hl.
      destruct (decide (l ∈ ls)) as [Hin | Hnin].
      { apply Hcur; [now rewrite Ev1 | exact Hin]. }
      assert (l = L) as -> by set_solver.
      destruct (Hkeep L oL1 HoL1 HlL1) as (o' & Ho' & Hl' & Eo' & Eb').
      exists id, (box o'), sb. split; [exists o'|split].
      * split; [exact Ho'|]. split; [exact Hl'|]. split; [congruence|].
        reflexivity.
      * congruence.
      * rewrite (Eb' Hnin), Ebox. destruct b.
        -- now apply getBB_expansive.
        -- destruct (containsObj (box oL) sb); [reflexivity|discriminate].
Qed.

Lemma ids_kept_refl h : ids_kept h h.
Proof. intros l o Ho Hl. exists o. auto. Qed.

Lemma leaves_kept_ids h h' : leaves_kept h h' -> ids_kept h h'.
Proof.
  intros Hk l o Ho Hl. destruct (Hk l o Ho Hl) as (o' & ? & ? & ? & _).
  exists o'. auto.
Qed.

(** [reindexObject] on the store, with the tree it leaves. *)
Lemma reindexObjectS_track s k id ot ot' pl pl' s' :
  inv_k s k ot ot' pl pl' -> reindexObjectS s k id = Some s' ->
  exists nt,
    inv_k s' k nt ot' pl pl' /\ oleafs nt ≡ₚ oleafs ot
    /\ leaves (treeS s' k) = leaves (treeS s k)
    /\ ids_kept (objs s) (objs s') /\ books s' = books s.
Proof.
  intros Hk. unfold reindexObjectS.
  destruct (leaves (treeS s k) !! id) as [l|] eqn:Hl.
  - pose proof (inv_leaves _ _ _ _ _ _ Hk id l Hl) as Hin.
    destruct ot as [t|]; [|cbn in Hin; set_solver]. cbn in Hin.
    destruct (leafs_ctx t l Hin) as (c & ->).
    destruct (updateS_inv _ k l c ot' pl pl' Hk)
      as (s1 & b & t1 & E1 & Hk1 & Elv1 & _ & P1 & _).
    rewrite E1. cbn. intros [= <-]. exists (Some t1).
    split; [exact Hk1|]. split; [exact P1|]. split; [exact Elv1|]. split.
    + destruct (updateS_leaves _ k l c ot' pl pl' s1 b Hk E1)
        as (Hkeep & oL & oL1 & i & sb & HoL & HoL1 & HlL1 & Hid & Hid1 & _).
      intros x o Ho Hlf. destruct (decide (x = l)) as [-> | Hne].
      * exists oL1. split; [exact HoL1|]. split; [exact HlL1|]. congruence.
      * destruct (Hkeep x o Ho Hlf Hne) as (o' & ? & ? & ? & _).
        exists o'. auto.
    + eapply updateS_books; eauto.
  - intros [= <-]. exists ot. split; [exact Hk|].
    split; [reflexivity|]. split; [reflexivity|].
    split; [apply ids_kept_refl | reflexivity].
Qed.

(** [reindexQuery] on the store, with the tree it leaves. *)
Lemma reindexQueryS_track s k ot ot' pl pl' s' :
  inv_k s k ot ot' pl pl' -> reindexQueryS s k = Some s' ->
  exists nt,
    inv_k s' k nt ot' pl pl' /\ oleafs nt ≡ₚ oleafs ot
    /\ leaves (treeS s' k) = leaves (treeS s k)
    /\ ids_kept (objs s) (objs s') /\ books s' = books s.
Proof.
  intros Hk. pose proof (inv_own _ _ _ _ _ _ Hk) as Hown.
  unfold reindexQueryS. destruct ot as [t|]; cbn in Hown.
  - destruct Hown as (Ert & _). rewrite Ert. intros H.
    apply bind_Some in H as (s1 & E1 & H).
    destruct (update_allS_leaves k (leaves_in_order (treeS s k)) s t ot' pl
                pl' s1 Hk)
      as ((t' & Hk' & P) & Elv & _ & _ & Hkeep & _); [|exact E1|].
    { intros l Hl. apply leaves_in_order_elem in Hl as (id & Hid).
      exact (inv_leaves _ _ _ _ _ _ Hk id l Hid). }
    destruct (root (treeS s1 k)); [|discriminate]. injection H as <-.
    exists (Some t'). split; [exact Hk'|]. split; [exact P|].
    split; [exact Elv|]. split.
    + intros x o Ho Hlf. destruct (Hkeep x o Ho Hlf) as (o' & ? & ? & ? & _).
      exists o'. auto.
    + eapply update_allS_books; eauto.
  - rewrite Hown. intros [= <-]. exists None. split; [exact Hk|].
    split; [reflexivity|]. split; [reflexivity|].
    split; [apply ids_kept_refl | reflexivity].
Qed.

Lemma moveShapeS_inv_k s k ot ot' pl pl' id bxv :
  inv_k s k ot ot' pl pl' -> inv_k (moveShapeS s id bxv) k ot ot' pl pl'.
Proof.
  intros [H1 H2 H3 H4 H5 H6 H7 H8 H9 H10].
  assert (ET : forall k', treeS (moveShapeS s id bxv) k' = treeS s k')
    by (now intros []).
  constructor; rewrite ?ET; auto.
  intros l o Hl Ho. destruct (H10 l o Hl Ho) as (i & Ei & Hs).
  exists i. split; [exact Ei|]. cbn.
  destruct (decide (i = id)) as [-> | Hne].
  - rewrite lookup_insert_eq. eauto.
  - now rewrite lookup_insert_ne.
Qed.

Lemma setVelocityFuncS_inv_k s k ot ot' pl pl' f :
  inv_k s k ot ot' pl pl' -> inv_k (setVelocityFuncS s f) k ot ot' pl pl'.
Proof.
  intros [H1 H2 H3 H4 H5 H6 H7 H8 H9 H10].
  assert (ET : forall k', treeS (setVelocityFuncS s f) k' = treeS s k')
    by (now intros []).
  constructor; rewrite ?ET; auto.
Qed.

End StepFacts.

(** ** Queries after re-indexing *)

Module CurrentFacts.
Import BBTree TreeShape Structure Index TreeShapeFacts InsertFacts InvFacts
  RemoveInvFacts UpdateFacts ReachFacts PathFacts WorldFacts InvariantFacts
  RoundTripFacts QueryFacts BooksFacts StepFacts.
Local Open Scope Z_scope.

Lemma contains_leaves w k id :
  contains w k id = true <-> is_Some (leaves (treeS (store w) k) !! id).
Proof. unfold contains. apply bool_decide_eq_true. Qed.

Lemma intersectsBB_containsObj (lb sb bb : BB) :
  containsObj lb sb = true -> intersectsBB sb bb = true ->
  intersectsBB lb bb = true.
Proof. rewrite containsObj_spec, !intersectsBB_spec. lia. Qed.

(** A shape whose leaf is current is found by every query that its box
    meets. *)
Lemma current_found w k id sb bb :
  reached w -> current (store w) k id ->
  shapes (store w) !! id = Some sb -> intersectsBB sb bb = true ->
  exists found, query w k bb = Some found /\ id ∈ found.
Proof.
  intros Hr (l & lb & sb' & Hl & Hlo & Hsb & Hc) Hsb' Hi.
  assert (sb' = sb) as -> by congruence.
  destruct (query_exact w k bb Hr) as (found & E & _ & Hf & _).
  exists found. split; [exact E|].
  apply (Hf id l lb Hl Hlo). eapply intersectsBB_containsObj; eauto.
Qed.

Lemma leaf_current_filed s k ot ot' pl pl' id l :
  inv_k s k ot ot' pl pl' -> leaves (treeS s k) !! id = Some l ->
  leaf_current s l -> current s k id.
Proof.
  intros Hinv Hl (id' & lb & sb & Hlo & Hsb & Hc).
  destruct (inv_keys _ _ _ _ _ _ Hinv k id l Hl) as (o & Ho & Hid).
  destruct Hlo as (o' & Ho' & Hlf & Hid' & Hb).
  assert (o' = o) as -> by congruence.
  assert (id' = id) as -> by congruence.
  exists l, lb, sb. split; [exact Hl|]. split; [|auto].
  exists o. auto.
Qed.

(** On the store: after the loop of [reindexQuery] the leaf of every
    shape in the index is current. *)
Lemma reindexQueryS_current s k s' :
  inv s -> expansive (velocityFunc s) -> reindexQueryS s k = Some s' ->
  leaves (treeS s' k) = leaves (treeS s k)
  /\ forall id, is_Some (leaves (treeS s' k) !! id) -> current s' k id.
Proof.
  intros Hinv Hex. destruct (inv_any _ k Hinv) as (ot & ot' & pl & pl' & Hk).
  pose proof (inv_own _ _ _ _ _ _ Hk) as Hown. unfold reindexQueryS.
  destruct ot as [t|]; cbn in Hown.
  - destruct Hown as (Ert & _). rewrite Ert. intros H.
    apply bind_Some in H as (s1 & E1 & H).
    destruct (update_allS_leaves k (leaves_in_order (treeS s k)) s t ot' pl
                pl' s1 Hk)
      as ((t' & Hk' & _) & Elv & Esh & Ev & _ & Hcur); [|exact E1|].
    { intros l Hl. apply leaves_in_order_elem in Hl as (id & Hid).
      exact (inv_leaves _ _ _ _ _ _ Hk id l Hid). }
    destruct (root (treeS s1 k)); [|discriminate]. injection H as <-.
    split; [exact Elv|]. intros id [l Hl].
    eapply leaf_current_filed; [exact Hk' | exact Hl |].
    apply (Hcur Hex). apply leaves_in_order_elem. exists id. congruence.
  - rewrite Hown. intros [= <-]. split; [reflexivity|]. intros id [l Hl].
    pose proof (inv_leaves _ _ _ _ _ _ Hk id l Hl) as Hin. cbn in Hin.
    set_solver.
Qed.

(** [reindexQuery] returns and leaves every shape of the index with a
    leaf whose box holds the box the shape has now, so that a query
    passes every shape of the index to [func] whose box meets the box
    asked for; the shapes in the index are the same as before.  The box
    that [getBB] computes is taken to hold the shape's box. *)
Theorem reindexQuery_finds (w : World) (k : which) :
  reached w -> expansive (velocityFunc (store w)) ->
  exists w',
    reindexQuery w k = Some w'
    /\ (forall id, contains w' k id = contains w k id)
    /\ (forall id, contains w' k id = true -> current (store w') k id)
    /\ (forall id sb bb,
          contains w' k id = true -> shapes (store w') !! id = Some sb ->
          intersectsBB sb bb = true ->
          exists found, query w' k bb = Some found /\ id ∈ found).
Proof.
  intros Hr Hex. pose proof (reached_inv w Hr) as Hinv.
  destruct (call_completes w (ReindexQuery k) Hinv I) as [w' E]. cbn in E.
  exists w'. split; [exact E|].
  pose proof (fmap_Some_store _ _ _ _ (store_reindexQuery w k) E) as ES.
  destruct (reindexQueryS_current _ k _ Hinv Hex ES) as [Elv Hcur].
  assert (Hr' : reached w') by (eapply reached_reindexQuery; eauto).
  split; [|split].
  - intros id. unfold contains. now rewrite Elv.
  - intros id Hc. apply Hcur. now apply contains_leaves.
  - intros id sb bb Hc Hsb Hi. eapply current_found; eauto.
    apply Hcur. now apply contains_leaves.
Qed.

Lemma sample_expansive : expansive (velocityFunc (store SampleTree.world)).
Proof. vm_compute. exact I. Qed.

Lemma reindexQuery_finds_witness :
  exists w',
    reindexQuery SampleTree.world Dynamic = Some w'
    /\ (forall id, contains w' Dynamic id = contains SampleTree.world Dynamic id)
    /\ (forall id, contains w' Dynamic id = true ->
                   current (store w') Dynamic id)
    /\ (forall id sb bb,
          contains w' Dynamic id = true ->
          shapes (store w') !! id = Some sb ->
          intersectsBB sb bb = true ->
          exists found, query w' Dynamic bb = Some found /\ id ∈ found).
Proof.
  apply (reindexQuery_finds SampleTree.world Dynamic sample_reached
           sample_expansive).
Defined.

(** [insert(obj)] returns; afterwards the shape is in the index with a
    current leaf, every query whose box meets the shape's box passes it to
    [func], and [contains] is as before for the other shapes.  The box
    that [getBB] computes is taken to hold the shape's box. *)
Theorem insert_found (w : World) (k : which) (id : Z) (sb : BB) :
  reached w -> expansive (velocityFunc (store w)) ->
  shapes (store w) !! id = Some sb ->
  exists w',
    insert w k id = Some w'
    /\ contains w' k id = true
    /\ current (store w') k id
    /\ (forall bb, intersectsBB sb bb = true ->
          exists found, query w' k bb = Some found /\ id ∈ found)
    /\ (forall id', id' <> id -> contains w' k id' = contains w k id').
Proof.
  intros Hr Hex Hsb. pose proof (reached_inv w Hr) as Hinv.
  destruct (inv_any _ k Hinv) as (ot & ot' & pl & pl' & Hk).
  destruct (insertS_inv _ k id ot ot' pl pl' Hk (mk_is_Some _ _ Hsb))
    as (s' & t' & pl2 & ES & Hk' & Elv & _ & _ & Esh & _).
  pose proof (insertS_leaf _ k id ot ot' pl pl' sb s' Hk Hsb ES) as Hleaf.
  pose proof ES as EW. rewrite <- store_insert in EW.
  apply fmap_is_Some in EW as (w' & E & <-).
  assert (Hr' : reached w') by (eapply reached_insert; eauto).
  assert (Hcur : current (store w') k id).
  { eexists _, _, sb. split; [rewrite Elv; apply lookup_insert_eq|].
    split; [exact Hleaf|]. split; [congruence|].
    now apply getBB_expansive. }
  exists w'. split; [exact E|]. split; [|split; [exact Hcur|split]].
  - apply contains_leaves. rewrite Elv, lookup_insert_eq. eauto.
  - intros bb Hi. apply (current_found w' k id sb bb Hr' Hcur); [|exact Hi].
    congruence.
  - intros id' Hne. unfold contains. rewrite Elv.
    now rewrite lookup_insert_ne by congruence.
Qed.

Lemma sample_shape_4 :
  shapes (store (moveShape SampleTree.world 4 (mkBB 1 1 2 2))) !! 4
  = Some (mkBB 1 1 2 2).
Proof. vm_compute. reflexivity. Qed.

Lemma sample_moved_reached :
  reached (moveShape SampleTree.world 4 (mkBB 1 1 2 2)).
Proof. apply reached_move, sample_reached. Qed.

Lemma sample_moved_expansive :
  expansive (velocityFunc (store (moveShape SampleTree.world 4 (mkBB 1 1 2 2)))).
Proof. vm_compute. exact I. Qed.

Lemma insert_found_witness :
  let w := moveShape SampleTree.world 4 (mkBB 1 1 2 2) in
  exists w',
    insert w Dynamic 4 = Some w'
    /\ contains w' Dynamic 4 = true
    /\ current (store w') Dynamic 4
    /\ (forall bb, intersectsBB (mkBB 1 1 2 2) bb = true ->
          exists found, query w' Dynamic bb = Some found /\ 4 ∈ found)
    /\ (forall id', id' <> 4 ->
          contains w' Dynamic id' = contains w Dynamic id').
Proof.
  apply (insert_found (moveShape SampleTree.world 4 (mkBB 1 1 2 2)) Dynamic 4
           (mkBB 1 1 2 2) sample_moved_reached sample_moved_expansive
           sample_shape_4).
Defined.

(** [reindexObject(obj)] for a shape of the index returns and leaves the
    shape with a current leaf: every query whose box meets the box the
    shape has now passes it to [func].  The shapes in the index stay the
    same.  The box that [getBB] computes is taken to hold the shape's
    box. *)
Theorem reindexObject_finds (w : World) (k : which) (id : Z) :
  reached w -> expansive (velocityFunc (store w)) ->
  contains w k id = true ->
  exists w',
    reindexObject w k id = Some w'
    /\ (forall id', contains w' k id' = contains w k id')
    /\ current (store w') k id
    /\ (forall sb bb,
          shapes (store w') !! id = Some sb -> intersectsBB sb bb = true ->
          exists found, query w' k bb = Some found /\ id ∈ found).
Proof.
  intros Hr Hex Hc. pose proof (reached_inv w Hr) as Hinv.
  apply contains_leaves in Hc as [l Hl].
  destruct (inv_any _ k Hinv) as (ot & ot' & pl & pl' & Hk).
  pose proof (inv_leaves _ _ _ _ _ _ Hk id l Hl) as Hin.
  destruct ot as [t|]; [|cbn in Hin; set_solver]. cbn in Hin.
  destruct (leafs_ctx t l Hin) as (c & ->).
  destruct (updateS_inv _ k l c ot' pl pl' Hk)
    as (s1 & b & t1 & E1 & Hk1 & Elv1 & _ & _ & Esh1 & Ev1).
  destruct (updateS_leaves _ k l c ot' pl pl' s1 b Hk E1)
    as (_ & oL & oL1 & i & sb & HoL & HoL1 & HlL1 & Hid & Hid1 & Hsb & Eb
          & Ebox).
  assert (ES : reindexObjectS (store w) k id = Some s1).
  { unfold reindexObjectS. rewrite Hl, E1. reflexivity. }
  pose proof ES as EW. rewrite <- store_reindexObject in EW.
  apply fmap_is_Some in EW as (w' & E & <-).
  assert (Hr' : reached w') by (eapply reached_reindexObject; eauto).
  assert (Hcur : current (store w') k id).
  { eapply leaf_current_filed; [exact Hk1 | rewrite Elv1; exact Hl |].
    exists i, (box oL1), sb. split; [exists oL1; auto|].
    split; [congruence|]. rewrite Ebox. destruct b.
    - now apply getBB_expansive.
    - destruct (containsObj (box oL) sb); [reflexivity|discriminate]. }
  exists w'. split; [exact E|]. split; [|split; [exact Hcur|]].
  - intros id'. unfold contains. now rewrite Elv1.
  - intros sb' bb Hsb' Hi. eapply current_found; eauto.
Qed.

Lemma sample_contains : contains SampleTree.world Dynamic 3 = true.
Proof. vm_compute. reflexivity. Qed.

Lemma reindexObject_finds_witness :
  exists w',
    reindexObject SampleTree.world Dynamic 3 = Some w'
    /\ (forall id',
          contains w' Dynamic id' = contains SampleTree.world Dynamic id')
    /\ current (store w') Dynamic 3
    /\ (forall sb bb,
          shapes (store w') !! 3 = Some sb -> intersectsBB sb bb = true ->
          exists found, query w' Dynamic bb = Some found /\ 3 ∈ found).
Proof.
  apply (reindexObject_finds SampleTree.world Dynamic 3 sample_reached
           sample_expansive sample_contains).
Defined.

End CurrentFacts.

(** ** The number of leaves *)

Module CountedFacts.
Import BBTree TreeShape Structure Index TreeShapeFacts InsertFacts InvFacts
  RemoveInvFacts UpdateFacts ReachFacts PathFacts WorldFacts InvariantFacts
  RoundTripFacts QueryFacts BooksFacts StepFacts.
Local Open Scope Z_scope.

Lemma subtree_leaves_tree (h : gmap ref Obj) (t : tree) :
  forall fuel, shape' h t -> (height t <= fuel)%nat ->
  subtree_leaves fuel h (rt t) = Some (leafs t).
Proof.
  induction t as [r | r a IHa b IHb]; intros fuel Hs Hh;
    (destruct fuel as [|fuel]; [cbn in Hh; lia|]); cbn in Hh.
  - destruct Hs as (o & Ho & Hl & _). cbn. rewrite Ho. cbn. now rewrite Hl.
  - destruct Hs as ((o & Ho & Hl & HA & HB) & _ & _ & Hsa & Hsb).
    cbn. rewrite Ho. cbn. rewrite Hl, HA. cbn. rewrite HB. cbn.
    rewrite (IHa fuel Hsa) by lia. cbn.
    rewrite (IHb fuel Hsb) by lia. reflexivity.
Qed.

Lemma tree_leaves_inv s k ot ot' pl pl' :
  inv_k s k ot ot' pl pl' -> tree_leaves s k = Some (oleafs ot).
Proof.
  intros Hk. pose proof (inv_own _ _ _ _ _ _ Hk) as Hown. unfold tree_leaves.
  destruct ot as [t|]; cbn in Hown; [|now rewrite Hown].
  destruct Hown as (-> & [Hs _] & _). apply subtree_leaves_tree; [exact Hs|].
  unfold fuel. etrans; [apply height_le_refs|].
  etrans; [apply (bounded_length _ (nobjs s))|lia].
  - pose proof (inv_nodup _ _ _ _ _ _ Hk) as Hnd.
    apply NoDup_app4 in Hnd as (Hnd & _). exact Hnd.
  - intros x Hx. eapply inv_refs_alloc; [exact Hk|]. cbn. set_solver.
Qed.

Lemma leafs_sublist (t : tree) : leafs t `sublist_of` refs t.
Proof.
  induction t as [r | r a IHa b IHb]; cbn; [reflexivity|].
  apply sublist_cons. now apply sublist_app.
Qed.

Lemma NoDup_leafs (t : tree) : NoDup (refs t) -> NoDup (leafs t).
Proof. intros H. eapply sublist_NoDup; [exact H | apply leafs_sublist]. Qed.

Lemma counted_any s k :
  counted_inv s ->
  exists ot ot' pl pl',
    inv_k s k ot ot' pl pl' /\ counted s k ot /\ counted s (other k) ot'.
Proof.
  intros (td & ts & pd & ps & H & Hd & Hs). destruct k; [eauto 8|].
  apply inv_k_swap in H. exists ts, td, ps, pd. auto.
Qed.

Lemma counted_of_k s k ot ot' pl pl' :
  inv_k s k ot ot' pl pl' -> counted s k ot -> counted s (other k) ot' ->
  counted_inv s.
Proof.
  intros H Hc Hc'. destruct k; [unfold counted_inv; eauto 8|].
  apply inv_k_swap in H. exists ot', ot, pl', pl. auto.
Qed.

Lemma counted_same s s' k ot nt :
  counted s k ot -> count (treeS s' k) = count (treeS s k) ->
  oleafs nt ≡ₚ oleafs ot -> counted s' k nt.
Proof. unfold counted. intros H E P. now rewrite E, P. Qed.

(** In every store that the methods lead to, [count] is the number of
    leaves of the tree. *)
Lemma reachable_counted s : reachable s -> counted_inv s.
Proof.
  induction 1 as [shapes | s k id s' _ IH E | s k id s' _ IH E
                 | s id bxv _ IH | s f _ IH | s k id s' _ IH E
                 | s k s' _ IH E].
  - exists None, None, [], []. split; [|split; reflexivity].
    destruct (inv_empty shapes) as (td & ts & pd & ps & Hk).
    pose proof (inv_own _ _ _ _ _ _ Hk) as Hd.
    pose proof (inv_other _ _ _ _ _ _ Hk) as Hs.
    destruct td as [t|]; [destruct Hd as (Hd & _); discriminate Hd|].
    destruct ts as [t|]; [destruct Hs as (Hs & _); discriminate Hs|].
    pose proof (inv_pool _ _ _ _ _ _ Hk) as Hp.
    pose proof (inv_pool' _ _ _ _ _ _ Hk) as Hp'.
    destruct pd as [|x pd]; [|cbn in Hp; destruct Hp as (Hp & _); discriminate Hp].
    destruct ps as [|x ps]; [|cbn in Hp'; destruct Hp' as (Hp' & _); discriminate Hp'].
    exact Hk.
  - destruct (counted_any s k IH) as (ot & ot' & pl & pl' & Hk & Hc & Hc').
    destruct (insertS_inv s k id ot ot' pl pl' Hk (insertS_shape _ _ _ _ E))
      as (s2 & t' & pl2 & E2 & Hk2 & _ & _ & Hins & _).
    assert (s2 = s') as -> by congruence.
    destruct (insertS_books _ _ _ _ E) as (Ek & Eo & _).
    apply (counted_of_k s' k (Some t') ot' pl2 pl' Hk2).
    + unfold counted in *. rewrite Ek, Hc.
      assert (P : leafs t' ≡ₚ nobjs s :: oleafs ot).
      { destruct ot as [t|]; cbn in Hins.
        - destruct Hins as (N & Ht & _). now apply tins_leafs in Ht.
        - destruct Hins as [-> _]. reflexivity. }
      cbn [oleafs]. rewrite P. cbn [length]. lia.
    + unfold counted in *. now rewrite Eo.
  - destruct (counted_any s k IH) as (ot & ot' & pl & pl' & Hk & Hc & Hc').
    destruct (removeS_leaf _ _ _ _ E) as [L HL].
    pose proof (inv_leaves _ _ _ _ _ _ Hk id L HL) as Hin.
    destruct ot as [t|]; [|cbn in Hin; set_solver]. cbn in Hin.
    destruct (leafs_ctx t L Hin) as (c & ->).
    destruct (removeS_inv s k id L c ot' pl pl' Hk HL)
      as (s2 & E2 & Hk2 & _).
    assert (s2 = s') as -> by congruence.
    destruct (removeS_books _ _ _ _ E) as (Ek & Eo & _).
    apply (counted_of_k s' k (tdel c) ot' _ pl' Hk2).
    + unfold counted in *. rewrite Ek, Hc. cbn [oleafs].
      rewrite (tdel_leafs_perm c L). cbn [length]. lia.
    + unfold counted in *. now rewrite Eo.
  - destruct IH as (td & ts & pd & ps & Hk & Hd & Hs).
    exists td, ts, pd, ps. split; [now apply moveShapeS_inv_k|]. auto.
  - destruct IH as (td & ts & pd & ps & Hk & Hd & Hs).
    exists td, ts, pd, ps. split; [now apply setVelocityFuncS_inv_k|]. auto.
  - destruct (counted_any s k IH) as (ot & ot' & pl & pl' & Hk & Hc & Hc').
    destruct (reindexObjectS_track s k id ot ot' pl pl' s' Hk E)
      as (nt & Hk' & P & _ & _ & Ec).
    apply (counted_of_k s' k nt ot' pl pl' Hk').
    + eapply counted_same; [exact Hc | exact (proj1 (books_count _ _ k Ec)) | exact P].
    + eapply counted_same; [exact Hc' | exact (proj1 (books_count _ _ (other k) Ec)) |
                                 reflexivity].
  - destruct (counted_any s k IH) as (ot & ot' & pl & pl' & Hk & Hc & Hc').
    destruct (reindexQueryS_track s k ot ot' pl pl' s' Hk E)
      as (nt & Hk' & P & _ & _ & Ec).
    apply (counted_of_k s' k nt ot' pl pl' Hk').
    + eapply counted_same; [exact Hc | exact (proj1 (books_count _ _ k Ec)) | exact P].
    + eapply counted_same; [exact Hc' | exact (proj1 (books_count _ _ (other k) Ec)) |
                                 reflexivity].
Qed.

(** [count] is the number of leaves that hang in the tree: in every state
    that the methods lead to, the leaves below the root are found, there
    are [count] of them, no leaf hangs in the tree twice, and they are
    the leaves that a path from the root leads to. *)
Theorem count_leaves (w : World) (k : which) :
  reached w ->
  exists ls,
    tree_leaves (store w) k = Some ls
    /\ count (treeS (store w) k) = Z.of_nat (length ls)
    /\ NoDup ls
    /\ forall l,
         l ∈ ls <->
         hangs (store w) k l
         /\ exists o, objs (store w) !! l = Some o /\ isLeaf o = true.
Proof.
  intros Hr. apply reached_reachable, reachable_counted in Hr.
  destruct (counted_any _ k Hr) as (ot & ot' & pl & pl' & Hk & Hc & _).
  exists (oleafs ot). split; [eapply tree_leaves_inv; eauto|].
  split; [exact Hc|]. split; [|apply (hangs_leafs _ _ _ _ _ _ Hk)].
  pose proof (inv_nodup _ _ _ _ _ _ Hk) as Hnd.
  apply NoDup_app4 in Hnd as (Hnd & _).
  destruct ot as [t|]; cbn in *; [|constructor].
  now apply NoDup_leafs.
Qed.

Lemma count_leaves_witness :
  exists ls,
    tree_leaves (store SampleTree.world) Static = Some ls
    /\ count (treeS (store SampleTree.world) Static) = Z.of_nat (length ls)
    /\ NoDup ls
    /\ forall l,
         l ∈ ls <->
         hangs (store SampleTree.world) Static l
         /\ exists o,
              objs (store SampleTree.world) !! l = Some o /\ isLeaf o = true.
Proof. apply (count_leaves SampleTree.world Static sample_reached). Defined.

End CountedFacts.

(** ** Shapes inserted once *)

Module FiledFacts.
Import BBTree TreeShape Structure Index TreeShapeFacts InsertFacts InvFacts
  RemoveInvFacts UpdateFacts ReachFacts PathFacts WorldFacts InvariantFacts
  RoundTripFacts QueryFacts BooksFacts StepFacts CurrentFacts CountedFacts.
Local Open Scope Z_scope.

Lemma reached_fresh_reached w : reached_fresh w -> reached w.
Proof.
  induction 1; [constructor | eapply reached_insert | eapply reached_remove
               | apply reached_move | apply reached_velocity
               | eapply reached_reindexObject | eapply reached_reindexQuery];
    eauto.
Qed.

Lemma filed_any s k :
  filed_inv s ->
  exists ot ot' pl pl',
    inv_k s k ot ot' pl pl' /\ filed_in s k ot /\ filed_in s (other k) ot'.
Proof.
  intros (td & ts & pd & ps & H & Hd & Hs). destruct k; [eauto 8|].
  apply inv_k_swap in H. exists ts, td, ps, pd. auto.
Qed.

Lemma filed_of_k s k ot ot' pl pl' :
  inv_k s k ot ot' pl pl' -> filed_in s k ot -> filed_in s (other k) ot' ->
  filed_inv s.
Proof.
  intros H Hc Hc'. destruct k; [unfold filed_inv; eauto 8|].
  apply inv_k_swap in H. exists ot', ot, pl', pl. auto.
Qed.

Lemma oleafs_leaf s k ot ot' pl pl' l :
  inv_k s k ot ot' pl pl' -> l ∈ oleafs ot ++ oleafs ot' ->
  exists o, objs s !! l = Some o /\ isLeaf o = true.
Proof.
  intros Hk Hl. apply elem_of_app in Hl as [Hl | Hl].
  - pose proof (inv_own _ _ _ _ _ _ Hk) as Hown.
    destruct ot as [t|]; [|cbn in Hl; set_solver].
    destruct Hown as (_ & [Hs _] & _).
    destruct (shape'_leaf _ _ _ Hs Hl) as (o & ? & ? & _). eauto.
  - pose proof (inv_other _ _ _ _ _ _ Hk) as Hown.
    destruct ot' as [t|]; [|cbn in Hl; set_solver].
    destruct Hown as (_ & [Hs _] & _).
    destruct (shape'_leaf _ _ _ Hs Hl) as (o & ? & ? & _). eauto.
Qed.

(** The filing of the leaves of a tree across a step that keeps the
    shapes of the leaves and the entries of the leaves that stay. *)
Lemma filed_in_step s s' k ot nt :
  (forall l, l ∈ oleafs nt -> l ∈ oleafs ot) ->
  (forall l, l ∈ oleafs ot ->
     exists o, objs s !! l = Some o /\ isLeaf o = true) ->
  ids_kept (objs s) (objs s') ->
  (forall l i, l ∈ oleafs nt -> leaves (treeS s k) !! i = Some l ->
               leaves (treeS s' k) !! i = Some l) ->
  filed_in s k ot -> filed_in s' k nt.
Proof.
  intros Hsub Hobj Hkept Hlv Hf l o i Hl Ho Hi.
  destruct (Hobj l (Hsub l Hl)) as (o0 & Ho0 & Hl0).
  destruct (Hkept l o0 Ho0 Hl0) as (o' & Ho' & _ & Eo).
  assert (o' = o) as -> by congruence.
  apply Hlv; [exact Hl|]. apply (Hf l o0 i); [auto | exact Ho0 | congruence].
Qed.

Lemma filed_in_same s s' k kk ot nt ot0 ot0' pl pl' :
  inv_k s k ot0 ot0' pl pl' ->
  (forall l, l ∈ oleafs ot -> l ∈ oleafs ot0 ++ oleafs ot0') ->
  oleafs nt ≡ₚ oleafs ot ->
  ids_kept (objs s) (objs s') ->
  leaves (treeS s' kk) = leaves (treeS s kk) ->
  filed_in s kk ot -> filed_in s' kk nt.
Proof.
  intros Hk Hin P Hkept Elv. apply filed_in_step; auto.
  - intros l Hl. now rewrite <- P.
  - intros l Hl. eapply oleafs_leaf; eauto.
  - intros l i _. now rewrite Elv.
Qed.

Lemma contains_false w k id :
  contains w k id = false <-> leaves (treeS (store w) k) !! id = None.
Proof.
  unfold contains. rewrite bool_decide_eq_false, <- eq_None_not_Some.
  reflexivity.
Qed.

(** While every shape is inserted once, every leaf of a tree is the one
    filed under its shape. *)
Lemma reached_fresh_filed w : reached_fresh w -> filed_inv (store w).
Proof.
  induction 1 as [shapes | w k id w' Hw IH Hc E | w k id w' Hw IH E
                 | w id bxv Hw IH | w f Hw IH | w k id w' Hw IH E
                 | w k w' Hw IH E].
  - destruct (inv_empty shapes) as (td & ts & pd & ps & Hk).
    pose proof (inv_own _ _ _ _ _ _ Hk) as Hd.
    pose proof (inv_other _ _ _ _ _ _ Hk) as Hs.
    destruct td as [t|]; [destruct Hd as (Hd & _); discriminate Hd|].
    destruct ts as [t|]; [destruct Hs as (Hs & _); discriminate Hs|].
    exists None, None, pd, ps. split; [exact Hk|].
    split; intros l o i Hl; cbn in Hl; set_solver.
  - pose proof (fmap_Some_store _ _ _ _ (store_insert w k id) E) as ES.
    apply contains_false in Hc.
    destruct (filed_any _ k IH) as (ot & ot' & pl & pl' & Hk & Hf & Hf').
    destruct (insertS_inv _ k id ot ot' pl pl' Hk (insertS_shape _ _ _ _ ES))
      as (s2 & t' & pl2 & E2 & Hk2 & Elv & Hkept & Hins & _).
    assert (s2 = store w') as -> by congruence.
    destruct (insertS_books _ _ _ _ ES) as (_ & _ & Elo).
    assert (P : leafs t' ≡ₚ nobjs (store w) :: oleafs ot).
    { destruct ot as [t|]; cbn in Hins.
      - destruct Hins as (N & Ht & _). now apply tins_leafs in Ht.
      - destruct Hins as [-> _]. reflexivity. }
    apply (filed_of_k _ k (Some t') ot' pl2 pl' Hk2).
    + intros l o i Hl Ho Hi. cbn [oleafs] in Hl. rewrite P in Hl.
      apply elem_of_cons in Hl as [-> | Hl].
      * destruct (inv_keys _ _ _ _ _ _ Hk2 k id (nobjs (store w)))
          as (o0 & Ho0 & Hi0); [rewrite Elv; apply lookup_insert_eq|].
        assert (i = id) as -> by congruence.
        rewrite Elv. apply lookup_insert_eq.
      * destruct (oleafs_leaf _ _ _ _ _ _ l Hk) as (o0 & Ho0 & Hl0);
          [set_solver|].
        destruct (Hkept l o0 Ho0 Hl0) as (o' & Ho' & _ & Eo & _).
        assert (o' = o) as -> by congruence.
        assert (Hfl : leaves (treeS (store w) k) !! i = Some l)
          by (apply (Hf l o0 i); [exact Hl | exact Ho0 | congruence]).
        rewrite Elv. rewrite lookup_insert_ne; [exact Hfl|]. congruence.
    + apply (filed_in_same (store w) (store w') k (other k) ot' ot' ot ot' pl pl' Hk);
        [intros l Hl; set_solver | reflexivity | now apply leaves_kept_ids
        | exact Elo | exact Hf'].
  - pose proof (fmap_Some_store _ _ _ _ (store_remove w k id) E) as ES.
    destruct (filed_any _ k IH) as (ot & ot' & pl & pl' & Hk & Hf & Hf').
    destruct (removeS_leaf _ _ _ _ ES) as [L HL].
    pose proof (inv_leaves _ _ _ _ _ _ Hk id L HL) as Hin.
    destruct ot as [t|]; [|cbn in Hin; set_solver]. cbn in Hin.
    destruct (leafs_ctx t L Hin) as (c & ->).
    destruct (removeS_inv _ k id L c ot' pl pl' Hk HL)
      as (s2 & E2 & Hk2 & Elv & Hkept & _).
    assert (s2 = store w') as -> by congruence.
    destruct (removeS_books _ _ _ _ ES) as (_ & _ & Elo).
    pose proof (tdel_leafs_perm c L) as P.
    assert (Hnd : NoDup (leafs (plug c (TLeaf L)))).
    { pose proof (inv_nodup _ _ _ _ _ _ Hk) as Hnd.
      apply NoDup_app4 in Hnd as (Hnd & _). now apply NoDup_leafs. }
    rewrite P in Hnd. apply NoDup_cons in Hnd as [HnL _].
    apply (filed_of_k _ k (tdel c) ot' _ pl' Hk2).
    + apply (filed_in_step (store w) (store w') k
               (Some (plug c (TLeaf L))) (tdel c));
        [| | now apply leaves_kept_ids | | exact Hf].
      * intros l Hl. cbn [oleafs]. rewrite P. set_solver.
      * intros l Hl. eapply oleafs_leaf; [exact Hk|]. set_solver.
      * intros l i Hl Hli. rewrite Elv. rewrite lookup_delete_ne; [exact Hli|].
        intros <-. rewrite HL in Hli. injection Hli as <-. contradiction.
    + apply (filed_in_same (store w) (store w') k (other k) ot' ot' _ ot' pl pl' Hk);
        [intros l Hl; set_solver | reflexivity | now apply leaves_kept_ids
        | exact Elo | exact Hf'].
  - destruct IH as (td & ts & pd & ps & Hk & Hd & Hs).
    exists td, ts, pd, ps. split; [now apply moveShapeS_inv_k|]. auto.
  - destruct IH as (td & ts & pd & ps & Hk & Hd & Hs).
    exists td, ts, pd, ps. split; [now apply setVelocityFuncS_inv_k|]. auto.
  - pose proof (fmap_Some_store _ _ _ _ (store_reindexObject w k id) E) as ES.
    destruct (filed_any _ k IH) as (ot & ot' & pl & pl' & Hk & Hf & Hf').
    destruct (reindexObjectS_track _ k id ot ot' pl pl' _ Hk ES)
      as (nt & Hk' & P & Elv & Hkept & Eb).
    apply (filed_of_k _ k nt ot' pl pl' Hk').
    + apply (filed_in_same (store w) (store w') k k ot nt ot ot' pl pl' Hk);
        [intros l Hl; set_solver | exact P | exact Hkept | exact Elv
        | exact Hf].
    + apply (filed_in_same (store w) (store w') k (other k) ot' ot' ot ot' pl pl' Hk);
        [intros l Hl; set_solver | reflexivity | exact Hkept
        | exact (proj2 (books_count _ _ (other k) Eb)) | exact Hf'].
  - pose proof (fmap_Some_store _ _ _ _ (store_reindexQuery w k) E) as ES.
    destruct (filed_any _ k IH) as (ot & ot' & pl & pl' & Hk & Hf & Hf').
    destruct (reindexQueryS_track _ k ot ot' pl pl' _ Hk ES)
      as (nt & Hk' & P & Elv & Hkept & Eb).
    apply (filed_of_k _ k nt ot' pl pl' Hk').
    + apply (filed_in_same (store w) (store w') k k ot nt ot ot' pl pl' Hk);
        [intros l Hl; set_solver | exact P | exact Hkept | exact Elv
        | exact Hf].
    + apply (filed_in_same (store w) (store w') k (other k) ot' ot' ot ot' pl pl' Hk);
        [intros l Hl; set_solver | reflexivity | exact Hkept
        | exact (proj2 (books_count _ _ (other k) Eb)) | exact Hf'].
Qed.

Lemma filed_heap s k ot ot' pl pl' :
  inv_k s k ot ot' pl pl' -> filed_in s k ot -> filed s k.
Proof.
  intros Hk Hf l id b Hh (o & Ho & Hl & Hid & _).
  apply (Hf l o id); [|exact Ho|exact Hid].
  apply (hangs_leafs _ _ _ _ _ _ Hk l). eauto.
Qed.

(** The trees that the invariant speaks of are the ones in the store. *)
Lemma inv_k_leafs s k ot1 ot1' pl1 pl1' ot2 ot2' pl2 pl2' :
  inv_k s k ot1 ot1' pl1 pl1' -> inv_k s k ot2 ot2' pl2 pl2' ->
  oleafs ot1 = oleafs ot2.
Proof.
  intros H1 H2. apply tree_leaves_inv in H1, H2. congruence.
Qed.

Lemma tquery_NoDup h t bb :
  shape' h t -> NoDup (leafs t) ->
  (forall l1 l2 o1 o2 i,
      l1 ∈ leafs t -> l2 ∈ leafs t -> h !! l1 = Some o1 -> h !! l2 = Some o2 ->
      obj o1 = Some i -> obj o2 = Some i -> l1 = l2) ->
  NoDup (tquery h t bb).
Proof.
  induction t as [r | r a IHa b IHb]; cbn; intros Hs Hnd Hinj.
  - destruct (intersectsBB (bx h r) bb); [|constructor].
    destruct (oid h r); [apply NoDup_singleton | constructor].
  - destruct Hs as (_ & _ & _ & Hsa & Hsb).
    destruct (intersectsBB (bx h r) bb); [|constructor].
    apply NoDup_app in Hnd as (Hna & Hdis & Hnb).
    apply NoDup_app. split; [|split].
    + apply IHa; auto. intros l1 l2 o1 o2 i H1 H2. apply Hinj; set_solver.
    + intros i Hia Hib.
      destruct (tquery_sound _ _ _ _ Hsa Hia) as (la & oa & Hla & Hoa & _ & Hida & _).
      destruct (tquery_sound _ _ _ _ Hsb Hib) as (lb & ob & Hlb & Hob & _ & Hidb & _).
      assert (la = lb) by (eapply (Hinj la lb oa ob i); eauto; set_solver).
      subst lb. exact (Hdis la Hla Hlb).
    + apply IHb; auto. intros l1 l2 o1 o2 i H1 H2. apply Hinj; set_solver.
Qed.

(** With every leaf filed, the leaves of the tree are the leaves filed,
    each once. *)
Lemma filed_size s k ot ot' pl pl' :
  inv_k s k ot ot' pl pl' -> filed_in s k ot ->
  length (oleafs ot) = size (leaves (treeS s k)).
Proof.
  intros Hk Hf. rewrite <- length_map_to_list.
  rewrite <- (length_fmap snd (map_to_list (leaves (treeS s k)))).
  apply Permutation_length. apply NoDup_Permutation.
  - pose proof (inv_nodup _ _ _ _ _ _ Hk) as Hnd.
    apply NoDup_app4 in Hnd as (Hnd & _).
    destruct ot as [t|]; cbn in *; [now apply NoDup_leafs | constructor].
  - apply NoDup_fmap_2_strong; [|apply NoDup_map_to_list].
    intros [i1 l1] [i2 l2] H1 H2 E. cbn in E. subst l2.
    apply elem_of_map_to_list in H1, H2.
    destruct (inv_keys _ _ _ _ _ _ Hk k i1 l1 H1) as (o1 & Ho1 & Hi1).
    destruct (inv_keys _ _ _ _ _ _ Hk k i2 l1 H2) as (o2 & Ho2 & Hi2).
    congruence.
  - intros l. rewrite list_elem_of_fmap. split.
    + intros Hl.
      destruct (oleafs_leaf _ _ _ _ _ _ l Hk) as (o & Ho & Hlf); [set_solver|].
      destruct (inv_shapes _ _ _ _ _ _ Hk l o) as (i & Hi & _);
        [set_solver | exact Ho |].
      exists (i, l). split; [reflexivity|]. apply elem_of_map_to_list.
      apply (Hf l o i Hl Ho Hi).
    + intros ([i l'] & -> & Hin). cbn. apply elem_of_map_to_list in Hin.
      exact (inv_leaves _ _ _ _ _ _ Hk i l' Hin).
Qed.

(** While no shape is inserted into an index that it is in: every leaf
    that hangs in the tree is the one filed under its shape, [count] is
    the number of shapes in the index, and a query passes a shape to
    [func] at most once and only if the shape is in the index. *)
Theorem fresh_index (w : World) (k : which) :
  reached_fresh w ->
  filed (store w) k
  /\ count (treeS (store w) k)
     = Z.of_nat (size (leaves (treeS (store w) k)))
  /\ forall bb,
       exists found,
         query w k bb = Some found /\ NoDup found
         /\ forall id, id ∈ found -> contains w k id = true.
Proof.
  intros Hf. pose proof (reached_fresh_reached w Hf) as Hr.
  apply reached_fresh_filed in Hf.
  destruct (filed_any _ k Hf) as (ot & ot' & pl & pl' & Hk & Hfk & _).
  pose proof (filed_heap _ _ _ _ _ _ Hk Hfk) as Hfiled.
  split; [exact Hfiled|]. split.
  - apply reached_reachable, reachable_counted in Hr.
    destruct (counted_any _ k Hr) as (ot2 & ot2' & pl2 & pl2' & Hk2 & Hc & _).
    unfold counted in Hc. rewrite Hc.
    rewrite (inv_k_leafs _ _ _ _ _ _ _ _ _ _ Hk2 Hk).
    now rewrite (filed_size _ _ _ _ _ _ Hk Hfk).
  - intros bb.
    destruct (query_exact w k bb Hr) as (found & E & Hex & _).
    exists found. split; [exact E|]. split.
    + rewrite (query_inv w k ot ot' pl pl' bb Hk) in E. injection E as <-.
      destruct ot as [t|]; [|constructor].
      pose proof (inv_own _ _ _ _ _ _ Hk) as (_ & [Hs _] & _).
      pose proof (inv_nodup _ _ _ _ _ _ Hk) as Hnd.
      apply NoDup_app4 in Hnd as (Hnd & _).
      apply tquery_NoDup; [exact Hs | now apply NoDup_leafs |].
      intros l1 l2 o1 o2 i H1 H2 Ho1 Ho2 Hi1 Hi2.
      pose proof (Hfk l1 o1 i H1 Ho1 Hi1). pose proof (Hfk l2 o2 i H2 Ho2 Hi2).
      congruence.
    + intros id Hin. apply Hex in Hin as (l & b & Hh & Hlo & _).
      apply contains_leaves. rewrite (Hfiled l id b Hh Hlo). eauto.
Qed.

Lemma calls_fresh_reached cs :
  forall w w',
    reached_fresh w -> calls_fresh w cs -> do_calls w cs = Some w' ->
    reached_fresh w'.
Proof.
  induction cs as [|c cs IH]; intros w w' Hr Hc E; cbn in E.
  - now injection E as <-.
  - destruct Hc as [Hc Hcs].
    destruct (do_call w c) as [w1|] eqn:E1; [|discriminate]. cbn in E.
    apply (IH w1 w'); [|exact Hcs|exact E].
    destruct c as [k id | k id | id bxv | f | k id | k]; cbn in E1, Hc.
    + eapply fresh_insert; eauto.
    + eapply fresh_remove; eauto.
    + injection E1 as <-. now constructor.
    + injection E1 as <-. now constructor.
    + eapply fresh_reindexObject; eauto.
    + eapply fresh_reindexQuery; eauto.
Qed.

Lemma sample_calls_fresh : calls_fresh (empty SampleTree.shapes) SampleTree.calls.
Proof. vm_compute. repeat split. Qed.

Lemma sample_fresh : reached_fresh SampleTree.world.
Proof.
  unfold SampleTree.world.
  destruct (do_calls (empty SampleTree.shapes) SampleTree.calls) as [w|] eqn:E.
  - cbn. eapply calls_fresh_reached; [|apply sample_calls_fresh|exact E].
    constructor.
  - cbn. constructor.
Qed.

Lemma fresh_index_witness :
  filed (store SampleTree.world) Dynamic
  /\ count (treeS (store SampleTree.world) Dynamic)
     = Z.of_nat (size (leaves (treeS (store SampleTree.world) Dynamic)))
  /\ forall bb,
       exists found,
         query SampleTree.world Dynamic bb = Some found /\ NoDup found
         /\ forall id, id ∈ found -> contains SampleTree.world Dynamic id = true.
Proof. apply (fresh_index SampleTree.world Dynamic sample_fresh). Defined.

(** [remove(obj)] of a shape of the index, while no shape was inserted
    into an index that it was in: the shape is no longer in the index,
    [count] is one less, no query passes the shape to [func] any more, and
    the other shapes are passed to [func] as before. *)
Theorem remove_not_found (w : World) (k : which) (id : Z) :
  reached_fresh w -> contains w k id = true ->
  exists w',
    remove w k id = Some w'
    /\ contains w' k id = false
    /\ count (treeS (store w') k) = count (treeS (store w) k) - 1
    /\ forall bb,
         exists found found',
           query w k bb = Some found /\ query w' k bb = Some found'
           /\ id ∉ found'
           /\ forall id', id' <> id -> (id' ∈ found' <-> id' ∈ found).
Proof.
  intros Hf Hc. pose proof (reached_fresh_reached w Hf) as Hr.
  pose proof (reached_inv w Hr) as Hinv.
  apply contains_leaves in Hc as [L HL].
  destruct (inv_any _ k Hinv) as (ot & ot' & pl & pl' & Hk).
  pose proof (inv_leaves _ _ _ _ _ _ Hk id L HL) as Hin.
  destruct ot as [t|]; [|cbn in Hin; set_solver]. cbn in Hin.
  destruct (leafs_ctx t L Hin) as (c & ->).
  destruct (removeS_inv _ k id L c ot' pl pl' Hk HL)
    as (s2 & ES & Hk2 & Elv & Hkept & _).
  pose proof ES as EW. rewrite <- store_remove in EW.
  apply fmap_is_Some in EW as (w' & E & <-).
  assert (Hf' : reached_fresh w') by (eapply fresh_remove; eauto).
  pose proof (reached_fresh_reached w' Hf') as Hr'.
  assert (Hc' : contains w' k id = false).
  { apply contains_false. rewrite Elv. apply lookup_delete_eq. }
  exists w'. split; [exact E|]. split; [exact Hc'|]. split.
  { apply (removeS_books _ _ _ _ ES). }
  intros bb.
  destruct (query_exact w k bb Hr) as (found & EQ & Hex & _).
  destruct (fresh_index w' k Hf') as (_ & _ & Hq').
  destruct (Hq' bb) as (found' & EQ' & _ & Hcont).
  destruct (query_exact w' k bb Hr') as (found2 & EQ2 & Hex' & _).
  assert (found2 = found') as -> by congruence.
  exists found, found'. split; [exact EQ|]. split; [exact EQ'|]. split.
  { intros Hin'. apply Hcont in Hin'. congruence. }
  pose proof (tdel_leafs_perm c L) as P.
  pose proof (hangs_leafs _ _ _ _ _ _ Hk) as Hh.
  pose proof (hangs_leafs _ _ _ _ _ _ Hk2) as Hh2.
  intros id' Hne. rewrite Hex, Hex'. split.
  - intros (l & b & Hhang & (o' & Ho' & Hl' & Hid' & Hb') & Hi).
    assert (Hl2 : l ∈ oleafs (tdel c)) by (apply Hh2; eauto).
    assert (Hl1 : l ∈ leafs (plug c (TLeaf L))) by (rewrite P; set_solver).
    destruct (oleafs_leaf _ _ _ _ _ _ l Hk) as (o & Ho & Hlf); [set_solver|].
    destruct (Hkept l o Ho Hlf) as (o2 & Ho2 & _ & Eo & Eb).
    assert (o2 = o') as -> by congruence.
    exists l, b. split; [apply Hh; eauto|]. split; [|exact Hi].
    exists o. split; [exact Ho|]. split; [exact Hlf|]. split; congruence.
  - intros (l & b & Hhang & (o & Ho & Hlf & Hid' & Hb') & Hi).
    assert (Hl1 : l ∈ leafs (plug c (TLeaf L))) by (apply Hh; eauto).
    assert (HlL : l <> L).
    { intros ->. destruct (inv_keys _ _ _ _ _ _ Hk k id L HL) as (oL & HoL & HidL).
      congruence. }
    assert (Hl2 : l ∈ oleafs (tdel c)).
    { rewrite P in Hl1. set_solver. }
    destruct (Hkept l o Ho Hlf) as (o2 & Ho2 & Hlf2 & Eo & Eb).
    exists l, b. split; [apply Hh2; eauto|]. split; [|exact Hi].
    exists o2. split; [exact Ho2|]. split; [exact Hlf2|]. split; congruence.
Qed.

Lemma remove_not_found_witness :
  exists w',
    remove SampleTree.world Dynamic 3 = Some w'
    /\ contains w' Dynamic 3 = false
    /\ count (treeS (store w') Dynamic)
       = count (treeS (store SampleTree.world) Dynamic) - 1
    /\ forall bb,
         exists found found',
           query SampleTree.world Dynamic bb = Some found
           /\ query w' Dynamic bb = Some found'
           /\ 3 ∉ found'
           /\ forall id', id' <> 3 -> (id' ∈ found' <-> id' ∈ found).
Proof.
  apply (remove_not_found SampleTree.world Dynamic 3 sample_fresh
           sample_contains).
Defined.

(** [each(func)] returns and calls [func] once for every shape of the
    index and for nothing else. *)
Theorem each_contained (w : World) (k : which) :
  reached w ->
  exists ids,
    each w k = Some ids /\ NoDup ids
    /\ forall id, id ∈ ids <-> contains w k id = true.
Proof.
  intros Hr. pose proof (reached_inv w Hr) as Hinv.
  destruct (inv_any _ k Hinv) as (ot & ot' & pl & pl' & Hk).
  set (L := merge_sort key_le (map_to_list (leaves (treeS (store w) k)))).
  assert (PL : L ≡ₚ map_to_list (leaves (treeS (store w) k)))
    by apply merge_sort_Permutation.
  exists (L.*1). split; [|split].
  - unfold each, leaves_in_order. fold L. apply mapM_Some.
    apply Forall2_fmap. apply Forall_Forall2_diag. apply Forall_forall.
    intros [i l] Hin. cbn. rewrite PL in Hin.
    apply elem_of_map_to_list in Hin.
    destruct (inv_keys _ _ _ _ _ _ Hk k i l Hin) as (o & Ho & Hi).
    rewrite Ho. exact Hi.
  - rewrite PL. apply NoDup_fst_map_to_list.
  - intros id. rewrite PL, contains_leaves. rewrite list_elem_of_fmap. split.
    + intros ([i l] & -> & Hin). apply elem_of_map_to_list in Hin. cbn. eauto.
    + intros [l Hl]. exists (id, l). split; [reflexivity|].
      now apply elem_of_map_to_list.
Qed.

Lemma each_contained_witness :
  exists ids,
    each SampleTree.world Static = Some ids /\ NoDup ids
    /\ forall id, id ∈ ids <-> contains SampleTree.world Static id = true.
Proof. apply (each_contained SampleTree.world Static sample_reached). Defined.

End FiledFacts.

(** ** The callbacks of a marking pass *)

Module MarkFacts.
Import BBTree TreeShape Structure Index TreeShapeFacts InsertFacts InvFacts
  RemoveInvFacts UpdateFacts ReachFacts PathFacts WorldFacts InvariantFacts
  RoundTripFacts QueryFacts BooksFacts StepFacts CurrentFacts CountedFacts.
Local Open Scope Z_scope.

Lemma set_prev_calls t p l v : calls (set_prev t p l v) = calls t.
Proof. reflexivity. Qed.

Lemma set_lpairs_calls t l v : calls (set_lpairs t l v) = calls t.
Proof. reflexivity. Qed.

Lemma makePair_calls t k a na b nb :
  calls (makePair t k a na b nb).1 = calls t.
Proof.
  unfold makePair. destruct (pooledPairs (treeT t k)) as [pp|]; [|reflexivity].
  destruct (pairs t !! pp); [|reflexivity]. now destruct k.
Qed.

(** [pairInsert] calls no callback. *)
Lemma pairInsert_calls t k a b : calls (pairInsert t k a b) = calls t.
Proof.
  unfold pairInsert. pose proof (makePair_calls t k a (lpairs t !! a) b
                                   (lpairs t !! b)) as E.
  destruct (makePair t k a (lpairs t !! a) b (lpairs t !! b)) as [t1 pp].
  cbn in E. destruct (lpairs t !! a), (lpairs t !! b); cbn; exact E.
Qed.

Lemma sub_at_height t path u : sub_at t path = Some u -> (height u <= height t)%nat.
Proof.
  revert t. induction path as [|d path IH]; intros t E.
  - destruct t; cbn in E; injection E as <-; lia.
  - destruct t as [r | r a b]; cbn in E; [discriminate|].
    destruct d; apply IH in E; cbn; lia.
Qed.

Lemma leaf_box_in h u l bb :
  bbok h u -> l ∈ leafs u ->
  bbTreeIntersectsNode bb (bx h l) = true ->
  bbTreeIntersectsNode bb (bx h (rt u)) = true.
Proof.
  induction u as [r | r a IHa b IHb]; cbn; intros Hb Hl Hi.
  - apply list_elem_of_singleton in Hl as ->. exact Hi.
  - destruct Hb as (E & Hba & Hbb). rewrite E.
    assert (Hc : bbTreeIntersectsNode bb (bx h (rt a)) = true
                 \/ bbTreeIntersectsNode bb (bx h (rt b)) = true).
    { apply elem_of_app in Hl as [Hl | Hl]; [left | right]; auto. }
    revert Hc. unfold bbTreeIntersectsNode, merge. cbn.
    rewrite !andb_true_iff, !Z.leb_le. lia.
Qed.

Lemma filter_none {A} (f : A -> bool) (l : list A) :
  (forall x, x ∈ l -> f x = false) -> List.filter f l = [].
Proof.
  induction l as [|x l IH]; intros H; [reflexivity|]. cbn.
  rewrite (H x) by set_solver. apply IH. intros y Hy. apply H. set_solver.
Qed.

(** [markLeafQuery] on a tree that the store holds: with a callback and
    not to the left, it calls back for the leaves whose box meets the box
    of [leaf], from the [A] side to the [B] side. *)
Lemma markLeafQuery_tree (s : Store) (leaf : ref) (ol : Obj) (k : which)
    (u : tree) :
  objs s !! leaf = Some ol ->
  forall fuel t,
    shape' (objs s) u -> bbok (objs s) u -> (height u <= fuel)%nat ->
    calls (markLeafQuery fuel s t (rt u) leaf false k true)
    = callbacks s leaf (leafs u) ++ calls t.
Proof.
  intros Hol. unfold callbacks. rewrite (bx_lookup _ _ _ Hol).
  induction u as [r | r a IHa b IHb]; intros fuel t Hs Hb Hh;
    (destruct fuel as [|fuel]; [cbn in Hh; lia|]); cbn in Hh.
  - destruct Hs as (o & Ho & Hl & _). cbn [markLeafQuery rt]. rewrite Ho, Hol.
    cbn [leafs List.filter]. rewrite (bx_lookup _ _ _ Ho).
    destruct (bbTreeIntersectsNode (box ol) (box o)); [|reflexivity].
    rewrite Hl. cbn.
    destruct (decide (stamp_of t r < stamp_of t leaf)); cbn;
      [now rewrite pairInsert_calls | reflexivity].
  - pose proof Hs as ((o & Ho & Hl & HA & HB) & _ & _ & Hsa & Hsb).
    pose proof Hb as (E & Hba & Hbb).
    cbn [markLeafQuery rt]. rewrite Ho, Hol.
    destruct (bbTreeIntersectsNode (box ol) (box o)) eqn:Hi.
    + rewrite Hl, HA, HB. rewrite (IHb fuel _ Hsb Hbb) by lia.
      rewrite (IHa fuel _ Hsa Hba) by lia.
      cbn [leafs]. rewrite List.filter_app, map_app, rev_app_distr.
      now rewrite app_assoc.
    + rewrite filter_none; [reflexivity|].
      intros l Hl'. destruct (bbTreeIntersectsNode (box ol) (bx (objs s) l)) eqn:Hil;
        [|reflexivity].
      pose proof (leaf_box_in (objs s) (TNode r a b) l (box ol) Hb Hl' Hil) as Hc.
      cbn [rt] in Hc. rewrite (bx_lookup _ _ _ Ho) in Hc. congruence.
Qed.

(** Without a callback, or to the left, [markLeafQuery] calls nothing. *)
Lemma markLeafQuery_quiet (s : Store) (leaf : ref) (k : which) (left func : bool) :
  left = true \/ func = false ->
  forall n t subtree,
    calls (markLeafQuery n s t subtree leaf left k func) = calls t.
Proof.
  intros Hq n. induction n as [|n IH]; intros t subtree; [reflexivity|].
  cbn [markLeafQuery].
  destruct (objs s !! subtree) as [o|]; [|reflexivity].
  destruct (objs s !! leaf) as [ol|]; [|reflexivity].
  destruct (bbTreeIntersectsNode (box ol) (box o)); [|reflexivity].
  destruct (isLeaf o).
  - destruct left; [apply pairInsert_calls|].
    destruct Hq as [Hq | ->]; [discriminate|].
    destruct (decide (stamp_of t subtree < stamp_of t leaf));
      [apply pairInsert_calls | reflexivity].
  - destruct (A o) as [a|]; [|reflexivity].
    destruct (B o) as [b|]; [|reflexivity].
    now rewrite !IH.
Qed.

(** [markLeafQuery(leaf, left, tree, func)] on a subtree of an index: when
    a callback is given and [left] is false, [func(leaf.obj, l.obj)] is
    called for exactly the leaves [l] below the subtree whose box meets
    the box of [leaf], from the [A] side to the [B] side; when [left] is
    true or no callback is given, nothing is called. *)
Theorem markLeafQuery_calls (w : World) (k' : which) (r : ref) :
  reached w -> hangs (store w) k' r ->
  exists ls,
    subtree_leaves (fuel (store w)) (objs (store w)) r = Some ls
    /\ forall t leaf k,
         is_Some (objs (store w) !! leaf) ->
         calls (markLeafQuery (nobjs (store w)) (store w) t r leaf false k true)
         = callbacks (store w) leaf ls ++ calls t
         /\ forall left func,
              left = true \/ func = false ->
              calls (markLeafQuery (nobjs (store w)) (store w) t r leaf left
                       k func)
              = calls t.
Proof.
  intros Hr (rt0 & path & Ert & Hp). pose proof (reached_inv w Hr) as Hinv.
  destruct (inv_any _ k' Hinv) as (ot & ot' & pl & pl' & Hk).
  pose proof (inv_own _ _ _ _ _ _ Hk) as Hown.
  destruct ot as [t0|]; cbn in Hown; [|congruence].
  destruct Hown as (Ert' & [Hs _] & Hb).
  assert (rt0 = rt t0) as -> by congruence.
  destruct (at_path_sub _ _ _ _ Hs Hp) as (u & Hu & <-).
  destruct (sub_at_shape _ _ _ _ Hs Hb Hu) as [Hsu Hbu].
  assert (Hh : (height u <= nobjs (store w))%nat).
  { etrans; [apply (sub_at_height _ _ _ Hu)|].
    etrans; [apply height_le_refs|].
    apply (bounded_length _ (nobjs (store w))).
    - pose proof (inv_nodup _ _ _ _ _ _ Hk) as Hnd.
      apply NoDup_app4 in Hnd as (Hnd & _). exact Hnd.
    - intros x Hx. eapply inv_refs_alloc; [exact Hk|]. cbn. set_solver. }
  exists (leafs u). split.
  - apply subtree_leaves_tree; [exact Hsu|]. unfold fuel. lia.
  - intros t leaf k [ol Hol]. split.
    + now apply (markLeafQuery_tree _ _ ol).
    + intros left func Hq. now apply markLeafQuery_quiet.
Qed.

Lemma sample_root_hangs : hangs (store SampleTree.world) Static 5%nat.
Proof. exists 5%nat, []. split; vm_compute; reflexivity. Qed.

Lemma markLeafQuery_calls_witness :
  exists ls,
    subtree_leaves (fuel (store SampleTree.world))
      (objs (store SampleTree.world)) 5%nat = Some ls
    /\ forall t leaf k,
         is_Some (objs (store SampleTree.world) !! leaf) ->
         calls (markLeafQuery (nobjs (store SampleTree.world))
                  (store SampleTree.world) t 5%nat leaf false k true)
         = callbacks (store SampleTree.world) leaf ls ++ calls t
         /\ forall left func,
              left = true \/ func = false ->
              calls (markLeafQuery (nobjs (store SampleTree.world))
                       (store SampleTree.world) t 5%nat leaf left k func)
              = calls t.
Proof.
  apply (markLeafQuery_calls SampleTree.world Static 5%nat sample_reached
           sample_root_hangs).
Defined.

End MarkFacts.

(** ** The threads of pairs across the operations on them *)

Module ThreadFacts.
Import BBTree TreeShape Structure Index ThreadInv TreeShapeFacts InsertFacts
  InvFacts RemoveInvFacts UpdateFacts ReachFacts PathFacts WorldFacts
  QueryFacts StepFacts.
Local Open Scope Z_scope.

Lemma with_prev_fields l v x :
  leafA (with_prev l v x) = leafA x /\ leafB (with_prev l v x) = leafB x
  /\ next_of l (with_prev l v x) = next_of l x
  /\ prev_of l (with_prev l v x) = v.
Proof.
  unfold with_prev, next_of, prev_of.
  destruct (decide (leafA x = l)) as [E|E]; cbn;
    destruct (decide (leafA x = l)); try contradiction; auto.
Qed.

Lemma with_next_fields l v x :
  leafA (with_next l v x) = leafA x /\ leafB (with_next l v x) = leafB x
  /\ next_of l (with_next l v x) = v
  /\ prev_of l (with_next l v x) = prev_of l x.
Proof.
  unfold with_next, next_of, prev_of.
  destruct (decide (leafA x = l)) as [E|E]; cbn;
    destruct (decide (leafA x = l)); try contradiction; auto.
Qed.

(** Setting a link on the side of [l] leaves the side of another leaf of
    the pair alone. *)
Lemma with_prev_other l l' v x :
  on l x -> on l' x -> l <> l' ->
  next_of l' (with_prev l v x) = next_of l' x
  /\ prev_of l' (with_prev l v x) = prev_of l' x.
Proof.
  unfold on, with_prev, next_of, prev_of. intros [Hl | Hl] [Hl' | Hl'] Hne;
    try congruence;
    destruct (decide (leafA x = l)); try congruence; cbn;
    destruct (decide (leafA x = l')); try congruence; auto.
Qed.

Lemma with_next_other l l' v x :
  on l x -> on l' x -> l <> l' ->
  next_of l' (with_next l v x) = next_of l' x
  /\ prev_of l' (with_next l v x) = prev_of l' x.
Proof.
  unfold on, with_next, next_of, prev_of. intros [Hl | Hl] [Hl' | Hl'] Hne;
    try congruence;
    destruct (decide (leafA x = l)); try congruence; cbn;
    destruct (decide (leafA x = l')); try congruence; auto.
Qed.

Lemma same_links_refl l x : same_links l x x.
Proof. unfold same_links. auto. Qed.

Lemma same_links_next l x x' : same_links l x x' -> same_next l x x'.
Proof. unfold same_links, same_next. tauto. Qed.

Lemma on_same l x x' : leafA x' = leafA x -> leafB x' = leafB x -> on l x -> on l x'.
Proof. unfold on. intros -> ->. auto. Qed.

(** A thread is kept by a change of the pairs that leaves the pairs of the
    thread what they are to it. *)
Lemma chain_frame ps ps' l :
  forall th prev head,
    chain ps l prev head th ->
    (forall p x, p ∈ th -> ps !! p = Some x ->
       exists x', ps' !! p = Some x' /\ same_links l x x') ->
    chain ps' l prev head th.
Proof.
  induction th as [|p th IH]; intros prev head Hc Hf; [exact Hc|].
  destruct Hc as (-> & x & Hx & Hon & Hne & Hp & Hc).
  destruct (Hf p x) as (x' & Hx' & EA & EB & En & Ep); [set_solver|exact Hx|].
  split; [reflexivity|]. exists x'. split; [exact Hx'|].
  split; [eapply on_same; eauto|]. split; [congruence|].
  split; [congruence|]. rewrite En. apply IH; [exact Hc|].
  intros q y Hq. apply Hf. set_solver.
Qed.

Lemma nchain_frame ps ps' l :
  forall th head,
    nchain ps l head th ->
    (forall p x, p ∈ th -> ps !! p = Some x ->
       exists x', ps' !! p = Some x' /\ same_next l x x') ->
    nchain ps' l head th.
Proof.
  induction th as [|p th IH]; intros head Hc Hf; [exact Hc|].
  destruct Hc as (-> & x & Hx & Hon & Hne & Hc).
  destruct (Hf p x) as (x' & Hx' & EA & EB & En); [set_solver|exact Hx|].
  split; [reflexivity|]. exists x'. split; [exact Hx'|].
  split; [eapply on_same; eauto|]. split; [congruence|].
  rewrite En. apply IH; [exact Hc|].
  intros q y Hq. apply Hf. set_solver.
Qed.

Lemma chain_nchain ps l :
  forall th prev head, chain ps l prev head th -> nchain ps l head th.
Proof.
  induction th as [|p th IH]; intros prev head Hc; [exact Hc|].
  destruct Hc as (-> & x & Hx & Hon & Hne & Hp & Hc).
  split; [reflexivity|]. exists x. eauto 6.
Qed.

Lemma chain_elem ps l :
  forall th prev head p,
    chain ps l prev head th -> p ∈ th ->
    exists x, ps !! p = Some x /\ on l x /\ leafA x <> leafB x.
Proof.
  induction th as [|q th IH]; intros prev head p Hc Hp; [set_solver|].
  destruct Hc as (-> & x & Hx & Hon & Hne & _ & Hc).
  apply elem_of_cons in Hp as [-> | Hp]; [eauto|]. eapply IH; eauto.
Qed.

Lemma nchain_elem ps l :
  forall th head p,
    nchain ps l head th -> p ∈ th ->
    exists x, ps !! p = Some x /\ on l x /\ leafA x <> leafB x.
Proof.
  induction th as [|q th IH]; intros head p Hc Hp; [set_solver|].
  destruct Hc as (-> & x & Hx & Hon & Hne & Hc).
  apply elem_of_cons in Hp as [-> | Hp]; [eauto|]. eapply IH; eauto.
Qed.

(** The head of a thread with another back link. *)
Lemma chain_reprev ps ps' l p th prev prev' head x x' :
  chain ps l prev head (p :: th) -> p ∉ th ->
  ps !! p = Some x -> ps' !! p = Some x' ->
  leafA x' = leafA x -> leafB x' = leafB x -> next_of l x' = next_of l x ->
  prev_of l x' = prev' ->
  (forall q y, q ∈ th -> ps !! q = Some y ->
     exists y', ps' !! q = Some y' /\ same_links l y y') ->
  chain ps' l prev' head (p :: th).
Proof.
  intros (-> & x0 & Hx0 & Hon & Hne & Hp & Hc) Hnin Hx Hx' EA EB En Ep Hf.
  assert (x0 = x) as -> by congruence.
  split; [reflexivity|]. exists x'. split; [exact Hx'|].
  split; [eapply on_same; eauto|]. split; [congruence|].
  split; [exact Ep|]. rewrite En. eapply chain_frame; eauto.
Qed.

Lemma ppool_frame ps ps' :
  forall l head,
    ppool ps head l -> (forall p, p ∈ l -> ps' !! p = ps !! p) ->
    ppool ps' head l.
Proof.
  induction l as [|p l IH]; intros head Hp Hf; [exact Hp|].
  destruct Hp as (-> & x & Hx & Hp). split; [reflexivity|].
  exists x. split; [rewrite Hf by set_solver; exact Hx|].
  apply IH; [exact Hp|]. intros q Hq. apply Hf. set_solver.
Qed.

Lemma ppool_elem ps :
  forall l head p, ppool ps head l -> p ∈ l -> is_Some (ps !! p).
Proof.
  induction l as [|q l IH]; intros head p Hp Hin; [set_solver|].
  destruct Hp as (-> & x & Hx & Hp).
  apply elem_of_cons in Hin as [-> | Hin]; [eauto|]. eapply IH; eauto.
Qed.

(** *** [makePair] and [pairInsert] *)

Lemma relink_prev_lookup t (o : option pref) l v q :
  pairs (match o with Some nx => set_prev t nx l v | None => t end) !! q
  = if decide (o = Some q) then with_prev l v <$> pairs t !! q
    else pairs t !! q.
Proof.
  destruct o as [nx|]; cbn.
  - destruct (decide (Some nx = Some q)) as [[= ->] | Hne].
    + apply lookup_alter_eq.
    + apply lookup_alter_ne. congruence.
  - destruct (decide (None = Some q)); [discriminate | reflexivity].
Qed.

Lemma relink_prev_fields t (o : option pref) l v :
  let t' := match o with Some nx => set_prev t nx l v | None => t end in
  lpairs t' = lpairs t /\ stamps t' = stamps t /\ calls t' = calls t
  /\ dynT t' = dynT t /\ statT t' = statT t /\ numPairs t' = numPairs t.
Proof. destruct o; cbn; auto 10. Qed.

Lemma thread_allocated s t th pd pst l p :
  threads_ok s t th pd pst -> p ∈ th l ->
  exists x, pairs t !! p = Some x /\ on l x /\ leafA x <> leafB x.
Proof. intros H Hp. eapply chain_elem; [apply (tk_chain _ _ _ _ _ H l)|exact Hp]. Qed.

Lemma pool_allocated s t th pd pst p :
  threads_ok s t th pd pst -> p ∈ pd ++ pst -> is_Some (pairs t !! p).
Proof.
  intros H Hp. apply elem_of_app in Hp as [Hp | Hp].
  - eapply ppool_elem; [apply (tk_poold _ _ _ _ _ H)|exact Hp].
  - eapply ppool_elem; [apply (tk_pools _ _ _ _ _ H)|exact Hp].
Qed.

(** [makePair]: the pair it returns is in no thread and in no free list
    any more. *)
Lemma makePair_spec s t k a na b nb th pd pst :
  threads_ok s t th pd pst ->
  exists t1 pp pd' pst',
    makePair t k a na b nb = (t1, pp)
    /\ pairs t1 = <[pp := mkPair None a na None b nb]> (pairs t)
    /\ lpairs t1 = lpairs t /\ stamps t1 = stamps t /\ calls t1 = calls t
    /\ (forall k', stamp (treeT t1 k') = stamp (treeT t k'))
    /\ (forall l, pp ∉ th l)
    /\ ppool (pairs t1) (pooledPairs (dynT t1)) pd'
    /\ ppool (pairs t1) (pooledPairs (statT t1)) pst'
    /\ NoDup (pd' ++ pst')
    /\ (forall q, q ∈ pd' ++ pst' -> q ∈ pd ++ pst)
    /\ pp ∉ pd' ++ pst'
    /\ (forall p, is_Some (pairs t1 !! p) -> (p < numPairs t1)%nat).
Proof.
  intros H. unfold makePair.
  assert (Hfresh :
    exists t1 pp pd' pst',
      (mkThreads (stamps t) (lpairs t)
         (<[numPairs t := mkPair None a na None b nb]> (pairs t))
         (S (numPairs t)) (dynT t) (statT t) (calls t), numPairs t) = (t1, pp)
      /\ pairs t1 = <[pp := mkPair None a na None b nb]> (pairs t)
      /\ lpairs t1 = lpairs t /\ stamps t1 = stamps t /\ calls t1 = calls t
      /\ (forall k', stamp (treeT t1 k') = stamp (treeT t k'))
      /\ (forall l, pp ∉ th l)
      /\ ppool (pairs t1) (pooledPairs (dynT t1)) pd'
      /\ ppool (pairs t1) (pooledPairs (statT t1)) pst'
      /\ NoDup (pd' ++ pst')
      /\ (forall q, q ∈ pd' ++ pst' -> q ∈ pd ++ pst)
      /\ pp ∉ pd' ++ pst'
      /\ (forall p, is_Some (pairs t1 !! p) -> (p < numPairs t1)%nat)).
  { assert (Hnone : pairs t !! numPairs t = None).
    { destruct (pairs t !! numPairs t) eqn:E; [|reflexivity].
      pose proof (tk_alloc _ _ _ _ _ H (numPairs t) (mk_is_Some _ _ E)). lia. }
    assert (Hnp : numPairs t ∉ pd ++ pst).
    { intros Hc. destruct (pool_allocated _ _ _ _ _ _ H Hc) as [x Hx].
      congruence. }
    eexists _, _, pd, pst. split; [reflexivity|]. cbn.
    split; [reflexivity|]. split; [reflexivity|]. split; [reflexivity|].
    split; [reflexivity|]. split; [now intros []|].
    split.
    { intros l Hc. destruct (thread_allocated _ _ _ _ _ _ _ H Hc) as (x & Hx & _).
      congruence. }
    split.
    { eapply ppool_frame; [apply (tk_poold _ _ _ _ _ H)|].
      intros p Hp. apply lookup_insert_ne. intros <-. apply Hnp. set_solver. }
    split.
    { eapply ppool_frame; [apply (tk_pools _ _ _ _ _ H)|].
      intros p Hp. apply lookup_insert_ne. intros <-. apply Hnp. set_solver. }
    split; [apply (tk_pool_nodup _ _ _ _ _ H)|]. split; [auto|].
    split; [exact Hnp|].
    intros p [x Hx]. destruct (decide (p = numPairs t)) as [-> | Hne]; [lia|].
    rewrite lookup_insert_ne in Hx by congruence.
    pose proof (tk_alloc _ _ _ _ _ H p (mk_is_Some _ _ Hx)). lia. }
  destruct (pooledPairs (treeT t k)) as [pp|] eqn:Ehead; [|exact Hfresh].
  destruct (pairs t !! pp) as [x|] eqn:Ex; [|exact Hfresh].
  clear Hfresh.
  pose proof (tk_pool_nodup _ _ _ _ _ H) as Hnd.
  pose proof (tk_poold _ _ _ _ _ H) as Hpd.
  pose proof (tk_pools _ _ _ _ _ H) as Hps.
  assert (Hth : forall l, pp ∉ th l -> True) by auto.
  destruct k; cbn in Ehead.
  - destruct pd as [|p0 pd']; cbn in Hpd; [congruence|].
    destruct Hpd as (E0 & x0 & Hx0 & Hpd). rewrite Ehead in E0.
    injection E0 as <-. assert (x0 = x) as -> by congruence.
    cbn in Hnd. apply NoDup_cons in Hnd as [Hn0 Hnd].
    eexists _, _, pd', pst. split; [reflexivity|]. cbn.
    split; [reflexivity|]. split; [reflexivity|]. split; [reflexivity|].
    split; [reflexivity|]. split; [now intros []|].
    split.
    { intros l Hc. apply (tk_pool_free _ _ _ _ _ H l pp Hc). set_solver. }
    split.
    { eapply ppool_frame; [exact Hpd|]. intros p Hp.
      apply lookup_insert_ne. intros <-. apply Hn0. set_solver. }
    split.
    { eapply ppool_frame; [exact Hps|]. intros p Hp.
      apply lookup_insert_ne. intros <-. apply Hn0. set_solver. }
    split; [exact Hnd|]. split; [set_solver|]. split; [exact Hn0|].
    intros p [y Hy]. apply (tk_alloc _ _ _ _ _ H).
    destruct (decide (p = pp)) as [-> | Hne]; [eauto|].
    rewrite lookup_insert_ne in Hy by congruence. eauto.
  - destruct pst as [|p0 pst']; cbn in Hps; [congruence|].
    destruct Hps as (E0 & x0 & Hx0 & Hps). rewrite Ehead in E0.
    injection E0 as <-. assert (x0 = x) as -> by congruence.
    apply NoDup_app in Hnd as (Hnd1 & Hdis & Hnd2).
    apply NoDup_cons in Hnd2 as [Hn0 Hnd2].
    eexists _, _, pd, pst'. split; [reflexivity|]. cbn.
    split; [reflexivity|]. split; [reflexivity|]. split; [reflexivity|].
    split; [reflexivity|]. split; [now intros []|].
    split.
    { intros l Hc. apply (tk_pool_free _ _ _ _ _ H l pp Hc). set_solver. }
    split.
    { eapply ppool_frame; [exact Hpd|]. intros p Hp.
      apply lookup_insert_ne. intros <-. apply (Hdis pp Hp). set_solver. }
    split.
    { eapply ppool_frame; [exact Hps|]. intros p Hp.
      apply lookup_insert_ne. intros <-. contradiction. }
    split.
    { apply NoDup_app. split; [exact Hnd1|]. split; [|exact Hnd2].
      intros q Hq Hq'. apply (Hdis q Hq). set_solver. }
    split; [set_solver|].
    split.
    { intros Hc. apply elem_of_app in Hc as [Hc | Hc]; [|contradiction].
      apply (Hdis pp Hc). set_solver. }
    intros p [y Hy]. apply (tk_alloc _ _ _ _ _ H).
    destruct (decide (p = pp)) as [-> | Hne]; [eauto|].
    rewrite lookup_insert_ne in Hy by congruence. eauto.
Qed.

Lemma chain_head ps l prev q th : chain ps l prev (Some q) th -> q ∈ th.
Proof. destruct th as [|p th]; cbn; [discriminate|]. intros ([= ->] & _). set_solver. Qed.

(** One or two back links of a pair set, as [pairInsert] sets them. *)
Lemma relink2 (a b : ref) (v : option pref) (ca cb : bool) (y : Pair)
    (l : ref) :
  a <> b -> (ca = true -> on a y) -> (cb = true -> on b y) -> on l y ->
  let y' :=
    (if cb then with_prev b v else id) ((if ca then with_prev a v else id) y) in
  leafA y' = leafA y /\ leafB y' = leafB y
  /\ next_of l y' = next_of l y
  /\ prev_of l y'
     = if (ca && bool_decide (l = a)) || (cb && bool_decide (l = b))
       then v else prev_of l y.
Proof.
  intros Hab Ha Hb Hl. cbn zeta.
  assert (Bt : forall c : ref, bool_decide (c = c) = true)
    by (intros c; now apply bool_decide_eq_true_2).
  assert (Bf : forall c d : ref, c <> d -> bool_decide (c = d) = false)
    by (intros c d Hn; now apply bool_decide_eq_false_2).
  destruct ca, cb; cbn [andb orb id].
  - specialize (Ha eq_refl). specialize (Hb eq_refl).
    destruct (with_prev_fields a v y) as (EA & EB & En & Ep).
    assert (Hb' : on b (with_prev a v y)) by (eapply on_same; eauto).
    assert (Ha' : on a (with_prev a v y)) by (eapply on_same; eauto).
    assert (Hl' : on l (with_prev a v y)) by (eapply on_same; eauto).
    destruct (with_prev_fields b v (with_prev a v y)) as (EA2 & EB2 & En2 & Ep2).
    split; [congruence|]. split; [congruence|].
    destruct (decide (l = b)) as [-> | Hlb].
    + rewrite Bt, orb_true_r.
      split; [|exact Ep2]. rewrite En2.
      apply (with_prev_other a b v y Ha Hb Hab).
    + rewrite (Bf l b Hlb), orb_false_r.
      destruct (with_prev_other b l v (with_prev a v y) Hb' Hl') as [E1 E2];
        [congruence|]. rewrite E1, E2.
      destruct (decide (l = a)) as [-> | Hla].
      * rewrite Bt. auto.
      * rewrite (Bf l a Hla).
        apply (with_prev_other a l v y Ha Hl). congruence.
  - specialize (Ha eq_refl). rewrite orb_false_r.
    destruct (with_prev_fields a v y) as (EA & EB & En & Ep).
    split; [exact EA|]. split; [exact EB|].
    destruct (decide (l = a)) as [-> | Hla].
    + rewrite Bt. auto.
    + rewrite (Bf l a Hla).
      apply (with_prev_other a l v y Ha Hl). congruence.
  - specialize (Hb eq_refl).
    destruct (with_prev_fields b v y) as (EA & EB & En & Ep).
    split; [exact EA|]. split; [exact EB|].
    destruct (decide (l = b)) as [-> | Hlb].
    + rewrite Bt. auto.
    + rewrite (Bf l b Hlb).
      apply (with_prev_other b l v y Hb Hl). congruence.
  - auto.
Qed.

Lemma th_cons_sub a b pp th l p : p ∈ th l -> p ∈ th_cons a b pp th l.
Proof. unfold th_cons. destruct (decide (l = a \/ l = b)); set_solver. Qed.

Lemma th_cons_elem a b pp th l p :
  p ∈ th_cons a b pp th l -> p = pp \/ p ∈ th l.
Proof. unfold th_cons. destruct (decide (l = a \/ l = b)); set_solver. Qed.

Lemma met_links s x x' :
  leafA x' = leafA x -> leafB x' = leafB x -> met s x -> met s x'.
Proof. unfold met. intros -> ->. auto. Qed.

(** [pairInsert(a, b, tree)] for two different leaves whose boxes meet:
    the new pair heads the threads of both. *)
Lemma pairInsert_ok s t k a b th pd pst :
  threads_ok s t th pd pst -> a <> b ->
  (forall x, leafA x = a -> leafB x = b -> met s x) ->
  exists pp pd' pst',
    threads_ok s (pairInsert t k a b) (th_cons a b pp th) pd' pst'
    /\ (forall l, pp ∉ th l)
    /\ stamps (pairInsert t k a b) = stamps t
    /\ (forall k', stamp (treeT (pairInsert t k a b) k') = stamp (treeT t k'))
    /\ calls (pairInsert t k a b) = calls t.
Proof.
  intros H Hab Hmet.
  destruct (makePair_spec s t k a (lpairs t !! a) b (lpairs t !! b) th pd pst H)
    as (t1 & pp & pd' & pst' & Emk & Ep1 & El1 & Est1 & Ec1 & Hst1 & Hpp
          & Hpd' & Hps' & Hnd' & Hsub & Hppn & Hal1).
  unfold pairInsert. rewrite Emk.
  set (na := lpairs t !! a). set (nb := lpairs t !! b).
  set (X := mkPair None a na None b nb) in *.
  set (t2 := set_lpairs (set_lpairs t1 a (Some pp)) b (Some pp)).
  set (t3 := match na with Some nx => set_prev t2 nx a (Some pp) | None => t2 end).
  set (t4 := match nb with Some nx => set_prev t3 nx b (Some pp) | None => t3 end).
  destruct (relink_prev_fields t2 na a (Some pp))
    as (L3 & S3 & C3 & D3 & T3 & N3). fold t3 in L3, S3, C3, D3, T3, N3.
  destruct (relink_prev_fields t3 nb b (Some pp))
    as (L4 & S4 & C4 & D4 & T4 & N4). fold t4 in L4, S4, C4, D4, T4, N4.
  assert (G : forall q,
    pairs t4 !! q
    = if decide (nb = Some q)
      then with_prev b (Some pp) <$>
             (if decide (na = Some q)
              then with_prev a (Some pp) <$> pairs t1 !! q
              else pairs t1 !! q)
      else if decide (na = Some q)
           then with_prev a (Some pp) <$> pairs t1 !! q
           else pairs t1 !! q).
  { intros q. unfold t4. rewrite relink_prev_lookup. unfold t3.
    rewrite relink_prev_lookup. reflexivity. }
  assert (Hna : forall q, na = Some q -> q ∈ th a).
  { intros q E. pose proof (tk_chain _ _ _ _ _ H a) as Hc. fold na in Hc.
    rewrite E in Hc. eapply chain_head, Hc. }
  assert (Hnb : forall q, nb = Some q -> q ∈ th b).
  { intros q E. pose proof (tk_chain _ _ _ _ _ H b) as Hc. fold nb in Hc.
    rewrite E in Hc. eapply chain_head, Hc. }
  assert (Gpp : pairs t4 !! pp = Some X).
  { rewrite G.
    destruct (decide (nb = Some pp)) as [E|_]; [exfalso; eapply Hpp, Hnb, E|].
    destruct (decide (na = Some pp)) as [E|_]; [exfalso; eapply Hpp, Hna, E|].
    rewrite Ep1. apply lookup_insert_eq. }
  assert (Gq : forall l q y,
    q ∈ th l -> pairs t !! q = Some y ->
    exists y',
      pairs t4 !! q = Some y' /\ leafA y' = leafA y /\ leafB y' = leafB y
      /\ next_of l y' = next_of l y
      /\ prev_of l y'
         = if (bool_decide (na = Some q) && bool_decide (l = a))
              || (bool_decide (nb = Some q) && bool_decide (l = b))
           then Some pp else prev_of l y).
  { intros l q y Hq Hy.
    assert (Hqpp : q <> pp) by (intros ->; eapply Hpp, Hq).
    destruct (thread_allocated _ _ _ _ _ _ _ H Hq) as (y0 & Hy0 & Hl & _).
    assert (y0 = y) as -> by congruence.
    assert (Ha : bool_decide (na = Some q) = true -> on a y).
    { intros E%bool_decide_eq_true.
      destruct (thread_allocated _ _ _ _ _ _ _ H (Hna q E)) as (y1 & Hy1 & ? & _).
      congruence. }
    assert (Hb : bool_decide (nb = Some q) = true -> on b y).
    { intros E%bool_decide_eq_true.
      destruct (thread_allocated _ _ _ _ _ _ _ H (Hnb q E)) as (y1 & Hy1 & ? & _).
      congruence. }
    pose proof (relink2 a b (Some pp) (bool_decide (na = Some q))
                  (bool_decide (nb = Some q)) y l Hab Ha Hb Hl) as R.
    cbn zeta in R. eexists. split; [|exact R].
    rewrite G, Ep1, lookup_insert_ne, Hy by congruence.
    destruct (decide (nb = Some q)) as [E|E], (decide (na = Some q)) as [E'|E'];
      rewrite ?(bool_decide_eq_true_2 _ E), ?(bool_decide_eq_false_2 _ E),
        ?(bool_decide_eq_true_2 _ E'), ?(bool_decide_eq_false_2 _ E');
      reflexivity. }
  assert (Hlp : lpairs t4 = <[b := pp]> (<[a := pp]> (lpairs t))).
  { rewrite L4, L3. unfold t2. cbn. now rewrite El1. }
  assert (Hold : forall l q y, q ∈ th l -> pairs t !! q = Some y ->
            (na = Some q /\ l = a) \/ (nb = Some q /\ l = b) \/
            exists y', pairs t4 !! q = Some y' /\ same_links l y y').
  { intros l q y Hq Hy. destruct (Gq l q y Hq Hy) as (y' & Hy' & EA & EB & En & Ep).
    destruct (decide (na = Some q /\ l = a)) as [?|N1]; [auto|].
    destruct (decide (nb = Some q /\ l = b)) as [?|N2]; [auto|].
    right. right. exists y'. split; [exact Hy'|].
    split; [exact EA|]. split; [exact EB|]. split; [exact En|].
    rewrite Ep.
    destruct (bool_decide (na = Some q)) eqn:B1, (bool_decide (l = a)) eqn:B2;
      destruct (bool_decide (nb = Some q)) eqn:B3, (bool_decide (l = b)) eqn:B4;
      cbn; try reflexivity; exfalso;
      repeat match goal with
             | B : bool_decide _ = true |- _ => apply bool_decide_eq_true in B
             end; tauto. }
  (* the thread of [a] or of [b], behind the new pair *)
  assert (Hfront : forall l (nl : option pref),
    (l = a /\ nl = na) \/ (l = b /\ nl = nb) ->
    chain (pairs t4) l (Some pp) nl (th l)).
  { intros l nl Hl.
    assert (Enl : nl = lpairs t !! l)
      by (destruct Hl as [[-> ->] | [-> ->]]; reflexivity).
    pose proof (tk_chain _ _ _ _ _ H l) as Hc. rewrite <- Enl in Hc.
    pose proof (tk_nodup _ _ _ _ _ H l) as Hndl.
    destruct (th l) as [|p1 r] eqn:Eth; [exact Hc|].
    apply NoDup_cons in Hndl as [Hp1 Hndr].
    pose proof Hc as (E1 & x1 & Hx1 & _).
    assert (Hp1in : p1 ∈ th l) by (rewrite Eth; set_solver).
    destruct (Gq l p1 x1 Hp1in Hx1) as (x1' & Hx1' & EA & EB & En & Ep).
    eapply (chain_reprev (pairs t) (pairs t4) l p1 r None (Some pp) nl x1 x1');
      eauto.
    - rewrite Ep.
      destruct Hl as [[-> ->] | [-> ->]]; rewrite E1;
        rewrite !(bool_decide_eq_true_2 _ eq_refl); cbn;
        [reflexivity | now rewrite orb_true_r].
    - intros q y Hq Hy.
      assert (Hqin : q ∈ th l) by (rewrite Eth; set_solver).
      destruct (Hold l q y Hqin Hy) as [[C Cl] | [[C Cl] | C]]; [| |exact C];
        exfalso; destruct Hl as [[-> ->] | [-> ->]]; try congruence;
        rewrite E1 in C; injection C as ->; contradiction. }
  exists pp, pd', pst'. split; [|split; [exact Hpp|]].
  2:{ split; [now rewrite S4, S3; cbn|].
      split; [|now rewrite C4, C3; cbn].
      intros k'. rewrite <- Hst1. destruct k'; cbn; [now rewrite D4, D3|now rewrite T4, T3]. }
  constructor.
  - intros l. rewrite Hlp. unfold th_cons.
    destruct (decide (l = a \/ l = b)) as [Hl | Hl].
    + assert (Ehd : <[b:=pp]> (<[a:=pp]> (lpairs t)) !! l = Some pp).
      { destruct Hl as [-> | ->]; [|apply lookup_insert_eq].
        rewrite lookup_insert_ne by congruence. apply lookup_insert_eq. }
      rewrite Ehd. split; [reflexivity|]. exists X. split; [exact Gpp|].
      split; [destruct Hl as [-> | ->]; [left|right]; reflexivity|].
      split; [exact Hab|].
      destruct Hl as [-> | ->]; unfold prev_of, next_of; cbn.
      * destruct (decide (a = a)); [|contradiction]. split; [reflexivity|].
        apply Hfront. auto.
      * destruct (decide (a = b)); [contradiction|]. split; [reflexivity|].
        apply Hfront. auto.
    + rewrite !lookup_insert_ne by (intros ->; tauto).
      eapply chain_frame; [apply (tk_chain _ _ _ _ _ H l)|].
      intros q y Hq Hy.
      destruct (Hold l q y Hq Hy) as [[_ C] | [[_ C] | C]];
        [exfalso; tauto | exfalso; tauto | exact C].
  - intros l. unfold th_cons. destruct (decide (l = a \/ l = b)).
    + apply NoDup_cons. split; [apply Hpp|apply (tk_nodup _ _ _ _ _ H)].
    + apply (tk_nodup _ _ _ _ _ H).
  - intros l p x Hp Hx. apply th_cons_elem in Hp as [-> | Hp].
    + rewrite Gpp in Hx. injection Hx as <-. cbn.
      split; [unfold th_cons; rewrite decide_True by auto; set_solver|].
      split; [unfold th_cons; rewrite decide_True by auto; set_solver|].
      now apply Hmet.
    + destruct (thread_allocated _ _ _ _ _ _ _ H Hp) as (y & Hy & _).
      destruct (Gq l p y Hp Hy) as (y' & Hy' & EA & EB & _).
      assert (x = y') as -> by congruence.
      destruct (tk_both _ _ _ _ _ H l p y Hp Hy) as (HA & HB & Hm).
      rewrite EA, EB. split; [now apply th_cons_sub|].
      split; [now apply th_cons_sub|]. eapply met_links; eauto.
  - rewrite D4, D3. change (dynT t2) with (dynT t1).
    eapply ppool_frame; [exact Hpd'|]. intros p Hp. rewrite G.
    assert (Hfree : forall l, p ∉ th l).
    { intros l Hc. apply (tk_pool_free _ _ _ _ _ H l p Hc). apply Hsub. set_solver. }
    destruct (decide (nb = Some p)) as [E|_]; [exfalso; eapply Hfree, Hnb, E|].
    destruct (decide (na = Some p)) as [E|_]; [exfalso; eapply Hfree, Hna, E|].
    reflexivity.
  - rewrite T4, T3. change (statT t2) with (statT t1).
    eapply ppool_frame; [exact Hps'|]. intros p Hp. rewrite G.
    assert (Hfree : forall l, p ∉ th l).
    { intros l Hc. apply (tk_pool_free _ _ _ _ _ H l p Hc). apply Hsub. set_solver. }
    destruct (decide (nb = Some p)) as [E|_]; [exfalso; eapply Hfree, Hnb, E|].
    destruct (decide (na = Some p)) as [E|_]; [exfalso; eapply Hfree, Hna, E|].
    reflexivity.
  - exact Hnd'.
  - intros l p Hp. apply th_cons_elem in Hp as [-> | Hp]; [exact Hppn|].
    intros Hc. apply (tk_pool_free _ _ _ _ _ H l p Hp). now apply Hsub.
  - intros p [x Hx]. rewrite N4, N3. change (numPairs t2) with (numPairs t1).
    apply Hal1. rewrite G in Hx.
    destruct (decide (nb = Some p)), (decide (na = Some p));
      destruct (pairs t1 !! p); cbn in Hx; try discriminate; eauto.
Qed.

(** *** [unlinkThread] and [clearPairs] *)

Lemma unlinkThread_lookup t pv l nx q :
  pairs (unlinkThread t pv l nx) !! q
  = (if decide (pv = Some q) then with_next l nx else id)
      <$> ((if decide (nx = Some q) then with_prev l pv else id)
             <$> pairs t !! q).
Proof.
  unfold unlinkThread.
  set (t1 := match nx with Some n => set_prev t n l pv | None => t end).
  assert (E1 : pairs t1 !! q
               = (if decide (nx = Some q) then with_prev l pv else id)
                   <$> pairs t !! q).
  { unfold t1. rewrite relink_prev_lookup.
    destruct (decide (nx = Some q)); [reflexivity|].
    now destruct (pairs t !! q). }
  destruct pv as [v|]; cbn.
  - destruct (decide (Some v = Some q)) as [[= ->] | Hne].
    + rewrite lookup_alter_eq, E1. reflexivity.
    + rewrite lookup_alter_ne by congruence. rewrite E1.
      now destruct (_ <$> pairs t !! q).
  - rewrite E1. destruct (decide (None = Some q)); [discriminate|].
    now destruct (_ <$> pairs t !! q).
Qed.

Lemma unlinkThread_fields t pv l nx :
  let t' := unlinkThread t pv l nx in
  lpairs t'
  = match pv with
    | Some _ => lpairs t
    | None =>
        match nx with
        | Some n => <[l := n]> (lpairs t)
        | None => delete l (lpairs t)
        end
    end
  /\ stamps t' = stamps t /\ calls t' = calls t
  /\ dynT t' = dynT t /\ statT t' = statT t /\ numPairs t' = numPairs t.
Proof. destruct pv, nx; cbn; auto 10. Qed.

Lemma filter_out_notin (p : pref) (l : list pref) :
  p ∉ l -> filter (fun q => q <> p) l = l.
Proof.
  induction l as [|a l IH]; intros Hp; [reflexivity|].
  rewrite filter_cons. destruct (decide (a <> p)) as [_|Hc].
  - f_equal. apply IH. set_solver.
  - exfalso. apply Hp. destruct (decide (a = p)) as [->|]; [set_solver|tauto].
Qed.

Lemma filter_out_mid (p : pref) (pre post : list pref) :
  NoDup (pre ++ p :: post) ->
  filter (fun q => q <> p) (pre ++ p :: post) = pre ++ post.
Proof.
  intros Hnd. apply NoDup_app in Hnd as (_ & Hdis & Hnd).
  apply NoDup_cons in Hnd as [Hp _].
  rewrite filter_app, filter_cons.
  destruct (decide (p <> p)) as [Hc|_]; [contradiction|].
  rewrite !filter_out_notin; [reflexivity|exact Hp|].
  intros Hc. apply (Hdis p Hc). set_solver.
Qed.

Lemma th_del_sub p th l q : q ∈ th_del p th l -> q ∈ th l /\ q <> p.
Proof. unfold th_del. intros Hq%list_elem_of_filter. tauto. Qed.

Lemma th_del_elem p th l q : q ∈ th l -> q <> p -> q ∈ th_del p th l.
Proof. unfold th_del. intros. apply list_elem_of_filter. tauto. Qed.

(** The thread of [l] behind the pair taken out. *)
Lemma chain_behind ps ps' l p (pv nx : option pref) post :
  chain ps l (Some p) nx post -> NoDup post ->
  (forall q y, q ∈ post -> ps !! q = Some y ->
     exists y',
       ps' !! q = Some y' /\ leafA y' = leafA y /\ leafB y' = leafB y
       /\ next_of l y' = next_of l y
       /\ prev_of l y' = if decide (nx = Some q) then pv else prev_of l y) ->
  chain ps' l pv nx post.
Proof.
  intros Hc Hnd U. destruct post as [|n post]; [exact Hc|].
  apply NoDup_cons in Hnd as [Hn Hnd].
  pose proof Hc as (E & y & Hy & _).
  destruct (U n y) as (y' & Hy' & EA & EB & En & Ep); [set_solver|exact Hy|].
  eapply chain_reprev; eauto.
  - rewrite Ep, E. now rewrite decide_True.
  - intros q z Hq Hz.
    destruct (U q z) as (z' & Hz' & ? & ? & ? & Ezp); [set_solver|exact Hz|].
    exists z'. split; [exact Hz'|]. unfold same_links.
    rewrite E in Ezp. rewrite decide_False in Ezp; [auto|].
    intros [= ->]. contradiction.
Qed.

Lemma chain_suffix ps l :
  forall pre prev0 head suf,
    chain ps l prev0 head (pre ++ suf) ->
    exists prev1 head1, chain ps l prev1 head1 suf.
Proof.
  induction pre as [|v pre IH]; intros prev0 head suf Hc; [eauto|].
  destruct Hc as (_ & y & _ & _ & _ & _ & Hc). eapply IH, Hc.
Qed.

(** The thread of [l] with the pair [p] taken out by [unlinkThread]. *)
Lemma chain_unlink ps ps' l p x post :
  ps !! p = Some x ->
  forall pre prev0 head,
    chain ps l prev0 head (pre ++ p :: post) ->
    NoDup (pre ++ p :: post) ->
    (forall q, prev0 = Some q -> q ∉ pre ++ p :: post) ->
    (forall q y, q ∈ pre ++ post -> ps !! q = Some y ->
       exists y',
         ps' !! q = Some y' /\ leafA y' = leafA y /\ leafB y' = leafB y
         /\ next_of l y'
            = (if decide (prev_of l x = Some q) then next_of l x
               else next_of l y)
         /\ prev_of l y'
            = (if decide (next_of l x = Some q) then prev_of l x
               else prev_of l y)) ->
    chain ps' l prev0
      (match pre with [] => next_of l x | _ => head end) (pre ++ post)
    /\ match pre with
       | [] => prev_of l x = prev0
       | _ => exists v, prev_of l x = Some v /\ v ∈ pre
       end.
Proof.
  intros Hx. induction pre as [|v pre IH]; intros prev0 head Hc Hnd Hp0 U.
  - cbn in *. destruct Hc as (-> & x0 & Hx0 & Hon & Hne & Hp & Hc).
    assert (x0 = x) as -> by congruence. subst prev0.
    split; [|reflexivity].
    apply NoDup_cons in Hnd as [Hpn Hnd].
    eapply chain_behind; [exact Hc|exact Hnd|].
    intros q y Hq Hy. destruct (U q y Hq Hy) as (y' & ? & ? & ? & En & Ep).
    exists y'. repeat (split; [assumption|]). split; [|exact Ep].
    rewrite En. rewrite decide_False; [reflexivity|].
    intros E. apply (Hp0 q E). set_solver.
  - cbn [app] in *. apply NoDup_cons in Hnd as [Hv Hnd].
    pose proof Hc as (-> & y & Hy & Hon & Hne & Hp & Hc').
    destruct (chain_suffix _ _ _ _ _ _ Hc') as (pr1 & hd1 & Hcp).
    destruct Hcp as (_ & x0 & Hx0 & _ & _ & _ & Hcpost).
    assert (x0 = x) as -> by congruence.
    assert (Hnx : next_of l x <> Some v).
    { intros E. rewrite E in Hcpost. apply chain_head in Hcpost.
      apply Hv. set_solver. }
    destruct (IH (Some v) (next_of l y) Hc' Hnd) as [IHc IHp].
    { intros q [= <-]. exact Hv. }
    { intros q z Hq. apply U. set_solver. }
    destruct (U v y) as (y' & Hy' & EA & EB & En & Ep); [set_solver|exact Hy|].
    rewrite decide_False in Ep by exact Hnx.
    split.
    + split; [reflexivity|]. exists y'. split; [exact Hy'|].
      split; [eapply on_same; eauto|]. split; [congruence|].
      split; [congruence|]. rewrite En.
      destruct pre as [|v' pre].
      * rewrite IHp. rewrite decide_True by reflexivity. exact IHc.
      * destruct IHp as (v0 & E0 & Hv0). rewrite E0.
        rewrite decide_False; [exact IHc|].
        intros [= ->]. apply Hv. set_solver.
    + destruct pre as [|v' pre].
      * exists v. split; [exact IHp|set_solver].
      * destruct IHp as (v0 & E0 & Hv0). exists v0. split; [exact E0|set_solver].
Qed.

(** A pair relinked in the thread of [o] is to the thread of another leaf
    what it was. *)
Lemma unlink_other (o l : ref) (pv nx : option pref) (c1 c2 : bool) y :
  on l y -> (c1 || c2 = true -> on o y) -> o <> l ->
  same_links l y
    ((if c1 then with_next o nx else id)
       ((if c2 then with_prev o pv else id) y)).
Proof.
  intros Hl Ho Hne. unfold same_links.
  destruct c2; cbn [id].
  - assert (Hoy : on o y) by (apply Ho; now rewrite orb_true_r).
    destruct (with_prev_fields o pv y) as (EA & EB & _).
    destruct (with_prev_other o l pv y Hoy Hl Hne) as [En Ep].
    destruct c1; cbn [id]; [|auto].
    assert (Hoy' : on o (with_prev o pv y)) by (eapply on_same; eauto).
    assert (Hly' : on l (with_prev o pv y)) by (eapply on_same; eauto).
    destruct (with_next_fields o nx (with_prev o pv y)) as (EA' & EB' & _).
    destruct (with_next_other o l nx _ Hoy' Hly' Hne) as [En' Ep'].
    repeat split; congruence.
  - destruct c1; cbn [id]; [|auto].
    assert (Hoy : on o y) by (apply Ho; reflexivity).
    destruct (with_next_fields o nx y) as (EA & EB & _).
    destruct (with_next_other o l nx y Hoy Hl Hne) as [En Ep]. auto.
Qed.

(** The same pair in the thread of [o] itself. *)
Lemma unlink_own (o : ref) (pv nx : option pref) (c1 c2 : bool) y :
  let y' :=
    (if c1 then with_next o nx else id)
      ((if c2 then with_prev o pv else id) y) in
  leafA y' = leafA y /\ leafB y' = leafB y
  /\ next_of o y' = (if c1 then nx else next_of o y)
  /\ prev_of o y' = (if c2 then pv else prev_of o y).
Proof.
  cbn zeta. destruct c2; cbn [id].
  - destruct (with_prev_fields o pv y) as (EA & EB & En & Ep).
    destruct c1; cbn [id]; [|auto].
    destruct (with_next_fields o nx (with_prev o pv y)) as (EA' & EB' & En' & Ep').
    repeat split; congruence.
  - destruct c1; cbn [id]; [|auto].
    destruct (with_next_fields o nx y) as (EA & EB & En & Ep). auto.
Qed.

Lemma other_leaf_facts this x :
  on this x -> leafA x <> leafB x ->
  let o := other_leaf this x in
  o <> this /\ on o x
  /\ (if decide (leafA x = this)
      then (nextA x, prevB x, leafB x, nextB x)
      else (nextB x, prevA x, leafA x, nextA x))
     = (next_of this x, prev_of o x, o, next_of o x).
Proof.
  unfold on, other_leaf, next_of, prev_of. intros Hon Hne.
  destruct (decide (leafA x = this)) as [E|E]; cbn.
  - split; [congruence|]. split; [auto|].
    destruct (decide (leafA x = leafB x)); [contradiction|reflexivity].
  - destruct Hon as [?|Hb]; [contradiction|].
    split; [congruence|]. split; [auto|].
    destruct (decide (leafA x = leafA x)); [reflexivity|contradiction].
Qed.

Lemma Pair_recycle_fields t k p :
  let t' := Pair_recycle t k p in
  lpairs t' = lpairs t /\ stamps t' = stamps t /\ calls t' = calls t
  /\ numPairs t' = numPairs t
  /\ (forall k', stamp (treeT t' k') = stamp (treeT t k'))
  /\ pooledPairs (treeT t' k) = Some p
  /\ (forall k', k' <> k -> pooledPairs (treeT t' k') = pooledPairs (treeT t k'))
  /\ pairs t' = alter (fun x => set_prevA x (pooledPairs (treeT t k))) p (pairs t).
Proof.
  unfold Pair_recycle. destruct k; cbn; repeat split; auto;
    try (now intros []); intros [] ?; cbn; congruence.
Qed.

(** One turn of the loop of [clearPairs]. *)
Lemma clear_step_pool s t k this p th pd pst :
  clearing s t this (Some p) th pd pst ->
  exists x,
    pairs t !! p = Some x
    /\ let o := other_leaf this x in
       let t1 := unlinkThread t (prev_of o x) o (next_of o x) in
       let pools := with_pool k (p :: pool_of k pd pst) pd pst in
       (if decide (leafA x = this)
        then (nextA x, unlinkThread t (prevB x) (leafB x) (nextB x))
        else (nextB x, unlinkThread t (prevA x) (leafA x) (nextA x)))
       = (next_of this x, t1)
       /\ clearing s (Pair_recycle t1 k p) this (next_of this x)
            (th_del p th) pools.1 pools.2
       /\ th this = p :: th_del p th this.
Proof.
  intros H.
  pose proof (cl_rest _ _ _ _ _ _ _ H) as Hrest.
  destruct (th this) as [|p' rest] eqn:Eth; [discriminate Hrest|].
  destruct Hrest as ([= <-] & x & Hx & Hon & Hne & Hrest).
  pose proof (cl_nodup _ _ _ _ _ _ _ H this) as Hndt. rewrite Eth in Hndt.
  apply NoDup_cons in Hndt as [Hprest Hndrest].
  assert (Hpt : p ∈ th this) by (rewrite Eth; set_solver).
  destruct (other_leaf_facts this x Hon Hne) as (Hot & Hoo & Ecode).
  set (o := other_leaf this x) in *.
  set (pv := prev_of o x) in *. set (nx := next_of o x) in *.
  set (t1 := unlinkThread t pv o nx).
  destruct (unlinkThread_fields t pv o nx) as (L1 & S1 & C1 & D1 & T1 & N1).
  fold t1 in L1, S1, C1, D1, T1, N1.
  destruct (Pair_recycle_fields t1 k p) as (L2 & S2 & C2 & N2 & St2 & Hd2 & Ho2 & P2).
  set (t2 := Pair_recycle t1 k p) in *.
  assert (Hpo : p ∈ th o).
  { destruct (cl_both _ _ _ _ _ _ _ H this p x Hpt Hx) as (HA & HB & _).
    unfold o, other_leaf. destruct (decide (leafA x = this)); assumption. }
  apply list_elem_of_split in Hpo as (pre & post & Etho).
  pose proof (cl_nodup _ _ _ _ _ _ _ H o) as Hndo. rewrite Etho in Hndo.
  pose proof (cl_chain _ _ _ _ _ _ _ H o Hot) as Hco. rewrite Etho in Hco.
  assert (K : forall q y, q <> p -> pairs t !! q = Some y ->
    pairs t2 !! q
    = Some ((if bool_decide (pv = Some q) then with_next o nx else id)
              ((if bool_decide (nx = Some q) then with_prev o pv else id) y))).
  { intros q y Hq Hy. rewrite P2, lookup_alter_ne by congruence.
    unfold t1. rewrite unlinkThread_lookup, Hy. cbn.
    destruct (decide (pv = Some q)) as [E|E], (decide (nx = Some q)) as [E'|E'];
      rewrite ?(bool_decide_eq_true_2 _ E), ?(bool_decide_eq_false_2 _ E),
        ?(bool_decide_eq_true_2 _ E'), ?(bool_decide_eq_false_2 _ E');
      reflexivity. }
  assert (Kn : forall q, pairs t !! q = None -> pairs t2 !! q = None).
  { intros q Hq. rewrite P2.
    destruct (decide (q = p)) as [-> | Hne']; [congruence|].
    rewrite lookup_alter_ne by congruence.
    unfold t1. rewrite unlinkThread_lookup, Hq. reflexivity. }
  destruct (chain_unlink (pairs t) (pairs t2) o p x post Hx pre None
              (lpairs t !! o) Hco Hndo) as [Hco' Hpv].
  { discriminate. }
  { intros q y Hq Hy.
    assert (Hqp : q <> p).
    { intros ->. apply NoDup_app in Hndo as (_ & Hdis & Hnd').
      apply NoDup_cons in Hnd' as [Hn' _].
      apply elem_of_app in Hq as [Hq | Hq]; [|contradiction].
      apply (Hdis p Hq). set_solver. }
    eexists. split; [apply (K q y Hqp Hy)|].
    pose proof (unlink_own o pv nx (bool_decide (pv = Some q))
                  (bool_decide (nx = Some q)) y) as R. cbn zeta in R.
    destruct R as (EA & EB & En & Ep). split; [exact EA|]. split; [exact EB|].
    rewrite En, Ep. fold pv nx.
    split; [destruct (decide (pv = Some q)) as [E|E];
              [rewrite (bool_decide_eq_true_2 _ E)
              |rewrite (bool_decide_eq_false_2 _ E)]; reflexivity|].
    destruct (decide (nx = Some q)) as [E|E];
      [rewrite (bool_decide_eq_true_2 _ E)
      |rewrite (bool_decide_eq_false_2 _ E)]; reflexivity. }
  assert (F1 : forall q, pv = Some q -> q ∈ th o /\ q <> p).
  { intros q E. destruct pre as [|v pre'].
    - fold pv in Hpv. congruence.
    - destruct Hpv as (v0 & E0 & Hv0). fold pv in E0.
      assert (q = v0) as -> by congruence.
      split; [rewrite Etho; set_solver|].
      intros ->. apply NoDup_app in Hndo as (_ & Hdis & _).
      apply (Hdis p Hv0). set_solver. }
  assert (F2 : forall q, nx = Some q -> q ∈ th o /\ q <> p).
  { intros q E. destruct (chain_suffix _ _ _ _ _ _ Hco) as (pr1 & hd1 & Hcp).
    destruct Hcp as (_ & x0 & Hx0 & _ & _ & _ & Hcpost).
    assert (x0 = x) as -> by congruence. fold nx in Hcpost.
    rewrite E in Hcpost. apply chain_head in Hcpost.
    split; [rewrite Etho; set_solver|].
    intros ->. apply NoDup_app in Hndo as (_ & _ & Hnd').
    apply NoDup_cons in Hnd' as [Hn' _]. contradiction. }
  assert (Hon_all : forall l q, q ∈ th l ->
            exists y, pairs t !! q = Some y /\ on l y /\ leafA y <> leafB y).
  { intros l q Hq. destruct (decide (l = this)) as [-> | Hl].
    - eapply nchain_elem; [|exact Hq]. rewrite Eth. cbn.
      split; [reflexivity|]. exists x. eauto.
    - eapply chain_elem; [apply (cl_chain _ _ _ _ _ _ _ H l Hl)|exact Hq]. }
  assert (Hfree : forall q, q ∈ pd ++ pst ->
            q <> p /\ pairs t2 !! q = pairs t !! q).
  { intros q Hq.
    assert (Hnth : forall l, q ∉ th l).
    { intros l Hc. apply (cl_pool_free _ _ _ _ _ _ _ H l q Hc Hq). }
    assert (Hqp : q <> p) by (intros ->; apply (Hnth this Hpt)).
    split; [exact Hqp|].
    destruct (pairs t !! q) as [y|] eqn:Hy; [|now apply Kn].
    rewrite (K q y Hqp Hy).
    rewrite (bool_decide_eq_false_2 (pv = Some q)), (bool_decide_eq_false_2 (nx = Some q));
      [reflexivity| |].
    - intros E. apply (Hnth o). now apply F2.
    - intros E. apply (Hnth o). now apply F1. }
  assert (Hsame : forall l q y, l <> o -> q ∈ th l -> q <> p ->
            pairs t !! q = Some y ->
            exists y', pairs t2 !! q = Some y' /\ same_links l y y').
  { intros l q y Hl Hq Hqp Hy. eexists. split; [apply (K q y Hqp Hy)|].
    destruct (Hon_all l q Hq) as (y0 & Hy0 & Hly & _).
    assert (y0 = y) as -> by congruence.
    apply unlink_other; [exact Hly| |congruence].
    intros Hor. apply orb_true_iff in Hor as [E | E];
      apply bool_decide_eq_true in E.
    - destruct (Hon_all o q (proj1 (F1 q E))) as (y1 & Hy1 & ? & _). congruence.
    - destruct (Hon_all o q (proj1 (F2 q E))) as (y1 & Hy1 & ? & _). congruence. }
  assert (Hleaves : forall q z, q <> p -> pairs t2 !! q = Some z ->
            exists y, pairs t !! q = Some y /\ leafA z = leafA y /\ leafB z = leafB y).
  { intros q z Hqp Hz. destruct (pairs t !! q) as [y|] eqn:Hy.
    - exists y. split; [reflexivity|]. rewrite (K q y Hqp Hy) in Hz.
      injection Hz as <-.
      destruct (unlink_own o pv nx (bool_decide (pv = Some q))
                  (bool_decide (nx = Some q)) y) as (EA & EB & _). auto.
    - rewrite (Kn q Hy) in Hz. discriminate. }
  assert (Hlp : forall l, l <> o -> lpairs t2 !! l = lpairs t !! l).
  { intros l Hl. rewrite L2, L1. destruct pv; [reflexivity|].
    destruct nx; [now rewrite lookup_insert_ne by congruence|].
    now rewrite lookup_delete_ne by congruence. }
  assert (Hdel_this : th_del p th this = rest).
  { unfold th_del. rewrite Eth, filter_cons.
    destruct (decide (p <> p)); [contradiction|]. now apply filter_out_notin. }
  assert (Hdel_o : th_del p th o = pre ++ post).
  { unfold th_del. rewrite Etho. now apply filter_out_mid. }
  assert (Hdel_other : forall l, l <> this -> l <> o -> th_del p th l = th l).
  { intros l Hl1 Hl2. unfold th_del. apply filter_out_notin. intros Hc.
    destruct (Hon_all l p Hc) as (y & Hy & Hly & _).
    assert (y = x) as -> by congruence.
    unfold o, other_leaf in Hl2. unfold on in Hly, Hon.
    destruct (decide (leafA x = this)); destruct Hly, Hon; congruence. }
  assert (Hpool_old : forall k',
            ppool (pairs t2) (pooledPairs (treeT t k')) (pool_of k' pd pst)).
  { intros k'. eapply ppool_frame.
    - destruct k'; [apply (cl_poold _ _ _ _ _ _ _ H)|apply (cl_pools _ _ _ _ _ _ _ H)].
    - intros q Hq. apply Hfree. destruct k'; cbn in Hq; set_solver. }
  assert (Hp2 : exists xp, pairs t2 !! p = Some xp
                           /\ prevA xp = pooledPairs (treeT t k)).
  { pose proof (unlinkThread_lookup t pv o nx p) as E1p. fold t1 in E1p.
    rewrite P2, lookup_alter_eq, E1p, Hx. cbn. eexists.
    split; [reflexivity|]. cbn. destruct k; cbn; congruence. }
  assert (Hhead_other : forall k', k' <> k ->
            pooledPairs (treeT t2 k') = pooledPairs (treeT t k')).
  { intros k' Hk. rewrite (Ho2 k' Hk). destruct k'; cbn; congruence. }
  assert (Hpfree : p ∉ pd ++ pst).
  { apply (cl_pool_free _ _ _ _ _ _ _ H this p Hpt). }
  set (pools := with_pool k (p :: pool_of k pd pst) pd pst).
  exists x. split; [exact Hx|]. cbn zeta. fold pools.
  split.
  { fold o pv nx. unfold t1. destruct (decide (leafA x = this));
      injection Ecode as -> -> -> ->; reflexivity. }
  split; [|now rewrite Hdel_this].
  change (clearing s t2 this (next_of this x) (th_del p th) pools.1 pools.2).
  clearbody t2.
  constructor.
  - intros l Hl. destruct (decide (l = o)) as [-> | Hlo].
    + rewrite Hdel_o. rewrite L2, L1. destruct pre as [|v pre'].
      * fold pv in Hpv. rewrite Hpv.
        replace (match nx with
                 | Some n => <[o:=n]> (lpairs t)
                 | None => delete o (lpairs t)
                 end !! o) with nx; [exact Hco'|].
        destruct nx; [now rewrite lookup_insert_eq|now rewrite lookup_delete_eq].
      * destruct Hpv as (v0 & E0 & _). fold pv in E0. rewrite E0. exact Hco'.
    + rewrite (Hdel_other l Hl Hlo), (Hlp l Hlo).
      eapply chain_frame; [apply (cl_chain _ _ _ _ _ _ _ H l Hl)|].
      intros q y Hq Hy. apply Hsame; auto.
      intros ->. rewrite <- (Hdel_other l Hl Hlo) in Hq.
      apply th_del_sub in Hq. tauto.
  - rewrite (Hlp this) by congruence. apply (cl_this _ _ _ _ _ _ _ H).
  - rewrite Hdel_this. eapply nchain_frame; [exact Hrest|].
    intros q y Hq Hy.
    destruct (Hsame this q y) as (y' & Hy' & Hs); auto.
    { rewrite Eth. set_solver. }
    { intros ->. contradiction. }
    exists y'. split; [exact Hy'|]. now apply same_links_next.
  - intros l. unfold th_del. apply NoDup_filter, (cl_nodup _ _ _ _ _ _ _ H).
  - intros l q z Hq Hz. apply th_del_sub in Hq as [Hq Hqp].
    destruct (Hleaves q z Hqp Hz) as (y & Hy & EA & EB).
    destruct (cl_both _ _ _ _ _ _ _ H l q y Hq Hy) as (HA & HB & Hm).
    rewrite EA, EB. split; [now apply th_del_elem|].
    split; [now apply th_del_elem|]. eapply met_links; eauto.
  - destruct Hp2 as (xp & Hxp & Epx). unfold pools. destruct k; cbn.
    + split; [exact Hd2|]. exists xp. split; [exact Hxp|]. rewrite Epx.
      apply (Hpool_old Dynamic).
    + change (dynT t2) with (treeT t2 Dynamic).
      rewrite Hhead_other by discriminate. apply (Hpool_old Dynamic).
  - destruct Hp2 as (xp & Hxp & Epx). unfold pools. destruct k; cbn.
    + change (statT t2) with (treeT t2 Static).
      rewrite Hhead_other by discriminate. apply (Hpool_old Static).
    + split; [exact Hd2|]. exists xp. split; [exact Hxp|]. rewrite Epx.
      apply (Hpool_old Static).
  - pose proof (cl_pool_nodup _ _ _ _ _ _ _ H) as Hnd.
    unfold pools. destruct k; cbn.
    + apply NoDup_cons. split; assumption.
    + apply NoDup_app in Hnd as (Hn1 & Hdis & Hn2).
      apply NoDup_app. split; [exact Hn1|]. split.
      * intros q Hq Hq'. apply elem_of_cons in Hq' as [-> | Hq'].
        -- apply Hpfree. set_solver.
        -- apply (Hdis q Hq Hq').
      * apply NoDup_cons. split; [|exact Hn2]. intros Hc. apply Hpfree. set_solver.
  - intros l q Hq. apply th_del_sub in Hq as [Hq Hqp].
    pose proof (cl_pool_free _ _ _ _ _ _ _ H l q Hq) as Hn.
    unfold pools. destruct k; cbn; set_solver.
  - intros q [z Hz]. rewrite N2, N1. apply (cl_alloc _ _ _ _ _ _ _ H).
    destruct (pairs t !! q) eqn:Hy; [eauto|]. rewrite (Kn q Hy) in Hz. discriminate.
Qed.

Lemma clear_step s t k this p th pd pst :
  clearing s t this (Some p) th pd pst ->
  exists x pd' pst',
    pairs t !! p = Some x
    /\ let o := other_leaf this x in
       let t1 := unlinkThread t (prev_of o x) o (next_of o x) in
       (if decide (leafA x = this)
        then (nextA x, unlinkThread t (prevB x) (leafB x) (nextB x))
        else (nextB x, unlinkThread t (prevA x) (leafA x) (nextA x)))
       = (next_of this x, t1)
       /\ clearing s (Pair_recycle t1 k p) this (next_of this x)
            (th_del p th) pd' pst'
       /\ th this = p :: th_del p th this.
Proof.
  intros H. destruct (clear_step_pool s t k this p th pd pst H)
    as (x & Hx & Hs). cbn zeta in Hs.
  exists x. eexists. eexists. split; [exact Hx|]. cbn zeta. exact Hs.
Qed.

Lemma clearing_done s t this th pd pst :
  clearing s t this None th pd pst ->
  threads_ok s t th pd pst /\ th this = [].
Proof.
  intros H.
  assert (E : th this = []).
  { pose proof (cl_rest _ _ _ _ _ _ _ H) as Hr.
    destruct (th this); [reflexivity|]. destruct Hr as [? _]. discriminate. }
  split; [|exact E]. constructor; try apply H.
  intros l. destruct (decide (l = this)) as [-> | Hl].
  - rewrite E, (cl_this _ _ _ _ _ _ _ H). reflexivity.
  - now apply (cl_chain _ _ _ _ _ _ _ H).
Qed.

Lemma with_pool_same k pd pst : with_pool k (pool_of k pd pst) pd pst = (pd, pst).
Proof. now destruct k. Qed.

(** The loop of [clearPairs] puts the pairs of the thread on the free
    list of the tree [k], the first pair of the thread deepest. *)
Lemma clear_loop_pool s k this :
  forall n t head th pd pst,
    clearing s t this head th pd pst -> (length (th this) <= n)%nat ->
    let pools := with_pool k (rev (th this) ++ pool_of k pd pst) pd pst in
    exists th',
      threads_ok s (clearPairs_loop n t k this head) th' pools.1 pools.2
      /\ th' this = []
      /\ (forall l q, q ∈ th' l -> q ∈ th l)
      /\ stamps (clearPairs_loop n t k this head) = stamps t
      /\ (forall k', stamp (treeT (clearPairs_loop n t k this head) k')
                     = stamp (treeT t k'))
      /\ calls (clearPairs_loop n t k this head) = calls t
      /\ numPairs (clearPairs_loop n t k this head) = numPairs t.
Proof.
  induction n as [|n IH]; intros t head th pd pst H Hlen; cbn zeta.
  - assert (E : th this = []) by (destruct (th this); [reflexivity|cbn in Hlen; lia]).
    pose proof (cl_rest _ _ _ _ _ _ _ H) as Hr. rewrite E in Hr. cbn in Hr.
    subst head. destruct (clearing_done _ _ _ _ _ _ H) as [Hok _].
    exists th. rewrite E. cbn [rev app]. rewrite with_pool_same. cbn. auto 10.
  - destruct head as [p|].
    + destruct (clear_step_pool s t k this p th pd pst H) as (x & Hx & Hstep).
      cbn zeta in Hstep. destruct Hstep as (Ecode & Hcl & Eth).
      cbn [clearPairs_loop]. rewrite Hx, Ecode.
      set (t1 := unlinkThread t (prev_of (other_leaf this x) x)
                   (other_leaf this x) (next_of (other_leaf this x) x)) in *.
      set (pools1 := with_pool k (p :: pool_of k pd pst) pd pst) in *.
      destruct (IH (Pair_recycle t1 k p) (next_of this x) (th_del p th)
                  pools1.1 pools1.2 Hcl)
        as (th' & Hok & E' & Hsub & Es & Est & Ec & En).
      { rewrite Eth in Hlen. cbn in Hlen. lia. }
      exists th'. split.
      { rewrite Eth. cbn [rev]. rewrite <- app_assoc. cbn [app].
        replace (with_pool k (rev (th_del p th this) ++ p :: pool_of k pd pst)
                   pd pst)
          with (with_pool k (rev (th_del p th this)
                              ++ pool_of k pools1.1 pools1.2)
                  pools1.1 pools1.2);
          [exact Hok|].
        unfold pools1. now destruct k. }
      split; [exact E'|].
      destruct (unlinkThread_fields t (prev_of (other_leaf this x) x)
                  (other_leaf this x) (next_of (other_leaf this x) x))
        as (_ & S1 & C1 & D1 & T1 & N1). fold t1 in S1, C1, D1, T1, N1.
      destruct (Pair_recycle_fields t1 k p) as (_ & S2 & C2 & N2 & St2 & _).
      split; [intros l q Hq; apply Hsub in Hq; now apply th_del_sub in Hq|].
      split; [congruence|]. split; [|split; congruence].
      intros k'. rewrite Est, St2. destruct k'; cbn; congruence.
    + destruct (clearing_done _ _ _ _ _ _ H) as [Hok E].
      exists th. rewrite E. cbn [rev app]. rewrite with_pool_same. cbn. auto 10.
Qed.

Lemma clear_loop s k this :
  forall n t head th pd pst,
    clearing s t this head th pd pst -> (length (th this) <= n)%nat ->
    exists th' pd' pst',
      threads_ok s (clearPairs_loop n t k this head) th' pd' pst'
      /\ th' this = []
      /\ (forall l q, q ∈ th' l -> q ∈ th l)
      /\ stamps (clearPairs_loop n t k this head) = stamps t
      /\ (forall k', stamp (treeT (clearPairs_loop n t k this head) k')
                     = stamp (treeT t k'))
      /\ calls (clearPairs_loop n t k this head) = calls t.
Proof.
  intros n t head th pd pst H Hlen.
  destruct (clear_loop_pool s k this n t head th pd pst H Hlen)
    as (th' & Hok & E & Hsub & Es & Est & Ec & _).
  exists th'. eexists. eexists. split; [exact Hok|]. auto.
Qed.

(** [clearPairs] on the leaf [this] takes its pairs out of all threads and
    puts them, last first, on the free list of the tree. *)
Lemma clearPairs_pool s t k this th pd pst :
  threads_ok s t th pd pst ->
  let pools := with_pool k (rev (th this) ++ pool_of k pd pst) pd pst in
  exists th',
    threads_ok s (clearPairs t k this) th' pools.1 pools.2
    /\ th' this = []
    /\ (forall l q, q ∈ th' l -> q ∈ th l)
    /\ stamps (clearPairs t k this) = stamps t
    /\ (forall k', stamp (treeT (clearPairs t k this) k') = stamp (treeT t k'))
    /\ calls (clearPairs t k this) = calls t
    /\ numPairs (clearPairs t k this) = numPairs t.
Proof.
  intros H. cbn zeta. unfold clearPairs.
  assert (Hcl : clearing s (set_lpairs t this None) this (lpairs t !! this)
                  th pd pst).
  { constructor; try apply H.
    - intros l Hl. cbn. rewrite lookup_delete_ne by congruence.
      apply (tk_chain _ _ _ _ _ H).
    - cbn. apply lookup_delete_eq.
    - eapply chain_nchain. apply (tk_chain _ _ _ _ _ H). }
  destruct (clear_loop_pool s k this (numPairs t) _ _ th pd pst Hcl)
    as (th' & Hok & E & Hsub & Es & Est & Ec & En).
  { apply bounded_length; [apply (tk_nodup _ _ _ _ _ H)|].
    intros q Hq. apply (tk_alloc _ _ _ _ _ H).
    destruct (thread_allocated _ _ _ _ _ _ _ H Hq) as (x & Hx & _). eauto. }
  exists th'. split; [exact Hok|]. split; [exact E|].
  split; [exact Hsub|]. split; [exact Es|]. split; [|split; [exact Ec|exact En]].
  intros k'. rewrite Est. now destruct k'.
Qed.

Lemma clearPairs_ok s t k this th pd pst :
  threads_ok s t th pd pst ->
  exists th' pd' pst',
    threads_ok s (clearPairs t k this) th' pd' pst'
    /\ th' this = []
    /\ (forall l q, q ∈ th' l -> q ∈ th l)
    /\ stamps (clearPairs t k this) = stamps t
    /\ (forall k', stamp (treeT (clearPairs t k this) k') = stamp (treeT t k'))
    /\ calls (clearPairs t k this) = calls t.
Proof.
  intros H. destruct (clearPairs_pool s t k this th pd pst H)
    as (th' & Hok & E & Hsub & Es & Est & Ec & _).
  exists th'. eexists. eexists. split; [exact Hok|]. auto.
Qed.

(** The pairs of a thread have the leaf of the thread as one of theirs;
    so no pair is left on a leaf whose thread is empty. *)
Lemma empty_thread s t th pd pst this l p x :
  threads_ok s t th pd pst -> th this = [] ->
  p ∈ th l -> pairs t !! p = Some x -> leafA x <> this /\ leafB x <> this.
Proof.
  intros H E Hp Hx. destruct (tk_both _ _ _ _ _ H l p x Hp Hx) as (HA & HB & _).
  split; intros <-; rewrite E in *; set_solver.
Qed.

(** The invariant of the threads in another store that has the leaves of
    the pairs meet as well. *)
Lemma threads_ok_store s s' t th pd pst :
  threads_ok s t th pd pst ->
  (forall l p x, p ∈ th l -> pairs t !! p = Some x -> met s x -> met s' x) ->
  threads_ok s' t th pd pst.
Proof.
  intros H Hm. constructor; try apply H.
  intros l p x Hp Hx. destruct (tk_both _ _ _ _ _ H l p x Hp Hx) as (HA & HB & M).
  eauto.
Qed.

End ThreadFacts.

(** ** Marking keeps the threads sound *)

Module MarkingFacts.
Import BBTree TreeShape Structure Index ThreadInv TreeShapeFacts InsertFacts
  InvFacts RemoveInvFacts UpdateFacts ReachFacts PathFacts WorldFacts
  QueryFacts StepFacts ThreadFacts.
Local Open Scope Z_scope.

Lemma threads_ok_same s t t' th pd pst :
  pairs t' = pairs t -> lpairs t' = lpairs t ->
  pooledPairs (dynT t') = pooledPairs (dynT t) ->
  pooledPairs (statT t') = pooledPairs (statT t) ->
  numPairs t' = numPairs t ->
  threads_ok s t th pd pst -> threads_ok s t' th pd pst.
Proof.
  intros Ep El Ed Es En H.
  constructor; rewrite ?Ep, ?El, ?Ed, ?Es, ?En; apply H.
Qed.

Lemma grown_refl s t : threads_inv s t -> grown s t t.
Proof.
  intros H. split; [exact H|]. split; [reflexivity|]. split; [reflexivity|].
  exists []. split; [reflexivity|constructor].
Qed.

Lemma grown_trans s t t1 t2 : grown s t t1 -> grown s t1 t2 -> grown s t t2.
Proof.
  intros (_ & Es & Et & n1 & Ec & F1) (H2 & Es' & Et' & n2 & Ec' & F2).
  split; [exact H2|]. split; [congruence|].
  split; [intros k; now rewrite Et', Et|].
  exists (n2 ++ n1). split; [rewrite Ec', Ec; apply app_assoc|].
  apply Forall_app; auto.
Qed.

Lemma bbTreeIntersectsNode_sym a b :
  bbTreeIntersectsNode a b = bbTreeIntersectsNode b a.
Proof.
  unfold bbTreeIntersectsNode.
  destruct (bb_l a <=? bb_r b), (bb_l b <=? bb_r a), (bb_b a <=? bb_t b),
    (bb_b b <=? bb_t a); reflexivity.
Qed.

Lemma in_tree_obj s l id b :
  in_tree s l id b ->
  obj_of s l = id
  /\ exists o, objs s !! l = Some o /\ isLeaf o = true /\ box o = b.
Proof.
  intros [_ (o & Ho & Hl & Hid & Hb)]. unfold obj_of. rewrite Ho. cbn.
  rewrite Hid. eauto.
Qed.

Lemma pairInsert_grown s t k a b ida idb ba bb :
  threads_inv s t -> a <> b -> in_tree s a ida ba -> in_tree s b idb bb ->
  bbTreeIntersectsNode ba bb = true ->
  grown s t (pairInsert t k a b).
Proof.
  intros (th & pd & pst & H) Hab Ha Hb Hi.
  destruct (pairInsert_ok s t k a b th pd pst H Hab)
    as (pp & pd' & pst' & Hok & _ & Es & Et & Ec).
  { intros x EA EB. exists ida, idb, ba, bb. rewrite EA, EB. auto. }
  split; [exists (th_cons a b pp th), pd', pst'; exact Hok|].
  split; [exact Es|]. split; [exact Et|].
  exists []. split; [exact Ec|constructor].
Qed.

Lemma call_grown s t c1 c2 :
  threads_inv s t -> overlap s (c1, c2) -> grown s t (call t c1 c2).
Proof.
  intros (th & pd & pst & H) Ho.
  split; [exists th, pd, pst; eapply threads_ok_same; [..|exact H]; reflexivity|].
  split; [reflexivity|]. split; [now intros []|].
  exists [(c1, c2)]. split; [reflexivity|]. constructor; [exact Ho|constructor].
Qed.

(** [markLeafQuery] on a subtree that does not hold the leaf. *)
Lemma markLeafQuery_grown s k (func left : bool) leaf idl bl :
  in_tree s leaf idl bl ->
  forall n t subtree,
    threads_inv s t -> apart s subtree leaf ->
    grown s t (markLeafQuery n s t subtree leaf left k func).
Proof.
  intros Hleaf. destruct (in_tree_obj _ _ _ _ Hleaf) as (Eid & ol & Hol & Hll & Ebl).
  induction n as [|n IH]; intros t subtree Hinv Hap; cbn [markLeafQuery];
    [now apply grown_refl|].
  destruct (objs s !! subtree) as [o|] eqn:Ho; [|now apply grown_refl].
  rewrite Hol.
  destruct (bbTreeIntersectsNode (box ol) (box o)) eqn:Hi; [|now apply grown_refl].
  destruct (isLeaf o) eqn:Hlf.
  - destruct (Hap [] subtree o eq_refl Ho Hlf) as (Hne & id & Hsub).
    destruct (in_tree_obj _ _ _ _ Hsub) as (Eids & _).
    destruct left.
    + eapply pairInsert_grown; eauto. congruence.
    + set (t1 := if decide (stamp_of t subtree < stamp_of t leaf)
                 then pairInsert t k subtree leaf else t).
      assert (G1 : grown s t t1).
      { unfold t1. destruct (decide (stamp_of t subtree < stamp_of t leaf));
          [|now apply grown_refl].
        eapply pairInsert_grown; eauto.
        rewrite bbTreeIntersectsNode_sym. congruence. }
      destruct func; [|exact G1].
      eapply grown_trans; [exact G1|]. apply call_grown; [apply G1|].
      exists leaf, subtree, bl, (box o). cbn. rewrite Eid, Eids.
      split; [congruence|]. split; [exact Hleaf|]. split; [exact Hsub|].
      congruence.
  - destruct (A o) as [a|] eqn:HA; [|now apply grown_refl].
    destruct (B o) as [b|] eqn:HB; [|now apply grown_refl].
    assert (G1 : grown s t (markLeafQuery n s t a leaf left k func)).
    { apply IH; [exact Hinv|]. intros path l o' Hp. apply (Hap (false :: path)).
      cbn. rewrite Ho. cbn. rewrite Hlf, HA. exact Hp. }
    eapply grown_trans; [exact G1|]. apply IH; [apply G1|].
    intros path l o' Hp. apply (Hap (true :: path)).
    cbn. rewrite Ho. cbn. rewrite Hlf, HB. exact Hp.
Qed.

Lemma sub_at_shape' h t path u :
  shape' h t -> sub_at t path = Some u -> shape' h u.
Proof.
  revert t. induction path as [|d path IH]; intros t Hs E.
  - destruct t; cbn in E; injection E as <-; auto.
  - destruct t as [r | r a b]; cbn in E; [discriminate|].
    destruct Hs as (_ & _ & _ & Ha & Hb).
    destruct d; [apply (IH b) | apply (IH a)]; auto.
Qed.

(** The leaf objects below the root of a tree are the leaves of the
    tree. *)
Lemma below_leaf h u path l o :
  shape' h u -> at_path h (rt u) path = Some l -> h !! l = Some o ->
  isLeaf o = true -> l ∈ leafs u.
Proof.
  intros Hs Hp Ho Hlf.
  destruct (at_path_sub _ _ _ _ Hs Hp) as (u' & Hu & Eu).
  pose proof (sub_at_shape' _ _ _ _ Hs Hu) as Hsu.
  destruct u' as [x | x a b]; cbn in Eu; subst x.
  - eapply sub_at_leafs, Hu.
  - destruct Hsu as ((o' & Ho' & Hn & _) & _). congruence.
Qed.

Lemma shape'_apart s u leaf :
  shape' (objs s) u ->
  (forall l, l ∈ leafs u -> l <> leaf /\ exists id b, in_tree s l id b) ->
  apart s (rt u) leaf.
Proof.
  intros Hs Hl path l o Hp Ho Hlf.
  destruct (Hl l (below_leaf _ _ _ _ _ Hs Hp Ho Hlf)) as (Hne & id & b & Hin).
  split; [exact Hne|]. exists id.
  destruct (in_tree_obj _ _ _ _ Hin) as (_ & o' & Ho' & _ & Eb).
  assert (o' = o) as -> by congruence. now rewrite Eb.
Qed.

Lemma inv_in_tree s k ot ot' pl pl' l :
  inv_k s k ot ot' pl pl' -> l ∈ oleafs ot -> exists id b, in_tree s l id b.
Proof.
  intros Hinv Hl.
  destruct (proj1 (hangs_leafs s k ot ot' pl pl' Hinv l) Hl)
    as (Hh & o & Ho & Hlf).
  destruct (inv_shapes _ _ _ _ _ _ Hinv l o) as (id & Hid & _);
    [set_solver|exact Ho|].
  exists id, (box o). split; [eauto|]. exists o. auto.
Qed.

Lemma ctx_leafs_refs c l : l ∈ ctx_leafs c -> l ∈ ctx_refs c.
Proof.
  induction c as [| r c IH sib | r sib c IH]; cbn; [set_solver| |];
    intros Hl; apply elem_of_app in Hl as [Hl | Hl];
    try (apply leafs_in_refs in Hl); set_solver.
Qed.

(** The walk of [markSubtree] from a leaf to the root. *)
Lemma markAncestors_grown s k (func : bool) this idl bl :
  in_tree s this idl bl ->
  forall n c node t,
    ctx_shape (objs s) c node -> parent_at (objs s) node (ctx_parent c) ->
    node ∉ ctx_refs c -> NoDup (ctx_refs c) ->
    (forall l, l ∈ ctx_leafs c ->
       l <> this /\ exists id b, in_tree s l id b) ->
    threads_inv s t ->
    grown s t (markAncestors n s t node this k func).
Proof.
  intros Hthis. induction n as [|n IH]; intros c node t Hc Hp Hn Hnd Hl Hinv;
    cbn [markAncestors]; [now apply grown_refl|].
  destruct Hp as (o & Ho & Hpar). rewrite Ho. cbn [mbind option_bind].
  rewrite Hpar.
  destruct c as [| r c sib | r sib c]; cbn in Hc, Hn, Hnd, Hl |- *.
  - now apply grown_refl.
  - destruct Hc as ((op & Hop & Hnl & HA & HB) & Hps & Hss & Hpr & Hc).
    rewrite Hop. cbn. rewrite HA, decide_True by reflexivity. rewrite HB.
    apply NoDup_cons in Hnd as [Hr Hnd]. apply NoDup_app in Hnd as (_ & _ & Hnd).
    assert (G1 : grown s t (markLeafQuery (nobjs s) s t (rt sib) this true k func)).
    { eapply markLeafQuery_grown; eauto. apply shape'_apart; [exact Hss|].
      intros l Hin. apply Hl. set_solver. }
    eapply grown_trans; [exact G1|].
    apply (IH c r); auto; [set_solver| |apply G1].
    intros l Hin. apply Hl. set_solver.
  - destruct Hc as ((op & Hop & Hnl & HA & HB) & Hps & Hss & Hpr & Hc).
    rewrite Hop. cbn. rewrite HA.
    rewrite decide_False.
    2:{ intros [= E]. apply Hn. rewrite <- E.
        pose proof (rt_in_refs sib). set_solver. }
    apply NoDup_cons in Hnd as [Hr Hnd]. apply NoDup_app in Hnd as (_ & _ & Hnd).
    assert (G1 : grown s t (markLeafQuery (nobjs s) s t (rt sib) this false k func)).
    { eapply markLeafQuery_grown; eauto. apply shape'_apart; [exact Hss|].
      intros l Hin. apply Hl. set_solver. }
    eapply grown_trans; [exact G1|].
    apply (IH c r); auto; [set_solver| |apply G1].
    intros l Hin. apply Hl. set_solver.
Qed.

(** The cached pairs of a leaf, replayed. *)
Lemma replayPairs_grown s (func : bool) this th pd pst :
  forall n t th0 prev pp,
    threads_ok s t th pd pst -> chain (pairs t) this prev pp th0 ->
    (forall q, q ∈ th0 -> q ∈ th this) ->
    grown s t (replayPairs n s t this pp func).
Proof.
  induction n as [|n IH]; intros t th0 prev pp H Hc Hsub;
    [apply grown_refl; exists th, pd, pst; exact H|].
  destruct pp as [p|]; cbn [replayPairs]; [|apply grown_refl; exists th, pd, pst; exact H].
  destruct th0 as [|p0 th0]; [discriminate Hc|].
  destruct Hc as (Ehd & x & Hx & Hon & Hne & _ & Hc).
  injection Ehd as Ehd. subst p0. rewrite Hx.
  destruct (tk_both _ _ _ _ _ H this p x) as (_ & _ & Hm);
    [apply Hsub; set_solver|exact Hx|].
  assert (Hsub' : forall q, q ∈ th0 -> q ∈ th this) by (intros; apply Hsub; set_solver).
  unfold next_of in Hc.
  destruct (decide (this = leafB x)) as [E|E].
  - rewrite decide_False in Hc by congruence.
    set (t1 := if func then call t (obj_of s (leafA x)) (obj_of s this) else t).
    assert (G1 : grown s t t1).
    { unfold t1. destruct func; [|apply grown_refl; exists th, pd, pst; exact H].
      apply call_grown; [exists th, pd, pst; exact H|].
      destruct Hm as (ida & idb & ba & bb & HA & HB & Hi).
      destruct (in_tree_obj _ _ _ _ HA) as (EA & _).
      destruct (in_tree_obj _ _ _ _ HB) as (EB & _).
      exists (leafA x), (leafB x), ba, bb. cbn. rewrite E, EA, EB. auto. }
    eapply grown_trans; [exact G1|].
    assert (H1 : threads_ok s t1 th pd pst).
    { unfold t1. destruct func; [|exact H].
      eapply threads_ok_same; [..|exact H]; reflexivity. }
    apply (IH t1 th0 (Some p)); auto.
    replace (pairs t1) with (pairs t); [exact Hc|].
    unfold t1. now destruct func.
  - rewrite decide_True in Hc by (destruct Hon; congruence).
    apply (IH t th0 (Some p)); auto.
Qed.

Lemma at_path_app h :
  forall pa r q, at_path h r (pa ++ q) = n ← at_path h r pa; at_path h n q.
Proof.
  induction pa as [|d pa IH]; intros r q; [reflexivity|]. cbn.
  destruct (h !! r) as [o|]; [|reflexivity]. cbn.
  destruct (isLeaf o); [reflexivity|].
  destruct (if d then B o else A o); [|reflexivity]. cbn. apply IH.
Qed.

(** No leaf of the tree of the other index is the leaf [this] of this
    one. *)
Lemma other_root_apart s k tr ot' pl pl' this r :
  inv_k s k (Some tr) ot' pl pl' -> this ∈ leafs tr ->
  root (treeS s (other k)) = Some r -> apart s r this.
Proof.
  intros Hinv Hthis Hr.
  pose proof (inv_other _ _ _ _ _ _ Hinv) as Hoth.
  destruct ot' as [t'|]; cbn in Hoth; [|congruence].
  destruct Hoth as (Ert & [Hs _] & _).
  assert (r = rt t') as -> by congruence.
  apply shape'_apart; [exact Hs|]. intros l Hl. split.
  - intros ->. pose proof (inv_nodup _ _ _ _ _ _ Hinv) as Hnd. cbn in Hnd.
    apply NoDup_app in Hnd as (_ & Hdis & _).
    apply (Hdis this); [now apply leafs_in_refs|].
    apply elem_of_app. left. now apply leafs_in_refs.
  - apply (inv_in_tree s (other k) (Some t') (Some tr) pl' pl);
      [now apply inv_k_swap|exact Hl].
Qed.

(** [markSubtree] of a leaf in a tree. *)
Lemma Leaf_markSubtree_grown s t k (func : bool) c this ot' pl pl' :
  inv_k s k (Some (plug c (TLeaf this))) ot' pl pl' ->
  threads_inv s t ->
  grown s t
    (Leaf_markSubtree s t this k
       (match k with Dynamic => root (statS s) | Static => None end) func).
Proof.
  intros Hinv Ht.
  assert (Hin : this ∈ leafs (plug c (TLeaf this))).
  { rewrite leafs_plug. set_solver. }
  destruct (inv_in_tree s k _ _ _ _ this Hinv Hin) as (idl & bl & Hthis).
  unfold Leaf_markSubtree.
  destruct (decide (stamp_of t this = getStamp t k)) as [_|_].
  - set (t1 := match match k with Dynamic => root (statS s) | Static => None end with
               | Some sr => markLeafQuery (nobjs s) s t sr this false k func
               | None => t
               end).
    assert (G1 : grown s t t1).
    { unfold t1. destruct k; [|now apply grown_refl].
      destruct (root (statS s)) as [sr|] eqn:Esr; [|now apply grown_refl].
      eapply markLeafQuery_grown; eauto.
      eapply (other_root_apart s Dynamic); eauto. }
    eapply grown_trans; [exact G1|].
    pose proof (inv_own _ _ _ _ _ _ Hinv) as (_ & Hsh & _).
    apply shape_plug in Hsh as [[_ Hpar] Hctx]. cbn in Hpar, Hctx.
    pose proof (inv_nodup _ _ _ _ _ _ Hinv) as Hnd. cbn in Hnd.
    apply NoDup_app in Hnd as (Hnd & _ & _).
    rewrite refs_plug in Hnd. cbn in Hnd. apply NoDup_cons in Hnd as [Hn Hnd].
    eapply (markAncestors_grown s k func this idl bl Hthis (nobjs s) c this t1);
      auto; [|apply G1].
    intros l Hl. split.
    + intros ->. apply Hn. now apply ctx_leafs_refs.
    + apply (inv_in_tree s k _ _ _ _ l Hinv). cbn. rewrite leafs_plug. set_solver.
  - destruct Ht as (th & pd & pst & H).
    eapply (replayPairs_grown s func this th pd pst (numPairs t) t (th this));
      [exact H|apply (tk_chain _ _ _ _ _ H)|auto].
Qed.

(** [markSubtree] from an object of a tree on. *)
Lemma markSubtree_grown s k (func : bool) tr ot' pl pl' :
  inv_k s k (Some tr) ot' pl pl' ->
  forall n t node path,
    at_path (objs s) (rt tr) path = Some node -> threads_inv s t ->
    grown s t
      (markSubtree n s t node k
         (match k with Dynamic => root (statS s) | Static => None end) func).
Proof.
  intros Hinv. induction n as [|n IH]; intros t node path Hp Ht;
    cbn [markSubtree]; [now apply grown_refl|].
  destruct (objs s !! node) as [o|] eqn:Ho; [|now apply grown_refl].
  destruct (isLeaf o) eqn:Hlf.
  - pose proof (inv_own _ _ _ _ _ _ Hinv) as (_ & [Hs _] & _).
    pose proof (below_leaf _ _ _ _ _ Hs Hp Ho Hlf) as Hin.
    destruct (leafs_ctx _ _ Hin) as (c & E). rewrite E in Hinv.
    eapply Leaf_markSubtree_grown; eauto.
  - destruct (A o) as [a|] eqn:HA; [|now apply grown_refl].
    destruct (B o) as [b|] eqn:HB; [|now apply grown_refl].
    assert (G1 : grown s t
                   (markSubtree n s t a k
                      (match k with Dynamic => root (statS s) | Static => None end)
                      func)).
    { apply (IH t a (path ++ [false])); [|exact Ht].
      rewrite at_path_app, Hp. cbn. rewrite Ho. cbn. now rewrite Hlf, HA. }
    eapply grown_trans; [exact G1|].
    apply (IH _ b (path ++ [true])); [|apply G1].
    rewrite at_path_app, Hp. cbn. rewrite Ho. cbn. now rewrite Hlf, HB.
Qed.

(** [addPairs] of a leaf in a tree. *)
Lemma addPairs_grown s t k c this ot' pl pl' :
  inv_k s k (Some (plug c (TLeaf this))) ot' pl pl' ->
  threads_inv s t ->
  grown s t (addPairs s t this k).
Proof.
  intros Hinv Ht. unfold addPairs. destruct k.
  - apply (Leaf_markSubtree_grown s t Dynamic false c this ot' pl pl' Hinv Ht).
  - destruct (root (dynS s)) as [dr|] eqn:Edr; [|now apply grown_refl].
    assert (Hin : this ∈ leafs (plug c (TLeaf this))).
    { rewrite leafs_plug. set_solver. }
    destruct (inv_in_tree s Static _ _ _ _ this Hinv Hin) as (idl & bl & Hthis).
    eapply markLeafQuery_grown; eauto.
    eapply (other_root_apart s Static); eauto.
Qed.

End MarkingFacts.

(** ** The threads across the methods *)

Module ThreadOpsFacts.
Import BBTree TreeShape Structure Index ThreadInv TreeShapeFacts InsertFacts
  InvFacts RemoveInvFacts UpdateFacts ReachFacts PathFacts WorldFacts
  QueryFacts StepFacts ThreadFacts MarkingFacts.
Local Open Scope Z_scope.

Local Ltac step :=
  cbn -[subtreeRemove subtreeInsert update recycle clearPairs addPairs
        getBB markSubtree update_all update_allS incrementStamp getStamp].

Lemma met_keep s s' L x :
  (forall l id b, in_tree s l id b -> l <> L -> in_tree s' l id b) ->
  leafA x <> L -> leafB x <> L -> met s x -> met s' x.
Proof.
  intros Hk HA HB (ida & idb & ba & bb & H1 & H2 & Hi).
  exists ida, idb, ba, bb. auto.
Qed.

Lemma leaf_of_kept s s' l id b :
  leaves_kept (objs s) (objs s') -> leaf_of s l id b -> leaf_of s' l id b.
Proof.
  intros Hk (o & Ho & Hl & Hid & Hb).
  destruct (Hk l o Ho Hl) as (o' & Ho' & Hl' & Hid' & Hb').
  exists o'. repeat split; congruence.
Qed.

(** A leaf that hangs in a tree before hangs in it after, when the trees
    of the invariant keep their leaves but [L]. *)
Lemma in_tree_keep s s' k ot ot' pl pl' nt nt' npl npl' L :
  inv_k s k ot ot' pl pl' -> inv_k s' k nt nt' npl npl' ->
  (forall l, l ∈ oleafs ot -> l <> L -> l ∈ oleafs nt) ->
  (forall l, l ∈ oleafs ot' -> l <> L -> l ∈ oleafs nt') ->
  (forall l id b, leaf_of s l id b -> l <> L -> leaf_of s' l id b) ->
  forall l id b, in_tree s l id b -> l <> L -> in_tree s' l id b.
Proof.
  intros Hinv Hinv' Hl Hl' Hk l id b [[k0 Hh] Hlo] Hne.
  split; [|now apply Hk].
  assert (Hobj : exists o, objs s !! l = Some o /\ isLeaf o = true).
  { destruct Hlo as (o & Ho & Hlf & _). eauto. }
  assert (Hk0 : k0 = k \/ k0 = other k) by (destruct k0, k; auto).
  destruct Hk0 as [-> | ->].
  - exists k.
    apply (hangs_leafs s' k nt nt' npl npl' Hinv' l), Hl; [|exact Hne].
    apply (hangs_leafs s k ot ot' pl pl' Hinv l). auto.
  - exists (other k). apply inv_k_swap in Hinv, Hinv'.
    apply (hangs_leafs s' (other k) nt' nt npl' npl Hinv' l), Hl'; [|exact Hne].
    apply (hangs_leafs s (other k) ot' ot pl' pl Hinv l). auto.
Qed.

Lemma in_tree_alloc s l id b : inv s -> in_tree s l id b -> (l < nobjs s)%nat.
Proof.
  intros (td & ts & pd & ps & Hinv) [_ (o & Ho & _)].
  apply (inv_alloc _ _ _ _ _ _ Hinv). eauto.
Qed.

Lemma incrementStamp_ok s t k th pd pst :
  threads_ok s t th pd pst -> threads_ok s (incrementStamp t k) th pd pst.
Proof.
  intros H. eapply threads_ok_same; [..|exact H]; unfold incrementStamp;
    destruct k; try destruct (decide (stamp (dynT t) = 0)); reflexivity.
Qed.

Lemma incrementStamp_calls t k : calls (incrementStamp t k) = calls t.
Proof.
  unfold incrementStamp.
  destruct k; try destruct (decide (stamp (dynT t) = 0)); reflexivity.
Qed.

Lemma insert_threads w k id w' :
  insert w k id = Some w' ->
  let L := nobjs (store w) in
  let t0 := set_lpairs (set_stamp (threads w) L 1) L None in
  threads w'
  = incrementStamp
      (addPairs (store w') (set_stamp t0 L (getStamp t0 k)) L k) k
  /\ is_Some (shapes (store w) !! id).
Proof.
  unfold insert, newLeaf. intros H.
  destruct (getBB (store w) id) as [bxv|] eqn:Hbb; [|discriminate].
  assert (Hsh : is_Some (shapes (store w) !! id)).
  { unfold getBB in Hbb. destruct (shapes (store w) !! id); [eauto|discriminate]. }
  revert H. step.
  match goal with |- context [subtreeInsert ?f ?s k ?r ?l] =>
    destruct (subtreeInsert f s k r l) as [[s3 r3]|] end; [|discriminate].
  step. intros [= <-]. split; [reflexivity|exact Hsh].
Qed.

(** [insert] keeps the threads sound. *)
Lemma insert_threads_inv w k id w' :
  inv (store w) -> threads_inv (store w) (threads w) ->
  insert w k id = Some w' ->
  threads_inv (store w') (threads w').
Proof.
  intros Hinv0 (th & pd & pst & H) Hins.
  destruct (inv_any _ k Hinv0) as (ot & ot' & pl & pl' & Hinv).
  destruct (insert_threads w k id w' Hins) as [Et Hsh]. cbn zeta in Et.
  destruct (insertS_inv _ k id ot ot' pl pl' Hinv Hsh)
    as (s' & t' & pl2 & Es' & Hinv' & _ & Hkept & Hins' & _ & _ & _).
  pose proof (fmap_Some_store _ _ _ _ (store_insert w k id) Hins) as Est.
  rewrite Es' in Est. injection Est as Est. subst s'.
  set (L := nobjs (store w)) in *.
  set (t0 := set_lpairs (set_stamp (threads w) L 1) L None) in *.
  set (t1 := set_stamp t0 L (getStamp t0 k)) in *.
  assert (HthL : th L = []).
  { destruct (th L) as [|p r] eqn:E; [reflexivity|]. exfalso.
    assert (Hp : p ∈ th L) by (rewrite E; set_solver).
    destruct (thread_allocated _ _ _ _ _ _ _ H Hp) as (x & Hx & Hon & _).
    destruct (tk_both _ _ _ _ _ H L p x Hp Hx)
      as (_ & _ & ida & idb & ba & bb & HA & HB & _).
    apply (in_tree_alloc _ _ _ _ Hinv0) in HA, HB.
    destruct Hon as [E'|E']; rewrite E' in *; unfold L in *; lia. }
  assert (HlpL : lpairs (threads w) !! L = None).
  { pose proof (tk_chain _ _ _ _ _ H L) as Hc. rewrite HthL in Hc. exact Hc. }
  assert (Hleafs : forall l, l ∈ oleafs ot -> l ∈ leafs t').
  { intros l Hl. destruct ot as [t|]; cbn in Hins', Hl; [|set_solver].
    destruct Hins' as (N & Hti & _). rewrite (tins_leafs _ _ _ _ Hti). set_solver. }
  assert (HL : L ∈ leafs t').
  { destruct ot as [t|]; cbn in Hins'.
    - destruct Hins' as (N & Hti & _). rewrite (tins_leafs _ _ _ _ Hti). set_solver.
    - destruct Hins' as [-> _]. cbn. set_solver. }
  assert (H1 : threads_ok (store w') t1 th pd pst).
  { eapply threads_ok_store.
    - eapply threads_ok_same; [..|exact H]; try reflexivity.
      cbn. now apply delete_id.
    - intros l p x Hp Hx Hm.
      destruct Hm as (ida & idb & ba & bb & HA & HB & Hi).
      exists ida, idb, ba, bb.
      split; [|split; [|exact Hi]];
        eapply (in_tree_keep _ _ k ot ot' pl pl' (Some t') ot' pl2 pl' L);
        eauto using leaf_of_kept;
        intros E; [apply (in_tree_alloc _ _ _ _ Hinv0) in HA
                  |apply (in_tree_alloc _ _ _ _ Hinv0) in HB];
        rewrite E in *; unfold L in *; lia. }
  destruct (leafs_ctx _ _ HL) as (c & Ec). rewrite Ec in Hinv'.
  destruct (addPairs_grown (store w') t1 k c L ot' pl2 pl' Hinv')
    as ((th2 & pd2 & pst2 & H2) & _ & _ & new & Ec2 & _).
  { exists th, pd, pst. exact H1. }
  rewrite Et. exists th2, pd2, pst2. now apply incrementStamp_ok.
Qed.

Lemma remove_threads w k id w' :
  remove w k id = Some w' ->
  exists leaf,
    leaves (treeS (store w) k) !! id = Some leaf
    /\ threads w' = clearPairs (threads w) k leaf.
Proof.
  unfold remove. intros H.
  destruct (leaves (treeS (store w) k) !! id) as [l|]; [|discriminate].
  exists l. split; [reflexivity|]. revert H. step.
  match goal with |- context [subtreeRemove ?f ?s k ?r ?l] =>
    destruct (subtreeRemove f s k r l) as [[s2 r2]|] end; [|discriminate].
  step. match goal with |- context [recycle ?s k l] =>
    destruct (recycle s k l) end; [|discriminate].
  step. now intros [= <-].
Qed.

(** The threads after [clearPairs] on [L], in a store that keeps the
    other leaves. *)
Lemma cleared_store s s' t k L th pd pst :
  threads_ok s t th pd pst ->
  (forall l id b, in_tree s l id b -> l <> L -> in_tree s' l id b) ->
  threads_inv s' (clearPairs t k L)
  /\ stamps (clearPairs t k L) = stamps t
  /\ calls (clearPairs t k L) = calls t.
Proof.
  intros H Hk.
  destruct (clearPairs_ok s t k L th pd pst H)
    as (th' & pd' & pst' & Hok & E & _ & Es & _ & Ec).
  split; [|auto]. exists th', pd', pst'.
  eapply threads_ok_store; [exact Hok|]. intros l p x Hp Hx Hm.
  destruct (empty_thread _ _ _ _ _ _ _ _ _ Hok E Hp Hx) as [HA HB].
  eapply met_keep; eauto.
Qed.

(** [remove] keeps the threads sound. *)
Lemma remove_threads_inv w k id w' :
  inv (store w) -> threads_inv (store w) (threads w) ->
  remove w k id = Some w' ->
  threads_inv (store w') (threads w').
Proof.
  intros Hinv0 (th & pd & pst & H) Hrem.
  destruct (inv_any _ k Hinv0) as (ot & ot' & pl & pl' & Hinv).
  destruct (remove_threads w k id w' Hrem) as (L & HL & Et).
  pose proof (inv_leaves _ _ _ _ _ _ Hinv id L HL) as HLin.
  destruct ot as [t|]; cbn in HLin; [|set_solver].
  destruct (leafs_ctx _ _ HLin) as (c & ->).
  destruct (removeS_inv _ k id L c ot' pl pl' Hinv HL)
    as (s' & Es' & Hinv' & _ & Hkept & _).
  pose proof (fmap_Some_store _ _ _ _ (store_remove w k id) Hrem) as Est.
  rewrite Es' in Est. injection Est as Est. subst s'.
  rewrite Et. eapply cleared_store; [exact H|].
  eapply (in_tree_keep _ _ k _ _ _ _ _ _ _ _ L Hinv Hinv'); eauto using leaf_of_kept.
  intros l Hl Hne. cbn in Hl. rewrite tdel_leafs_perm in Hl. set_solver.
Qed.

Lemma Leaf_update_threads w k this w' (b : bool) :
  Leaf_update w k this = Some (w', b) ->
  if b
  then threads w'
       = set_stamp (clearPairs (threads w) k this) this
           (getStamp (clearPairs (threads w) k this) k)
  else w' = w.
Proof.
  unfold Leaf_update.
  destruct (objs (store w) !! this) as [o|]; [|discriminate]. step.
  destruct (obj o) as [i|]; [|discriminate]. step.
  destruct (shapes (store w) !! i) as [sb|]; [|discriminate]. step.
  destruct (containsObj (box o) sb); [now intros [= <- <-]|].
  destruct (getBB (store w) i) as [bxv|]; [|discriminate].
  step.
  destruct (update (store w) this _) as [s1|]; [|discriminate].
  step.
  destruct (subtreeRemove _ _ _ _ _) as [[s2 r2]|]; [|discriminate].
  step.
  destruct (subtreeInsert _ _ _ _ _) as [[s3 r3]|]; [|discriminate].
  now intros [= <- <-].
Qed.

(** [Leaf.update] keeps the threads sound and makes no callback. *)
Lemma Leaf_update_threads_inv w k L c ot' pl pl' w' b :
  inv_k (store w) k (Some (plug c (TLeaf L))) ot' pl pl' ->
  threads_inv (store w) (threads w) ->
  Leaf_update w k L = Some (w', b) ->
  exists t',
    inv_k (store w') k (Some t') ot' pl pl'
    /\ leafs t' ≡ₚ leafs (plug c (TLeaf L))
    /\ threads_inv (store w') (threads w')
    /\ calls (threads w') = calls (threads w).
Proof.
  intros Hinv (th & pd & pst & H) Hupd.
  destruct (updateS_inv _ k L c ot' pl pl' Hinv)
    as (s' & b' & t' & Es' & Hinv' & _ & _ & Hperm & _).
  pose proof (store_Leaf_update w k L) as Est. rewrite Hupd, Es' in Est.
  cbn in Est. injection Est as Est Eb. subst s' b'.
  destruct (updateS_leaves _ k L c ot' pl pl' _ _ Hinv Es') as [Hkept _].
  exists t'. split; [exact Hinv'|]. split; [exact Hperm|].
  pose proof (Leaf_update_threads w k L w' b Hupd) as Et.
  destruct b.
  - rewrite Et.
    destruct (cleared_store (store w) (store w') (threads w) k L th pd pst H)
      as ((th' & pd' & pst' & Hok) & _ & Ec).
    { eapply (in_tree_keep _ _ k _ _ _ _ _ _ _ _ L Hinv Hinv'); eauto.
      - intros l Hl _. cbn in *. now rewrite Hperm.
      - intros l id bb (o & Ho & Hlf & Hid & Hb) Hne.
        destruct (Hkept l o Ho Hlf Hne) as (o' & Ho' & Hlf' & Hid' & Hb').
        exists o'. repeat split; congruence. }
    split; [|exact Ec]. exists th', pd', pst'.
    eapply threads_ok_same; [..|exact Hok]; reflexivity.
  - subst w'. split; [|reflexivity]. exists th, pd, pst. exact H.
Qed.

Lemma update_all_threads_inv k ls :
  forall w t ot' pl pl' w',
    inv_k (store w) k (Some t) ot' pl pl' ->
    (forall l, l ∈ ls -> l ∈ leafs t) ->
    threads_inv (store w) (threads w) ->
    update_all w k ls = Some w' ->
    exists t',
      inv_k (store w') k (Some t') ot' pl pl'
      /\ leafs t' ≡ₚ leafs t
      /\ threads_inv (store w') (threads w')
      /\ calls (threads w') = calls (threads w).
Proof.
  induction ls as [|L ls IH]; intros w t ot' pl pl' w' Hinv Hls Ht H;
    cbn [update_all] in H.
  - injection H as <-. exists t. auto.
  - destruct (Leaf_update w k L) as [[w1 b]|] eqn:E1; [|discriminate].
    cbn in H.
    destruct (leafs_ctx t L) as (c & ->); [apply Hls; set_solver|].
    destruct (Leaf_update_threads_inv w k L c ot' pl pl' w1 b Hinv Ht E1)
      as (t1 & Hinv1 & P1 & Ht1 & Ec1).
    destruct (IH w1 t1 ot' pl pl' w' Hinv1) as (t2 & Hinv2 & P2 & Ht2 & Ec2);
      auto.
    { intros l Hl. rewrite P1. apply Hls. set_solver. }
    exists t2. split; [exact Hinv2|]. split; [now rewrite P2|].
    split; [exact Ht2|congruence].
Qed.

(** [reindexObject] keeps the threads sound. *)
Lemma reindexObject_threads_inv w k id w' :
  inv (store w) -> threads_inv (store w) (threads w) ->
  reindexObject w k id = Some w' ->
  threads_inv (store w') (threads w').
Proof.
  intros Hinv0 Ht H. unfold reindexObject in H.
  destruct (leaves (treeS (store w) k) !! id) as [L|] eqn:HL;
    [|now injection H as <-].
  destruct (inv_any _ k Hinv0) as (ot & ot' & pl & pl' & Hinv).
  pose proof (inv_leaves _ _ _ _ _ _ Hinv id L HL) as HLin.
  destruct ot as [t|]; cbn in HLin; [|set_solver].
  destruct (leafs_ctx _ _ HLin) as (c & ->).
  destruct (Leaf_update w k L) as [[w1 b]|] eqn:E1; [|discriminate].
  cbn in H. injection H as <-. cbn [store threads].
  destruct (Leaf_update_threads_inv w k L c ot' pl pl' w1 b Hinv Ht E1)
    as (t1 & Hinv1 & P1 & Ht1 & Ec1).
  assert (G : threads_inv (store w1)
                (if b then addPairs (store w1) (threads w1) L k else threads w1)).
  { destruct b; [|exact Ht1].
    destruct (leafs_ctx t1 L) as (c1 & E); [rewrite P1; exact HLin|].
    rewrite E in Hinv1.
    apply (addPairs_grown (store w1) (threads w1) k c1 L ot' pl pl' Hinv1 Ht1). }
  destruct G as (th & pd & pst & G). exists th, pd, pst.
  now apply incrementStamp_ok.
Qed.

(** [reindexQuery] keeps the threads sound, and each of its callbacks is
    for two leaves that overlap. *)
Lemma reindexQuery_threads_inv w k w' :
  inv (store w) -> threads_inv (store w) (threads w) ->
  reindexQuery w k = Some w' ->
  threads_inv (store w') (threads w')
  /\ exists new,
       calls (threads w') = new ++ calls (threads w)
       /\ Forall (overlap (store w')) new.
Proof.
  intros Hinv0 Ht H. unfold reindexQuery in H.
  destruct (root (treeS (store w) k)) as [r0|] eqn:Er0.
  2:{ injection H as <-. split; [exact Ht|]. exists []. split; [reflexivity|constructor]. }
  destruct (inv_any _ k Hinv0) as (ot & ot' & pl & pl' & Hinv).
  destruct ot as [t|].
  2:{ pose proof (inv_own _ _ _ _ _ _ Hinv) as Hown. cbn in Hown. congruence. }
  destruct (update_all w k (leaves_in_order (treeS (store w) k))) as [w1|] eqn:E1;
    [|discriminate].
  cbn [mbind option_bind] in H.
  destruct (update_all_threads_inv k (leaves_in_order (treeS (store w) k))
              w t ot' pl pl' w1 Hinv) as
    (t1 & Hinv1 & P1 & Ht1 & Ec1); auto.
  { intros l Hl. apply leaves_in_order_elem in Hl as (id & Hid).
    apply (inv_leaves _ _ _ _ _ _ Hinv id l Hid). }
  pose proof (inv_own _ _ _ _ _ _ Hinv1) as (Ert & _).
  rewrite Ert in H.
  destruct (markSubtree_grown (store w1) k true t1 ot' pl pl' Hinv1
              (fuel (store w1)) (threads w1) (rt t1) [] eq_refl Ht1)
    as ((th & pd & pst & G) & _ & _ & new & Ec & Hnew).
  set (m := markSubtree (fuel (store w1)) (store w1) (threads w1) (rt t1) k
              (match k with Dynamic => root (statS (store w1)) | Static => None end)
              true) in *.
  clearbody m. injection H as <-. cbn [store threads].
  split; [exists th, pd, pst; now apply incrementStamp_ok|].
  exists new. rewrite incrementStamp_calls, Ec, Ec1. auto.
Qed.

Lemma threads_inv_objs s s' t :
  objs s' = objs s -> dynS s' = dynS s -> statS s' = statS s ->
  threads_inv s t -> threads_inv s' t.
Proof.
  intros Eo Ed Es (th & pd & pst & H). exists th, pd, pst.
  eapply threads_ok_store; [exact H|]. intros l p x _ _.
  assert (Hin : forall l id b, in_tree s l id b -> in_tree s' l id b).
  { intros l0 id b [[k0 (r & path & Er & Hp)] (o & Ho & Hrest)]. split.
    - exists k0, r, path. rewrite Eo. split; [|exact Hp].
      destruct k0; cbn in *; congruence.
    - exists o. rewrite Eo. auto. }
  intros (ida & idb & ba & bb & HA & HB & Hi). exists ida, idb, ba, bb. auto.
Qed.

(** The threads are sound in every state that the methods lead to. *)
Lemma reached_threads w : reached w -> threads_inv (store w) (threads w).
Proof.
  induction 1 as [shapes | w k id w' Hr IH E | w k id w' Hr IH E
                 | w id bxv Hr IH | w f Hr IH | w k id w' Hr IH E
                 | w k w' Hr IH E].
  - exists (fun _ => []), [], []. constructor; cbn; try set_solver.
    + intros l. apply NoDup_nil_2.
    + apply NoDup_nil_2.
    + intros p [x Hx]. rewrite lookup_empty in Hx. discriminate.
  - eapply insert_threads_inv; eauto using reached_inv.
  - eapply remove_threads_inv; eauto using reached_inv.
  - eapply threads_inv_objs; [..|exact IH]; reflexivity.
  - eapply threads_inv_objs; [..|exact IH]; reflexivity.
  - eapply reindexObject_threads_inv; eauto using reached_inv.
  - eapply reindexQuery_threads_inv; eauto using reached_inv.
Qed.

End ThreadOpsFacts.

(** ** The callbacks of [reindexQuery] and the cache of pairs *)

Module CallbackFacts.
Import BBTree TreeShape Structure Index ThreadInv TreeShapeFacts InsertFacts
  InvFacts RemoveInvFacts UpdateFacts ReachFacts PathFacts WorldFacts
  InvariantFacts QueryFacts StepFacts CurrentFacts FiledFacts MarkFacts
  ThreadFacts MarkingFacts ThreadOpsFacts.
Local Open Scope Z_scope.

Lemma reindexQuery_returns w k : reached w -> is_Some (reindexQuery w k).
Proof.
  intros Hr. pose proof (reached_inv w Hr) as Hinv.
  destruct (inv_any _ k Hinv) as (ot & ot' & pl & pl' & Hk).
  destruct (reindexQueryS_inv _ k ot ot' pl pl' Hk) as (s' & nt & E & _).
  rewrite <- store_reindexQuery in E.
  destruct (reindexQuery w k); [eauto|discriminate].
Qed.

(** [reindexQuery(func)] returns, and every call of [func] it makes is
    for the shapes of two different leaves that hang in the trees when it
    returns and whose boxes meet.  When no shape was inserted into an
    index that it was in, the two shapes are in an index then:
    [contains] is true for them. *)
Theorem reindexQuery_callbacks (w : World) (k : which) :
  reached w ->
  exists w' new,
    reindexQuery w k = Some w'
    /\ calls (threads w') = new ++ calls (threads w)
    /\ (forall c, c ∈ new -> overlap (store w') c)
    /\ (reached_fresh w ->
        forall c, c ∈ new ->
          exists k1 k2,
            contains w' k1 c.1 = true /\ contains w' k2 c.2 = true).
Proof.
  intros Hr. destruct (reindexQuery_returns w k Hr) as [w' E].
  destruct (reindexQuery_threads_inv w k w' (reached_inv w Hr)
              (reached_threads w Hr) E) as (_ & new & Ec & Hnew).
  exists w', new. split; [exact E|]. split; [exact Ec|].
  rewrite Forall_forall in Hnew. split; [exact Hnew|].
  intros Hf c Hc.
  assert (Hf' : reached_fresh w') by (eapply fresh_reindexQuery; eauto).
  destruct (Hnew c Hc)
    as (l1 & l2 & b1 & b2 & _ & [[k1 Hh1] Hl1] & [[k2 Hh2] Hl2] & _).
  exists k1, k2. split; apply contains_leaves.
  - destruct (fresh_index w' k1 Hf') as (Hfd & _).
    rewrite (Hfd l1 c.1 b1 Hh1 Hl1). eauto.
  - destruct (fresh_index w' k2 Hf') as (Hfd & _).
    rewrite (Hfd l2 c.2 b2 Hh2 Hl2). eauto.
Qed.

Lemma sample_query_reached : reached SampleQuery.world.
Proof.
  unfold SampleQuery.world.
  destruct (do_calls (empty SampleTree.shapes) (take 4 SampleTree.calls))
    as [w|] eqn:E.
  - cbn. eapply do_calls_reached; [|exact E]. constructor.
  - cbn. constructor.
Qed.

Lemma reindexQuery_callbacks_witness :
  exists w' new,
    reindexQuery SampleQuery.world Dynamic = Some w'
    /\ calls (threads w') = new ++ calls (threads SampleQuery.world)
    /\ (forall c, c ∈ new -> overlap (store w') c)
    /\ (reached_fresh SampleQuery.world ->
        forall c, c ∈ new ->
          exists k1 k2,
            contains w' k1 c.1 = true /\ contains w' k2 c.2 = true).
Proof.
  apply (reindexQuery_callbacks SampleQuery.world Dynamic sample_query_reached).
Defined.

Lemma thread_from_chain ps l :
  forall th n prev head,
    chain ps l prev head th -> (length th <= n)%nat ->
    thread_from n ps l head = th.
Proof.
  induction th as [|p th IH]; intros n prev head Hc Hn.
  - cbn in Hc. subst head. now destruct n.
  - destruct Hc as (-> & x & Hx & _ & _ & _ & Hc).
    destruct n as [|n]; [cbn in Hn; lia|]. cbn. rewrite Hx. f_equal.
    apply (IH n (Some p)); [exact Hc|]. cbn in Hn. lia.
Qed.

Lemma thread_of_ok s t th pd pst l :
  threads_ok s t th pd pst -> thread_of t l = th l.
Proof.
  intros H. unfold thread_of.
  apply (thread_from_chain _ _ _ _ None); [apply (tk_chain _ _ _ _ _ H)|].
  apply bounded_length; [apply (tk_nodup _ _ _ _ _ H)|].
  intros q Hq. apply (tk_alloc _ _ _ _ _ H).
  destruct (thread_allocated _ _ _ _ _ _ _ H Hq) as (x & Hx & _). eauto.
Qed.

(** The cache of pairs is sound in every state that the methods lead to:
    a pair met on the thread of a leaf joins this leaf and another one,
    both hang in the trees and their boxes meet, and the pair is on the
    threads of both. *)
Theorem pair_threads_sound (w : World) (l : ref) (p : pref) :
  reached w -> p ∈ thread_of (threads w) l ->
  exists x,
    pairs (threads w) !! p = Some x
    /\ on l x /\ leafA x <> leafB x /\ met (store w) x
    /\ p ∈ thread_of (threads w) (leafA x)
    /\ p ∈ thread_of (threads w) (leafB x).
Proof.
  intros Hr Hp. destruct (reached_threads w Hr) as (th & pd & pst & H).
  rewrite (thread_of_ok _ _ _ _ _ l H) in Hp.
  destruct (thread_allocated _ _ _ _ _ _ _ H Hp) as (x & Hx & Hon & Hne).
  destruct (tk_both _ _ _ _ _ H l p x Hp Hx) as (HA & HB & Hm).
  exists x. rewrite !(thread_of_ok _ _ _ _ _ _ H). auto 10.
Qed.

Lemma pair_threads_sound_witness :
  exists x,
    pairs (threads SampleTree.world) !! 2%nat = Some x
    /\ on 4%nat x /\ leafA x <> leafB x /\ met (store SampleTree.world) x
    /\ 2%nat ∈ thread_of (threads SampleTree.world) (leafA x)
    /\ 2%nat ∈ thread_of (threads SampleTree.world) (leafB x).
Proof.
  apply (pair_threads_sound SampleTree.world 4%nat 2%nat sample_reached).
  vm_compute. apply list_elem_of_here.
Defined.

(** *** What makes no callback *)

Lemma clearPairs_loop_calls k this :
  forall n t pp, calls (clearPairs_loop n t k this pp) = calls t.
Proof.
  induction n as [|n IH]; intros t pp; [reflexivity|].
  destruct pp as [p|]; [|reflexivity]. cbn [clearPairs_loop].
  destruct (pairs t !! p) as [x|]; [|reflexivity].
  destruct (decide (leafA x = this)); rewrite IH;
    destruct (Pair_recycle_fields
                (unlinkThread t (prevB x) (leafB x) (nextB x)) k p)
      as (_ & _ & C1 & _);
    destruct (Pair_recycle_fields
                (unlinkThread t (prevA x) (leafA x) (nextA x)) k p)
      as (_ & _ & C2 & _);
    destruct (unlinkThread_fields t (prevB x) (leafB x) (nextB x))
      as (_ & _ & C3 & _);
    destruct (unlinkThread_fields t (prevA x) (leafA x) (nextA x))
      as (_ & _ & C4 & _); congruence.
Qed.

Lemma clearPairs_calls t k this : calls (clearPairs t k this) = calls t.
Proof. unfold clearPairs. now rewrite clearPairs_loop_calls. Qed.

Lemma markAncestors_quiet s this k :
  forall n t node, calls (markAncestors n s t node this k false) = calls t.
Proof.
  induction n as [|n IH]; intros t node; [reflexivity|].
  cbn [markAncestors].
  destruct (o ← objs s !! node; pr ← parent o; op ← objs s !! pr; Some (pr, op))
    as [[pr op]|]; [|reflexivity].
  rewrite IH. destruct (decide (A op = Some node)).
  - destruct (B op); [|reflexivity]. apply markLeafQuery_quiet. auto.
  - destruct (A op); [|reflexivity]. apply markLeafQuery_quiet. auto.
Qed.

Lemma replayPairs_quiet s this :
  forall n t pp, calls (replayPairs n s t this pp false) = calls t.
Proof.
  induction n as [|n IH]; intros t pp; [reflexivity|].
  destruct pp as [p|]; [|reflexivity]. cbn [replayPairs].
  destruct (pairs t !! p) as [x|]; [|reflexivity].
  destruct (decide (this = leafB x)); apply IH.
Qed.

Lemma addPairs_quiet s t this k : calls (addPairs s t this k) = calls t.
Proof.
  unfold addPairs. destruct k.
  - unfold Leaf_markSubtree.
    destruct (decide (stamp_of t this = getStamp t Dynamic)).
    + rewrite markAncestors_quiet. destruct (root (statS s)); [|reflexivity].
      apply markLeafQuery_quiet. auto.
    + apply replayPairs_quiet.
  - destruct (root (dynS s)); [|reflexivity]. apply markLeafQuery_quiet. auto.
Qed.

(** Only [reindexQuery] calls back: [insert], [remove], [reindexObject],
    a move of a shape and a change of [velocityFunc] leave the record of
    the callbacks as it is. *)
Theorem only_reindexQuery_calls (w : World) (c : method_call) (w' : World) :
  (forall k, c <> ReindexQuery k) -> do_call w c = Some w' ->
  calls (threads w') = calls (threads w).
Proof.
  intros Hc E. destruct c as [k id | k id | id bxv | f | k id | k]; cbn in E.
  - destruct (insert_threads w k id w' E) as [Et _]. cbn zeta in Et.
    rewrite Et, incrementStamp_calls, addPairs_quiet. reflexivity.
  - destruct (remove_threads w k id w' E) as (L & _ & Et).
    rewrite Et. apply clearPairs_calls.
  - now injection E as <-.
  - now injection E as <-.
  - unfold reindexObject in E.
    destruct (leaves (treeS (store w) k) !! id) as [L|];
      [|now injection E as <-].
    destruct (Leaf_update w k L) as [[w1 b]|] eqn:E1; [|discriminate].
    cbn in E. injection E as <-. cbn [threads].
    rewrite incrementStamp_calls.
    pose proof (Leaf_update_threads w k L w1 b E1) as Et.
    destruct b.
    + rewrite addPairs_quiet, Et. cbn. apply clearPairs_calls.
    + now subst w1.
  - exfalso. now apply (Hc k).
Qed.

Lemma only_reindexQuery_calls_witness :
  exists w',
    do_call SampleTree.world (Remove Dynamic 3) = Some w'
    /\ calls (threads w') = calls (threads SampleTree.world).
Proof.
  destruct (do_call SampleTree.world (Remove Dynamic 3)) as [w'|] eqn:E.
  - exists w'. split; [reflexivity|].
    apply (only_reindexQuery_calls SampleTree.world (Remove Dynamic 3) w');
      [discriminate|exact E].
  - exfalso. revert E. vm_compute. discriminate.
Defined.

End CallbackFacts.

(** ** Pooling in the states that the methods lead to *)

Module PoolingFacts.
Import BBTree TreeShape Structure Index ThreadInv Pools TreeShapeFacts
  InsertFacts RemoveFacts InvFacts RemoveInvFacts UpdateFacts ReachFacts
  PathFacts WorldFacts InvariantFacts QueryFacts StepFacts ThreadFacts
  MarkingFacts ThreadOpsFacts CallbackFacts.
Local Open Scope Z_scope.

Local Ltac opt :=
  repeat match goal with
  | H : _ ≫= _ = Some _ |- _ =>
      let E := fresh "E" in apply bind_Some in H as (? & E & H)
  | H : Some _ = Some _ |- _ => injection H as H
  | H : (let '(_, _) := ?p in _) = Some _ |- _ => destruct p
  | H : (if ?b then _ else _) = Some _ |- _ => destruct b
  | H : None = Some _ |- _ => discriminate H
  end.

(** *** The free lists as the invariants have them *)

Lemma pool_from_ok h :
  forall l n head,
    pool_ok h head l -> (length l <= n)%nat -> pool_from n h head = l.
Proof.
  induction l as [|r l IH]; intros n head Hp Hn.
  - cbn in Hp. subst head. now destruct n.
  - destruct Hp as (-> & o & Ho & _ & Hp).
    destruct n as [|n]; [cbn in Hn; lia|].
    cbn. rewrite Ho. f_equal. apply IH; [exact Hp|]. cbn in Hn. lia.
Qed.

Lemma node_pool_inv s k ot ot' pl pl' :
  inv_k s k ot ot' pl pl' -> node_pool s k = pl.
Proof.
  intros H. unfold node_pool.
  apply pool_from_ok; [apply (inv_pool _ _ _ _ _ _ H)|].
  pose proof (inv_nodup _ _ _ _ _ _ H) as Hnd.
  apply NoDup_app4 in Hnd as (_ & _ & Hndp & _).
  apply bounded_length; [exact Hndp|].
  intros x Hx. apply (inv_alloc _ _ _ _ _ _ H).
  eapply pool_ok_is_Some; [apply (inv_pool _ _ _ _ _ _ H)|exact Hx].
Qed.

Lemma node_pool_inv' s k ot ot' pl pl' :
  inv_k s k ot ot' pl pl' -> node_pool s (other k) = pl'.
Proof. intros H. apply inv_k_swap in H. eapply node_pool_inv; eauto. Qed.

Lemma pool_ok_node h head l x :
  pool_ok h head l -> x ∈ l -> exists o, h !! x = Some o /\ isLeaf o = false.
Proof.
  revert head. induction l as [|r l IH]; intros head Hp Hx; [set_solver|].
  destruct Hp as (_ & o & Ho & Hl & Hp).
  apply elem_of_cons in Hx as [-> | Hx]; [eauto|]. eapply IH; eauto.
Qed.

Lemma ppool_from_ok ps :
  forall l n head,
    ppool ps head l -> (length l <= n)%nat -> ppool_from n ps head = l.
Proof.
  induction l as [|r l IH]; intros n head Hp Hn.
  - cbn in Hp. subst head. now destruct n.
  - destruct Hp as (-> & o & Ho & Hp).
    destruct n as [|n]; [cbn in Hn; lia|].
    cbn. rewrite Ho. f_equal. apply IH; [exact Hp|]. cbn in Hn. lia.
Qed.

Lemma ppool_allocated ps head l q :
  ppool ps head l -> q ∈ l -> is_Some (ps !! q).
Proof.
  revert head. induction l as [|r l IH]; intros head Hp Hq; [set_solver|].
  destruct Hp as (_ & o & Ho & Hp).
  apply elem_of_cons in Hq as [-> | Hq]; [eauto|]. eapply IH; eauto.
Qed.

Lemma pair_pool_ok s t th pd pst k :
  threads_ok s t th pd pst -> pair_pool t k = pool_of k pd pst.
Proof.
  intros H. unfold pair_pool.
  pose proof (tk_pool_nodup _ _ _ _ _ H) as Hnd.
  apply NoDup_app in Hnd as (Hd & _ & Hs).
  destruct k; cbn [pool_of treeT].
  - apply ppool_from_ok; [apply (tk_poold _ _ _ _ _ H)|].
    apply bounded_length; [exact Hd|].
    intros q Hq. apply (tk_alloc _ _ _ _ _ H).
    eapply ppool_allocated; [apply (tk_poold _ _ _ _ _ H)|exact Hq].
  - apply ppool_from_ok; [apply (tk_pools _ _ _ _ _ H)|].
    apply bounded_length; [exact Hs|].
    intros q Hq. apply (tk_alloc _ _ _ _ _ H).
    eapply ppool_allocated; [apply (tk_pools _ _ _ _ _ H)|exact Hq].
Qed.

(** *** What the subtree functions allocate *)

Lemma update_counts s r f s' :
  update s r f = Some s' ->
  numNodes s' = numNodes s /\ numLeaves s' = numLeaves s
  /\ dynS s' = dynS s /\ statS s' = statS s.
Proof.
  unfold update. destruct (objs s !! r); [|discriminate].
  cbn. intros [= <-]. cbn. auto.
Qed.

Lemma setA_counts s n v s' :
  setA s n v = Some s' ->
  numNodes s' = numNodes s /\ numLeaves s' = numLeaves s
  /\ dynS s' = dynS s /\ statS s' = statS s.
Proof.
  unfold setA. intros H. opt.
  apply update_counts in H as (? & ? & ? & ?).
  match goal with E : update _ _ _ = Some _ |- _ =>
    apply update_counts in E as (? & ? & ? & ?) end.
  repeat split; congruence.
Qed.

Lemma setB_counts s n v s' :
  setB s n v = Some s' ->
  numNodes s' = numNodes s /\ numLeaves s' = numLeaves s
  /\ dynS s' = dynS s /\ statS s' = statS s.
Proof.
  unfold setB. intros H. opt.
  apply update_counts in H as (? & ? & ? & ?).
  match goal with E : update _ _ _ = Some _ |- _ =>
    apply update_counts in E as (? & ? & ? & ?) end.
  repeat split; congruence.
Qed.

Lemma Node_constructor_counts s n a b s' :
  Node_constructor s n a b = Some s' ->
  numNodes s' = numNodes s /\ numLeaves s' = numLeaves s
  /\ dynS s' = dynS s /\ statS s' = statS s.
Proof.
  unfold Node_constructor. intros H. opt.
  apply setB_counts in H as (? & ? & ? & ?).
  match goal with E : setA _ _ _ = Some _ |- _ =>
    apply setA_counts in E as (? & ? & ? & ?) end.
  cbn in *. repeat split; congruence.
Qed.

(** [makeNode] allocates a node only when the free list is empty. *)
Lemma makeNode_counts s k a b s' n :
  makeNode s k a b = Some (s', n) ->
  numLeaves s' = numLeaves s
  /\ numNodes s'
     = match pooledNodes (treeS s k) with
       | Some _ => numNodes s
       | None => S (numNodes s)
       end.
Proof.
  unfold makeNode. intros H.
  destruct (pooledNodes (treeS s k)); opt; subst.
  - match goal with E : Node_constructor _ _ _ _ = Some _ |- _ =>
      apply Node_constructor_counts in E as (? & ? & _) end.
    destruct k; cbn in *; split; congruence.
  - match goal with E : Node_constructor _ _ _ _ = Some _ |- _ =>
      apply Node_constructor_counts in E as (? & ? & _) end.
    cbn in *. split; congruence.
Qed.

Lemma recycle_counts s k r s' :
  recycle s k r = Some s' ->
  numNodes s' = numNodes s /\ numLeaves s' = numLeaves s.
Proof.
  unfold recycle. intros H. opt; subst; [auto|].
  match goal with E : update _ _ _ = Some _ |- _ =>
    apply update_counts in E as (? & ? & _) end.
  destruct k; cbn; auto.
Qed.

Lemma refit_counts fuel :
  forall s n s',
    refit fuel s n = Some s' ->
    numNodes s' = numNodes s /\ numLeaves s' = numLeaves s.
Proof.
  induction fuel as [|fuel IH]; intros s [r|] s' H; cbn in H;
    try discriminate; opt; subst; auto.
  apply IH in H as (? & ?).
  match goal with E : update _ _ _ = Some _ |- _ =>
    apply update_counts in E as (? & ? & _) end.
  split; congruence.
Qed.

Lemma replaceChild_counts fuel s k this child value s' :
  replaceChild fuel s k this child value = Some s' ->
  numNodes s' = numNodes s /\ numLeaves s' = numLeaves s.
Proof.
  unfold replaceChild. intros H. opt.
  - apply refit_counts in H as (? & ?).
    match goal with E : setA _ _ _ = Some _ |- _ =>
      apply setA_counts in E as (? & ? & _) end.
    match goal with E : recycle _ _ _ = Some _ |- _ =>
      apply recycle_counts in E as (? & ?) end.
    split; congruence.
  - apply refit_counts in H as (? & ?).
    match goal with E : setB _ _ _ = Some _ |- _ =>
      apply setB_counts in E as (? & ? & _) end.
    match goal with E : recycle _ _ _ = Some _ |- _ =>
      apply recycle_counts in E as (? & ?) end.
    split; congruence.
Qed.

Lemma subtreeRemove_counts fuel s k st l s' r :
  subtreeRemove fuel s k st l = Some (s', r) ->
  numNodes s' = numNodes s /\ numLeaves s' = numLeaves s.
Proof.
  unfold subtreeRemove. intros H.
  destruct (decide (Some l = st)); [now injection H as <- <-|].
  apply bind_Some in H as (ol & Eol & H).
  destruct (decide (parent ol = st)).
  - opt. subst.
    match goal with E : recycle _ _ _ = Some _ |- _ =>
      apply recycle_counts in E as (? & ?) end.
    match goal with E : update _ _ _ = Some _ |- _ =>
      apply update_counts in E as (? & ? & _) end.
    split; congruence.
  - opt. subst. eapply replaceChild_counts; eauto.
Qed.

(** [subtreeInsert] below a root allocates one node when the free list is
    empty and none otherwise. *)
Lemma subtreeInsert_counts fuel :
  forall s k st l s' r,
    subtreeInsert fuel s k (Some st) l = Some (s', r) ->
    numLeaves s' = numLeaves s
    /\ numNodes s'
       = match pooledNodes (treeS s k) with
         | Some _ => numNodes s
         | None => S (numNodes s)
         end.
Proof.
  induction fuel as [|fuel IH]; intros s k st l s' r H; cbn in H;
    try discriminate.
  apply bind_Some in H as (o & Eo & H).
  destruct (isLeaf o); [eapply makeNode_counts; eauto|].
  apply bind_Some in H as (a & Ea & H). apply bind_Some in H as (b & Eb & H).
  apply bind_Some in H as (oa & Eoa & H).
  apply bind_Some in H as (ob & Eob & H).
  apply bind_Some in H as (ol & Eol & H).
  match type of H with (let '(_, _) := ?p in _) = _ => destruct p end.
  apply bind_Some in H as (s2 & E2 & H).
  apply bind_Some in H as (o2 & Eo2 & H).
  apply bind_Some in H as (ol2 & Eol2 & H).
  apply bind_Some in H as (s3 & E3 & H). injection H as <- <-.
  apply update_counts in E3 as (N3 & L3 & _).
  match type of E2 with (if ?c then _ else _) = _ => destruct c end;
    apply bind_Some in E2 as ([s1 r1] & E1 & E2).
  - apply setB_counts in E2 as (N2 & L2 & _).
    apply IH in E1 as (L1 & N1). split; congruence.
  - apply setA_counts in E2 as (N2 & L2 & _).
    apply IH in E1 as (L1 & N1). split; congruence.
Qed.

Lemma insertS_counts s k id s' :
  insertS s k id = Some s' ->
  numLeaves s' = S (numLeaves s)
  /\ numNodes s'
     = match root (treeS s k), pooledNodes (treeS s k) with
       | Some _, None => S (numNodes s)
       | _, _ => numNodes s
       end.
Proof.
  intros H.
  assert (Hb : exists bxv, getBB s id = Some bxv).
  { unfold insertS in H. apply bind_Some in H as (bxv & Eb & _). eauto. }
  destruct Hb as [bxv Eb]. rewrite (insertS_unfold _ _ _ _ Eb) in H.
  destruct (with_leaf_facts s k id bxv) as (_ & _ & _ & Er & Ep & _).
  assert (Hc : numNodes (with_leaf s k id bxv) = numNodes s
               /\ numLeaves (with_leaf s k id bxv) = S (numLeaves s))
    by (unfold with_leaf; destruct k; now cbn).
  destruct Hc as [Hn Hl].
  set (s2 := with_leaf s k id bxv) in *.
  apply bind_Some in H as ([s3 r] & E3 & H). injection H as <-.
  assert (Hf : forall x, numNodes (set_treeS s3 k x) = numNodes s3
                         /\ numLeaves (set_treeS s3 k x) = numLeaves s3)
    by (intros; now destruct k).
  destruct (Hf (mkTreeS (leaves (treeS s3 k)) (count (treeS s3 k) + 1)
                  (Some r) (pooledNodes (treeS s3 k)))) as [-> ->].
  rewrite Er in E3. destruct (root (treeS s k)) as [st|].
  - apply subtreeInsert_counts in E3 as (L3 & N3). rewrite Ep in N3.
    split; [congruence|]. rewrite N3, Hn. now destruct (pooledNodes _).
  - destruct (fuel s2); cbn in E3; injection E3 as <- <-; auto.
Qed.

Lemma removeS_counts s k id s' :
  removeS s k id = Some s' ->
  numNodes s' = numNodes s /\ numLeaves s' = numLeaves s.
Proof.
  unfold removeS. intros H. apply bind_Some in H as (l & _ & H).
  apply bind_Some in H as ([s2 r] & E2 & H).
  apply recycle_counts in H as (N & L).
  apply subtreeRemove_counts in E2 as (N2 & L2).
  destruct k; cbn in *; split; congruence.
Qed.

(** *** Re-insertion of a leaf

    [subtreeRemove] puts the parent of the leaf on the free list and
    [subtreeInsert] takes it back: the leaf hangs below the node it hung
    below before, and nothing is allocated. *)
Lemma reinsert_pool (k : which) (L : ref) (c : ctx) (s : Store)
    (pl : list ref) (s2 : Store) (r : option ref) (s3 : Store) (r' : ref) :
  shape (objs s) None (plug c (TLeaf L)) ->
  sibs_bbok (objs s) c ->
  NoDup (refs (plug c (TLeaf L))) ->
  pool_ok (objs s) (pooledNodes (treeS s k)) pl -> NoDup pl ->
  (forall x, x ∈ pl -> x ∉ refs (plug c (TLeaf L))) ->
  alloc s ->
  subtreeRemove (fuel s) s k (Some (rt (plug c (TLeaf L)))) L = Some (s2, r) ->
  subtreeInsert (fuel s2) s2 k r L = Some (s3, r') ->
  parent_at (objs s3) L (ctx_parent c)
  /\ numNodes s3 = numNodes s /\ numLeaves s3 = numLeaves s.
Proof.
  intros Hsh Hsibs Hnd Hpool Hndp Hdis Hal E2a E3a.
  set (t := plug c (TLeaf L)) in *.
  assert (Hlt : forall x, x ∈ refs t -> (x < nobjs s)%nat).
  { intros x Hx. apply Hal. eapply shape'_is_Some; [apply Hsh|exact Hx]. }
  assert (Hlen : (length (ctx_path c) <= fuel s)%nat).
  { unfold fuel. etrans; [apply ctx_path_length|].
    assert (length (ctx_refs c) <= length (refs t))%nat.
    { unfold t. rewrite refs_plug, length_app. lia. }
    assert (length (refs t) <= nobjs s)%nat; [|lia].
    apply bounded_length; auto. }
  destruct (subtreeRemove_spec k L c s pl (fuel s))
    as (s2' & r0 & E2 & Hrem); auto.
  fold t in E2. rewrite E2a in E2. injection E2 as <- <-.
  pose proof (tdel_refs_perm c L) as Prefs. fold t in Prefs.
  pose proof (tdel_leafs_perm c L) as Pleafs. fold t in Pleafs.
  destruct (shape'_leaf (objs s) t L (proj1 Hsh)) as (oL & HoL & HlL & HidL).
  { rewrite Pleafs. set_solver. }
  destruct (ctx_cases c) as [Ec | (d & N & c' & sib & Ec)].
  - subst c. cbn in Hrem. destruct Hrem as [-> ->].
    unfold fuel in E3a. cbn in E3a. injection E3a as <- <-.
    split; [|auto]. apply shape_plug in Hsh as [[_ Hp] _]. exact Hp.
  - subst c. apply removed_cons in Hrem as [-> Hrem].
    destruct Hrem as (Hs2 & Hb2 & Hp2 & Hfr2 & Hk2 & Hdom2 & Hsi2 & Hnn2).
    rewrite cons_ctx_tdel, removed_pool_cons in Prefs. cbn in Prefs.
    rewrite cons_ctx_tdel in Pleafs. cbn in Pleafs.
    set (t2 := plug c' sib) in *.
    pose proof Hnd as Hnd2. rewrite Prefs in Hnd2.
    apply NoDup_cons in Hnd2 as [HL2 Hnd2].
    apply NoDup_cons in Hnd2 as [HN2 Hnd2].
    rewrite not_elem_of_cons in HL2. destruct HL2 as [HLN HLt2].
    assert (En2 : nobjs s2 = nobjs s).
    { unfold nobjs. destruct Hsi2 as (_ & _ & _ & _ & _ & _ & ->).
      now rewrite Hnn2. }
    assert (Hal2 : alloc s2).
    { apply (alloc_same_dom s s2); auto. lia. }
    assert (Hin2 : forall x, x ∈ refs t2 -> x ∈ refs t).
    { intros x Hx. rewrite Prefs. set_solver. }
    assert (HNt : N ∈ refs t) by (rewrite Prefs; set_solver).
    assert (HLt : L ∈ refs t) by (rewrite Prefs; set_solver).
    destruct (Hk2 L oL HoL HlL) as (oL2 & HoL2 & HlL2 & Eobj2 & _).
    assert (Hh : (height t2 <= fuel s2)%nat).
    { unfold fuel. rewrite En2. etrans; [apply height_le_refs|].
      etrans; [apply (bounded_length _ (nobjs s)); auto|lia]. }
    destruct (subtreeInsert_spec k L oL2 t2 (fuel s2) s2 (N :: pl) None Hh)
      as (s3' & t' & N' & pl2 & E3 & Hpost); auto.
    { now rewrite Eobj2. }
    { constructor; [|exact Hndp]. intros Hc. now apply (Hdis N). }
    { intros x Hx Hc. apply elem_of_cons in Hx as [-> | Hx];
        [contradiction|]. apply (Hdis x Hx). auto. }
    { rewrite not_elem_of_cons. split; [exact HLN|].
      intros Hc. now apply (Hdis L). }
    pose proof E3 as E3'. rewrite E3a in E3'. injection E3' as <- Ert'.
    destruct Hpost as (Htins & Hpl & HNL & Hsh3 & Hp3 & Hbb3 & _ & Hfr3 & Hk3
                         & Hpool3 & Hsi3 & Hal3 & Hn3).
    assert (N' = N /\ pl2 = pl) as [-> ->].
    { destruct Hpl as [E | (E & _)]; [|discriminate].
      injection E as -> ->. auto. }
    split.
    + destruct (tins_ctx _ _ _ _ Htins) as (c0 & p0 & Et2 & Et').
      assert (Hshape : shape (objs s3) None t')
        by (split; [exact Hsh3|destruct t2; exact Hp3]).
      rewrite Et' in Hshape. apply shape_plug in Hshape as [[_ Hp] _].
      rewrite cons_ctx_parent. exact Hp.
    + apply subtreeInsert_counts in E3a as (L3 & N3).
      destruct Hp2 as (Eh & _). rewrite Eh in N3.
      destruct Hsi2 as (_ & _ & _ & _ & _ & _ & Hl2). split; congruence.
Qed.

Lemma updateS_pool s k L c ot' pl pl' s' b :
  inv_k s k (Some (plug c (TLeaf L))) ot' pl pl' ->
  updateS s k L = Some (s', b) ->
  parent_of s' L = parent_of s L
  /\ numNodes s' = numNodes s /\ numLeaves s' = numLeaves s.
Proof.
  intros Hinv HE.
  pose proof Hinv as [Hown Hoth Hpool Hpool' Hnd Hal Hlv Hlv' Hkeys Hshp].
  destruct Hown as (Ert & Hsh & Hbb). cbn [orefs oleafs] in *.
  set (t := plug c (TLeaf L)) in *.
  pose proof Hnd as Hnd4.
  apply NoDup_app4 in Hnd4 as (Hndo & Hndo' & Hndp & Hndp' & D1 & D2 & D3).
  assert (HLl : L ∈ leafs t) by (unfold t; rewrite leafs_plug; set_solver).
  destruct (shape'_leaf (objs s) t L (proj1 Hsh) HLl)
    as (oL & HoL & HlL & _).
  destruct (Hshp L oL) as (id & Hid & [sb Hsb]); [set_solver|exact HoL|].
  unfold updateS in HE. rewrite HoL in HE. cbn [mbind option_bind] in HE.
  rewrite Hid in HE. cbn [mbind option_bind] in HE. rewrite Hsb in HE.
  cbn [mbind option_bind] in HE.
  destruct (containsObj (box oL) sb).
  { injection HE as <- <-. auto. }
  unfold getBB in HE. rewrite Hsb in HE. cbn [mbind option_bind] in HE.
  set (bxv := match velocityFunc s with Some f => f id sb | None => sb end)
    in HE.
  rewrite (update_Some s L _ oL HoL) in HE. cbn [mbind option_bind] in HE.
  set (s1 := set_objs s _) in HE.
  assert (Eo1 : objs s1 = <[L := set_box oL bxv]> (objs s)) by reflexivity.
  assert (Etr1 : forall k', treeS s1 k' = treeS s k') by (now intros []).
  assert (En1 : nobjs s1 = nobjs s) by reflexivity.
  destruct (rebox_leaf s s1 L oL bxv c k pl) as (Hsh1 & Hsib1 & Hpool1); auto.
  { intros x Hx Hc. destruct (D1 x Hc) as (_ & ? & _). contradiction. }
  fold t in Hsh1.
  assert (Hal1 : alloc s1).
  { intros x [o Ho]. rewrite En1. apply Hal. rewrite Eo1 in Ho.
    destruct (decide (x = L)) as [-> | Hx]; [eauto|].
    rewrite lookup_insert_ne in Ho by congruence. eauto. }
  apply bind_Some in HE as ([s2 r] & E2 & HE).
  apply bind_Some in HE as ([s3 r'] & E3 & HE). injection HE as <- <-.
  rewrite Etr1, Ert in E2.
  destruct (reinsert_pool k L c s1 pl s2 r s3 r') as (Hp & Hn & Hl); auto.
  { intros x Hx Hc. destruct (D1 x Hc) as (_ & ? & _). contradiction. }
  split.
  - unfold parent_of.
    destruct (set_root_facts s3 k (Some r')) as (Eo & _). rewrite Eo.
    destruct Hp as (o3 & Ho3 & Hp3). rewrite Ho3, HoL. cbn. rewrite Hp3.
    apply shape_plug in Hsh as [[_ (oL' & HoL' & HpL)] _].
    cbn in HoL'. congruence.
  - assert (Hf : numNodes (set_root s3 k (Some r')) = numNodes s3
                 /\ numLeaves (set_root s3 k (Some r')) = numLeaves s3)
      by (now destruct k).
    destruct Hf as [-> ->]. split; [exact Hn|exact Hl].
Qed.

(** *** The methods *)

Lemma sound_reached w : reached w -> sound w.
Proof. intros H. split; [now apply reached_inv|now apply reached_threads]. Qed.

Lemma in_tree_ctx s k ot ot' pl pl' id leaf :
  inv_k s k ot ot' pl pl' -> leaves (treeS s k) !! id = Some leaf ->
  exists c, ot = Some (plug c (TLeaf leaf)).
Proof.
  intros Hk Hl. pose proof (inv_leaves _ _ _ _ _ _ Hk id leaf Hl) as Hin.
  destruct ot as [t|]; [|cbn in Hin; set_solver].
  destruct (leafs_ctx t leaf Hin) as [c ->]. eauto.
Qed.

Lemma parent_of_ctx s c L :
  shape (objs s) None (plug c (TLeaf L)) -> parent_of s L = ctx_parent c.
Proof.
  intros Hsh. apply shape_plug in Hsh as [[_ (o & Ho & Hp)] _].
  cbn in Ho. unfold parent_of. now rewrite Ho.
Qed.

Lemma removed_pool_parent c pl :
  removed_pool c pl = option_list (ctx_parent c) ++ pl.
Proof. now destruct c. Qed.

(** [clearPairs] puts the pairs of the leaf on the free list. *)
Lemma clearPairs_pooled w k leaf :
  sound w ->
  let t' := clearPairs (threads w) k leaf in
  pair_pool t' k = rev (thread_of (threads w) leaf) ++ pair_pool (threads w) k
  /\ pair_pool t' (other k) = pair_pool (threads w) (other k)
  /\ thread_of t' leaf = []
  /\ numPairs t' = numPairs (threads w).
Proof.
  intros [_ (th & pd & pst & Hok)]. cbn zeta.
  destruct (clearPairs_pool _ _ k leaf _ _ _ Hok)
    as (th' & Hok' & Eth & _ & _ & _ & _ & En).
  rewrite !(pair_pool_ok _ _ _ _ _ _ Hok'), !(pair_pool_ok _ _ _ _ _ _ Hok),
    (thread_of_ok _ _ _ _ _ leaf Hok), (thread_of_ok _ _ _ _ _ leaf Hok').
  split; [now destruct k|]. split; [now destruct k|]. split; [exact Eth|exact En].
Qed.

Lemma remove_pooled w k id leaf :
  sound w -> leaves (treeS (store w) k) !! id = Some leaf ->
  exists w',
    remove w k id = Some w'
    /\ node_pool (store w') k
       = option_list (parent_of (store w) leaf) ++ node_pool (store w) k
    /\ pair_pool (threads w') k
       = rev (thread_of (threads w) leaf) ++ pair_pool (threads w) k
    /\ (forall k', leaf ∉ node_pool (store w') k')
    /\ numNodes (store w') = numNodes (store w)
    /\ numLeaves (store w') = numLeaves (store w)
    /\ numPairs (threads w') = numPairs (threads w).
Proof.
  intros Hs HL. pose proof Hs as [Hinv _].
  destruct (inv_any _ k Hinv) as (ot & ot' & pl & pl' & Hk).
  destruct (in_tree_ctx _ _ _ _ _ _ _ _ Hk HL) as [c ->].
  destruct (removeS_inv _ k id leaf c ot' pl pl' Hk HL)
    as (s' & E & Hk' & _ & Hkept & _).
  pose proof (store_remove w k id) as Est. rewrite E in Est.
  destruct (remove w k id) as [w'|] eqn:Er; [|discriminate].
  cbn in Est. injection Est as Est.
  exists w'. split; [reflexivity|].
  destruct (remove_threads w k id w' Er) as (leaf' & HL' & Et).
  assert (leaf' = leaf) as -> by congruence.
  destruct (clearPairs_pooled w k leaf Hs) as (Ep & _ & _ & En).
  rewrite Est, Et.
  pose proof (inv_own _ _ _ _ _ _ Hk) as (_ & Hsh & _).
  split.
  { rewrite (node_pool_inv _ _ _ _ _ _ Hk'), (node_pool_inv _ _ _ _ _ _ Hk),
      (parent_of_ctx _ _ _ Hsh). apply removed_pool_parent. }
  split; [exact Ep|]. split.
  { intros k' Hc.
    assert (Hn : exists o, objs s' !! leaf = Some o /\ isLeaf o = false).
    { destruct (decide (k' = k)) as [-> | Hne].
      - rewrite (node_pool_inv _ _ _ _ _ _ Hk') in Hc.
        eapply pool_ok_node; [apply (inv_pool _ _ _ _ _ _ Hk')|exact Hc].
      - assert (k' = other k) as -> by (now destruct k, k').
        rewrite (node_pool_inv' _ _ _ _ _ _ Hk') in Hc.
        eapply pool_ok_node; [apply (inv_pool' _ _ _ _ _ _ Hk')|exact Hc]. }
    destruct Hn as (o & Ho & Hl).
    destruct (shape'_leaf (objs (store w)) _ leaf (proj1 Hsh))
      as (oL & HoL & HlL & _).
    { rewrite leafs_plug. set_solver. }
    destruct (Hkept leaf oL HoL HlL) as (o' & Ho' & Hl' & _). congruence. }
  apply removeS_counts in E as (? & ?). auto.
Qed.

Lemma insert_pooled w k id :
  sound w -> is_Some (shapes (store w) !! id) ->
  exists w',
    insert w k id = Some w'
    /\ objs (store w) !! nobjs (store w) = None
    /\ leaves (treeS (store w') k) !! id = Some (nobjs (store w))
    /\ numLeaves (store w') = S (numLeaves (store w))
    /\ match root (treeS (store w) k), node_pool (store w) k with
       | Some _, N :: pl =>
           parent_of (store w') (nobjs (store w)) = Some N
           /\ node_pool (store w') k = pl
           /\ numNodes (store w') = numNodes (store w)
       | Some _, [] =>
           node_pool (store w') k = []
           /\ numNodes (store w') = S (numNodes (store w))
       | None, pl =>
           parent_of (store w') (nobjs (store w)) = None
           /\ node_pool (store w') k = pl
           /\ numNodes (store w') = numNodes (store w)
       end.
Proof.
  intros [Hinv _] Hid.
  destruct (inv_any _ k Hinv) as (ot & ot' & pl & pl' & Hk).
  destruct (insertS_inv _ k id ot ot' pl pl' Hk Hid)
    as (s' & t' & pl2 & E & Hk' & Elv & _ & Hins & _).
  pose proof (store_insert w k id) as Est. rewrite E in Est.
  destruct (insert w k id) as [w'|] eqn:Er; [|discriminate].
  cbn in Est. injection Est as Est.
  exists w'. split; [reflexivity|]. rewrite Est.
  split.
  { destruct (objs (store w) !! nobjs (store w)) eqn:Ho; [|reflexivity].
    pose proof (inv_alloc _ _ _ _ _ _ Hk (nobjs (store w)) (mk_is_Some _ _ Ho)).
    lia. }
  split; [rewrite Elv; apply lookup_insert_eq|].
  apply insertS_counts in E as (El & En). split; [exact El|].
  rewrite (node_pool_inv _ _ _ _ _ _ Hk'), (node_pool_inv _ _ _ _ _ _ Hk).
  pose proof (inv_own _ _ _ _ _ _ Hk) as Hown.
  pose proof (inv_own _ _ _ _ _ _ Hk') as (_ & Hsh' & _).
  pose proof (inv_pool _ _ _ _ _ _ Hk) as Hpool.
  destruct ot as [t|]; cbn in Hown, Hins.
  - destruct Hown as (Ert & _). rewrite Ert in En |- *.
    destruct Hins as (N & Htins & _ & [-> | [-> ->]]).
    + destruct Hpool as (Eh & _). rewrite Eh in En.
      split; [|auto].
      destruct (tins_ctx _ _ _ _ Htins) as (c0 & p0 & _ & Et').
      rewrite Et' in Hsh'. now rewrite (parent_of_ctx _ _ _ Hsh').
    + cbn in Hpool. rewrite Hpool in En. auto.
  - rewrite Hown in En |- *. destruct Hins as [-> ->].
    split; [|auto]. now rewrite (parent_of_ctx s' Top _ Hsh').
Qed.

Lemma update_pooled w k id leaf :
  sound w -> leaves (treeS (store w) k) !! id = Some leaf ->
  exists w' b,
    Leaf_update w k leaf = Some (w', b)
    /\ parent_of (store w') leaf = parent_of (store w) leaf
    /\ node_pool (store w') k = node_pool (store w) k
    /\ numNodes (store w') = numNodes (store w)
    /\ numLeaves (store w') = numLeaves (store w)
    /\ numPairs (threads w') = numPairs (threads w)
    /\ if b
       then pair_pool (threads w') k
            = rev (thread_of (threads w) leaf) ++ pair_pool (threads w) k
       else w' = w.
Proof.
  intros Hs HL. pose proof Hs as [Hinv _].
  destruct (inv_any _ k Hinv) as (ot & ot' & pl & pl' & Hk).
  destruct (in_tree_ctx _ _ _ _ _ _ _ _ Hk HL) as [c ->].
  destruct (updateS_inv _ k leaf c ot' pl pl' Hk)
    as (s' & b & t' & E & Hk' & _).
  pose proof (store_Leaf_update w k leaf) as Est. rewrite E in Est.
  destruct (Leaf_update w k leaf) as [[w' b']|] eqn:Er; [|discriminate].
  cbn in Est. injection Est as Est Eb. subst b'.
  exists w', b. split; [reflexivity|]. rewrite Est.
  destruct (updateS_pool _ _ _ _ _ _ _ _ _ Hk E) as (Hp & Hn & Hl).
  split; [exact Hp|].
  split; [now rewrite (node_pool_inv _ _ _ _ _ _ Hk'),
            (node_pool_inv _ _ _ _ _ _ Hk)|].
  split; [exact Hn|]. split; [exact Hl|].
  pose proof (Leaf_update_threads w k leaf w' b Er) as Ht.
  destruct (clearPairs_pooled w k leaf Hs) as (Ep & _ & _ & En).
  destruct b.
  - rewrite Ht. split; [exact En|]. exact Ep.
  - subst w'. auto.
Qed.

(** [makePair] takes the head of a free list that is not empty. *)
Lemma makePair_pooled w k a na b nb :
  sound w ->
  exists t',
    match pair_pool (threads w) k with
    | q :: pl =>
        makePair (threads w) k a na b nb = (t', q)
        /\ pair_pool t' k = pl /\ numPairs t' = numPairs (threads w)
    | [] =>
        makePair (threads w) k a na b nb = (t', numPairs (threads w))
        /\ pair_pool t' k = []
        /\ numPairs t' = S (numPairs (threads w))
    end.
Proof.
  intros [_ (th & pd & pst & Hok)].
  rewrite (pair_pool_ok _ _ _ _ _ k Hok).
  assert (Hp : ppool (pairs (threads w)) (pooledPairs (treeT (threads w) k))
                 (pool_of k pd pst)).
  { destruct k; [apply (tk_poold _ _ _ _ _ Hok)|apply (tk_pools _ _ _ _ _ Hok)]. }
  assert (Hnd : NoDup (pool_of k pd pst)).
  { pose proof (tk_pool_nodup _ _ _ _ _ Hok) as Hnd.
    apply NoDup_app in Hnd as (? & _ & ?). now destruct k. }
  assert (Hal : forall q, q ∈ pool_of k pd pst ->
                          (q < numPairs (threads w))%nat).
  { intros q Hq. apply (tk_alloc _ _ _ _ _ Hok).
    eapply ppool_allocated; eauto. }
  set (t := threads w) in *. clearbody t.
  destruct (pool_of k pd pst) as [|q pl].
  - cbn in Hp. unfold makePair. rewrite Hp. eexists. split; [reflexivity|].
    split; [|reflexivity]. unfold pair_pool.
    replace (pooledPairs (treeT _ k)) with (@None pref)
      by (destruct k; cbn in *; congruence).
    now destruct (numPairs _).
  - destruct Hp as (Eh & x & Hx & Hp). unfold makePair. rewrite Eh, Hx.
    eexists. split; [reflexivity|]. split; [|now destruct k].
    apply NoDup_cons in Hnd as [Hq Hnd].
    unfold pair_pool.
    replace (pooledPairs (treeT _ k)) with (prevA x) by (now destruct k).
    replace (numPairs _) with (numPairs t) by (now destruct k).
    apply ppool_from_ok.
    + eapply ppool_frame; [exact Hp|]. intros p Hpin.
      replace (pairs _) with (<[q := mkPair None a na None b nb]> (pairs t))
        by (now destruct k).
      apply lookup_insert_ne. intros ->. contradiction.
    + apply bounded_length; [exact Hnd|]. intros p Hpin. apply Hal. set_solver.
Qed.

(** C8, as the code has it, in every state the methods keep sound (all
    those they lead to).  [remove] puts the parent node of the leaf on
    [pooledNodes] and the pairs of the leaf on [pooledPairs] of the tree;
    a leaf that [Leaf.update] re-inserts hangs below the node it hung
    below before, recycled and taken back, and its pairs are on
    [pooledPairs]; [clearPairs] puts the pairs of the leaf's thread on
    [pooledPairs], the last one first; nothing is allocated by these.
    [insert] takes the head of [pooledNodes] for the parent of the new
    leaf and allocates a node only when the list is empty, and [makePair]
    takes the head of [pooledPairs] and allocates a pair only when that
    list is empty.  Leaves are not pooled: [recycle] of a leaf changes
    nothing, the removed leaf is on no free list, and every [insert]
    allocates a new leaf. *)
Theorem pooled_nodes_and_pairs_reused (w : World) (k : which) :
  sound w ->
  (forall id leaf,
     leaves (treeS (store w) k) !! id = Some leaf ->
     exists w',
       remove w k id = Some w'
       /\ node_pool (store w') k
          = option_list (parent_of (store w) leaf) ++ node_pool (store w) k
       /\ pair_pool (threads w') k
          = rev (thread_of (threads w) leaf) ++ pair_pool (threads w) k
       /\ (forall k', leaf ∉ node_pool (store w') k')
       /\ numNodes (store w') = numNodes (store w)
       /\ numLeaves (store w') = numLeaves (store w)
       /\ numPairs (threads w') = numPairs (threads w))
  /\ (forall id leaf,
        leaves (treeS (store w) k) !! id = Some leaf ->
        exists w' b,
          Leaf_update w k leaf = Some (w', b)
          /\ parent_of (store w') leaf = parent_of (store w) leaf
          /\ node_pool (store w') k = node_pool (store w) k
          /\ numNodes (store w') = numNodes (store w)
          /\ numLeaves (store w') = numLeaves (store w)
          /\ numPairs (threads w') = numPairs (threads w)
          /\ if b
             then pair_pool (threads w') k
                  = rev (thread_of (threads w) leaf)
                    ++ pair_pool (threads w) k
             else w' = w)
  /\ (forall leaf,
        let t' := clearPairs (threads w) k leaf in
        pair_pool t' k
        = rev (thread_of (threads w) leaf) ++ pair_pool (threads w) k
        /\ pair_pool t' (other k) = pair_pool (threads w) (other k)
        /\ thread_of t' leaf = []
        /\ numPairs t' = numPairs (threads w))
  /\ (forall id,
        is_Some (shapes (store w) !! id) ->
        exists w',
          insert w k id = Some w'
          /\ objs (store w) !! nobjs (store w) = None
          /\ leaves (treeS (store w') k) !! id = Some (nobjs (store w))
          /\ numLeaves (store w') = S (numLeaves (store w))
          /\ match root (treeS (store w) k), node_pool (store w) k with
             | Some _, N :: pl =>
                 parent_of (store w') (nobjs (store w)) = Some N
                 /\ node_pool (store w') k = pl
                 /\ numNodes (store w') = numNodes (store w)
             | Some _, [] =>
                 node_pool (store w') k = []
                 /\ numNodes (store w') = S (numNodes (store w))
             | None, pl =>
                 parent_of (store w') (nobjs (store w)) = None
                 /\ node_pool (store w') k = pl
                 /\ numNodes (store w') = numNodes (store w)
             end)
  /\ (forall a na b nb,
        exists t',
          match pair_pool (threads w) k with
          | q :: pl =>
              makePair (threads w) k a na b nb = (t', q)
              /\ pair_pool t' k = pl /\ numPairs t' = numPairs (threads w)
          | [] =>
              makePair (threads w) k a na b nb = (t', numPairs (threads w))
              /\ pair_pool t' k = []
              /\ numPairs t' = S (numPairs (threads w))
          end)
  /\ (forall leaf o,
        objs (store w) !! leaf = Some o -> isLeaf o = true ->
        recycle (store w) k leaf = Some (store w)).
Proof.
  intros Hs.
  split; [intros id leaf; now apply remove_pooled|].
  split; [intros id leaf; now apply update_pooled|].
  split; [intros leaf; now apply clearPairs_pooled|].
  split; [intros id; now apply insert_pooled|].
  split; [intros a na b nb; now apply makePair_pooled|].
  intros leaf o Ho Hl. eapply recycle_leaf_noop; eauto.
Qed.

Lemma sample_pool_reached : reached SamplePool.world.
Proof.
  unfold SamplePool.world.
  destruct (do_calls (empty SamplePool.shapes) SamplePool.calls)
    as [w|] eqn:E.
  - cbn. eapply do_calls_reached; [|exact E]. constructor.
  - cbn. constructor.
Qed.

(** The sample state: three shapes were inserted into the dynamic tree and
    the third removed, which left a node and a pair on the free lists. *)
Lemma pooled_nodes_and_pairs_reused_witness :
  let w := SamplePool.world in
  let k := Dynamic in
  (forall id leaf,
     leaves (treeS (store w) k) !! id = Some leaf ->
     exists w',
       remove w k id = Some w'
       /\ node_pool (store w') k
          = option_list (parent_of (store w) leaf) ++ node_pool (store w) k
       /\ pair_pool (threads w') k
          = rev (thread_of (threads w) leaf) ++ pair_pool (threads w) k
       /\ (forall k', leaf ∉ node_pool (store w') k')
       /\ numNodes (store w') = numNodes (store w)
       /\ numLeaves (store w') = numLeaves (store w)
       /\ numPairs (threads w') = numPairs (threads w))
  /\ (forall id leaf,
        leaves (treeS (store w) k) !! id = Some leaf ->
        exists w' b,
          Leaf_update w k leaf = Some (w', b)
          /\ parent_of (store w') leaf = parent_of (store w) leaf
          /\ node_pool (store w') k = node_pool (store w) k
          /\ numNodes (store w') = numNodes (store w)
          /\ numLeaves (store w') = numLeaves (store w)
          /\ numPairs (threads w') = numPairs (threads w)
          /\ if b
             then pair_pool (threads w') k
                  = rev (thread_of (threads w) leaf)
                    ++ pair_pool (threads w) k
             else w' = w)
  /\ (forall leaf,
        let t' := clearPairs (threads w) k leaf in
        pair_pool t' k
        = rev (thread_of (threads w) leaf) ++ pair_pool (threads w) k
        /\ pair_pool t' (other k) = pair_pool (threads w) (other k)
        /\ thread_of t' leaf = []
        /\ numPairs t' = numPairs (threads w))
  /\ (forall id,
        is_Some (shapes (store w) !! id) ->
        exists w',
          insert w k id = Some w'
          /\ objs (store w) !! nobjs (store w) = None
          /\ leaves (treeS (store w') k) !! id = Some (nobjs (store w))
          /\ numLeaves (store w') = S (numLeaves (store w))
          /\ match root (treeS (store w) k), node_pool (store w) k with
             | Some _, N :: pl =>
                 parent_of (store w') (nobjs (store w)) = Some N
                 /\ node_pool (store w') k = pl
                 /\ numNodes (store w') = numNodes (store w)
             | Some _, [] =>
                 node_pool (store w') k = []
                 /\ numNodes (store w') = S (numNodes (store w))
             | None, pl =>
                 parent_of (store w') (nobjs (store w)) = None
                 /\ node_pool (store w') k = pl
                 /\ numNodes (store w') = numNodes (store w)
             end)
  /\ (forall a na b nb,
        exists t',
          match pair_pool (threads w) k with
          | q :: pl =>
              makePair (threads w) k a na b nb = (t', q)
              /\ pair_pool t' k = pl /\ numPairs t' = numPairs (threads w)
          | [] =>
              makePair (threads w) k a na b nb = (t', numPairs (threads w))
              /\ pair_pool t' k = []
              /\ numPairs t' = S (numPairs (threads w))
          end)
  /\ (forall leaf o,
        objs (store w) !! leaf = Some o -> isLeaf o = true ->
        recycle (store w) k leaf = Some (store w)).
Proof.
  intros w k.
  apply (pooled_nodes_and_pairs_reused w k
           (sound_reached w sample_pool_reached)).
Defined.

End PoolingFacts.
